(** * Deferred blocks: trigger micro-syntax and runtime state machine

    A shallow embedding of two source files of the framework:

    - [packages/compiler/src/render3/r3_deferred_triggers.ts]
      (the time parser and the validation of reference based triggers);
    - [packages/core/src/defer/instructions.ts]
      (the runtime of [@defer] blocks: state transitions, timer based
      scheduling, dependency loading and the trigger instructions).

    The numbers that [parseFloat] and the product of [parseDeferredTime]
    produce are IEEE 754 doubles: a finite one is given by the rational that
    it is, and every operation rounds to the nearest double, ties to the even
    significand, with infinity from [2^1024] on. Time stamps and durations of
    the runtime are integers (milliseconds).

    The runtime is modelled for one block instance together with its static
    details: mutable fields become fields of a world that every function
    takes and returns, closures handed to schedulers and promises become
    constructors, and the callbacks run as events of a transition system.
    Hydration, change detection marks and the assertions of the development
    mode have no counterpart. Functions that [instructions.ts] imports from
    files that are not at hand are modelled after the specification and
    marked as such. *)

From Stdlib Require Import ZArith QArith Qround Qabs Qpower Lqa SpecFloat.
From Stdlib Require Import List String Ascii Bool Lia.
Import ListNotations.

(* ===================================================================== *)
(** ** Part I: [parseDeferredTime] and [TIME_PATTERN]                     *)
(* ===================================================================== *)

Module TimeParser.

Local Open Scope string_scope.

(** *** A small regular expression language, with its declarative meaning *)

Inductive regex : Type :=
| RDigit                          (* \d *)
| RChar (c : ascii)               (* a literal character *)
| RSeq (r1 r2 : regex)            (* r1 r2 *)
| RAlt (r1 r2 : regex)            (* r1|r2 *)
| RStar (r : regex)               (* r* *)
| RPlus (r : regex)               (* r+ *)
| ROpt (r : regex).               (* r? *)

(** [\d] of a JavaScript regular expression without the unicode flag: the
    ten ASCII digits. *)
Definition isDigit (c : ascii) : bool :=
  (48 <=? nat_of_ascii c)%nat && (nat_of_ascii c <=? 57)%nat.

(** [matches r s]: the whole of [s] is in the language of [r] (the pattern
    is anchored at both ends by [^] and [$], and has no [m] flag). *)
Inductive matches : regex -> string -> Prop :=
| MDigit c : isDigit c = true -> matches RDigit (String c "")
| MChar c : matches (RChar c) (String c "")
| MSeq r1 r2 s1 s2 : matches r1 s1 -> matches r2 s2 -> matches (RSeq r1 r2) (s1 ++ s2)
| MAltL r1 r2 s : matches r1 s -> matches (RAlt r1 r2) s
| MAltR r1 r2 s : matches r2 s -> matches (RAlt r1 r2) s
| MStar0 r : matches (RStar r) ""
| MStarS r s1 s2 : matches r s1 -> matches (RStar r) s2 -> matches (RStar r) (s1 ++ s2)
| MPlus r s1 s2 : matches r s1 -> matches (RStar r) s2 -> matches (RPlus r) (s1 ++ s2)
| MOpt0 r : matches (ROpt r) ""
| MOpt1 r s : matches r s -> matches (ROpt r) s.

(** [const TIME_PATTERN = /^\d+\.?\d*(ms|s)?$/;] *)
Definition UNITS_GROUP : regex :=
  RAlt (RSeq (RChar "m") (RChar "s")) (RChar "s").

Definition TIME_PATTERN : regex :=
  RSeq (RPlus RDigit)
    (RSeq (ROpt (RChar "."))
       (RSeq (RStar RDigit) (ROpt UNITS_GROUP))).

(** *** The matcher: [value.match(TIME_PATTERN)] *)

(** What the capture group [(ms|s)] holds after a successful match;
    [None] is JavaScript's [undefined] (the group did not take part). *)
Inductive Units : Type := UnitsMs | UnitsS.

(** The longest prefix of digits and what follows it: the greedy [\d*]. *)
Fixpoint takeDigits (s : string) : string * string :=
  match s with
  | String c r =>
      if isDigit c
      then let (d, rest) := takeDigits r in (String c d, rest)
      else ("", s)
  | EmptyString => ("", "")
  end.

(** The greedy [\.?]. *)
Definition takeDot (s : string) : string :=
  match s with
  | String "."%char r => r
  | _ => s
  end.

(** [(ms|s)?$] on what is left of the input. *)
Definition matchUnits (s : string) : option (option Units) :=
  if (s =? "")%string then Some None
  else if (s =? "ms")%string then Some (Some UnitsMs)
  else if (s =? "s")%string then Some (Some UnitsS)
  else None.

(** The result of [String.prototype.match] for this pattern: [None] is
    [null]; otherwise the pair of the whole match (group 0, which is all of
    [value] since the pattern is anchored) and of group 1. *)
Definition matchTimePattern (value : string) : option (string * option Units) :=
  let (d1, r1) := takeDigits value in
  if (d1 =? "")%string then None
  else
    let (_, r3) := takeDigits (takeDot r1) in
    match matchUnits r3 with
    | Some units => Some (value, units)
    | None => None
    end.

(** *** [parseFloat] *)

Definition digitValue (c : ascii) : Z := Z.of_nat (nat_of_ascii c) - 48.

(** The number that a string of digits denotes, with [acc] the value of the
    digits already read. *)
Fixpoint digitsValue (acc : Z) (s : string) : Z :=
  match s with
  | String c r => digitsValue (10 * acc + digitValue c) r
  | EmptyString => acc
  end.

(** Ten to the number of characters of [s]. *)
Fixpoint pow10 (s : string) : positive :=
  match s with
  | String _ r => (10 * pow10 r)%positive
  | EmptyString => 1%positive
  end.

(** The value of the decimal literal [ip.fp]. *)
Definition decimalValue (ip fp : string) : Q :=
  inject_Z (digitsValue 0 ip) + (digitsValue 0 fp # pow10 fp).

(** *** The Number type *)

(** A value of the Number type, an IEEE 754 double: [NaN], an infinity, or a
    finite value, which is given by the rational number that it is. The two
    zeros are one value here: the sign of a zero is not kept. *)
Inductive JsNumber : Type :=
| NaN
| Infinity (negative : bool)
| Num (q : Q).

(** The exponent [e] of the doubles around a positive [v]: the one with
    [2^52 <= v / 2^e < 2^53], and -1074, the exponent of the denormalised
    numbers, when that one is lower. The logarithms give it up to one. *)
Definition exponentOf (v : Q) : Z :=
  let e0 := (Z.log2 (Qnum v) - Z.log2 (Zpos (Qden v)) - 52)%Z in
  let e1 := if Qle_bool (2 ^ 52) (v * 2 ^ (- e0)) then e0 else (e0 - 1)%Z in
  Z.max (-1074) e1.

(** The integer nearest to [t]; of two that are equally near, the even one. *)
Definition roundHalfEven (t : Q) : Z :=
  let q := Qfloor t in
  match Qcompare (t - inject_Z q) (1 # 2) with
  | Lt => q
  | Gt => (q + 1)%Z
  | Eq => if Z.even q then q else (q + 1)%Z
  end.

(** The double for a positive real: the multiple of [2^e] nearest to it, and
    infinity when that is [2^1024] or more. *)
Definition roundPositive (v : Q) : JsNumber :=
  let e := exponentOf v in
  let y := (inject_Z (roundHalfEven (v * 2 ^ (- e))) * 2 ^ e)%Q in
  if Qle_bool (2 ^ 1024) y then Infinity false else Num (Qred y).

Definition jsNeg (x : JsNumber) : JsNumber :=
  match x with
  | NaN => NaN
  | Infinity negative => Infinity (negb negative)
  | Num q => Num (Qred (- q))
  end.

(** The Number value for a real number: how the result of every operation
    on doubles is rounded. *)
Definition toNumber (v : Q) : JsNumber :=
  match Qcompare v 0 with
  | Eq => Num 0
  | Gt => roundPositive v
  | Lt => jsNeg (roundPositive (- v))
  end.

(** [a * b] on numbers: the exact product of two finite values is rounded;
    an infinity times zero is [NaN]. *)
Definition jsMul (a b : JsNumber) : JsNumber :=
  match a, b with
  | NaN, _ | _, NaN => NaN
  | Num x, Num y => toNumber (x * y)
  | Infinity s, Num y | Num y, Infinity s =>
      match Qcompare y 0 with
      | Eq => NaN
      | Gt => Infinity s
      | Lt => Infinity (negb s)
      end
  | Infinity s, Infinity s' => Infinity (xorb s s')
  end.

(** [parseFloat(s)]: the Number value for the longest prefix of [s] that is
    a decimal literal, [NaN] when there is none. Only the unsigned literals
    without exponent are covered ([digits], [digits.], [digits.digits],
    [.digits]): a string that [TIME_PATTERN] accepts starts with a digit and
    contains no sign, exponent or white space. The exact value of the literal
    is rounded, as the engines do; the standard lets an engine drop the digits
    after the twentieth significant one. *)
Definition parseFloat (s : string) : JsNumber :=
  let (ip, r1) := takeDigits s in
  match r1 with
  | String "."%char r =>
      let (fp, _) := takeDigits r in
      if ((ip =? "") && (fp =? ""))%string then NaN
      else toNumber (decimalValue ip fp)
  | _ => if (ip =? "")%string then NaN else toNumber (decimalValue ip "")
  end.

(** *** [parseDeferredTime] *)

(** [[
export function parseDeferredTime(value: string): number | null {
  const match = value.match(TIME_PATTERN);
  if (!match) { return null; }
  const [time, units] = match;
  return parseFloat(time) * (units === 's' ? 1000 : 1);
}
]] *)
Definition parseDeferredTime (value : string) : option JsNumber :=
  match matchTimePattern value with
  | None => None
  | Some (time, units) =>
      Some (jsMul (parseFloat time)
              (Num (match units with Some UnitsS => 1000 | _ => 1 end)))
  end.

(** A numeric literal as the pattern reads it: one or more digits, then
    optionally a dot and any number of digits. *)
Definition allDigits (s : string) : Prop :=
  forall c, In c (list_ascii_of_string s) -> isDigit c = true.

Inductive NumericLiteral : string -> string -> string -> Prop :=
| NumInt ip : allDigits ip -> ip <> "" -> NumericLiteral ip ip ""
| NumDot ip fp : allDigits ip -> ip <> "" -> allDigits fp ->
    NumericLiteral (ip ++ "." ++ fp) ip fp.

(** *** Vocabulary of the statements *)

(** The string is empty or starts with a character that is not a digit. *)
Definition headNotDigit (s : string) : Prop :=
  match s with
  | String c _ => isDigit c = false
  | EmptyString => True
  end.

(** The three forms of the optional suffix. *)
Definition unitsText (u : option Units) : string :=
  match u with
  | None => ""
  | Some UnitsMs => "ms"
  | Some UnitsS => "s"
  end.

(** The factor that the suffix selects. *)
Definition unitsFactor (u : option Units) : Q :=
  match u with
  | Some UnitsS => 1000
  | _ => 1
  end.

(** *** The Number value for a real number, in the words of the standard *)

(** The finite values of the Number type are the [m * 2^e] with an integer
    [m] and [e] from -1074 to 971, normalised ([2^52 <= |m| < 2^53]) or
    denormalised ([|m| < 2^52] and [e = -1074]); [m] is the significand. *)
Definition significand (y : Q) (m : Z) : Prop :=
  exists e : Z,
    ((2 ^ 52 <= Z.abs m < 2 ^ 53 /\ -1074 <= e <= 971)
     \/ (Z.abs m < 2 ^ 52 /\ e = -1074))%Z
    /\ (y == inject_Z m * 2 ^ e)%Q.

Definition isDouble (y : Q) : Prop := exists m, significand y m.

(** The set from which the value is chosen: the finite values, and the two
    values [2^1024] and [-2^1024], which are not of the type. *)
Definition candidate (y : Q) : Prop := isDouble y \/ (Qabs y == 2 ^ 1024)%Q.

(** The two added values count as having even significands. *)
Definition evenSignificand (y : Q) : Prop :=
  (exists m, significand y m /\ Z.even m = true) \/ (Qabs y == 2 ^ 1024)%Q.

(** A member of the set that is closest to [v]. *)
Definition closest (v y : Q) : Prop :=
  candidate y /\ forall z, candidate z -> (Qabs (y - v) <= Qabs (z - v))%Q.

(** The member that is chosen: when two are equally close, the one with an
    even significand. *)
Definition chosen (v y : Q) : Prop :=
  closest v y /\ forall z, closest v z -> ~ (z == y)%Q -> evenSignificand y.

(** The number that stands for the chosen member: the infinities replace
    [2^1024] and [-2^1024]. *)
Definition denotes (x : JsNumber) (y : Q) : Prop :=
  match x with
  | NaN => False
  | Infinity negative => (y == (if negative then - 2 ^ 1024 else 2 ^ 1024))%Q
  | Num q => (q == y)%Q /\ ~ (Qabs y == 2 ^ 1024)%Q
  end.

(** [x] is the Number value for the real number [v]. *)
Definition numberValueFor (v : Q) (x : JsNumber) : Prop :=
  exists y, chosen v y /\ denotes x y.

(** The same number: the finite values are rationals, which have more than
    one notation. *)
Definition sameNumber (x x' : JsNumber) : Prop :=
  match x, x' with
  | NaN, NaN => True
  | Infinity s, Infinity s' => s = s'
  | Num q, Num q' => q == q'
  | _, _ => False
  end.

(** A double of the Standard Library's model of IEEE 754, as a number. *)
Definition fromSpecFloat (f : spec_float) : JsNumber :=
  match f with
  | S754_zero _ => Num 0
  | S754_infinity s => Infinity s
  | S754_nan => NaN
  | S754_finite s m e =>
      Num (Qred (inject_Z (if s then Z.neg m else Z.pos m) * 2 ^ e))
  end.

(** A one followed by [n] zeros. *)
Definition oneAndZeros (n : nat) : string :=
  String "1"%char (string_of_list_ascii (repeat "0"%char n)).

End TimeParser.

(* ===================================================================== *)
(** ** Part II: the triggers of the [on] micro-syntax                     *)
(* ===================================================================== *)

Module Triggers.
Import TimeParser.
Local Open Scope Z_scope.
Local Open Scope string_scope.

(** A JavaScript exception of class [Error] that a function throws, or the
    value that it returns. *)
Inductive Result (A : Type) : Type :=
| Ok (a : A)
| Throw (message : string).
Arguments Ok {A} a.
Arguments Throw {A} message.

(** Source locations are kept as absolute offsets; [moveBy] adds. The classes
    [ParseLocation], [ParseSourceSpan] and [ParseError] belong to
    [parse_util], which is not part of the files at hand. *)
Definition ParseLocation : Type := Z.
Definition moveBy (l : ParseLocation) (delta : Z) : ParseLocation := (l + delta)%Z.

Record ParseSourceSpan : Type := mkSpan {
  spanStart : ParseLocation;
  spanEnd : ParseLocation
}.

Record ParseError : Type := mkParseError {
  errorSpan : ParseSourceSpan;
  errorMsg : string
}.

(** [enum OnTriggerType] *)
Inductive OnTriggerType : Type :=
| IDLE | TIMER | INTERACTION | IMMEDIATE | HOVER | VIEWPORT.

Definition typeName (type : OnTriggerType) : string :=
  match type with
  | IDLE => "idle"
  | TIMER => "timer"
  | INTERACTION => "interaction"
  | IMMEDIATE => "immediate"
  | HOVER => "hover"
  | VIEWPORT => "viewport"
  end.

(** The nodes of the template AST ([r3_ast]), by class; the test
    [instanceof t.Element] only looks at the class. *)
Inductive Node : Type :=
| Element (name : string)
| Template (tagName : string)
| Content (selector : string)
| Text (value : string)
| BoundText (value : string)
| Comment (value : string)
| DeferredBlockNode
| IfBlockNode
| ForLoopBlockNode
| SwitchBlockNode
| LetDeclarationNode (name : string).

Definition instanceofElement (n : Node) : bool :=
  match n with
  | Element _ => true
  | _ => false
  end.

(** [t.DeferredBlockPlaceholder] *)
Record DeferredBlockPlaceholder : Type := mkPlaceholder {
  children : list Node;
  minimumTime : option JsNumber
}.

(** The trigger classes of [r3_ast]. Every one carries its four spans. *)
Record TriggerSpans : Type := mkSpans {
  nameSpan : ParseSourceSpan;
  sourceSpan : ParseSourceSpan;
  prefetchSpan : option ParseSourceSpan;
  onSourceSpan : option ParseSourceSpan
}.

Inductive DeferredTrigger : Type :=
| IdleDeferredTrigger (spans : TriggerSpans)
| ImmediateDeferredTrigger (spans : TriggerSpans)
| TimerDeferredTrigger (delay : JsNumber) (spans : TriggerSpans)
| HoverDeferredTrigger (reference : option string) (spans : TriggerSpans)
| InteractionDeferredTrigger (reference : option string) (spans : TriggerSpans)
| ViewportDeferredTrigger (reference : option string) (spans : TriggerSpans).

Definition triggerSpans (t : DeferredTrigger) : TriggerSpans :=
  match t with
  | IdleDeferredTrigger s | ImmediateDeferredTrigger s | TimerDeferredTrigger _ s
  | HoverDeferredTrigger _ s | InteractionDeferredTrigger _ s
  | ViewportDeferredTrigger _ s => s
  end.

(** The double quote that the messages put around the trigger name. *)
Definition quoted (s : string) : string :=
  String "034"%char (s ++ String "034"%char "").

(** [[
function validateReferenceBasedTrigger(type, parameters, placeholder) {
  if (parameters.length > 1) {
    throw new Error(`"${type}" trigger can only have zero or one parameters`);
  }
  if (parameters.length === 0) {
    if (placeholder === null) { throw new Error(...); }
    if (placeholder.children.length !== 1 ||
        !(placeholder.children[0] instanceof t.Element)) { throw new Error(...); }
  }
}
]] *)
Definition validateReferenceBasedTrigger (type : OnTriggerType)
    (parameters : list string) (placeholder : option DeferredBlockPlaceholder)
    : Result unit :=
  if (1 <? List.length parameters)%nat then
    Throw (quoted (typeName type) ++ " trigger can only have zero or one parameters")
  else if (List.length parameters =? 0)%nat then
    match placeholder with
    | None =>
        Throw (quoted (typeName type) ++
               " trigger with no parameters can only be placed on an @defer that has a @placeholder block")
    | Some ph =>
        if negb (List.length (children ph) =? 1)%nat
           || negb (match children ph with c :: _ => instanceofElement c | [] => false end)
        then
          Throw (quoted (typeName type) ++
                 " trigger with no parameters can only be placed on an @defer that has a " ++
                 "@placeholder block with exactly one root element node")
        else Ok tt
    end
  else Ok tt.

(** [parameters[0] ?? null] *)
Definition firstOrNull (parameters : list string) : option string :=
  nth_error parameters 0.

Definition createIdleTrigger (parameters : list string) (spans : TriggerSpans)
    : Result DeferredTrigger :=
  if (0 <? List.length parameters)%nat
  then Throw (quoted (typeName IDLE) ++ " trigger cannot have parameters")
  else Ok (IdleDeferredTrigger spans).

Definition createTimerTrigger (parameters : list string) (spans : TriggerSpans)
    : Result DeferredTrigger :=
  match parameters with
  | [p] =>
      match parseDeferredTime p with
      | None => Throw ("Could not parse time value of trigger " ++ quoted (typeName TIMER))
      | Some delay => Ok (TimerDeferredTrigger delay spans)
      end
  | _ => Throw (quoted (typeName TIMER) ++ " trigger must have exactly one parameter")
  end.

Definition createImmediateTrigger (parameters : list string) (spans : TriggerSpans)
    : Result DeferredTrigger :=
  if (0 <? List.length parameters)%nat
  then Throw (quoted (typeName IMMEDIATE) ++ " trigger cannot have parameters")
  else Ok (ImmediateDeferredTrigger spans).

Definition createHoverTrigger (parameters : list string) (spans : TriggerSpans)
    (placeholder : option DeferredBlockPlaceholder) : Result DeferredTrigger :=
  match validateReferenceBasedTrigger HOVER parameters placeholder with
  | Throw m => Throw m
  | Ok _ => Ok (HoverDeferredTrigger (firstOrNull parameters) spans)
  end.

Definition createInteractionTrigger (parameters : list string) (spans : TriggerSpans)
    (placeholder : option DeferredBlockPlaceholder) : Result DeferredTrigger :=
  match validateReferenceBasedTrigger INTERACTION parameters placeholder with
  | Throw m => Throw m
  | Ok _ => Ok (InteractionDeferredTrigger (firstOrNull parameters) spans)
  end.

Definition createViewportTrigger (parameters : list string) (spans : TriggerSpans)
    (placeholder : option DeferredBlockPlaceholder) : Result DeferredTrigger :=
  match validateReferenceBasedTrigger VIEWPORT parameters placeholder with
  | Throw m => Throw m
  | Ok _ => Ok (ViewportDeferredTrigger (firstOrNull parameters) spans)
  end.

(** [t.DeferredBlockTriggers]: an object with one optional field per kind. *)
Record DeferredBlockTriggers : Type := mkTriggers {
  when : option DeferredTrigger;
  idle : option DeferredTrigger;
  immediate : option DeferredTrigger;
  hover : option DeferredTrigger;
  timer : option DeferredTrigger;
  interaction : option DeferredTrigger;
  viewport : option DeferredTrigger
}.

Definition noTriggers : DeferredBlockTriggers :=
  mkTriggers None None None None None None None.

Definition getTrigger (type : OnTriggerType) (ts : DeferredBlockTriggers)
    : option DeferredTrigger :=
  match type with
  | IDLE => idle ts
  | TIMER => timer ts
  | INTERACTION => interaction ts
  | IMMEDIATE => immediate ts
  | HOVER => hover ts
  | VIEWPORT => viewport ts
  end.

Definition setTrigger (type : OnTriggerType) (ts : DeferredBlockTriggers)
    (t : DeferredTrigger) : DeferredBlockTriggers :=
  match type with
  | IDLE => mkTriggers (when ts) (Some t) (immediate ts) (hover ts) (timer ts) (interaction ts) (viewport ts)
  | TIMER => mkTriggers (when ts) (idle ts) (immediate ts) (hover ts) (Some t) (interaction ts) (viewport ts)
  | INTERACTION => mkTriggers (when ts) (idle ts) (immediate ts) (hover ts) (timer ts) (Some t) (viewport ts)
  | IMMEDIATE => mkTriggers (when ts) (idle ts) (Some t) (hover ts) (timer ts) (interaction ts) (viewport ts)
  | HOVER => mkTriggers (when ts) (idle ts) (immediate ts) (Some t) (timer ts) (interaction ts) (viewport ts)
  | VIEWPORT => mkTriggers (when ts) (idle ts) (immediate ts) (hover ts) (timer ts) (interaction ts) (Some t)
  end.

(** [[
function trackTrigger(name, allTriggers, errors, trigger) {
  if (allTriggers[name]) {
    errors.push(new ParseError(trigger.sourceSpan, `Duplicate "${name}" trigger is not allowed`));
  } else {
    allTriggers[name] = trigger as any;
  }
}
]] *)
Definition trackTrigger (name : OnTriggerType) (allTriggers : DeferredBlockTriggers)
    (errors : list ParseError) (trigger : DeferredTrigger)
    : DeferredBlockTriggers * list ParseError :=
  match getTrigger name allTriggers with
  | Some _ =>
      (allTriggers,
       (errors ++ [mkParseError (sourceSpan (triggerSpans trigger))
                     ("Duplicate " ++ quoted (typeName name) ++ " trigger is not allowed")])%list)
  | None => (setTrigger name allTriggers trigger, errors)
  end.

(** A token of the expression lexer, as far as [consumeTrigger] reads it. *)
Record Token : Type := mkToken {
  tokIndex : Z;
  tokEnd : Z;
  strValue : string
}.

(** The fields of [class OnTriggerParser]. *)
Record OnTriggerParser : Type := mkParser {
  start : Z;
  span : ParseSourceSpan;
  triggers : DeferredBlockTriggers;
  errors : list ParseError;
  placeholder : option DeferredBlockPlaceholder;
  parserPrefetchSpan : option ParseSourceSpan;
  parserOnSourceSpan : ParseSourceSpan;
  index : nat;
  tokens : list Token
}.

Definition setTracked (p : OnTriggerParser)
    (r : DeferredBlockTriggers * list ParseError) : OnTriggerParser :=
  mkParser (start p) (span p) (fst r) (snd r) (placeholder p)
    (parserPrefetchSpan p) (parserOnSourceSpan p) (index p) (tokens p).

Definition emptyToken : Token := mkToken 0 0 "".

(** [this.tokens[Math.min(this.index, this.tokens.length - 1)]] *)
Definition token (p : OnTriggerParser) : Token :=
  nth (Nat.min (index p) (List.length (tokens p) - 1)) (tokens p) emptyToken.

(** [private error(token, message)] *)
Definition error (p : OnTriggerParser) (tok : Token) (message : string)
    : OnTriggerParser :=
  let newStart := moveBy (spanStart (span p)) (start p + tokIndex tok) in
  let newEnd := moveBy newStart (tokEnd tok - tokIndex tok) in
  setTracked p (triggers p, (errors p ++ [mkParseError (mkSpan newStart newEnd) message])%list).

(** The keyword that an identifier spells, if any. *)
Definition triggerTypeOf (name : string) : option OnTriggerType :=
  if name =? "idle" then Some IDLE
  else if name =? "timer" then Some TIMER
  else if name =? "interaction" then Some INTERACTION
  else if name =? "immediate" then Some IMMEDIATE
  else if name =? "hover" then Some HOVER
  else if name =? "viewport" then Some VIEWPORT
  else None.

(** The [switch] of [consumeTrigger]: which factory is called, with which
    spans. Only [idle] gets the spans of the first trigger; the others get the
    parser's own prefetch and [on] spans. *)
Definition createTrigger (p : OnTriggerParser) (type : OnTriggerType)
    (parameters : list string) (nameSp sourceSp : ParseSourceSpan)
    (prefetchSourceSpan onSourceSp : option ParseSourceSpan)
    : Result DeferredTrigger :=
  let own := mkSpans nameSp sourceSp (parserPrefetchSpan p) (Some (parserOnSourceSpan p)) in
  match type with
  | IDLE => createIdleTrigger parameters (mkSpans nameSp sourceSp prefetchSourceSpan onSourceSp)
  | TIMER => createTimerTrigger parameters own
  | INTERACTION => createInteractionTrigger parameters own (placeholder p)
  | IMMEDIATE => createImmediateTrigger parameters own
  | HOVER => createHoverTrigger parameters own (placeholder p)
  | VIEWPORT => createViewportTrigger parameters own (placeholder p)
  end.

(** [private consumeTrigger(identifier: Token, parameters: string[])] *)
Definition consumeTrigger (p : OnTriggerParser) (identifier : Token)
    (parameters : list string) : OnTriggerParser :=
  let triggerNameStartSpan :=
    moveBy (spanStart (span p))
      (start p + tokIndex identifier - tokIndex (nth 0 (tokens p) emptyToken)) in
  let nameSp :=
    mkSpan triggerNameStartSpan
      (moveBy triggerNameStartSpan (Z.of_nat (String.length (strValue identifier)))) in
  let endSpan := moveBy triggerNameStartSpan (tokEnd (token p) - tokIndex identifier) in
  let isFirstTrigger := (tokIndex identifier =? 0)%Z in
  let onSourceSp := if isFirstTrigger then Some (parserOnSourceSpan p) else None in
  let prefetchSourceSpan := if isFirstTrigger then parserPrefetchSpan p else None in
  let sourceSp :=
    mkSpan (if isFirstTrigger then spanStart (span p) else triggerNameStartSpan) endSpan in
  match triggerTypeOf (strValue identifier) with
  | Some type =>
      match createTrigger p type parameters nameSp sourceSp prefetchSourceSpan onSourceSp with
      | Ok trigger => setTracked p (trackTrigger type (triggers p) (errors p) trigger)
      | Throw message => error p identifier message
      end
  | None =>
      error p identifier ("Unrecognized trigger type " ++ quoted (strValue identifier))
  end.

(** The three kinds whose parameter names an element of the template. *)
Definition referenceBased (type : OnTriggerType) : bool :=
  match type with
  | HOVER | INTERACTION | VIEWPORT => true
  | _ => false
  end.

(** The reference a trigger holds ([None] for the kinds without one). *)
Definition reference (t : DeferredTrigger) : option string :=
  match t with
  | HoverDeferredTrigger r _ | InteractionDeferredTrigger r _
  | ViewportDeferredTrigger r _ => r
  | _ => None
  end.

(** The kind of a trigger object. *)
Definition kindOf (t : DeferredTrigger) : OnTriggerType :=
  match t with
  | IdleDeferredTrigger _ => IDLE
  | ImmediateDeferredTrigger _ => IMMEDIATE
  | TimerDeferredTrigger _ _ => TIMER
  | HoverDeferredTrigger _ _ => HOVER
  | InteractionDeferredTrigger _ _ => INTERACTION
  | ViewportDeferredTrigger _ _ => VIEWPORT
  end.

(** A placeholder whose children are exactly one root element. *)
Definition singleRootElement (placeholder : option DeferredBlockPlaceholder) : bool :=
  match placeholder with
  | Some ph =>
      match children ph with
      | [Element _] => true
      | _ => false
      end
  | None => false
  end.

(** *** Vocabulary of the statements *)


(** The message of the first check of [validateReferenceBasedTrigger]. *)
Definition tooManyParameters (type : OnTriggerType) : string :=
  quoted (typeName type) ++ " trigger can only have zero or one parameters".

(** The parser on [on hover(a,b)], in a block whose placeholder is one
    [div]. *)
Definition hoverParser : OnTriggerParser :=
  mkParser 3 (mkSpan 0 13) noTriggers []
    (Some (mkPlaceholder [Element "div"] None)) None (mkSpan 0 2) 0%nat
    [mkToken 0 5 "hover"; mkToken 5 6 "("; mkToken 6 7 "a"; mkToken 7 8 ",";
     mkToken 8 9 "b"; mkToken 9 10 ")"].

(** *** The start of the parameters *)

(** [SEPARATOR_PATTERN = /^\s$/], tested on one character. A string is the
    sequence of its code units, which are taken below 256; the white space of
    [\s] among them is 9 to 13, 32 and 160. *)
Definition SEPARATOR_PATTERN (c : ascii) : bool :=
  let n := nat_of_ascii c in
  ((9 <=? n) && (n <=? 13) || (n =? 32) || (n =? 160))%nat.

(** The loop of [getTriggerParametersStart], at position [i] with the
    characters from there on. *)
Fixpoint getTriggerParametersStartFrom (rest : string) (i : nat)
    (hasFoundSeparator : bool) : Z :=
  match rest with
  | EmptyString => -1
  | String c rest' =>
      if SEPARATOR_PATTERN c then getTriggerParametersStartFrom rest' (S i) true
      else if hasFoundSeparator then Z.of_nat i
      else getTriggerParametersStartFrom rest' (S i) hasFoundSeparator
  end.

(** The characters of [value] from position [n] on. *)
Fixpoint charsFrom (n : nat) (value : string) : string :=
  match n, value with
  | O, _ => value
  | S n', String _ rest => charsFrom n' rest
  | S _, EmptyString => EmptyString
  end.

(** [[
export function getTriggerParametersStart(value: string, startPosition = 0): number {
  let hasFoundSeparator = false;
  for (let i = startPosition; i < value.length; i++) {
    if (SEPARATOR_PATTERN.test(value[i])) { hasFoundSeparator = true; }
    else if (hasFoundSeparator) { return i; }
  }
  return -1;
}
]] *)
Definition getTriggerParametersStart (value : string) (startPosition : nat) : Z :=
  getTriggerParametersStartFrom (charsFrom startPosition value) startPosition false.

(** *** The loops of the parser *)

(** What the parser asks of a token. The lexer is not part of the files at
    hand, so its answers are taken as given: [token.isIdentifier()],
    [token.isCharacter(code)], [token.type === TokenType.Character],
    [token.numValue], and the text that a template literal makes of the
    token. *)
Class TokenQueries : Type := {
  isIdentifier : Token -> bool;
  isCharacter : Token -> Z -> bool;
  isCharacterType : Token -> bool;
  numValue : Token -> Z;
  toString : Token -> string
}.

(** The character codes that the parser names through [chars] (which is not
    part of the files at hand): those of ASCII. *)
Definition dLPAREN : Z := 40.
Definition dRPAREN : Z := 41.
Definition dCOMMA : Z := 44.
Definition dLBRACKET : Z := 91.
Definition dRBRACKET : Z := 93.
Definition dLBRACE : Z := 123.
Definition dRBRACE : Z := 125.

(** [COMMA_DELIMITED_SYNTAX.get(code)]; [None] where [has(code)] is false. *)
Definition COMMA_DELIMITED_SYNTAX (code : Z) : option Z :=
  if (code =? dLBRACE)%Z then Some dRBRACE
  else if (code =? dLBRACKET)%Z then Some dRBRACKET
  else if (code =? dLPAREN)%Z then Some dRPAREN
  else None.

(** [String.prototype.slice(from, to)] *)
Definition slice (s : string) (from to : Z) : string :=
  let len := Z.of_nat (String.length s) in
  let clamp (i : Z) := if (i <? 0)%Z then Z.max (len + i) 0 else Z.min i len in
  substring (Z.to_nat (clamp from)) (Z.to_nat (clamp to - clamp from)) s.

(** [private advance() { this.index++; }] *)
Definition advance (p : OnTriggerParser) : OnTriggerParser :=
  mkParser (start p) (span p) (triggers p) (errors p) (placeholder p)
    (parserPrefetchSpan p) (parserOnSourceSpan p) (S (index p)) (tokens p).

(** [this.tokens[i]], for an index within the array. *)
Definition tokenAt (p : OnTriggerParser) (i : nat) : Token := nth i (tokens p) emptyToken.

Section Parser.
Context {queries : TokenQueries}.

(** The expression that was handed to the constructor. *)
Variable expression : string.

(** [[
private isFollowedByOrLast(char: number): boolean {
  if (this.index === this.tokens.length - 1) { return true; }
  return this.tokens[this.index + 1].isCharacter(char);
}
]] *)
Definition isFollowedByOrLast (p : OnTriggerParser) (char : Z) : bool :=
  if (Z.of_nat (index p) =? Z.of_nat (List.length (tokens p)) - 1)%Z then true
  else isCharacter (tokenAt p (index p + 1)) char.

(** [[
private tokenText(): string {
  return this.expression.slice(this.start + this.token().index, this.start + this.token().end);
}
]] *)
Definition tokenText (p : OnTriggerParser) : string :=
  slice expression (start p + tokIndex (token p)) (start p + tokEnd (token p)).

(** [private unexpectedToken(token)] *)
Definition unexpectedToken (p : OnTriggerParser) (tok : Token) : OnTriggerParser :=
  error p tok ("Unexpected token " ++ quoted (toString tok)).

(** The [while] loop of [consumeParameters]. The stack has its top first.
    The result is the parser, the parameters and the stack when the loop is
    left, by [break] or because the tokens are used up. *)
Fixpoint consumeParametersLoop (fuel : nat) (p : OnTriggerParser)
    (parameters : list string) (commaDelimStack : list Z) (current : string)
    : OnTriggerParser * list string * list Z :=
  match fuel with
  | O => (p, parameters, commaDelimStack)
  | S fuel' =>
      if (index p <? List.length (tokens p))%nat then
        let tok := token p in
        if isCharacter tok dRPAREN
           && match commaDelimStack with [] => true | _ => false end
        then
          (p,
           if (0 <? String.length current)%nat then (parameters ++ [current])%list
           else parameters,
           commaDelimStack)
        else
          let pushed :=
            if isCharacterType tok then
              match COMMA_DELIMITED_SYNTAX (numValue tok) with
              | Some closing => closing :: commaDelimStack
              | None => commaDelimStack
              end
            else commaDelimStack in
          let popped :=
            match pushed with
            | top :: below => if isCharacter tok top then below else pushed
            | [] => pushed
            end in
          if match popped with [] => true | _ => false end
             && isCharacter tok dCOMMA && (0 <? String.length current)%nat
          then consumeParametersLoop fuel' (advance p) (parameters ++ [current])%list popped ""
          else consumeParametersLoop fuel' (advance p) parameters popped
                 (current ++ tokenText p)
      else (p, parameters, commaDelimStack)
  end.

(** The loop with as many turns as there are tokens left: every turn moves
    the index on. *)
Definition consumeParametersWhile (p : OnTriggerParser)
    : list string -> list Z -> string -> OnTriggerParser * list string * list Z :=
  consumeParametersLoop (List.length (tokens p) - index p) p.

(** [private consumeParameters(): string[]] *)
Definition consumeParameters (p : OnTriggerParser) : OnTriggerParser * list string :=
  if negb (isCharacter (token p) dLPAREN) then (unexpectedToken p (token p), [])
  else
    let p1 := advance p in
    let '(p2, parameters, commaDelimStack) := consumeParametersWhile p1 [] [] "" in
    let p3 :=
      if negb (isCharacter (token p2) dRPAREN)
         || match commaDelimStack with [] => false | _ => true end
      then error p2 (token p2) "Unexpected end of expression"
      else p2 in
    let p4 :=
      if (Z.of_nat (index p3) <? Z.of_nat (List.length (tokens p3)) - 1)%Z
         && negb (isCharacter (tokenAt p3 (index p3 + 1)) dCOMMA)
      then unexpectedToken p3 (tokenAt p3 (index p3 + 1))
      else p3 in
    (p4, parameters).

(** The [while] loop of [parse]. *)
Fixpoint parseLoop (fuel : nat) (p : OnTriggerParser) : OnTriggerParser :=
  match fuel with
  | O => p
  | S fuel' =>
      if (0 <? List.length (tokens p))%nat && (index p <? List.length (tokens p))%nat then
        let tok := token p in
        if negb (isIdentifier tok) then unexpectedToken p tok
        else if isFollowedByOrLast p dCOMMA then
          parseLoop fuel' (advance (advance (consumeTrigger p tok [])))
        else if isFollowedByOrLast p dLPAREN then
          let p1 := advance p in
          let prevErrors := List.length (errors p1) in
          let (p2, parameters) := consumeParameters p1 in
          if negb (List.length (errors p2) =? prevErrors)%nat then p2
          else parseLoop fuel' (advance (advance (consumeTrigger p2 tok parameters)))
        else
          let p1 :=
            if (Z.of_nat (index p) <? Z.of_nat (List.length (tokens p)) - 1)%Z
            then unexpectedToken p (tokenAt p (index p + 1))
            else p in
          parseLoop fuel' (advance p1)
      else p
  end.

(** [parse(): void]. Every turn of the loop moves the index on, so it runs
    once for every token that is left at most. *)
Definition parse (p : OnTriggerParser) : OnTriggerParser :=
  parseLoop (List.length (tokens p) - index p) p.

End Parser.

(** *** Vocabulary of the statements about the loops *)

(** Tokens that are told apart by their text alone: an identifier starts
    with a letter, a character token is one punctuation character, and its
    code is its numeric value. *)
Definition isLetter (c : ascii) : bool :=
  let n := nat_of_ascii c in
  ((65 <=? n) && (n <=? 90) || (97 <=? n) && (n <=? 122) || (n =? 95) || (n =? 36))%nat.

Definition punctuation (t : Token) : option Z :=
  match strValue t with
  | String c EmptyString =>
      let n := nat_of_ascii c in
      if ((n =? 40) || (n =? 41) || (n =? 44) || (n =? 91) || (n =? 93)
          || (n =? 123) || (n =? 125) || (n =? 46) || (n =? 58) || (n =? 59))%nat
      then Some (Z.of_nat n) else None
  | _ => None
  end.

Definition byText : TokenQueries :=
  {| isIdentifier t := match strValue t with String c _ => isLetter c | EmptyString => false end;
     isCharacter t code :=
       match punctuation t with Some n => (n =? code)%Z | None => false end;
     isCharacterType t := match punctuation t with Some _ => true | None => false end;
     numValue t := match punctuation t with Some n => n | None => 0 end;
     toString := strValue |}.

(** The parser that [parseOnTrigger] makes of an expression whose triggers
    start at [start], with the tokens of the rest. *)
Definition parserOf (expression : string) (start : Z) (tokens : list Token)
    (placeholder : option DeferredBlockPlaceholder) : OnTriggerParser :=
  mkParser start (mkSpan 0 (Z.of_nat (String.length expression))) noTriggers [] placeholder
    None (mkSpan 0 2) 0%nat tokens.

(** Every character of a string passes a test. *)
Fixpoint allChars (f : ascii -> bool) (s : string) : bool :=
  match s with
  | EmptyString => true
  | String c rest => f c && allChars f rest
  end.

(** What the parser's methods leave of a parser: the constructor's
    arguments and the tokens stay, the index does not go back, errors are
    only added at the end, and a trigger that was recorded stays as it is. *)
Definition keeps (p p' : OnTriggerParser) : Prop :=
  start p' = start p /\ span p' = span p /\ placeholder p' = placeholder p
  /\ parserPrefetchSpan p' = parserPrefetchSpan p
  /\ parserOnSourceSpan p' = parserOnSourceSpan p
  /\ tokens p' = tokens p
  /\ (index p <= index p')%nat
  /\ (exists more, errors p' = (errors p ++ more)%list)
  /\ when (triggers p') = when (triggers p)
  /\ (forall type t, getTrigger type (triggers p) = Some t ->
        getTrigger type (triggers p') = Some t).

(** The parser at another index. *)
Definition atIndex (i : nat) (p : OnTriggerParser) : OnTriggerParser :=
  mkParser (start p) (span p) (triggers p) (errors p) (placeholder p)
    (parserPrefetchSpan p) (parserOnSourceSpan p) i (tokens p).

(** The tokens [ts] are those of [l] from position [i] on. *)
Definition occursAt (ts : list Token) (i : nat) (l : list Token) : Prop :=
  forall k t, nth_error ts k = Some t -> nth_error l (i + k) = Some t.

(** A piece of a parameter: one token, or a bracketed group with the token
    that opens it, the tokens inside and the token that closes it. *)
Inductive Piece : Type :=
| One (t : Token)
| Group (opening : Token) (inside : list Token) (closing : Token).

Definition pieceTokens (u : Piece) : list Token :=
  match u with
  | One t => [t]
  | Group opening inside closing => opening :: (inside ++ [closing])%list
  end.

Section ParameterShapes.
Context {queries : TokenQueries}.
Variable expression : string.

(** The text of a token in the expression, and of a run of tokens. *)
Definition textOfToken (p : OnTriggerParser) (t : Token) : string :=
  slice expression (start p + tokIndex t) (start p + tokEnd t).

Definition textOf (p : OnTriggerParser) (ts : list Token) : string :=
  fold_right (fun t s => textOfToken p t ++ s) "" ts.

(** What a token pushes on the stack, if anything. *)
Definition pushes (t : Token) : option Z :=
  if isCharacterType t then COMMA_DELIMITED_SYNTAX (numValue t) else None.

(** A token that is neither a bracket, nor a comma, nor a closing
    parenthesis. *)
Definition plainToken (t : Token) : bool :=
  match pushes t with
  | None => negb (isCharacter t dRPAREN) && negb (isCharacter t dCOMMA)
  | Some _ => false
  end.

(** A comma. *)
Definition commaToken (t : Token) : bool :=
  match pushes t with
  | None => isCharacter t dCOMMA && negb (isCharacter t dRPAREN)
  | Some _ => false
  end.

(** A piece whose group, if it is one, is opened by a bracket, holds no
    bracket and no token that closes it, and is closed by its closing
    bracket. Commas and closing parentheses may be inside. *)
Definition wellFormed (u : Piece) : bool :=
  match u with
  | One t => plainToken t
  | Group opening inside closing =>
      match pushes opening with
      | Some c =>
          negb (isCharacter opening c) && negb (isCharacter opening dRPAREN)
          && forallb (fun t => match pushes t with
                               | None => negb (isCharacter t c)
                               | Some _ => false
                               end) inside
          && match pushes closing with
             | None => isCharacter closing c && negb (isCharacter closing dCOMMA)
             | Some _ => false
             end
      | None => false
      end
  end.

(** The tokens of a parameter that is followed by a comma. *)
Definition itemTokens (item : list Piece * Token) : list Token :=
  (flat_map pieceTokens (fst item) ++ [snd item])%list.

End ParameterShapes.

(** The parameters of a trigger as they are written: the opening
    parenthesis, the parameters that are followed by a comma, the last
    parameter and the closing parenthesis. *)
Record Arguments : Type := mkArguments {
  argOpening : Token;
  argItems : list (list Piece * Token);
  argLast : list Piece;
  argClosing : Token
}.

(** A trigger as it is written: its name and, if any, its parameters. *)
Record Entry : Type := mkEntry {
  entryName : Token;
  entryArguments : option Arguments
}.

Definition argumentTokens (a : Arguments) : list Token :=
  (argOpening a :: flat_map itemTokens (argItems a)
     ++ flat_map pieceTokens (argLast a) ++ [argClosing a])%list.

Definition entryTokens (e : Entry) : list Token :=
  entryName e :: match entryArguments e with
                 | Some a => argumentTokens a
                 | None => []
                 end.

Section TriggerLists.
Context {queries : TokenQueries}.
Variable expression : string.

(** The texts of the parameters of a trigger. *)
Definition entryParameters (p : OnTriggerParser) (e : Entry) : list string :=
  match entryArguments e with
  | Some a =>
      (map (fun item => textOf expression p (flat_map pieceTokens (fst item))) (argItems a)
       ++ match textOf expression p (flat_map pieceTokens (argLast a)) with
          | "" => []
          | text => [text]
          end)%list
  | None => []
  end.

(** A trigger that is written as the parser expects it. *)
Definition wellWritten (p : OnTriggerParser) (e : Entry) : Prop :=
  isIdentifier (entryName e) = true
  /\ match entryArguments e with
     | Some a =>
         isCharacter (argOpening a) dLPAREN = true
         /\ isCharacter (argOpening a) dCOMMA = false
         /\ isCharacter (argClosing a) dRPAREN = true
         /\ (forall item, In item (argItems a) ->
               forallb wellFormed (fst item) = true /\ commaToken (snd item) = true
               /\ textOf expression p (flat_map pieceTokens (fst item)) <> "")
         /\ forallb wellFormed (argLast a) = true
     | None => True
     end.

(** One trigger after the other is handed to [consumeTrigger], with the
    index on the last token of the trigger; [i] is the position of the first
    token of what is left. *)
Fixpoint consumeEntries (i : nat) (entries : list (Entry * Token)) (last : option Entry)
    (p : OnTriggerParser) : OnTriggerParser :=
  match entries with
  | (e, _) :: rest =>
      let n := List.length (entryTokens e) in
      consumeEntries (i + n + 1) rest last
        (consumeTrigger (atIndex (i + n - 1) p) (entryName e) (entryParameters p e))
  | [] =>
      match last with
      | Some e =>
          let n := List.length (entryTokens e) in
          atIndex (i + n + 1)
            (consumeTrigger (atIndex (i + n - 1) p) (entryName e) (entryParameters p e))
      | None => atIndex i p
      end
  end.

End TriggerLists.

(** The tokens of triggers that are each followed by a comma, and of a last
    trigger that is not. *)
Definition listTokens (entries : list (Entry * Token)) (last : option Entry) : list Token :=
  (flat_map (fun ec => entryTokens (fst ec) ++ [snd ec]) entries
   ++ match last with Some e => entryTokens e | None => [] end)%list.

(** [on idle, timer(500ms)], with the tokens of [idle, timer(500ms)]. *)
Definition idleAndTimer : string := "on idle, timer(500ms)".

Definition idleAndTimerTokens : list Token :=
  [mkToken 0 4 "idle"; mkToken 4 5 ","; mkToken 6 11 "timer"; mkToken 11 12 "(";
   mkToken 12 15 "500"; mkToken 15 17 "ms"; mkToken 17 18 ")"].

(** [on viewport(a, [b, c]), idle x], with the tokens of what follows [on]. *)
Definition viewportAndIdle : string := "on viewport(a, [b, c]), idle x".

Definition viewportAndIdleTokens : list Token :=
  [mkToken 0 8 "viewport"; mkToken 8 9 "("; mkToken 9 10 "a"; mkToken 10 11 ",";
   mkToken 12 13 "["; mkToken 13 14 "b"; mkToken 14 15 ","; mkToken 16 17 "c";
   mkToken 17 18 "]"; mkToken 18 19 ")"; mkToken 19 20 ","; mkToken 21 25 "idle";
   mkToken 26 27 "x"].

(** [on hover(a(b)], where the parenthesis of [hover] is not closed. *)
Definition unclosedHover : string := "on hover(a(b)".

Definition unclosedHoverTokens : list Token :=
  [mkToken 0 5 "hover"; mkToken 5 6 "("; mkToken 6 7 "a"; mkToken 7 8 "(";
   mkToken 8 9 "b"; mkToken 9 10 ")"].

(** [on idle, 5], with the tokens of [idle, 5]. *)
Definition idleAndNumber : string := "on idle, 5".

Definition idleAndNumberTokens : list Token :=
  [mkToken 0 4 "idle"; mkToken 4 5 ","; mkToken 6 7 "5"].

End Triggers.

(* ===================================================================== *)
(** ** Part III: the runtime of a [@defer] block                          *)
(* ===================================================================== *)

Module Defer.

Local Open Scope Z_scope.

(** *** Data ([interfaces.ts], from which [instructions.ts] imports) *)

(** [enum DeferBlockState]. The comment of [isValidStateChange] gives the
    numbers: placeholder 0, loading 1, complete 2, error 3. *)
Inductive DeferBlockState : Type :=
| Placeholder
| Loading
| Complete
| Error.

(** What [lDetails[DEFER_BLOCK_STATE]] holds: a [DeferBlockState], or
    [DeferBlockInternalState.Initial] while nothing is rendered. *)
Inductive RenderedState : Type :=
| Initial
| Rendered (s : DeferBlockState).

Definition stateValue (s : DeferBlockState) : Z :=
  match s with
  | Placeholder => 0
  | Loading => 1
  | Complete => 2
  | Error => 3
  end.

(** Modelled from the spec: the number of [DeferBlockInternalState.Initial],
    declared in [interfaces.ts]; the spec orders Initial below Placeholder,
    and [renderDeferBlockState] uses [-1] where no state is buffered. *)
Definition renderedValue (s : RenderedState) : Z :=
  match s with
  | Initial => -1
  | Rendered s => stateValue s
  end.

Inductive DeferDependenciesLoadingState : Type :=
| NOT_STARTED
| IN_PROGRESS
| COMPLETE
| FAILED.

Inductive TriggerType : Type := Regular | Prefetch.

Inductive DeferBlockBehavior : Type := Manual | Playthrough.

(** [[minimumTime, afterTime]] of [@loading], [[minimumTime]] of
    [@placeholder], in milliseconds. *)
Record DeferredLoadingBlockConfig : Type := mkLoadingConfig {
  loadingMinimumTime : option Z;
  loadingAfterTime : option Z
}.

Record DeferredPlaceholderBlockConfig : Type := mkPlaceholderConfig {
  placeholderMinimumTime : option Z
}.

Definition PromiseId : Type := nat.
Definition TypeId : Type := nat.
Definition Provider : Type := nat.

(** A dependency resolver function is known by its identity; calls to it are
    recorded in the world. *)
Definition DependencyResolverFn : Type := nat.

(** A component, directive or pipe definition. *)
Record Def : Type := mkDef { defType : TypeId }.

(** A loaded class with the definitions that [getComponentDef],
    [getDirectiveDef] and [getPipeDef] find on it. *)
Record DependencyType : Type := mkDependency {
  getComponentDef : option Def;
  getDirectiveDef : option Def;
  getPipeDef : option Def
}.

(** An element of the array that [Promise.allSettled] resolves with. *)
Inductive PromiseSettledResult : Type :=
| Fulfilled (value : DependencyType)
| Rejected.

Inductive RuntimeErrorCode : Type := DEFER_LOADING_FAILED.

Inductive ErrorValue : Type :=
| RuntimeError (code : RuntimeErrorCode)
| TypeError
| ViewError (tmplIndex : nat).

(** Where an exception ends: in [handleError], or outside of the module. *)
Inductive ErrorEvent : Type :=
| Handled (e : ErrorValue)
| Uncaught (e : ErrorValue).

(** The closures that the module stores as clean-up functions. *)
Inductive CleanupFn : Type :=
| CancelScheduled (id : nat)
| RemoveLViewOnDestroy.

(** The closures that the module hands to a scheduler. *)
Inductive Callback : Type :=
| DeferBlockUpdate
| TriggerDeferBlock
| TriggerPrefetching.

(** A callback waiting in a scheduler: due at a time (timer) or at the next
    idle period ([None]). *)
Record Scheduled : Type := mkScheduled {
  schedId : nat;
  dueAt : option Z;
  callback : Callback
}.

(** [onIdle] and [onTimer(delay)]. *)
Inductive ScheduleFn : Type :=
| OnIdle
| OnTimer (delay : Z).

(** The view mounted in the container of the block. *)
Record EmbeddedView : Type := mkView {
  viewTemplate : nat;
  viewInjector : option (list Provider)
}.

(** The value bound to a [when] trigger. *)
Inductive JsValue : Type :=
| JUndefined
| JNull
| JBool (b : bool)
| JNumber (z : Z)
| JString (s : string)
| JObject (ref : nat).

(** [Boolean(rawValue)] *)
Definition Boolean (v : JsValue) : bool :=
  match v with
  | JUndefined | JNull => false
  | JBool b => b
  | JNumber z => negb (z =? 0)
  | JString s => negb (String.eqb s "")
  | JObject _ => true
  end.

(** [Object.is] *)
Definition objectIs (a b : JsValue) : bool :=
  match a, b with
  | JUndefined, JUndefined | JNull, JNull => true
  | JBool x, JBool y => Bool.eqb x y
  | JNumber x, JNumber y => x =? y
  | JString x, JString y => String.eqb x y
  | JObject x, JObject y => Nat.eqb x y
  | _, _ => false
  end.

(** The loading promise while it is pending: its identity, the pending task
    registered for it, and whether it waits for dependency promises. *)
Record PendingLoad : Type := mkPendingLoad {
  pendingPromise : PromiseId;
  pendingTask : nat;
  awaitsDependencies : bool
}.

(** The [then] callback of [renderDeferStateAfterResourceLoading]. *)
Inductive Reaction : Type := RenderAfterResourceLoading.

(** What the module reads from the injector and the build. *)
Record Env : Type := mkEnv {
  isPlatformBrowser : bool;
  deferBlockBehavior : option DeferBlockBehavior;
  applyDeferBlockStateWithSchedulingImpl : bool;
  renderThrows : nat -> bool;
  internalImportProvidersFrom : list TypeId -> list Provider;
  dependencyInterceptor :
    option (option DependencyResolverFn -> option DependencyResolverFn)
}.

Record TDeferBlockDetails : Type := mkTDetails {
  primaryTmplIndex : nat;
  loadingTmplIndex : option nat;
  placeholderTmplIndex : option nat;
  errorTmplIndex : option nat;
  placeholderBlockConfig : option DeferredPlaceholderBlockConfig;
  loadingBlockConfig : option DeferredLoadingBlockConfig;
  dependencyResolverFn : option DependencyResolverFn;
  loadingState : DeferDependenciesLoadingState;
  loadingPromise : option PromiseId;
  providers : option (list Provider)
}.

Record LDeferBlockDetails : Type := mkLDetails {
  NEXT_DEFER_BLOCK_STATE : option DeferBlockState;
  DEFER_BLOCK_STATE : RenderedState;
  STATE_IS_FROZEN_UNTIL : option Z;
  LOADING_AFTER_CLEANUP_FN : option CleanupFn;
  TRIGGER_CLEANUP_FNS : option (list CleanupFn);
  PREFETCH_TRIGGER_CLEANUP_FNS : option (list CleanupFn)
}.

(** One block instance with its static details, the container it renders
    into, and the collaborators that the module calls (schedulers, promises,
    pending tasks, error handler, registries of the primary template). *)
Record World : Type := mkWorld {
  env : Env;
  tDetails : TDeferBlockDetails;
  lDetails : LDeferBlockDetails;
  lContainer : list EmbeddedView;
  hostDestroyed : bool;
  onDestroyRegistered : bool;
  scheduled : list Scheduled;
  nextId : nat;
  errorLog : list ErrorEvent;
  invokedCleanups : list CleanupFn;
  whenBinding : option JsValue;
  prefetchWhenBinding : option JsValue;
  resolverCalls : list DependencyResolverFn;
  pendingTasks : list nat;
  pendingLoad : option PendingLoad;
  reactions : list Reaction;
  fulfilled : list PromiseId;
  directiveRegistry : option (list Def);
  pipeRegistry : option (list Def)
}.

(** Field updates. *)
Definition t_primaryTmplIndex (v : nat) (r : TDeferBlockDetails) : TDeferBlockDetails :=
  mkTDetails v (loadingTmplIndex r) (placeholderTmplIndex r) (errorTmplIndex r) (placeholderBlockConfig r) (loadingBlockConfig r) (dependencyResolverFn r) (loadingState r) (loadingPromise r) (providers r).

Definition t_loadingTmplIndex (v : option nat) (r : TDeferBlockDetails) : TDeferBlockDetails :=
  mkTDetails (primaryTmplIndex r) v (placeholderTmplIndex r) (errorTmplIndex r) (placeholderBlockConfig r) (loadingBlockConfig r) (dependencyResolverFn r) (loadingState r) (loadingPromise r) (providers r).

Definition t_placeholderTmplIndex (v : option nat) (r : TDeferBlockDetails) : TDeferBlockDetails :=
  mkTDetails (primaryTmplIndex r) (loadingTmplIndex r) v (errorTmplIndex r) (placeholderBlockConfig r) (loadingBlockConfig r) (dependencyResolverFn r) (loadingState r) (loadingPromise r) (providers r).

Definition t_errorTmplIndex (v : option nat) (r : TDeferBlockDetails) : TDeferBlockDetails :=
  mkTDetails (primaryTmplIndex r) (loadingTmplIndex r) (placeholderTmplIndex r) v (placeholderBlockConfig r) (loadingBlockConfig r) (dependencyResolverFn r) (loadingState r) (loadingPromise r) (providers r).

Definition t_placeholderBlockConfig (v : option DeferredPlaceholderBlockConfig) (r : TDeferBlockDetails) : TDeferBlockDetails :=
  mkTDetails (primaryTmplIndex r) (loadingTmplIndex r) (placeholderTmplIndex r) (errorTmplIndex r) v (loadingBlockConfig r) (dependencyResolverFn r) (loadingState r) (loadingPromise r) (providers r).

Definition t_loadingBlockConfig (v : option DeferredLoadingBlockConfig) (r : TDeferBlockDetails) : TDeferBlockDetails :=
  mkTDetails (primaryTmplIndex r) (loadingTmplIndex r) (placeholderTmplIndex r) (errorTmplIndex r) (placeholderBlockConfig r) v (dependencyResolverFn r) (loadingState r) (loadingPromise r) (providers r).

Definition t_dependencyResolverFn (v : option DependencyResolverFn) (r : TDeferBlockDetails) : TDeferBlockDetails :=
  mkTDetails (primaryTmplIndex r) (loadingTmplIndex r) (placeholderTmplIndex r) (errorTmplIndex r) (placeholderBlockConfig r) (loadingBlockConfig r) v (loadingState r) (loadingPromise r) (providers r).

Definition t_loadingState (v : DeferDependenciesLoadingState) (r : TDeferBlockDetails) : TDeferBlockDetails :=
  mkTDetails (primaryTmplIndex r) (loadingTmplIndex r) (placeholderTmplIndex r) (errorTmplIndex r) (placeholderBlockConfig r) (loadingBlockConfig r) (dependencyResolverFn r) v (loadingPromise r) (providers r).

Definition t_loadingPromise (v : option PromiseId) (r : TDeferBlockDetails) : TDeferBlockDetails :=
  mkTDetails (primaryTmplIndex r) (loadingTmplIndex r) (placeholderTmplIndex r) (errorTmplIndex r) (placeholderBlockConfig r) (loadingBlockConfig r) (dependencyResolverFn r) (loadingState r) v (providers r).

Definition t_providers (v : option (list Provider)) (r : TDeferBlockDetails) : TDeferBlockDetails :=
  mkTDetails (primaryTmplIndex r) (loadingTmplIndex r) (placeholderTmplIndex r) (errorTmplIndex r) (placeholderBlockConfig r) (loadingBlockConfig r) (dependencyResolverFn r) (loadingState r) (loadingPromise r) v.

Definition l_NEXT_DEFER_BLOCK_STATE (v : option DeferBlockState) (r : LDeferBlockDetails) : LDeferBlockDetails :=
  mkLDetails v (DEFER_BLOCK_STATE r) (STATE_IS_FROZEN_UNTIL r) (LOADING_AFTER_CLEANUP_FN r) (TRIGGER_CLEANUP_FNS r) (PREFETCH_TRIGGER_CLEANUP_FNS r).

Definition l_DEFER_BLOCK_STATE (v : RenderedState) (r : LDeferBlockDetails) : LDeferBlockDetails :=
  mkLDetails (NEXT_DEFER_BLOCK_STATE r) v (STATE_IS_FROZEN_UNTIL r) (LOADING_AFTER_CLEANUP_FN r) (TRIGGER_CLEANUP_FNS r) (PREFETCH_TRIGGER_CLEANUP_FNS r).

Definition l_STATE_IS_FROZEN_UNTIL (v : option Z) (r : LDeferBlockDetails) : LDeferBlockDetails :=
  mkLDetails (NEXT_DEFER_BLOCK_STATE r) (DEFER_BLOCK_STATE r) v (LOADING_AFTER_CLEANUP_FN r) (TRIGGER_CLEANUP_FNS r) (PREFETCH_TRIGGER_CLEANUP_FNS r).

Definition l_LOADING_AFTER_CLEANUP_FN (v : option CleanupFn) (r : LDeferBlockDetails) : LDeferBlockDetails :=
  mkLDetails (NEXT_DEFER_BLOCK_STATE r) (DEFER_BLOCK_STATE r) (STATE_IS_FROZEN_UNTIL r) v (TRIGGER_CLEANUP_FNS r) (PREFETCH_TRIGGER_CLEANUP_FNS r).

Definition l_TRIGGER_CLEANUP_FNS (v : option (list CleanupFn)) (r : LDeferBlockDetails) : LDeferBlockDetails :=
  mkLDetails (NEXT_DEFER_BLOCK_STATE r) (DEFER_BLOCK_STATE r) (STATE_IS_FROZEN_UNTIL r) (LOADING_AFTER_CLEANUP_FN r) v (PREFETCH_TRIGGER_CLEANUP_FNS r).

Definition l_PREFETCH_TRIGGER_CLEANUP_FNS (v : option (list CleanupFn)) (r : LDeferBlockDetails) : LDeferBlockDetails :=
  mkLDetails (NEXT_DEFER_BLOCK_STATE r) (DEFER_BLOCK_STATE r) (STATE_IS_FROZEN_UNTIL r) (LOADING_AFTER_CLEANUP_FN r) (TRIGGER_CLEANUP_FNS r) v.

Definition set_env (v : Env) (r : World) : World :=
  mkWorld v (tDetails r) (lDetails r) (lContainer r) (hostDestroyed r) (onDestroyRegistered r) (scheduled r) (nextId r) (errorLog r) (invokedCleanups r) (whenBinding r) (prefetchWhenBinding r) (resolverCalls r) (pendingTasks r) (pendingLoad r) (reactions r) (fulfilled r) (directiveRegistry r) (pipeRegistry r).

Definition set_tDetails (v : TDeferBlockDetails) (r : World) : World :=
  mkWorld (env r) v (lDetails r) (lContainer r) (hostDestroyed r) (onDestroyRegistered r) (scheduled r) (nextId r) (errorLog r) (invokedCleanups r) (whenBinding r) (prefetchWhenBinding r) (resolverCalls r) (pendingTasks r) (pendingLoad r) (reactions r) (fulfilled r) (directiveRegistry r) (pipeRegistry r).

Definition set_lDetails (v : LDeferBlockDetails) (r : World) : World :=
  mkWorld (env r) (tDetails r) v (lContainer r) (hostDestroyed r) (onDestroyRegistered r) (scheduled r) (nextId r) (errorLog r) (invokedCleanups r) (whenBinding r) (prefetchWhenBinding r) (resolverCalls r) (pendingTasks r) (pendingLoad r) (reactions r) (fulfilled r) (directiveRegistry r) (pipeRegistry r).

Definition set_lContainer (v : list EmbeddedView) (r : World) : World :=
  mkWorld (env r) (tDetails r) (lDetails r) v (hostDestroyed r) (onDestroyRegistered r) (scheduled r) (nextId r) (errorLog r) (invokedCleanups r) (whenBinding r) (prefetchWhenBinding r) (resolverCalls r) (pendingTasks r) (pendingLoad r) (reactions r) (fulfilled r) (directiveRegistry r) (pipeRegistry r).

Definition set_hostDestroyed (v : bool) (r : World) : World :=
  mkWorld (env r) (tDetails r) (lDetails r) (lContainer r) v (onDestroyRegistered r) (scheduled r) (nextId r) (errorLog r) (invokedCleanups r) (whenBinding r) (prefetchWhenBinding r) (resolverCalls r) (pendingTasks r) (pendingLoad r) (reactions r) (fulfilled r) (directiveRegistry r) (pipeRegistry r).

Definition set_onDestroyRegistered (v : bool) (r : World) : World :=
  mkWorld (env r) (tDetails r) (lDetails r) (lContainer r) (hostDestroyed r) v (scheduled r) (nextId r) (errorLog r) (invokedCleanups r) (whenBinding r) (prefetchWhenBinding r) (resolverCalls r) (pendingTasks r) (pendingLoad r) (reactions r) (fulfilled r) (directiveRegistry r) (pipeRegistry r).

Definition set_scheduled (v : list Scheduled) (r : World) : World :=
  mkWorld (env r) (tDetails r) (lDetails r) (lContainer r) (hostDestroyed r) (onDestroyRegistered r) v (nextId r) (errorLog r) (invokedCleanups r) (whenBinding r) (prefetchWhenBinding r) (resolverCalls r) (pendingTasks r) (pendingLoad r) (reactions r) (fulfilled r) (directiveRegistry r) (pipeRegistry r).

Definition set_nextId (v : nat) (r : World) : World :=
  mkWorld (env r) (tDetails r) (lDetails r) (lContainer r) (hostDestroyed r) (onDestroyRegistered r) (scheduled r) v (errorLog r) (invokedCleanups r) (whenBinding r) (prefetchWhenBinding r) (resolverCalls r) (pendingTasks r) (pendingLoad r) (reactions r) (fulfilled r) (directiveRegistry r) (pipeRegistry r).

Definition set_errorLog (v : list ErrorEvent) (r : World) : World :=
  mkWorld (env r) (tDetails r) (lDetails r) (lContainer r) (hostDestroyed r) (onDestroyRegistered r) (scheduled r) (nextId r) v (invokedCleanups r) (whenBinding r) (prefetchWhenBinding r) (resolverCalls r) (pendingTasks r) (pendingLoad r) (reactions r) (fulfilled r) (directiveRegistry r) (pipeRegistry r).

Definition set_invokedCleanups (v : list CleanupFn) (r : World) : World :=
  mkWorld (env r) (tDetails r) (lDetails r) (lContainer r) (hostDestroyed r) (onDestroyRegistered r) (scheduled r) (nextId r) (errorLog r) v (whenBinding r) (prefetchWhenBinding r) (resolverCalls r) (pendingTasks r) (pendingLoad r) (reactions r) (fulfilled r) (directiveRegistry r) (pipeRegistry r).

Definition set_whenBinding (v : option JsValue) (r : World) : World :=
  mkWorld (env r) (tDetails r) (lDetails r) (lContainer r) (hostDestroyed r) (onDestroyRegistered r) (scheduled r) (nextId r) (errorLog r) (invokedCleanups r) v (prefetchWhenBinding r) (resolverCalls r) (pendingTasks r) (pendingLoad r) (reactions r) (fulfilled r) (directiveRegistry r) (pipeRegistry r).

Definition set_prefetchWhenBinding (v : option JsValue) (r : World) : World :=
  mkWorld (env r) (tDetails r) (lDetails r) (lContainer r) (hostDestroyed r) (onDestroyRegistered r) (scheduled r) (nextId r) (errorLog r) (invokedCleanups r) (whenBinding r) v (resolverCalls r) (pendingTasks r) (pendingLoad r) (reactions r) (fulfilled r) (directiveRegistry r) (pipeRegistry r).

Definition set_resolverCalls (v : list DependencyResolverFn) (r : World) : World :=
  mkWorld (env r) (tDetails r) (lDetails r) (lContainer r) (hostDestroyed r) (onDestroyRegistered r) (scheduled r) (nextId r) (errorLog r) (invokedCleanups r) (whenBinding r) (prefetchWhenBinding r) v (pendingTasks r) (pendingLoad r) (reactions r) (fulfilled r) (directiveRegistry r) (pipeRegistry r).

Definition set_pendingTasks (v : list nat) (r : World) : World :=
  mkWorld (env r) (tDetails r) (lDetails r) (lContainer r) (hostDestroyed r) (onDestroyRegistered r) (scheduled r) (nextId r) (errorLog r) (invokedCleanups r) (whenBinding r) (prefetchWhenBinding r) (resolverCalls r) v (pendingLoad r) (reactions r) (fulfilled r) (directiveRegistry r) (pipeRegistry r).

Definition set_pendingLoad (v : option PendingLoad) (r : World) : World :=
  mkWorld (env r) (tDetails r) (lDetails r) (lContainer r) (hostDestroyed r) (onDestroyRegistered r) (scheduled r) (nextId r) (errorLog r) (invokedCleanups r) (whenBinding r) (prefetchWhenBinding r) (resolverCalls r) (pendingTasks r) v (reactions r) (fulfilled r) (directiveRegistry r) (pipeRegistry r).

Definition set_reactions (v : list Reaction) (r : World) : World :=
  mkWorld (env r) (tDetails r) (lDetails r) (lContainer r) (hostDestroyed r) (onDestroyRegistered r) (scheduled r) (nextId r) (errorLog r) (invokedCleanups r) (whenBinding r) (prefetchWhenBinding r) (resolverCalls r) (pendingTasks r) (pendingLoad r) v (fulfilled r) (directiveRegistry r) (pipeRegistry r).

Definition set_fulfilled (v : list PromiseId) (r : World) : World :=
  mkWorld (env r) (tDetails r) (lDetails r) (lContainer r) (hostDestroyed r) (onDestroyRegistered r) (scheduled r) (nextId r) (errorLog r) (invokedCleanups r) (whenBinding r) (prefetchWhenBinding r) (resolverCalls r) (pendingTasks r) (pendingLoad r) (reactions r) v (directiveRegistry r) (pipeRegistry r).

Definition set_directiveRegistry (v : option (list Def)) (r : World) : World :=
  mkWorld (env r) (tDetails r) (lDetails r) (lContainer r) (hostDestroyed r) (onDestroyRegistered r) (scheduled r) (nextId r) (errorLog r) (invokedCleanups r) (whenBinding r) (prefetchWhenBinding r) (resolverCalls r) (pendingTasks r) (pendingLoad r) (reactions r) (fulfilled r) v (pipeRegistry r).

Definition set_pipeRegistry (v : option (list Def)) (r : World) : World :=
  mkWorld (env r) (tDetails r) (lDetails r) (lContainer r) (hostDestroyed r) (onDestroyRegistered r) (scheduled r) (nextId r) (errorLog r) (invokedCleanups r) (whenBinding r) (prefetchWhenBinding r) (resolverCalls r) (pendingTasks r) (pendingLoad r) (reactions r) (fulfilled r) (directiveRegistry r) v.

(** *** Collaborators that are not part of the file *)

(** Modelled from the spec: [getTemplateIndexForState] of [utils.ts], the
    template slot of the sub-view of a state (nullable except for the primary
    content). *)
Definition getTemplateIndexForState (newState : DeferBlockState)
    (tDetails : TDeferBlockDetails) : option nat :=
  match newState with
  | Complete => Some (primaryTmplIndex tDetails)
  | Loading => loadingTmplIndex tDetails
  | Error => errorTmplIndex tDetails
  | Placeholder => placeholderTmplIndex tDetails
  end.

(** Modelled from the spec: [getMinimumDurationForState] of [utils.ts], the
    minimum-duration configuration of [@placeholder] and [@loading]. *)
Definition getMinimumDurationForState (tDetails : TDeferBlockDetails)
    (currentState : DeferBlockState) : option Z :=
  match currentState with
  | Placeholder =>
      match placeholderBlockConfig tDetails with
      | Some c => placeholderMinimumTime c
      | None => None
      end
  | Loading =>
      match loadingBlockConfig tDetails with
      | Some c => loadingMinimumTime c
      | None => None
      end
  | _ => None
  end.

(** Modelled from the spec: [getLoadingBlockAfter] of [utils.ts], the
    delay-after configuration of [@loading]. *)
Definition getLoadingBlockAfter (tDetails : TDeferBlockDetails) : option Z :=
  match loadingBlockConfig tDetails with
  | Some c => loadingAfterTime c
  | None => None
  end.

(** Modelled from the spec: [addDepsToRegistry] of [utils.ts], which appends
    the loaded definitions to a registry of the primary template. *)
Definition addDepsToRegistry (currentDeps : option (list Def)) (newDeps : list Def)
    : option (list Def) :=
  match currentDeps with
  | Some deps => Some (deps ++ newDeps)
  | None => Some newDeps
  end.

(** [handleError(lView, error)]: the error reaches the error handler. *)
Definition handleError (error : ErrorValue) (w : World) : World :=
  set_errorLog (errorLog w ++ [Handled error]) w.

(** Running a clean-up closure: a scheduled callback is cancelled, or the
    destroy hook of the host view is removed. *)
Definition runCleanupFn (fn : CleanupFn) (w : World) : World :=
  let w1 := set_invokedCleanups (invokedCleanups w ++ [fn]) w in
  match fn with
  | CancelScheduled id =>
      set_scheduled (filter (fun s => negb (Nat.eqb (schedId s) id)) (scheduled w1)) w1
  | RemoveLViewOnDestroy => set_onDestroyRegistered false w1
  end.

Definition cleanupFnsOf (type : TriggerType) (lDetails : LDeferBlockDetails)
    : option (list CleanupFn) :=
  match type with
  | Regular => TRIGGER_CLEANUP_FNS lDetails
  | Prefetch => PREFETCH_TRIGGER_CLEANUP_FNS lDetails
  end.

Definition setCleanupFnsOf (type : TriggerType) (fns : option (list CleanupFn))
    (lDetails : LDeferBlockDetails) : LDeferBlockDetails :=
  match type with
  | Regular => l_TRIGGER_CLEANUP_FNS fns lDetails
  | Prefetch => l_PREFETCH_TRIGGER_CLEANUP_FNS fns lDetails
  end.

(** Modelled from the spec: [storeTriggerCleanupFn] of [cleanup.ts]; the
    instance keeps lists of clean-up callbacks keyed by trigger category. *)
Definition storeTriggerCleanupFn (type : TriggerType) (cleanupFn : CleanupFn)
    (w : World) : World :=
  let fns :=
    match cleanupFnsOf type (lDetails w) with
    | Some fns => fns ++ [cleanupFn]
    | None => [cleanupFn]
    end in
  set_lDetails (setCleanupFnsOf type (Some fns) (lDetails w)) w.

(** Modelled from the spec: [invokeTriggerCleanupFns] of [cleanup.ts], which
    invokes the registered callbacks of a category and forgets them. *)
Definition invokeTriggerCleanupFns (type : TriggerType) (w : World) : World :=
  match cleanupFnsOf type (lDetails w) with
  | Some fns =>
      let w1 := fold_left (fun acc fn => runCleanupFn fn acc) fns w in
      set_lDetails (setCleanupFnsOf type None (lDetails w1)) w1
  | None => w
  end.

(** Modelled from the spec: [invokeAllTriggerCleanupFns] of [cleanup.ts]. *)
Definition invokeAllTriggerCleanupFns (w : World) : World :=
  invokeTriggerCleanupFns Regular (invokeTriggerCleanupFns Prefetch w).

(** A scheduler takes a callback and returns the closure that cancels it. *)
Definition schedule (due : option Z) (cb : Callback) (w : World)
    : World * CleanupFn :=
  let id := nextId w in
  (set_nextId (S id) (set_scheduled (scheduled w ++ [mkScheduled id due cb]) w),
   CancelScheduled id).

(** Modelled from the spec: [scheduleTimerTrigger] of [timer_scheduler.ts];
    a timer is armed for [delay] milliseconds from [now], and the function
    that is returned stops it. *)
Definition scheduleTimerTrigger (delay : Z) (cb : Callback) (now : Z) (w : World)
    : World * CleanupFn :=
  schedule (Some (now + delay)) cb w.

(** Calling [onIdle] or [onTimer(delay)] with a callback. *)
Definition callScheduleFn (scheduleFn : ScheduleFn) (cb : Callback) (now : Z)
    (w : World) : World * CleanupFn :=
  match scheduleFn with
  | OnIdle => schedule None cb w
  | OnTimer delay => scheduleTimerTrigger delay cb now w
  end.

(** [removeLViewFromLContainer(lContainer, index)] and
    [addLViewToLContainer(lContainer, lView, index)]. *)
Definition removeLViewFromLContainer (lContainer : list EmbeddedView) (index : nat)
    : list EmbeddedView :=
  firstn index lContainer ++ skipn (S index) lContainer.

Definition addLViewToLContainer (lContainer : list EmbeddedView)
    (lView : EmbeddedView) (index : nat) : list EmbeddedView :=
  firstn index lContainer ++ lView :: skipn index lContainer.

(** [pendingTasks.add()] and [pendingTasks.remove(taskId)]. *)
Definition pendingTasksAdd (w : World) : World * nat :=
  let taskId := nextId w in
  (set_nextId (S taskId) (set_pendingTasks (pendingTasks w ++ [taskId]) w), taskId).

Definition pendingTasksRemove (taskId : nat) (w : World) : World :=
  set_pendingTasks (filter (fun t => negb (Nat.eqb t taskId)) (pendingTasks w)) w.

(** A new promise: pending, or already resolved ([Promise.resolve()]). *)
Definition newPromise (resolved : bool) (w : World) : World * PromiseId :=
  let p := nextId w in
  let w1 := set_nextId (S p) w in
  (if resolved then set_fulfilled (p :: fulfilled w1) w1 else w1, p).

(** *** [instructions.ts] *)

(** [[
function shouldTriggerDeferBlock(injector: Injector): boolean {
  const config = injector.get(DEFER_BLOCK_CONFIG, null, {optional: true});
  if (config?.behavior === DeferBlockBehavior.Manual) { return false; }
  return isPlatformBrowser(injector);
}
]] *)
Definition shouldTriggerDeferBlock (e : Env) : bool :=
  match deferBlockBehavior e with
  | Some Manual => false
  | _ => isPlatformBrowser e
  end.

(** [[
function isValidStateChange(currentState, newState): boolean {
  return currentState < newState;
}
]] *)
Definition isValidStateChange (currentState newState : Z) : bool :=
  currentState <? newState.

(** [lDetails[NEXT_DEFER_BLOCK_STATE] ?? -1] *)
Definition nextOrMinusOne (lDetails : LDeferBlockDetails) : Z :=
  match NEXT_DEFER_BLOCK_STATE lDetails with
  | Some s => stateValue s
  | None => -1
  end.

(** [applyDeferBlockState]. The second component is the exception that the
    creation of the view throws, if it does; the state is stored and the old
    view is removed before that. *)
Definition applyDeferBlockState (newState : DeferBlockState) (w : World)
    : World * option ErrorValue :=
  match getTemplateIndexForState newState (tDetails w) with
  | Some stateTmplIndex =>
      let w1 := set_lDetails (l_DEFER_BLOCK_STATE (Rendered newState) (lDetails w)) w in
      let viewIndex := 0%nat in
      let w2 := set_lContainer (removeLViewFromLContainer (lContainer w1) viewIndex) w1 in
      let injector :=
        match newState with
        | Complete =>
            match providers (tDetails w2) with
            | Some ps => if (0 <? List.length ps)%nat then Some ps else None
            | None => None
            end
        | _ => None
        end in
      if renderThrows (env w2) stateTmplIndex then (w2, Some (ViewError stateTmplIndex))
      else
        let embeddedLView := mkView stateTmplIndex injector in
        (set_lContainer (addLViewToLContainer (lContainer w2) embeddedLView viewIndex) w2,
         None)
  | None => (w, None)
  end.

(** [[
function scheduleDeferBlockUpdate(timeout, lDetails, tNode, lContainer, hostLView) {
  const callback = () => { ... };
  return scheduleTimerTrigger(timeout, callback, hostLView);
}
]] *)
Definition scheduleDeferBlockUpdate (timeout : Z) (now : Z) (w : World)
    : World * CleanupFn :=
  scheduleTimerTrigger timeout DeferBlockUpdate now w.

(** [applyDeferBlockStateWithScheduling], with [now] the value of
    [Date.now()]. *)
Definition applyDeferBlockStateWithScheduling (newState : DeferBlockState)
    (now : Z) (w : World) : World * option ErrorValue :=
  let notFrozen :=
    match STATE_IS_FROZEN_UNTIL (lDetails w) with
    | None => true
    | Some t => t <=? now
    end in
  if notFrozen then
    let w0 := set_lDetails (l_STATE_IS_FROZEN_UNTIL None (lDetails w)) w in
    let loadingAfter := getLoadingBlockAfter (tDetails w0) in
    let inLoadingAfterPhase :=
      match LOADING_AFTER_CLEANUP_FN (lDetails w0) with
      | Some _ => true
      | None => false
      end in
    match newState, loadingAfter, inLoadingAfterPhase with
    | Loading, Some after, false =>
        let w1 := set_lDetails (l_NEXT_DEFER_BLOCK_STATE (Some newState) (lDetails w0)) w0 in
        let (w2, cleanupFn) := scheduleDeferBlockUpdate after now w1 in
        (set_lDetails (l_LOADING_AFTER_CLEANUP_FN (Some cleanupFn) (lDetails w2)) w2, None)
    | _, _, _ =>
        let w1 :=
          match LOADING_AFTER_CLEANUP_FN (lDetails w0) with
          | Some cleanupFn =>
              if stateValue Loading <? stateValue newState then
                let wc := runCleanupFn cleanupFn w0 in
                set_lDetails
                  (l_NEXT_DEFER_BLOCK_STATE None
                     (l_LOADING_AFTER_CLEANUP_FN None (lDetails wc))) wc
              else w0
          | None => w0
          end in
        match applyDeferBlockState newState w1 with
        | (w2, Some error) => (w2, Some error)
        | (w2, None) =>
            match getMinimumDurationForState (tDetails w2) newState with
            | Some duration =>
                let w3 :=
                  set_lDetails (l_STATE_IS_FROZEN_UNTIL (Some (now + duration)) (lDetails w2)) w2 in
                (fst (scheduleDeferBlockUpdate duration now w3), None)
            | None => (w2, None)
            end
        end
    end
  else
    (set_lDetails (l_NEXT_DEFER_BLOCK_STATE (Some newState) (lDetails w)) w, None).

(** The condition of [renderDeferBlockState] under which a request is taken
    up: the new state is above the rendered one and above the buffered one. *)
Definition validChange (newState : DeferBlockState) (w : World) : bool :=
  isValidStateChange (renderedValue (DEFER_BLOCK_STATE (lDetails w))) (stateValue newState)
  && isValidStateChange (nextOrMinusOne (lDetails w)) (stateValue newState).

(** [needsScheduling] of [renderDeferBlockState]; the last test is one of
    truthiness, which a minimum of zero fails. *)
Definition needsScheduling (skipTimerScheduling : bool) (w : World) : bool :=
  negb skipTimerScheduling
  && isPlatformBrowser (env w)
  && (match getLoadingBlockAfter (tDetails w) with Some _ => true | None => false end
      || match getMinimumDurationForState (tDetails w) Loading with
         | Some _ => true
         | None => false
         end
      || match getMinimumDurationForState (tDetails w) Placeholder with
         | Some d => negb (d =? 0)
         | None => false
         end).

(** [renderDeferBlockState(newState, tNode, lContainer, skipTimerScheduling)] *)
Definition renderDeferBlockState (newState : DeferBlockState)
    (skipTimerScheduling : bool) (now : Z) (w : World) : World :=
  if hostDestroyed w then w
  else if validChange newState w then
    let applied :=
      if needsScheduling skipTimerScheduling w then
        if applyDeferBlockStateWithSchedulingImpl (env w)
        then applyDeferBlockStateWithScheduling newState now w
        else (w, Some TypeError)
      else applyDeferBlockState newState w in
    match applied with
    | (w1, Some error) => handleError error w1
    | (w1, None) => w1
    end
  else w.

(** The callback that [scheduleDeferBlockUpdate] hands to the timer. *)
Definition deferBlockUpdateCallback (now : Z) (w : World) : World :=
  let nextState := NEXT_DEFER_BLOCK_STATE (lDetails w) in
  let w1 :=
    set_lDetails
      (l_NEXT_DEFER_BLOCK_STATE None (l_STATE_IS_FROZEN_UNTIL None (lDetails w))) w in
  match nextState with
  | Some s => renderDeferBlockState s false now w1
  | None => w1
  end.

(** [renderPlaceholder(lView, tNode)] *)
Definition renderPlaceholder (now : Z) (w : World) : World :=
  renderDeferBlockState Placeholder false now w.

(** The loop over the settled results: the definitions collected so far and
    whether a rejected promise was met ([break] at the first one). *)
Fixpoint collectDependencies (results : list PromiseSettledResult)
    (directiveDefs pipeDefs : list Def) : bool * list Def * list Def :=
  match results with
  | [] => (false, directiveDefs, pipeDefs)
  | Fulfilled dependency :: rest =>
      let directiveDef :=
        match getComponentDef dependency with
        | Some d => Some d
        | None => getDirectiveDef dependency
        end in
      match directiveDef with
      | Some d => collectDependencies rest (directiveDefs ++ [d]) pipeDefs
      | None =>
          match getPipeDef dependency with
          | Some p => collectDependencies rest directiveDefs (pipeDefs ++ [p])
          | None => collectDependencies rest directiveDefs pipeDefs
          end
      end
  | Rejected :: _ => (true, directiveDefs, pipeDefs)
  end.

(** The callback of [Promise.allSettled(dependenciesFn()).then(...)]. *)
Definition onDependenciesSettled (taskId : nat) (results : list PromiseSettledResult)
    (w : World) : World :=
  let '(failed, directiveDefs, pipeDefs) := collectDependencies results [] [] in
  let w1 := set_tDetails (t_loadingPromise None (tDetails w)) w in
  let w2 := pendingTasksRemove taskId w1 in
  if failed then
    let w3 := set_tDetails (t_loadingState FAILED (tDetails w2)) w2 in
    match errorTmplIndex (tDetails w3) with
    | None => handleError (RuntimeError DEFER_LOADING_FAILED) w3
    | Some _ => w3
    end
  else
    let w3 := set_tDetails (t_loadingState COMPLETE (tDetails w2)) w2 in
    let w4 :=
      if (0 <? List.length directiveDefs)%nat then
        let w' :=
          set_directiveRegistry (addDepsToRegistry (directiveRegistry w3) directiveDefs) w3 in
        let directiveTypes := map defType directiveDefs in
        set_tDetails
          (t_providers (Some (internalImportProvidersFrom (env w') directiveTypes))
             (tDetails w')) w'
      else w3 in
    if (0 <? List.length pipeDefs)%nat then
      set_pipeRegistry (addDepsToRegistry (pipeRegistry w4) pipeDefs) w4
    else w4.

(** The callback of [Promise.resolve().then(...)], for a block without a
    dependency function. *)
Definition onNoDependencies (taskId : nat) (w : World) : World :=
  let w1 := set_tDetails (t_loadingPromise None (tDetails w)) w in
  let w2 := set_tDetails (t_loadingState COMPLETE (tDetails w1)) w1 in
  pendingTasksRemove taskId w2.

(** The dependency function after the interceptor of the development mode,
    if one is configured. *)
Definition dependenciesFnOf (w : World) : option DependencyResolverFn :=
  match dependencyInterceptor (env w) with
  | Some intercept => intercept (dependencyResolverFn (tDetails w))
  | None => dependencyResolverFn (tDetails w)
  end.

(** [triggerResourceLoading(tDetails, lView, tNode)]: the world after the
    call and the promise that is returned. The dependency function is taken
    to return its array of promises without throwing. *)
Definition triggerResourceLoading (w : World) : World * PromiseId :=
  match loadingState (tDetails w) with
  | NOT_STARTED =>
      let w1 := set_tDetails (t_loadingState IN_PROGRESS (tDetails w)) w in
      let w2 := invokeTriggerCleanupFns Prefetch w1 in
      let dependenciesFn := dependenciesFnOf w2 in
      let (w3, taskId) := pendingTasksAdd w2 in
      match dependenciesFn with
      | None =>
          let (w4, p) := newPromise false w3 in
          (set_pendingLoad (Some (mkPendingLoad p taskId false))
             (set_tDetails (t_loadingPromise (Some p) (tDetails w4)) w4), p)
      | Some fn =>
          let w4 := set_resolverCalls (resolverCalls w3 ++ [fn]) w3 in
          let (w5, p) := newPromise false w4 in
          (set_pendingLoad (Some (mkPendingLoad p taskId true))
             (set_tDetails (t_loadingPromise (Some p) (tDetails w5)) w5), p)
      end
  | _ =>
      match loadingPromise (tDetails w) with
      | Some p => (w, p)
      | None => newPromise true w
      end
  end.

(** [triggerPrefetching(tDetails, lView, tNode)] *)
Definition triggerPrefetching (w : World) : World :=
  if shouldTriggerDeferBlock (env w) then fst (triggerResourceLoading w) else w.

(** [renderDeferStateAfterResourceLoading]: a reaction is chained on the
    loading promise. Without a promise the call of [then] throws, and nothing
    catches it; the callers make the call in the loading state [IN_PROGRESS],
    in which there is a promise (lemma [loading_promise_invariant]). *)
Definition renderDeferStateAfterResourceLoading (w : World) : World :=
  match loadingPromise (tDetails w) with
  | Some _ => set_reactions (reactions w ++ [RenderAfterResourceLoading]) w
  | None => set_errorLog (errorLog w ++ [Uncaught TypeError]) w
  end.

(** The reaction itself, once the loading promise is fulfilled. *)
Definition runReaction (r : Reaction) (now : Z) (w : World) : World :=
  match r with
  | RenderAfterResourceLoading =>
      match loadingState (tDetails w) with
      | COMPLETE => renderDeferBlockState Complete false now w
      | FAILED => renderDeferBlockState Error false now w
      | _ => w
      end
  end.

(** [triggerDeferBlock(lView, tNode)] *)
Definition triggerDeferBlock (now : Z) (w : World) : World :=
  if negb (shouldTriggerDeferBlock (env w)) then w
  else
    let w1 := invokeAllTriggerCleanupFns w in
    match loadingState (tDetails w1) with
    | NOT_STARTED =>
        let w2 := renderDeferBlockState Loading false now w1 in
        let w3 := fst (triggerResourceLoading w2) in
        match loadingState (tDetails w3) with
        | IN_PROGRESS => renderDeferStateAfterResourceLoading w3
        | _ => w3
        end
    | IN_PROGRESS =>
        let w2 := renderDeferBlockState Loading false now w1 in
        renderDeferStateAfterResourceLoading w2
    | COMPLETE => renderDeferBlockState Complete false now w1
    | FAILED => renderDeferBlockState Error false now w1
    end.

(** Modelled from the spec: [bindingUpdated] of [render3/bindings.ts]; it
    tells whether the bound value changed and stores the new one. *)
Definition bindingUpdated (slot : option JsValue) (value : JsValue) : bool :=
  match slot with
  | Some old => negb (objectIs old value)
  | None => true
  end.

(** [ɵɵdeferWhen(rawValue)] *)
Definition ɵɵdeferWhen (rawValue : JsValue) (now : Z) (w : World) : World :=
  if bindingUpdated (whenBinding w) rawValue then
    let w1 := set_whenBinding (Some rawValue) w in
    let value := Boolean rawValue in
    let renderedState := DEFER_BLOCK_STATE (lDetails w1) in
    match value, renderedState with
    | false, Initial => renderPlaceholder now w1
    | true, Initial | true, Rendered Placeholder => triggerDeferBlock now w1
    | _, _ => w1
    end
  else w.

(** [ɵɵdeferPrefetchWhen(rawValue)] *)
Definition ɵɵdeferPrefetchWhen (rawValue : JsValue) (w : World) : World :=
  if bindingUpdated (prefetchWhenBinding w) rawValue then
    let w1 := set_prefetchWhenBinding (Some rawValue) w in
    match Boolean rawValue, loadingState (tDetails w1) with
    | true, NOT_STARTED => triggerPrefetching w1
    | _, _ => w1
    end
  else w.

(** [scheduleDelayedTrigger(scheduleFn)] *)
Definition scheduleDelayedTrigger (scheduleFn : ScheduleFn) (now : Z) (w : World)
    : World :=
  let w1 := renderPlaceholder now w in
  if isPlatformBrowser (env w1) then
    let (w2, cleanupFn) := callScheduleFn scheduleFn TriggerDeferBlock now w1 in
    storeTriggerCleanupFn Regular cleanupFn w2
  else w1.

(** [scheduleDelayedPrefetching(scheduleFn)] *)
Definition scheduleDelayedPrefetching (scheduleFn : ScheduleFn) (now : Z) (w : World)
    : World :=
  if isPlatformBrowser (env w) then
    match loadingState (tDetails w) with
    | NOT_STARTED =>
        let (w1, cleanupFn) := callScheduleFn scheduleFn TriggerPrefetching now w in
        storeTriggerCleanupFn Prefetch cleanupFn w1
    | _ => w
    end
  else w.

(** [ɵɵdeferOnIdle], [ɵɵdeferPrefetchOnIdle], [ɵɵdeferOnTimer(delay)] and
    [ɵɵdeferPrefetchOnTimer(delay)]. *)
Definition ɵɵdeferOnIdle : Z -> World -> World := scheduleDelayedTrigger OnIdle.
Definition ɵɵdeferPrefetchOnIdle : Z -> World -> World := scheduleDelayedPrefetching OnIdle.
Definition ɵɵdeferOnTimer (delay : Z) : Z -> World -> World :=
  scheduleDelayedTrigger (OnTimer delay).
Definition ɵɵdeferPrefetchOnTimer (delay : Z) : Z -> World -> World :=
  scheduleDelayedPrefetching (OnTimer delay).

(** [ɵɵdeferOnImmediate] *)
Definition ɵɵdeferOnImmediate (now : Z) (w : World) : World :=
  let w1 :=
    if negb (shouldTriggerDeferBlock (env w))
       || match loadingTmplIndex (tDetails w) with None => true | Some _ => false end
    then renderPlaceholder now w
    else w in
  triggerDeferBlock now w1.

(** [ɵɵdeferPrefetchOnImmediate] *)
Definition ɵɵdeferPrefetchOnImmediate (w : World) : World :=
  match loadingState (tDetails w) with
  | NOT_STARTED => fst (triggerResourceLoading w)
  | _ => w
  end.

(** [ɵɵdefer]: the static details of the first creation pass and the details
    of the instance. [enableTimerScheduling] is the optional last argument;
    when it is passed, [ɵɵdeferEnableTimerScheduling] reads the two
    configurations from the constants and installs the implementation with
    timers. *)
Definition ɵɵdefer (e : Env) (primaryTmplIndex : nat)
    (dependencyResolverFn : option DependencyResolverFn)
    (loadingTmplIndex placeholderTmplIndex errorTmplIndex : option nat)
    (loadingConfig : option DeferredLoadingBlockConfig)
    (placeholderConfig : option DeferredPlaceholderBlockConfig)
    (enableTimerScheduling : bool) : World :=
  let tDetails :=
    mkTDetails primaryTmplIndex loadingTmplIndex placeholderTmplIndex errorTmplIndex
      (if enableTimerScheduling then placeholderConfig else None)
      (if enableTimerScheduling then loadingConfig else None)
      dependencyResolverFn NOT_STARTED None None in
  let e' :=
    mkEnv (isPlatformBrowser e) (deferBlockBehavior e)
      (applyDeferBlockStateWithSchedulingImpl e || enableTimerScheduling)
      (renderThrows e) (internalImportProvidersFrom e) (dependencyInterceptor e) in
  let lDetails := mkLDetails None Initial None None None None in
  let w := mkWorld e' tDetails lDetails [] false false [] 0%nat [] [] None None [] [] None [] []
             None None in
  set_onDestroyRegistered true (storeTriggerCleanupFn Regular RemoveLViewOnDestroy w).

(** *** The instance as a transition system *)

(** What can happen to the instance: the instructions of its template, the
    callbacks that were handed to schedulers and promises, calls of the
    exported functions, and the destruction of the host view. *)
Inductive Event : Type :=
| Render (newState : DeferBlockState) (skipTimerScheduling : bool)
| Fire (id : nat)
| Settle (results : list PromiseSettledResult)
| DeferWhen (rawValue : JsValue)
| DeferPrefetchWhen (rawValue : JsValue)
| DeferOnIdle
| DeferPrefetchOnIdle
| DeferOnTimer (delay : Z)
| DeferPrefetchOnTimer (delay : Z)
| DeferOnImmediate
| DeferPrefetchOnImmediate
| RenderPlaceholder
| TriggerBlock
| TriggerPrefetch
| TriggerLoading
| DestroyView.

(** A scheduled callback runs (once). *)
Definition runCallback (cb : Callback) (now : Z) (w : World) : World :=
  match cb with
  | DeferBlockUpdate => deferBlockUpdateCallback now w
  | TriggerDeferBlock => triggerDeferBlock now w
  | TriggerPrefetching => triggerPrefetching w
  end.

(** The callback with identifier [id] runs at time [now], if it is still
    waiting; it leaves the scheduler first. The host decides when that is:
    the time at which the callback is due is kept for the record and is not
    a condition here. *)
Definition fire (id : nat) (now : Z) (w : World) : World :=
  match find (fun s => Nat.eqb (schedId s) id) (scheduled w) with
  | Some s =>
      runCallback (callback s) now
        (set_scheduled (filter (fun s => negb (Nat.eqb (schedId s) id)) (scheduled w)) w)
  | None => w
  end.

(** The loading promise settles: its callback runs, then the reactions
    chained on it, in the order in which they were chained. *)
Definition settle (results : list PromiseSettledResult) (now : Z) (w : World) : World :=
  match pendingLoad w with
  | Some pl =>
      let w1 := set_pendingLoad None w in
      let w2 :=
        if awaitsDependencies pl then onDependenciesSettled (pendingTask pl) results w1
        else onNoDependencies (pendingTask pl) w1 in
      let w3 := set_fulfilled (pendingPromise pl :: fulfilled w2) w2 in
      fold_left (fun acc r => runReaction r now acc) (reactions w3) (set_reactions [] w3)
  | None => w
  end.

(** The destroy hook that [ɵɵdefer] stores on the host view. *)
Definition destroyView (w : World) : World :=
  let w1 := set_hostDestroyed true w in
  if onDestroyRegistered w1 then invokeAllTriggerCleanupFns w1 else w1.

(** One event at time [now]. *)
Definition handle (now : Z) (e : Event) (w : World) : World :=
  match e with
  | Render newState skipTimerScheduling =>
      renderDeferBlockState newState skipTimerScheduling now w
  | Fire id => fire id now w
  | Settle results => settle results now w
  | DeferWhen rawValue => ɵɵdeferWhen rawValue now w
  | DeferPrefetchWhen rawValue => ɵɵdeferPrefetchWhen rawValue w
  | DeferOnIdle => ɵɵdeferOnIdle now w
  | DeferPrefetchOnIdle => ɵɵdeferPrefetchOnIdle now w
  | DeferOnTimer delay => ɵɵdeferOnTimer delay now w
  | DeferPrefetchOnTimer delay => ɵɵdeferPrefetchOnTimer delay now w
  | DeferOnImmediate => ɵɵdeferOnImmediate now w
  | DeferPrefetchOnImmediate => ɵɵdeferPrefetchOnImmediate w
  | RenderPlaceholder => renderPlaceholder now w
  | TriggerBlock => triggerDeferBlock now w
  | TriggerPrefetch => triggerPrefetching w
  | TriggerLoading => fst (triggerResourceLoading w)
  | DestroyView => destroyView w
  end.

(** A sequence of events, each with the time at which it happens. *)
Fixpoint run (trace : list (Z * Event)) (w : World) : World :=
  match trace with
  | [] => w
  | (now, e) :: rest => run rest (handle now e w)
  end.

(** *** Vocabulary of the statements *)

(** The state that is stored as rendered and the views in the container. *)
Definition visible (w : World) : RenderedState * list EmbeddedView :=
  (DEFER_BLOCK_STATE (lDetails w), lContainer w).

(** The rank of the rendered state. *)
Definition rank (w : World) : Z := renderedValue (DEFER_BLOCK_STATE (lDetails w)).

(** Nothing visible changed, or the rendered state went up. *)
Definition advances (w w' : World) : Prop :=
  visible w' = visible w \/ rank w < rank w'.

(** The callbacks that are left in a scheduler once the cancelling closures
    among [fns] have run. *)
Definition cancelAll (fns : list CleanupFn) (sch : list Scheduled) : list Scheduled :=
  fold_left
    (fun acc fn =>
       match fn with
       | CancelScheduled id => filter (fun s => negb (Nat.eqb (schedId s) id)) acc
       | RemoveLViewOnDestroy => acc
       end) fns sch.

(** Whether the destroy hook of the host view is still registered once the
    closures of [fns] have run. *)
Definition unhook (fns : list CleanupFn) (registered : bool) : bool :=
  fold_left
    (fun acc fn =>
       match fn with
       | CancelScheduled _ => acc
       | RemoveLViewOnDestroy => false
       end) fns registered.

(** The state is frozen at [now]. *)
Definition frozenAt (now : Z) (w : World) : bool :=
  match STATE_IS_FROZEN_UNTIL (lDetails w) with
  | None => false
  | Some t => negb (t <=? now)
  end.

(** An accepted request for [newState] at [now] is applied, not buffered:
    either no timer is involved, or the implementation with timers is
    installed, the state is not frozen and, for [Loading], no delay is
    configured. *)
Definition appliedAtOnce (newState : DeferBlockState) (now : Z) (w : World) : Prop :=
  needsScheduling false w = false
  \/ (applyDeferBlockStateWithSchedulingImpl (env w) = true
      /\ frozenAt now w = false
      /\ (newState = Loading -> getLoadingBlockAfter (tDetails w) = None)).

(** The loading machinery is left as it was; identifiers may have been drawn. *)
Definition loadFrame (w w' : World) : Prop :=
  tDetails w' = tDetails w /\ pendingLoad w' = pendingLoad w
  /\ resolverCalls w' = resolverCalls w /\ fulfilled w' = fulfilled w
  /\ env w' = env w /\ (nextId w <= nextId w')%nat.

(** The loading state, the loading promise and the promise that is pending
    go together, and the dependency function was called at most once. *)
Definition LoadInv (w : World) : Prop :=
  match loadingState (tDetails w) with
  | NOT_STARTED =>
      loadingPromise (tDetails w) = None /\ pendingLoad w = None /\ resolverCalls w = []
  | IN_PROGRESS =>
      (exists pl, pendingLoad w = Some pl
                  /\ loadingPromise (tDetails w) = Some (pendingPromise pl)
                  /\ ~ In (pendingPromise pl) (fulfilled w)
                  /\ (pendingPromise pl < nextId w)%nat)
      /\ (List.length (resolverCalls w) <= 1)%nat
  | _ =>
      loadingPromise (tDetails w) = None /\ pendingLoad w = None
      /\ (List.length (resolverCalls w) <= 1)%nat
  end
  /\ (forall p, In p (fulfilled w) -> (p < nextId w)%nat).

(** A promise is pending when it was created and not fulfilled. *)
Definition pendingPromiseIn (w : World) (p : PromiseId) : Prop :=
  (p < nextId w)%nat /\ ~ In p (fulfilled w).

(** *** Blocks to experiment with *)

(** A browser and a server; no view throws, no provider is imported, no
    interceptor is configured. *)
Definition browser : Env :=
  mkEnv true None false (fun _ => false) (fun _ => []) None.

Definition server : Env :=
  mkEnv false None false (fun _ => false) (fun _ => []) None.

(** [@defer { 0 } @loading { 1 } @placeholder { 2 } @error { 3 }], with a
    dependency function. *)
Definition fullBlock (e : Env) : World :=
  ɵɵdefer e 0%nat (Some 7%nat) (Some 1%nat) (Some 2%nat) (Some 3%nat) None None false.

(** A loaded component class and a loaded pipe class. *)
Definition someComponent : DependencyType :=
  mkDependency (Some (mkDef 11%nat)) None None.

Definition somePipe : DependencyType := mkDependency None None (Some (mkDef 12%nat)).

(** [@defer { 0 } @placeholder { 2 }]: there is no loading template. *)
Definition plainBlock (e : Env) : World :=
  ɵɵdefer e 0%nat None None (Some 2%nat) None None None false.

(** [@defer { 0 } @loading (after 200ms) { 1 } @placeholder { 2 } @error { 3 }] *)
Definition afterBlock (e : Env) : World :=
  ɵɵdefer e 0%nat (Some 7%nat) (Some 1%nat) (Some 2%nat) (Some 3%nat)
    (Some (mkLoadingConfig None (Some 200))) None true.

(** [@defer { 0 } @loading (after 1000ms) { 1 } @placeholder (minimum 100ms) { 2 }
    @error { 3 }], in a browser. *)
Definition minimumAndAfterBlock : World :=
  ɵɵdefer browser 0%nat (Some 7%nat) (Some 1%nat) (Some 2%nat) (Some 3%nat)
    (Some (mkLoadingConfig None (Some 1000))) (Some (mkPlaceholderConfig (Some 100))) true.

(** *** Vocabulary of further statements *)

(** The part of the instance that only a rendering request writes: what is
    visible, the buffered state, the freeze, the clean-up function of the
    delay timer; with it, what no function of the file writes after the
    creation pass. *)
Definition renderFrame (w w' : World) : Prop :=
  visible w' = visible w
  /\ NEXT_DEFER_BLOCK_STATE (lDetails w') = NEXT_DEFER_BLOCK_STATE (lDetails w)
  /\ STATE_IS_FROZEN_UNTIL (lDetails w') = STATE_IS_FROZEN_UNTIL (lDetails w)
  /\ LOADING_AFTER_CLEANUP_FN (lDetails w') = LOADING_AFTER_CLEANUP_FN (lDetails w)
  /\ env w' = env w
  /\ hostDestroyed w' = hostDestroyed w.

(** The events that prefetch: the prefetch instructions, the exported
    functions that load, and the settling of the loading promise. *)
Definition prefetches (e : Event) : bool :=
  match e with
  | DeferPrefetchWhen _ | DeferPrefetchOnIdle | DeferPrefetchOnTimer _
  | DeferPrefetchOnImmediate | TriggerPrefetch | TriggerLoading | Settle _ => true
  | _ => false
  end.

(** Every event but a direct call of [renderDeferBlockState]. *)
Definition notRender (e : Event) : bool :=
  match e with
  | Render _ _ => false
  | _ => true
  end.

(** Nothing above the placeholder is rendered or buffered, no reaction waits
    on the loading promise, and the block may not be triggered. *)
Definition placeholderOnly (w : World) : Prop :=
  rank w <= 0 /\ nextOrMinusOne (lDetails w) <= 0 /\ reactions w = []
  /\ shouldTriggerDeferBlock (env w) = false.

(** A pending task is held exactly while the dependencies are loading. *)
Definition TaskInv (w : World) : Prop :=
  match loadingState (tDetails w) with
  | IN_PROGRESS => exists pl, pendingLoad w = Some pl /\ pendingTasks w = [pendingTask pl]
  | _ => pendingTasks w = []
  end.

(** The closure that cancels the scheduled callback [s] is stored under the
    triggers of category [type]. *)
Definition cancellable (type : TriggerType) (w : World) (s : Scheduled) : Prop :=
  exists fns, cleanupFnsOf type (lDetails w) = Some fns
              /\ In (CancelScheduled (schedId s)) fns.

(** Every scheduled callback has an identifier that was drawn, and every
    scheduled trigger can be cancelled through the instance. *)
Definition SchedInv (w : World) : Prop :=
  forall s, In s (scheduled w) ->
    (schedId s < nextId w)%nat
    /\ (callback s = TriggerDeferBlock -> cancellable Regular w s)
    /\ (callback s = TriggerPrefetching -> cancellable Prefetch w s).

(** No trigger is scheduled: what is left are updates of the rendered state. *)
Definition noTriggerScheduled (w : World) : Prop :=
  forall s, In s (scheduled w) -> callback s = DeferBlockUpdate.

(** What a block is compiled with: its templates and its timing
    configuration. *)
Definition staticConfig (t : TDeferBlockDetails) :=
  (primaryTmplIndex t, loadingTmplIndex t, placeholderTmplIndex t, errorTmplIndex t,
   placeholderBlockConfig t, loadingBlockConfig t).

(** The templates of the views in the container. *)
Definition templatesOf (w : World) : list nat := map viewTemplate (lContainer w).

(** The definition under which a loaded class is registered as a directive:
    its component definition, or else its directive definition. *)
Definition directiveDefOf (d : DependencyType) : option Def :=
  match getComponentDef d with
  | Some def => Some def
  | None => getDirectiveDef d
  end.

(** The results before the first rejected one. *)
Fixpoint beforeRejection (results : list PromiseSettledResult) : list DependencyType :=
  match results with
  | Fulfilled d :: rest => d :: beforeRejection rest
  | _ => []
  end.

(** The directive definitions and the pipe definitions of loaded classes, in
    the order of the classes; a class that has a directive definition is not
    looked at as a pipe. *)
Definition directiveDefsOf (ds : list DependencyType) : list Def :=
  flat_map (fun d => match directiveDefOf d with Some def => [def] | None => [] end) ds.

Definition pipeDefsOf (ds : list DependencyType) : list Def :=
  flat_map (fun d => match directiveDefOf d, getPipeDef d with
                     | None, Some def => [def]
                     | _, _ => []
                     end) ds.

(** The scheduled callback [id] is an update of the rendered state (the
    callback of [scheduleDeferBlockUpdate]). *)
Definition updatesState (id : nat) (w : World) : bool :=
  match find (fun s => Nat.eqb (schedId s) id) (scheduled w) with
  | Some s => match callback s with DeferBlockUpdate => true | _ => false end
  | None => false
  end.

(** An event that is neither a request that skips the timers (the testing
    API) nor the callback of a state timer. *)
Definition respectsFreeze (w : World) (e : Event) : bool :=
  match e with
  | Render _ skipTimerScheduling => negb skipTimerScheduling
  | Fire id => negb (updatesState id w)
  | _ => true
  end.

(** Every event of the sequence happens before [until] and respects the
    freeze. *)
Fixpoint withinFreeze (until : Z) (trace : list (Z * Event)) (w : World) : bool :=
  match trace with
  | [] => true
  | (now, e) :: rest =>
      (now <? until) && respectsFreeze w e && withinFreeze until rest (handle now e w)
  end.

(** The state is frozen until [until], with the timers in play. *)
Definition frozenUntil (until : Z) (w : World) : Prop :=
  STATE_IS_FROZEN_UNTIL (lDetails w) = Some until
  /\ needsScheduling false w = true
  /\ applyDeferBlockStateWithSchedulingImpl (env w) = true.

(** What is shown is what [w0] shows, and the state is still frozen. *)
Definition stillFrozen (until : Z) (w0 w : World) : Prop :=
  visible w = visible w0 /\ frozenUntil until w.

(** An accepted request at [now] reaches [applyDeferBlockState]: no timer is
    in play, or the implementation with timers is installed, the state is
    not frozen and the request is not a [Loading] that is put off by its
    [after] delay. *)
Definition reachesApply (newState : DeferBlockState) (skip : bool) (now : Z)
    (w : World) : Prop :=
  needsScheduling skip w = false
  \/ (applyDeferBlockStateWithSchedulingImpl (env w) = true
      /\ frozenAt now w = false
      /\ (newState = Loading ->
            getLoadingBlockAfter (tDetails w) = None
            \/ LOADING_AFTER_CLEANUP_FN (lDetails w) <> None)).

End Defer.

(* ===================================================================== *)
(** ** Properties of the rounding to doubles                              *)
(* ===================================================================== *)

Module NumberFacts.
Import TimeParser.
Local Open Scope Q_scope.

(** *** Powers of two *)

Lemma pow2_pos e : 0 < 2 ^ e.
Proof. apply Qpower_0_lt. reflexivity. Qed.

Lemma pow2_plus a b : 2 ^ (a + b) == 2 ^ a * 2 ^ b.
Proof. apply Qpower_plus. discriminate. Qed.

Lemma pow2_opp a : 2 ^ (- a) * 2 ^ a == 1.
Proof.
  rewrite <- pow2_plus. replace (- a + a)%Z with 0%Z by lia. reflexivity.
Qed.

Lemma pow2_le a b : (a <= b)%Z -> 2 ^ a <= 2 ^ b.
Proof. intros H. apply Qpower_le_compat_l; [exact H | discriminate]. Qed.

Lemma pow2_lt a b : (a < b)%Z -> 2 ^ a < 2 ^ b.
Proof. intros H. apply Qpower_lt_compat_l; [exact H | reflexivity]. Qed.

Lemma pow2_succ a : 2 ^ (a + 1) == 2 * 2 ^ a.
Proof. rewrite pow2_plus. change (2 ^ 1) with 2. ring. Qed.

Lemma pow2_Z a : (0 <= a)%Z -> inject_Z (2 ^ a) == 2 ^ a.
Proof. intros H. now rewrite Zpower_Qpower. Qed.

Lemma Qabs_cases x : (0 <= x /\ Qabs x == x) \/ (x < 0 /\ Qabs x == - x).
Proof.
  destruct (Qlt_le_dec x 0) as [H|H].
  - right. split; [exact H|]. apply Qabs_neg. lra.
  - left. split; [exact H|]. now apply Qabs_pos.
Qed.

(** *** The nearest integer *)

(** No integer is nearer to [t] than [roundHalfEven t]. *)
Lemma roundHalfEven_near t (k : Z) :
  Qabs (inject_Z (roundHalfEven t) - t) <= Qabs (inject_Z k - t).
Proof.
  unfold roundHalfEven.
  pose proof (Qfloor_le t) as L. pose proof (Qlt_floor t) as U.
  set (q := Qfloor t) in *.
  rewrite inject_Z_plus in U. change (inject_Z 1) with 1 in U.
  assert (K : (k <= q)%Z \/ (q + 1 <= k)%Z) by lia.
  assert (K' : inject_Z k <= inject_Z q \/ inject_Z q + 1 <= inject_Z k).
  { destruct K as [K|K]; [left | right].
    - now rewrite <- Zle_Qle.
    - rewrite Zle_Qle in K. rewrite inject_Z_plus in K. exact K. }
  destruct (Qabs_cases (inject_Z k - t)) as [[A1 A2]|[A1 A2]]; rewrite A2.
  - destruct (Qcompare_spec (t - inject_Z q) (1 # 2)) as [E|E|E];
      [destruct (Z.even q)|..]; rewrite ?inject_Z_plus; change (inject_Z 1) with 1;
      match goal with |- Qabs ?x <= _ =>
        destruct (Qabs_cases x) as [[B1 B2]|[B1 B2]]; rewrite B2 end; lra.
  - destruct (Qcompare_spec (t - inject_Z q) (1 # 2)) as [E|E|E];
      [destruct (Z.even q)|..]; rewrite ?inject_Z_plus; change (inject_Z 1) with 1;
      match goal with |- Qabs ?x <= _ =>
        destruct (Qabs_cases x) as [[B1 B2]|[B1 B2]]; rewrite B2 end; lra.
Qed.

(** Of two integers equally near, the even one is taken. *)
Lemma roundHalfEven_tie t (k : Z) :
  k <> roundHalfEven t ->
  Qabs (inject_Z k - t) == Qabs (inject_Z (roundHalfEven t) - t) ->
  Z.even (roundHalfEven t) = true.
Proof.
  unfold roundHalfEven.
  pose proof (Qfloor_le t) as L. pose proof (Qlt_floor t) as U.
  set (q := Qfloor t) in *.
  rewrite inject_Z_plus in U. change (inject_Z 1) with 1 in U.
  intros N E.
  assert (K' : forall j : Z, j <> k -> (k <= j)%Z -> inject_Z k + 1 <= inject_Z j).
  { intros j H1 H2. assert (H : (k + 1 <= j)%Z) by lia.
    rewrite Zle_Qle, inject_Z_plus in H. exact H. }
  assert (K'' : forall j : Z, j <> k -> (j <= k)%Z -> inject_Z j + 1 <= inject_Z k).
  { intros j H1 H2. assert (H : (j + 1 <= k)%Z) by lia.
    rewrite Zle_Qle, inject_Z_plus in H. exact H. }
  revert N E.
  destruct (Qcompare_spec (t - inject_Z q) (1 # 2)) as [C|C|C].
  - destruct (Z.even q) eqn:Ev; intros _ _; [exact Ev|].
    rewrite Z.even_add, Ev. reflexivity.
  - intros N E. exfalso.
    destruct (Z.le_ge_cases k q) as [H|H];
      [apply (K' q) in H | apply (K'' q) in H]; try congruence;
      destruct (Qabs_cases (inject_Z k - t)) as [[A1 A2]|[A1 A2]];
      destruct (Qabs_cases (inject_Z q - t)) as [[B1 B2]|[B1 B2]];
      rewrite A2, B2 in E; lra.
  - intros N E. exfalso. rewrite inject_Z_plus in E. change (inject_Z 1) with 1 in E.
    destruct (Z.le_ge_cases k (q + 1)) as [H|H];
      [apply (K' (q + 1)%Z) in H | apply (K'' (q + 1)%Z) in H]; try congruence;
      rewrite ?inject_Z_plus in H; change (inject_Z 1) with 1 in H;
      destruct (Qabs_cases (inject_Z k - t)) as [[A1 A2]|[A1 A2]];
      destruct (Qabs_cases (inject_Z q + 1 - t)) as [[B1 B2]|[B1 B2]];
      rewrite A2, B2 in E; lra.
Qed.

Lemma roundHalfEven_Z (k : Z) : roundHalfEven (inject_Z k) = k.
Proof.
  unfold roundHalfEven. rewrite Qfloor_Z.
  destruct (Qcompare_spec (inject_Z k - inject_Z k) (1 # 2)) as [C|C|C];
    [exfalso; lra | reflexivity | exfalso; lra].
Qed.

Lemma roundHalfEven_comp t t' : t == t' -> roundHalfEven t = roundHalfEven t'.
Proof.
  intros E. unfold roundHalfEven. rewrite (Qfloor_comp _ _ E).
  assert (C : Qcompare (t - inject_Z (Qfloor t')) (1 # 2)
              = Qcompare (t' - inject_Z (Qfloor t')) (1 # 2)) by now rewrite E.
  now rewrite C.
Qed.

(** Between the integers that bound [t]. *)
Lemma roundHalfEven_bounds t (a b : Z) :
  inject_Z a <= t -> t <= inject_Z b -> (a <= roundHalfEven t <= b)%Z.
Proof.
  intros A B.
  pose proof (roundHalfEven_near t a) as Na. pose proof (roundHalfEven_near t b) as Nb.
  set (m := roundHalfEven t) in *.
  split; apply Z.nlt_ge; intros H.
  - assert (H' : (m + 1 <= a)%Z) by lia.
    rewrite Zle_Qle, inject_Z_plus in H'. change (inject_Z 1) with 1 in H'.
    destruct (Qabs_cases (inject_Z m - t)) as [[B1 B2]|[B1 B2]];
      destruct (Qabs_cases (inject_Z a - t)) as [[C1 C2]|[C1 C2]];
      rewrite B2, C2 in Na; lra.
  - assert (H' : (b + 1 <= m)%Z) by lia.
    rewrite Zle_Qle, inject_Z_plus in H'. change (inject_Z 1) with 1 in H'.
    destruct (Qabs_cases (inject_Z m - t)) as [[B1 B2]|[B1 B2]];
      destruct (Qabs_cases (inject_Z b - t)) as [[C1 C2]|[C1 C2]];
      rewrite B2, C2 in Nb; lra.
Qed.

(** *** The exponent *)

Lemma log2_bounds (n : Z) :
  (0 < n)%Z -> 2 ^ Z.log2 n <= inject_Z n /\ inject_Z n < 2 * 2 ^ Z.log2 n.
Proof.
  intros H. destruct (Z.log2_spec n H) as [L U].
  pose proof (Z.log2_nonneg n) as P.
  rewrite Zle_Qle in L. rewrite Zlt_Qlt in U.
  rewrite pow2_Z in L by exact P. rewrite pow2_Z in U by lia.
  replace (Z.succ (Z.log2 n)) with (Z.log2 n + 1)%Z in U by lia.
  rewrite pow2_succ in U. now split.
Qed.

(** The first estimate of the exponent is right or one too high. *)
Lemma estimate_bounds v :
  0 < v ->
  let e0 := (Z.log2 (Qnum v) - Z.log2 (Zpos (Qden v)) - 52)%Z in
  2 ^ 51 < v * 2 ^ (- e0) /\ v * 2 ^ (- e0) < 2 ^ 53.
Proof.
  intros V e0. destruct v as [n d]. cbn [Qnum Qden] in *.
  assert (Hn : (0 < n)%Z) by (unfold Qlt in V; cbn in V; lia).
  destruct (log2_bounds n Hn) as [L1 U1].
  destruct (log2_bounds (Zpos d) eq_refl) as [L2 U2].
  set (a := Z.log2 n) in *. set (b := Z.log2 (Zpos d)) in *.
  pose proof (pow2_pos a) as Pa. pose proof (pow2_pos b) as Pb.
  assert (E : 2 ^ (- e0) * 2 ^ a == 2 ^ 52 * 2 ^ b).
  { rewrite <- !pow2_plus. subst e0. apply Qpower_comp; [reflexivity | lia]. }
  assert (V' : (n # d) * inject_Z (Zpos d) == inject_Z n).
  { rewrite (Qmake_Qdiv n d). field. discriminate. }
  set (x := 2 ^ (- e0)) in *. set (A := 2 ^ a) in *. set (B := 2 ^ b) in *.
  set (N := inject_Z n) in *. set (D := inject_Z (Zpos d)) in *. set (v := n # d) in *.
  assert (PD : 0 < D) by lra.
  assert (Px : 0 < x) by apply pow2_pos.
  change (2 ^ 51) with (inject_Z (2 ^ 51)). change (2 ^ 53) with (inject_Z (2 ^ 53)).
  change (2 ^ 52) with (inject_Z (2 ^ 52)) in E.
  set (c := inject_Z (2 ^ 52)) in *.
  assert (C1 : inject_Z (2 ^ 51) * 2 == c) by reflexivity.
  assert (C2 : inject_Z (2 ^ 53) == c * 2) by reflexivity.
  assert (Pc : 0 < c) by reflexivity.
  split.
  - apply Qnot_le_lt. intros H.
    assert (H1 : v * x * (D * A) <= inject_Z (2 ^ 51) * (D * A)) by nra.
    assert (H2 : v * x * (D * A) == N * c * B).
    { transitivity ((v * D) * (x * A)); [ring|]. rewrite V', E. ring. }
    rewrite H2 in H1. nra.
  - apply Qnot_le_lt. intros H.
    assert (H1 : inject_Z (2 ^ 53) * (D * A) <= v * x * (D * A)) by nra.
    assert (H2 : v * x * (D * A) == N * c * B).
    { transitivity ((v * D) * (x * A)); [ring|]. rewrite V', E. ring. }
    rewrite H2 in H1. nra.
Qed.

Lemma exponentOf_spec v :
  0 < v ->
  let e := exponentOf v in
  (-1074 <= e)%Z
  /\ v * 2 ^ (- e) < 2 ^ 53
  /\ ((-1074 < e)%Z -> 2 ^ 52 <= v * 2 ^ (- e)).
Proof.
  intros V e. subst e. unfold exponentOf.
  destruct (estimate_bounds v V) as [L U].
  set (e0 := (Z.log2 (Qnum v) - Z.log2 (Zpos (Qden v)) - 52)%Z) in *.
  assert (S : v * 2 ^ (- (e0 - 1)) == 2 * (v * 2 ^ (- e0))).
  { replace (- (e0 - 1))%Z with (- e0 + 1)%Z by lia. rewrite pow2_succ. ring. }
  set (e1 := if Qle_bool (2 ^ 52) (v * 2 ^ (- e0)) then e0 else (e0 - 1)%Z).
  assert (B : 2 ^ 52 <= v * 2 ^ (- e1) /\ v * 2 ^ (- e1) < 2 ^ 53).
  { subst e1. destruct (Qle_bool (2 ^ 52) (v * 2 ^ (- e0))) eqn:C.
    - apply Qle_bool_iff in C. now split.
    - assert (C' : v * 2 ^ (- e0) < 2 ^ 52).
      { apply Qnot_le_lt. intros H. apply Qle_bool_iff in H. congruence. }
      rewrite S. change (2 ^ 52) with (2 * 2 ^ 51). change (2 ^ 53) with (2 * 2 ^ 52).
      change (2 ^ 52) with (2 * 2 ^ 51) in C'. split; lra. }
  clearbody e1. destruct B as [B1 B2].
  split; [lia|].
  destruct (Z.max_spec (-1074) e1) as [[H ->]|[H ->]].
  - split; [exact B2 | intros _; exact B1].
  - split; [|lia].
    assert (M : 2 ^ (- -1074) <= 2 ^ (- e1)) by (apply pow2_le; lia).
    pose proof (pow2_pos (- e1)). pose proof (pow2_pos (- -1074)).
    apply Qle_lt_trans with (v * 2 ^ (- e1)); [|exact B2].
    apply Qmult_le_l; [exact V | exact M].
Qed.

Lemma scale_shift v a b : v * 2 ^ (- a) == v * 2 ^ (- b) * 2 ^ (b - a).
Proof.
  rewrite <- Qmult_assoc, <- pow2_plus.
  replace (- b + (b - a))%Z with (- a)%Z by lia. reflexivity.
Qed.

Lemma exponentOf_unique v a :
  0 < v -> (-1074 <= a)%Z -> v * 2 ^ (- a) < 2 ^ 53 ->
  ((-1074 < a)%Z -> 2 ^ 52 <= v * 2 ^ (- a)) ->
  exponentOf v = a.
Proof.
  intros V A1 A2 A3. destruct (exponentOf_spec v V) as (E1 & E2 & E3).
  set (e := exponentOf v) in *.
  assert (K : forall x y, (x < y)%Z -> 2 ^ 52 <= v * 2 ^ (- y) ->
            v * 2 ^ (- x) < 2 ^ 53 -> False).
  { intros x y H L U. rewrite (scale_shift v x y) in U.
    assert (M : 2 ^ 1 <= 2 ^ (y - x)) by (apply pow2_le; lia).
    change (2 ^ 1) with 2 in M. change (2 ^ 53) with (2 ^ 52 * 2) in U.
    assert (P : 0 < 2 ^ 52) by reflexivity.
    set (c := 2 ^ 52) in *. set (s := 2 ^ (y - x)) in *. set (u := v * 2 ^ (- y)) in *.
    nra. }
  destruct (Z.lt_trichotomy e a) as [H|[H|H]]; [exfalso | exact H | exfalso].
  - apply (K e a H); [apply A3; lia | exact E2].
  - apply (K a e H); [apply E3; lia | exact A2].
Qed.

(** *** The nearest double *)

Lemma Qabs_scale a e : Qabs (a * 2 ^ e) == Qabs a * 2 ^ e.
Proof.
  rewrite Qabs_Qmult. rewrite (Qabs_pos (2 ^ e)); [reflexivity|].
  apply Qlt_le_weak, pow2_pos.
Qed.

Lemma candidate_form z :
  candidate z ->
  exists m e, (Z.abs m <= 2 ^ 53)%Z /\ (-1074 <= e <= 971)%Z /\ z == inject_Z m * 2 ^ e.
Proof.
  intros [(m & e & [[H1 H2]|[H1 H2]] & E)|H].
  - exists m, e. repeat split; try lia. exact E.
  - exists m, e. repeat split; try lia. exact E.
  - destruct (Qabs_cases z) as [[A1 A2]|[A1 A2]]; rewrite A2 in H.
    + exists (2 ^ 53)%Z, 971%Z. repeat split; try lia. rewrite H. reflexivity.
    + exists (- 2 ^ 53)%Z, 971%Z. repeat split; try lia.
      assert (E : z == - 2 ^ 1024) by lra. rewrite E. reflexivity.
Qed.

(** A candidate is a multiple of [2^e], or it lies at or below the lower end
    of the binade of exponent [e]. *)
Lemma candidate_grid z e :
  candidate z -> (-1074 <= e)%Z ->
  (exists k : Z, z == inject_Z k * 2 ^ e)
  \/ ((-1074 < e)%Z /\ z <= 2 ^ 52 * 2 ^ e).
Proof.
  intros C E. apply candidate_form in C as (m & e' & M & E' & Ez).
  destruct (Z.le_gt_cases e e') as [H|H].
  - left. exists (m * 2 ^ (e' - e))%Z. rewrite Ez.
    rewrite inject_Z_mult, pow2_Z by lia.
    rewrite <- Qmult_assoc, <- pow2_plus.
    replace (e' - e + e)%Z with e' by lia. reflexivity.
  - right. split; [lia|].
    assert (M' : inject_Z m <= 2 ^ 53).
    { change (2 ^ 53) with (inject_Z (2 ^ 53)). rewrite <- Zle_Qle. lia. }
    assert (P : 2 ^ e' <= 2 ^ (e - 1)) by (apply pow2_le; lia).
    assert (S : 2 ^ 52 * 2 ^ e == 2 ^ 53 * 2 ^ (e - 1)).
    { replace e with (e - 1 + 1)%Z at 1 by lia. rewrite pow2_succ.
      change (2 ^ 53) with (2 ^ 52 * 2). ring. }
    rewrite S, Ez. pose proof (pow2_pos e'). pose proof (pow2_pos (e - 1)).
    assert (P53 : 0 < 2 ^ 53) by reflexivity.
    set (c := 2 ^ 53) in *. set (x := 2 ^ e') in *. set (y := 2 ^ (e - 1)) in *.
    set (mq := inject_Z m) in *. nra.
Qed.

Lemma candidate_below z : candidate z -> z <= 2 ^ 1024.
Proof.
  intros C. apply candidate_form in C as (m' & e' & M & E & Ez). rewrite Ez.
  assert (M' : inject_Z m' <= 2 ^ 53).
  { change (2 ^ 53) with (inject_Z (2 ^ 53)). rewrite <- Zle_Qle. lia. }
  assert (P : 2 ^ e' <= 2 ^ 971) by (apply pow2_le; lia).
  pose proof (pow2_pos e').
  change (2 ^ 1024) with (2 ^ 53 * 2 ^ 971).
  assert (P53 : 0 < 2 ^ 53) by reflexivity.
  set (c := 2 ^ 53) in *. set (x := 2 ^ e') in *. set (x' := 2 ^ 971) in *.
  set (mq := inject_Z m') in *. nra.
Qed.

Lemma candidate_limit : candidate (2 ^ 1024).
Proof. right. reflexivity. Qed.

(** What [roundPositive] computes for a positive [v]: with [e] the exponent
    of [v] and [m] the integer nearest to [t = v / 2^e], the value
    [y = m * 2^e]. *)
Section Nearest.
Variable v : Q.
Hypothesis v_pos : 0 < v.

Let e := exponentOf v.
Let t := v * 2 ^ (- e).
Let m := roundHalfEven t.
Let y := inject_Z m * 2 ^ e.

Lemma scaled_value : v == t * 2 ^ e.
Proof. unfold t. rewrite <- Qmult_assoc, pow2_opp. ring. Qed.

Lemma scaled_pos : 0 < t.
Proof. unfold t. pose proof (pow2_pos (- e)). nra. Qed.

Lemma rounded_bounds : (0 <= m <= 2 ^ 53)%Z /\ ((-1074 < e)%Z -> (2 ^ 52 <= m)%Z).
Proof.
  destruct (exponentOf_spec v v_pos) as (E1 & E2 & E3). fold e t in E2, E3.
  pose proof scaled_pos as T. split.
  - apply roundHalfEven_bounds; [now apply Qlt_le_weak | now apply Qlt_le_weak].
  - intros H. apply (roundHalfEven_bounds t (2 ^ 52) (2 ^ 53));
      [now apply E3 | now apply Qlt_le_weak].
Qed.

Lemma rounded_on_grid (k : Z) : Qabs (y - v) <= Qabs (inject_Z k * 2 ^ e - v).
Proof.
  assert (E1 : y - v == (inject_Z m - t) * 2 ^ e) by (unfold y; rewrite scaled_value; ring).
  assert (E2 : inject_Z k * 2 ^ e - v == (inject_Z k - t) * 2 ^ e)
    by (rewrite scaled_value; ring).
  rewrite E1, E2, !Qabs_scale.
  apply Qmult_le_compat_r; [apply roundHalfEven_near | apply Qlt_le_weak, pow2_pos].
Qed.

Lemma rounded_below_binade z :
  (-1074 < e)%Z -> z <= 2 ^ 52 * 2 ^ e ->
  2 ^ 52 * 2 ^ e <= v /\ Qabs (y - v) <= v - 2 ^ 52 * 2 ^ e
  /\ Qabs (z - v) == v - z.
Proof.
  intros H Z. destruct (exponentOf_spec v v_pos) as (_ & _ & E3). fold e t in E3.
  specialize (E3 H).
  assert (B : 2 ^ 52 * 2 ^ e <= v).
  { apply Qle_trans with (t * 2 ^ e);
      [|rewrite <- scaled_value; apply Qle_refl].
    apply Qmult_le_compat_r; [exact E3 | apply Qlt_le_weak, pow2_pos]. }
  split; [exact B|]. split.
  - pose proof (rounded_on_grid (2 ^ 52)) as G. change (inject_Z (2 ^ 52)) with (2 ^ 52) in G.
    rewrite (Qabs_neg (2 ^ 52 * 2 ^ e - v)) in G by lra. lra.
  - rewrite Qabs_neg by lra. ring.
Qed.

Lemma rounded_nearest z : candidate z -> Qabs (y - v) <= Qabs (z - v).
Proof.
  intros C. destruct (exponentOf_spec v v_pos) as (E1 & _). fold e in E1.
  destruct (candidate_grid z e C E1) as [[k K]|[H Z]]; [rewrite K; apply rounded_on_grid|].
  destruct (rounded_below_binade z H Z) as (B1 & B2 & B3). rewrite B3. lra.
Qed.

Lemma rounded_tie z :
  candidate z -> Qabs (z - v) == Qabs (y - v) -> ~ z == y -> Z.even m = true.
Proof.
  intros C T N. destruct (exponentOf_spec v v_pos) as (E1 & _). fold e in E1.
  assert (G : forall k : Z, Qabs (inject_Z k * 2 ^ e - v) == Qabs (y - v) ->
              ~ inject_Z k * 2 ^ e == y -> Z.even m = true).
  { intros k T' N'. apply (roundHalfEven_tie t k).
    - intros ->. apply N'. reflexivity.
    - assert (A1 : y - v == (inject_Z m - t) * 2 ^ e) by (unfold y; rewrite scaled_value; ring).
      assert (A2 : inject_Z k * 2 ^ e - v == (inject_Z k - t) * 2 ^ e)
        by (rewrite scaled_value; ring).
      rewrite A1, A2, !Qabs_scale in T'.
      apply Qmult_inj_r in T'; [exact T'|].
      pose proof (pow2_pos e). lra. }
  destruct (candidate_grid z e C E1) as [[k K]|[H Z]].
  - apply (G k); rewrite <- K; assumption.
  - destruct (rounded_below_binade z H Z) as (B1 & B2 & B3).
    assert (Zb : z == 2 ^ 52 * 2 ^ e) by lra.
    apply (G (2 ^ 52)%Z); change (inject_Z (2 ^ 52)) with (2 ^ 52);
      rewrite <- Zb; assumption.
Qed.

Lemma rounded_below : (exponentOf v <= 971)%Z -> y <= 2 ^ 1024.
Proof.
  intros H. fold e in H. destruct rounded_bounds as [[M0 M1] _].
  assert (M : inject_Z m <= 2 ^ 53).
  { change (2 ^ 53) with (inject_Z (2 ^ 53)). now rewrite <- Zle_Qle. }
  assert (M' : 0 <= inject_Z m).
  { change 0 with (inject_Z 0). now rewrite <- Zle_Qle. }
  assert (P : 2 ^ e <= 2 ^ 971) by now apply pow2_le.
  pose proof (pow2_pos e). unfold y.
  change (2 ^ 1024) with (2 ^ 53 * 2 ^ 971).
  assert (P53 : 0 < 2 ^ 53) by reflexivity.
  set (c := 2 ^ 53) in *. set (x := 2 ^ e) in *. set (x' := 2 ^ 971) in *.
  set (mq := inject_Z m) in *. nra.
Qed.

Lemma rounded_nonneg : 0 <= y.
Proof.
  destruct rounded_bounds as [[M0 _] _].
  assert (M' : 0 <= inject_Z m).
  { change 0 with (inject_Z 0). now rewrite <- Zle_Qle. }
  pose proof (pow2_pos e). unfold y. nra.
Qed.

(** Below [2^1024] the rounded value is a double, with an even significand
    if [m] is even. *)
Lemma rounded_double :
  y < 2 ^ 1024 ->
  exists m', significand y m' /\ (Z.even m = true -> Z.even m' = true)
             /\ (0 <= m')%Z.
Proof.
  intros Y. destruct (exponentOf_spec v v_pos) as (E1 & _). fold e in E1.
  destruct rounded_bounds as [[M0 M1] M2].
  assert (E971 : (e <= 971)%Z).
  { apply Z.nlt_ge. intros H. specialize (M2 ltac:(lia)).
    assert (M : 2 ^ 52 <= inject_Z m).
    { change (2 ^ 52) with (inject_Z (2 ^ 52)). now rewrite <- Zle_Qle. }
    assert (P : 2 ^ 972 <= 2 ^ e) by (apply pow2_le; lia).
    unfold y in Y. change (2 ^ 1024) with (2 ^ 52 * 2 ^ 972) in Y.
    assert (P52 : 0 < 2 ^ 52) by reflexivity.
    assert (P972 : 0 < 2 ^ 972) by apply pow2_pos.
    set (c := 2 ^ 52) in *. set (x := 2 ^ e) in *. set (x' := 2 ^ 972) in *.
    set (mq := inject_Z m) in *. nra. }
  destruct (Z.eq_dec m (2 ^ 53)) as [Em|Nm].
  - assert (Ey : y == inject_Z (2 ^ 52) * 2 ^ (e + 1)).
    { unfold y. rewrite Em, pow2_succ.
      change (inject_Z (2 ^ 53)) with (2 * inject_Z (2 ^ 52)). ring. }
    assert (E970 : (e + 1 <= 971)%Z).
    { apply Z.nlt_ge. intros H. assert (e = 971%Z) by lia.
      rewrite Ey in Y. replace (e + 1)%Z with 972%Z in Y by lia.
      revert Y. apply Qle_not_lt. apply Qle_refl. }
    exists (2 ^ 52)%Z. split; [|split; [reflexivity | lia]].
    exists (e + 1)%Z. split; [left; lia | exact Ey].
  - exists m. split; [|split; [auto | lia]].
    exists e. split; [|reflexivity].
    destruct (Z.le_gt_cases (2 ^ 52) m) as [H|H]; [left; lia | right].
    split; [lia|]. apply Z.le_antisymm; [|exact E1].
    apply Z.nlt_ge. intros H'. specialize (M2 H'). lia.
Qed.

Theorem roundPositive_value : numberValueFor v (roundPositive v).
Proof.
  unfold roundPositive. fold e t m y.
  destruct (exponentOf_spec v v_pos) as (E1 & E2 & E3). fold e t in E1, E2, E3.
  destruct (Z.le_gt_cases e 971) as [He|He].
  - (* the rounded value is at most 2^1024 *)
    pose proof (rounded_below He) as Yb. pose proof rounded_nonneg as Y0.
    exists y.
    assert (Cy : candidate y /\ (Z.even m = true -> evenSignificand y)).
    { destruct (Qlt_le_dec y (2 ^ 1024)) as [Y|Y].
      - destruct (rounded_double Y) as (m' & S & Ev & _).
        split; [left; now exists m' | intros H; left; exists m'; auto].
      - assert (Ey : Qabs y == 2 ^ 1024) by (rewrite Qabs_pos; lra).
        split; [now right | intros _; now right]. }
    destruct Cy as [Cy Ev].
    split; [split; [split; [exact Cy | apply rounded_nearest]|]|].
    + intros z [Cz Nz] N. apply Ev. apply (rounded_tie z Cz); [|exact N].
      apply Qle_antisym; [now apply Nz | now apply rounded_nearest].
    + destruct (Qle_bool (2 ^ 1024) y) eqn:B; unfold denotes.
      * apply Qle_bool_iff in B. lra.
      * assert (Y : y < 2 ^ 1024).
        { apply Qnot_le_lt. intros H. apply Qle_bool_iff in H. congruence. }
        split; [apply Qred_correct|]. rewrite Qabs_pos by exact Y0. lra.
  - (* the value is 2^1024 or more *)
    assert (V : 2 ^ 1024 <= v).
    { specialize (E3 ltac:(lia)).
      assert (P : 2 ^ 972 <= 2 ^ e) by (apply pow2_le; lia).
      apply Qle_trans with (t * 2 ^ e); [|rewrite <- scaled_value; apply Qle_refl].
      change (2 ^ 1024) with (2 ^ 52 * 2 ^ 972).
      assert (P52 : 0 < 2 ^ 52) by reflexivity.
      assert (P972 : 0 < 2 ^ 972) by apply pow2_pos.
      set (c := 2 ^ 52) in *. set (x := 2 ^ e) in *. set (x' := 2 ^ 972) in *.
      clearbody t. nra. }
    assert (Y : 2 ^ 1024 <= y).
    { destruct rounded_bounds as [_ M2]. specialize (M2 ltac:(lia)).
      assert (M : 2 ^ 52 <= inject_Z m).
      { change (2 ^ 52) with (inject_Z (2 ^ 52)). now rewrite <- Zle_Qle. }
      assert (P : 2 ^ 972 <= 2 ^ e) by (apply pow2_le; lia).
      unfold y. change (2 ^ 1024) with (2 ^ 52 * 2 ^ 972).
      assert (P52 : 0 < 2 ^ 52) by reflexivity.
      assert (P972 : 0 < 2 ^ 972) by apply pow2_pos.
      set (c := 2 ^ 52) in *. set (x := 2 ^ e) in *. set (x' := 2 ^ 972) in *.
      set (mq := inject_Z m) in *. nra. }
    apply Qle_bool_iff in Y. rewrite Y.
    exists (2 ^ 1024). split; [|reflexivity].
    split; [split; [apply candidate_limit|] | intros _ _ _; now right].
    intros z Cz. pose proof (candidate_below z Cz) as Zb.
    assert (A1 : Qabs (2 ^ 1024 - v) == v - 2 ^ 1024)
      by (rewrite Qabs_neg; [ring | lra]).
    assert (A2 : Qabs (z - v) == v - z) by (rewrite Qabs_neg; [ring | lra]).
    rewrite A1, A2. lra.
Qed.

End Nearest.

(** *** Negative numbers *)

Lemma significand_opp y m : significand y m -> significand (- y) (- m).
Proof.
  intros (e & H & E). exists e. rewrite Z.abs_opp. split; [exact H|].
  rewrite E, inject_Z_opp. ring.
Qed.

Lemma candidate_opp y : candidate y -> candidate (- y).
Proof.
  intros [[m S]|H]; [left; exists (- m)%Z; now apply significand_opp | right].
  now rewrite Qabs_opp.
Qed.

Lemma evenSignificand_opp y : evenSignificand y -> evenSignificand (- y).
Proof.
  intros [(m & S & E)|H]; [left | right; now rewrite Qabs_opp].
  exists (- m)%Z. split; [now apply significand_opp | now rewrite Z.even_opp].
Qed.

Lemma Qabs_opp_minus a b : Qabs (- a - - b) == Qabs (a - b).
Proof.
  assert (E : - a - - b == - (a - b)) by ring. now rewrite E, Qabs_opp.
Qed.

Lemma closest_opp v y : closest v y -> closest (- v) (- y).
Proof.
  intros [C N]. split; [now apply candidate_opp|].
  intros z Cz. rewrite Qabs_opp_minus.
  assert (E : z - - v == - (- z - v)) by ring. rewrite E, Qabs_opp.
  apply N. now apply candidate_opp.
Qed.

Lemma chosen_opp v y : chosen v y -> chosen (- v) (- y).
Proof.
  intros [C T]. split; [now apply closest_opp|].
  intros z Cz N. apply evenSignificand_opp. apply (T (- z)).
  - apply closest_opp in Cz. revert Cz. unfold closest.
    intros [C1 C2]. split; [exact C1|]. intros z' Cz'.
    assert (E : - z - v == - z - - - v) by ring. rewrite E.
    assert (E' : z' - v == z' - - - v) by ring. rewrite E'. now apply C2.
  - intros H. apply N. rewrite <- (Qopp_involutive z), H. ring.
Qed.

Lemma numberValueFor_opp v x : numberValueFor v x -> numberValueFor (- v) (jsNeg x).
Proof.
  intros (y & C & D). exists (- y). split; [now apply chosen_opp|].
  destruct x as [|[]|q]; cbn [denotes jsNeg negb] in *; try contradiction.
  - rewrite D. ring.
  - rewrite D. reflexivity.
  - destruct D as [D1 D2]. split; [now rewrite Qred_correct, D1|].
    now rewrite Qabs_opp.
Qed.

Lemma numberValueFor_comp v v' x : v == v' -> numberValueFor v x -> numberValueFor v' x.
Proof.
  intros E (y & [[C N] T] & D). exists y. split; [|exact D].
  split; [split; [exact C|] |].
  - intros z Cz. rewrite <- E. now apply N.
  - intros z [Cz Nz] H. apply (T z); [|exact H]. split; [exact Cz|].
    intros z' Cz'. rewrite E. now apply Nz.
Qed.

Lemma zero_value : numberValueFor 0 (Num 0).
Proof.
  exists 0. split; [|split; [reflexivity | discriminate]].
  assert (C : candidate 0).
  { left. exists 0%Z, (-1074)%Z. split; [right; split; [reflexivity | reflexivity]|].
    change (inject_Z 0) with 0. ring. }
  split; [split; [exact C|] |].
  - intros z _. rewrite (Qabs_pos (0 - 0)) by lra. 
    assert (E : 0 - 0 == 0) by ring. rewrite E. apply Qabs_nonneg.
  - intros z [_ Nz] H. exfalso. apply H.
    specialize (Nz 0 C). rewrite (Qabs_pos (0 - 0)) in Nz by lra.
    destruct (Qabs_cases (z - 0)) as [[A1 A2]|[A1 A2]]; rewrite A2 in Nz; lra.
Qed.

(** [toNumber] gives the Number value for every rational. *)
Theorem toNumber_value v : numberValueFor v (toNumber v).
Proof.
  unfold toNumber. destruct (Qcompare_spec v 0) as [E|L|G].
  - apply numberValueFor_comp with 0; [now symmetry | apply zero_value].
  - apply numberValueFor_comp with (- - v); [ring|].
    apply numberValueFor_opp, roundPositive_value. lra.
  - now apply roundPositive_value.
Qed.

(** *** Doubles are kept *)

Lemma isDouble_below y : isDouble y -> Qabs y < 2 ^ 1024.
Proof.
  intros (m & e & H & E).
  assert (M : (Z.abs m < 2 ^ 53)%Z /\ (e <= 971)%Z) by lia. clear H.
  destruct M as [M He]. rewrite E, Qabs_scale.
  assert (M' : Qabs (inject_Z m) <= 2 ^ 53 - 1).
  { change (2 ^ 53 - 1) with (inject_Z (2 ^ 53 - 1)).
    apply Qabs_case; intros _; [|rewrite <- inject_Z_opp]; rewrite <- Zle_Qle; lia. }
  assert (P : 2 ^ e <= 2 ^ 971) by now apply pow2_le.
  pose proof (pow2_pos e). pose proof (Qabs_nonneg (inject_Z m)).
  change (2 ^ 1024) with (2 ^ 53 * 2 ^ 971).
  assert (P53 : 0 < 2 ^ 53) by reflexivity.
  assert (P971 : 0 < 2 ^ 971) by apply pow2_pos.
  set (c := 2 ^ 53) in *. set (x := 2 ^ e) in *. set (x' := 2 ^ 971) in *.
  set (mq := Qabs (inject_Z m)) in *. nra.
Qed.

(** A double is its own Number value. *)
Lemma numberValueFor_exact v x :
  isDouble v -> numberValueFor v x -> exists q, x = Num q /\ q == v.
Proof.
  intros Dv (y & [[C N] _] & D).
  assert (E : y == v).
  { specialize (N v (or_introl Dv)).
    assert (Z0 : Qabs (v - v) == 0) by (rewrite Qabs_pos; [ring | lra]).
    rewrite Z0 in N.
    destruct (Qabs_cases (y - v)) as [[A1 A2]|[A1 A2]]; rewrite A2 in N; lra. }
  apply isDouble_below in Dv.
  destruct x as [|s|q]; cbn [denotes] in D; [contradiction | exfalso | ].
  - rewrite <- E in Dv. destruct s; rewrite D in Dv; revert Dv; apply Qle_not_lt;
      [rewrite Qabs_opp|]; rewrite Qabs_pos; try apply Qle_refl; discriminate.
  - exists q. split; [reflexivity|]. now rewrite (proj1 D).
Qed.

Lemma Qred_Qred q : Qred (Qred q) = Qred q.
Proof. apply Qred_complete, Qred_correct. Qed.

Lemma roundPositive_reduced v q : roundPositive v = Num q -> Qred q = q.
Proof.
  unfold roundPositive. destruct (Qle_bool _ _); [discriminate|].
  remember (inject_Z (roundHalfEven (v * 2 ^ (- exponentOf v))) * 2 ^ exponentOf v) as y.
  remember (Qred y) as r eqn:Er. intros [= <-]. subst r. apply Qred_Qred.
Qed.

Lemma toNumber_reduced v q : toNumber v = Num q -> Qred q = q.
Proof.
  unfold toNumber. destruct (Qcompare v 0).
  - intros [= <-]. reflexivity.
  - destruct (roundPositive (- v)) as [|s|q'] eqn:R; cbn [jsNeg]; try discriminate.
    remember (Qred (- q')) as r eqn:Er. intros [= <-]. subst r. apply Qred_Qred.
  - apply roundPositive_reduced.
Qed.

(** What [toNumber] gives is a double, or an infinity. *)
Lemma toNumber_double v q : toNumber v = Num q -> isDouble q.
Proof.
  intros E. destruct (toNumber_value v) as (y & [[C _] _] & D).
  rewrite E in D. destruct D as [D1 D2].
  destruct C as [(m & e & H & Ey)|C]; [|contradiction].
  exists m, e. split; [exact H|]. now rewrite D1.
Qed.

(** Rounding a double changes nothing. *)
Lemma toNumber_of_double v q q' :
  toNumber v = Num q -> q' == q -> toNumber q' = Num q.
Proof.
  intros E Eq. pose proof (toNumber_double v q E) as Dq.
  assert (Dq' : isDouble q').
  { destruct Dq as (m & e & H & Ey). exists m, e. split; [exact H|]. now rewrite Eq. }
  destruct (numberValueFor_exact q' (toNumber q') Dq' (toNumber_value q')) as (r & Er & Rq).
  rewrite Er. f_equal.
  rewrite <- (toNumber_reduced _ _ Er), <- (toNumber_reduced _ _ E).
  apply Qred_complete. now rewrite Rq.
Qed.

Lemma jsMul_one v : jsMul (toNumber v) (Num 1) = toNumber v.
Proof.
  destruct (toNumber v) as [|s|q] eqn:E; cbn [jsMul]; [reflexivity | reflexivity|].
  apply (toNumber_of_double v q); [exact E | ring].
Qed.

(** The sign of the Number value is that of the real. *)
Lemma toNumber_nonneg v :
  0 <= v ->
  toNumber v = Infinity false \/ exists q, toNumber v = Num q /\ 0 <= q.
Proof.
  intros V. unfold toNumber. destruct (Qcompare_spec v 0) as [E|L|G].
  - right. exists 0. split; [reflexivity | lra].
  - lra.
  - unfold roundPositive. destruct (Qle_bool _ _); [now left | right].
    eexists. split; [reflexivity|]. rewrite Qred_correct.
    pose proof (rounded_nonneg v G) as Y. exact Y.
Qed.

(** *** The Number value is determined *)

(** Two integers equally near to [t], one of them the rounded one, are
    neighbours, and [t] lies half way. *)
Lemma roundHalfEven_neighbours t (k : Z) :
  k <> roundHalfEven t ->
  Qabs (inject_Z k - t) == Qabs (inject_Z (roundHalfEven t) - t) ->
  (k = roundHalfEven t + 1 \/ k = roundHalfEven t - 1)%Z
  /\ 2 * t == inject_Z k + inject_Z (roundHalfEven t).
Proof.
  intros N E.
  pose proof (roundHalfEven_near t (Qfloor t)) as N1.
  pose proof (roundHalfEven_near t (Qfloor t + 1)) as N2.
  pose proof (Qfloor_le t) as L. pose proof (Qlt_floor t) as U.
  rewrite inject_Z_plus in N2, U. change (inject_Z 1) with 1 in N2, U.
  set (m := roundHalfEven t) in *. set (q := inject_Z (Qfloor t)) in *.
  assert (H : Qabs (inject_Z m - t) <= 1 # 2).
  { rewrite (Qabs_pos (q + 1 - t)) in N2 by lra.
    rewrite (Qabs_neg (q - t)) in N1 by lra.
    destruct (Qlt_le_dec (t - q) (1 # 2)); lra. }
  assert (D : (k <= m - 1)%Z \/ (m + 1 <= k)%Z) by lia.
  destruct D as [D|D].
  - assert (D' : inject_Z k <= inject_Z m - 1).
    { rewrite Zle_Qle in D. unfold Z.sub in D. rewrite inject_Z_plus in D. exact D. }
    destruct (Qabs_cases (inject_Z k - t)) as [[A1 A2]|[A1 A2]];
      destruct (Qabs_cases (inject_Z m - t)) as [[B1 B2]|[B1 B2]];
      rewrite A2, B2 in E; rewrite B2 in H; try lra.
    assert (Ek : inject_Z k == inject_Z m - 1) by lra.
    split; [right | lra].
    apply inject_Z_injective. unfold Z.sub. rewrite inject_Z_plus. exact Ek.
  - assert (D' : inject_Z m + 1 <= inject_Z k).
    { rewrite Zle_Qle in D. rewrite inject_Z_plus in D. exact D. }
    destruct (Qabs_cases (inject_Z k - t)) as [[A1 A2]|[A1 A2]];
      destruct (Qabs_cases (inject_Z m - t)) as [[B1 B2]|[B1 B2]];
      rewrite A2, B2 in E; rewrite B2 in H; try lra.
    assert (Ek : inject_Z k == inject_Z m + 1) by lra.
    split; [left | lra].
    apply inject_Z_injective. rewrite inject_Z_plus. exact Ek.
Qed.

(** A multiple [k * 2^e] of a power of two with an odd [k] has the
    significand [k * 2^j] for some [j >= 0], or a significand that is odd. *)
Lemma multiple_significand (k e m' e' : Z) :
  inject_Z k * 2 ^ e == inject_Z m' * 2 ^ e' ->
  ((e <= e')%Z /\ k = (m' * 2 ^ (e' - e))%Z)
  \/ ((e' < e)%Z /\ m' = (k * 2 ^ (e - e'))%Z).
Proof.
  intros E. destruct (Z.le_gt_cases e e') as [H|H]; [left | right]; split; try lia.
  - apply inject_Z_injective. rewrite inject_Z_mult, pow2_Z by lia.
    apply (Qmult_inj_r _ _ (2 ^ e)); [pose proof (pow2_pos e); lra|].
    rewrite E, <- Qmult_assoc, <- pow2_plus.
    replace (e' - e + e)%Z with e' by lia. reflexivity.
  - apply inject_Z_injective. rewrite inject_Z_mult, pow2_Z by lia.
    apply (Qmult_inj_r _ _ (2 ^ e')); [pose proof (pow2_pos e'); lra|].
    rewrite <- E, <- Qmult_assoc, <- pow2_plus.
    replace (e - e' + e')%Z with e by lia. reflexivity.
Qed.

Lemma even_shift (a j : Z) : (0 < j)%Z -> Z.even (a * 2 ^ j) = true.
Proof.
  intros H. replace j with (Z.succ (j - 1)) by lia.
  rewrite Z.pow_succ_r by lia. rewrite Z.even_mul, Z.even_mul. cbn.
  now rewrite orb_true_r.
Qed.

Section Unique.
Variable v : Q.
Hypothesis v_pos : 0 < v.

Let e := exponentOf v.
Let t := v * 2 ^ (- e).
Let m := roundHalfEven t.
Let y := inject_Z m * 2 ^ e.

(** A second closest candidate has an odd multiple of [2^e], which is no
    even significand. *)
Lemma other_closest_is_odd z :
  (e <= 971)%Z -> closest v z -> ~ z == y -> ~ evenSignificand z.
Proof.
  intros He [Cz Nz] N Ev.
  destruct (exponentOf_spec v v_pos) as (E1 & E2 & E3). fold e t in E1, E2, E3.
  destruct (rounded_bounds v v_pos) as [[M0 M1] M2]. fold e t m in M0, M1, M2.
  assert (Cy : candidate y).
  { pose proof (rounded_below v v_pos He) as Yb. fold e t m y in Yb.
    destruct (Qlt_le_dec y (2 ^ 1024)) as [Y|Y].
    - destruct (rounded_double v v_pos Y) as (m' & S & _). left. now exists m'.
    - right. pose proof (rounded_nonneg v v_pos) as Y0. fold e t m y in Y0.
      rewrite Qabs_pos; lra. }
  assert (T : Qabs (z - v) == Qabs (y - v)).
  { apply Qle_antisym; [now apply Nz | apply (rounded_nearest v v_pos z Cz)]. }
  pose proof (rounded_tie v v_pos z Cz T N) as Em. fold e t m in Em.
  (* [z] is a multiple of [2^e] *)
  assert (K : exists k : Z, z == inject_Z k * 2 ^ e).
  { destruct (candidate_grid z e Cz E1) as [K|[H Z]]; [exact K|].
    destruct (rounded_below_binade v v_pos z H Z) as (B1 & B2 & B3).
    fold e t m y in B1, B2, B3.
    exists (2 ^ 52)%Z. change (inject_Z (2 ^ 52)) with (2 ^ 52). lra. }
  destruct K as [k K].
  assert (Nk : k <> m) by (intros ->; now apply N).
  assert (Tk : Qabs (inject_Z k - t) == Qabs (inject_Z m - t)).
  { pose proof (scaled_value v) as Sv. fold e t in Sv.
    assert (A1 : y - v == (inject_Z m - t) * 2 ^ e).
    { transitivity (inject_Z m * 2 ^ e - t * 2 ^ e); [|ring].
      unfold y. apply Qplus_comp; [reflexivity | apply Qopp_comp; exact Sv]. }
    assert (A2 : z - v == (inject_Z k - t) * 2 ^ e).
    { transitivity (inject_Z k * 2 ^ e - t * 2 ^ e); [|ring].
      apply Qplus_comp; [exact K | apply Qopp_comp; exact Sv]. }
    rewrite A1, A2, !Qabs_scale in T.
    apply Qmult_inj_r in T; [exact T|]. pose proof (pow2_pos e). lra. }
  destruct (roundHalfEven_neighbours t k Nk Tk) as [Adj Half]. fold m in Adj, Half.
  assert (Ok : Z.even k = false).
  { destruct Adj as [-> | ->]; [rewrite Z.even_add | rewrite Z.even_sub];
      rewrite Em; reflexivity. }
  destruct Ev as [(m' & (e' & H' & Ez) & Em')|Ez].
  - rewrite K in Ez. destruct (multiple_significand k e m' e' Ez) as [[H ->]|[H Hm]].
    + destruct (Z.eq_dec e' e) as [->|Ne].
      * replace (e - e)%Z with 0%Z in Ok by lia. rewrite Z.mul_1_r in Ok. congruence.
      * rewrite even_shift in Ok by lia. discriminate.
    + (* the significand of a lower binade is too large *)
      assert (Ge : (-1074 < e)%Z) by lia. specialize (E3 Ge). specialize (M2 Ge).
      assert (Kb : (2 ^ 52 <= k)%Z).
      { assert (S : inject_Z (2 ^ 53) <= inject_Z (k + m)).
        { rewrite inject_Z_plus. change (inject_Z (2 ^ 53)) with (2 * 2 ^ 52). lra. }
        rewrite <- Zle_Qle in S. lia. }
      assert (P : (2 <= 2 ^ (e - e'))%Z).
      { change 2%Z with (2 ^ 1)%Z at 1. apply Z.pow_le_mono_r; lia. }
      assert (Big : (2 ^ 53 <= m')%Z) by (rewrite Hm; nia).
      lia.
  - (* the limit is an even multiple *)
    rewrite K in Ez.
    assert (Ek : inject_Z (Z.abs k) * 2 ^ e == inject_Z (2 ^ 53) * 2 ^ 971).
    { rewrite <- Ez, Qabs_scale. apply Qmult_comp; [|reflexivity].
      apply Qabs_case; intros Hk.
      - rewrite Z.abs_eq; [reflexivity|]. rewrite Zle_Qle. exact Hk.
      - rewrite Z.abs_neq, inject_Z_opp; [reflexivity|]. rewrite Zle_Qle. exact Hk. }
    destruct (multiple_significand (Z.abs k) e (2 ^ 53) 971 Ek) as [[H Hk]|[H Hk]]; [|lia].
    assert (Ea : Z.even (Z.abs k) = true).
    { rewrite Hk, Z.even_mul. reflexivity. }
    destruct (Z.abs_eq_or_opp k) as [A|A]; rewrite A in Ea;
      rewrite ?Z.even_opp in Ea; congruence.
Qed.

(** Every member that is chosen is the rounded value, or the limit when
    [v] is beyond it. *)
Lemma chosen_is_rounded z :
  chosen v z -> z == (if (e <=? 971)%Z then y else 2 ^ 1024).
Proof.
  intros [[Cz Nz] Tz].
  destruct (exponentOf_spec v v_pos) as (E1 & E2 & E3). fold e t in E1, E2, E3.
  destruct (Z.leb_spec e 971) as [He|He].
  - destruct (Qeq_dec z y) as [E|N]; [exact E | exfalso].
    assert (Cy : closest v y).
    { split; [|intros z'; apply (rounded_nearest v v_pos)].
      pose proof (rounded_below v v_pos He) as Yb. fold e t m y in Yb.
      destruct (Qlt_le_dec y (2 ^ 1024)) as [Y|Y].
      - destruct (rounded_double v v_pos Y) as (m' & S & _). left. now exists m'.
      - right. pose proof (rounded_nonneg v v_pos) as Y0. fold e t m y in Y0.
        rewrite Qabs_pos; lra. }
    apply (other_closest_is_odd z He); [now split | exact N|].
    apply (Tz y Cy). intros H. apply N. now symmetry.
  - assert (V : 2 ^ 1024 <= v).
    { specialize (E3 ltac:(lia)).
      assert (P : 2 ^ 972 <= 2 ^ e) by (apply pow2_le; lia).
      pose proof (scaled_value v) as Sv. fold e t in Sv. rewrite Sv.
      change (2 ^ 1024) with (2 ^ 52 * 2 ^ 972).
      assert (P52 : 0 < 2 ^ 52) by reflexivity.
      assert (P972 : 0 < 2 ^ 972) by apply pow2_pos.
      set (c := 2 ^ 52) in *. set (x := 2 ^ e) in *. set (x' := 2 ^ 972) in *.
      clearbody t. nra. }
    pose proof (candidate_below z Cz) as Zb.
    specialize (Nz (2 ^ 1024) candidate_limit).
    rewrite (Qabs_neg (z - v)) in Nz by lra.
    rewrite (Qabs_neg (2 ^ 1024 - v)) in Nz by lra. lra.
Qed.

End Unique.

(** The member that is chosen is determined. *)
Lemma chosen_unique v y1 y2 : chosen v y1 -> chosen v y2 -> y1 == y2.
Proof.
  assert (P : forall v y1 y2, 0 < v -> chosen v y1 -> chosen v y2 -> y1 == y2).
  { intros u z1 z2 U C1 C2.
    rewrite (chosen_is_rounded u U z1 C1), (chosen_is_rounded u U z2 C2). reflexivity. }
  intros C1 C2. destruct (Q_dec v 0) as [[L|G]|E].
  - apply chosen_opp in C1, C2.
    assert (H : - y1 == - y2) by (apply (P (- v)); [lra | assumption..]). lra.
  - now apply (P v).
  - assert (C0 : candidate 0).
    { left. exists 0%Z, (-1074)%Z.
      split; [right; split; reflexivity|]. change (inject_Z 0) with 0. ring. }
    assert (Z : forall z, chosen v z -> z == 0).
    { intros z [[_ Nz] _]. specialize (Nz 0 C0).
      assert (E0 : Qabs (0 - v) == 0) by (rewrite E; reflexivity).
      rewrite E0 in Nz.
      destruct (Qabs_cases (z - v)) as [[A1 A2]|[A1 A2]]; rewrite A2 in Nz; lra. }
    now rewrite (Z y1 C1), (Z y2 C2).
Qed.

(** [numberValueFor] determines the number: it is the one that [toNumber]
    gives. *)
Theorem numberValueFor_unique v x x' :
  numberValueFor v x -> numberValueFor v x' -> sameNumber x x'.
Proof.
  intros (y & C & D) (y' & C' & D').
  pose proof (chosen_unique v y y' C C') as E.
  assert (L : ~ 2 ^ 1024 == - 2 ^ 1024) by discriminate.
  destruct x as [|s|q], x' as [|s'|q']; cbn [denotes sameNumber] in *; try contradiction.
  - destruct s, s'; try reflexivity; exfalso; rewrite D, D' in E;
      [apply L; now symmetry | now apply L].
  - destruct D' as [_ D']. apply D'. rewrite <- E, D.
    destruct s; [rewrite Qabs_opp|]; reflexivity.
  - destruct D as [_ D]. apply D. rewrite E, D'.
    destruct s'; [rewrite Qabs_opp|]; reflexivity.
  - destruct D as [D _], D' as [D' _]. now rewrite D, D', E.
Qed.

End NumberFacts.

(* ===================================================================== *)
(** ** Properties of the time parser                                      *)
(* ===================================================================== *)

Module TimeParserFacts.
Import TimeParser.
Local Open Scope string_scope.

Lemma allDigits_nil : allDigits "".
Proof. intros c []. Qed.

Lemma allDigits_cons c s :
  allDigits (String c s) <-> isDigit c = true /\ allDigits s.
Proof.
  unfold allDigits; simpl; split.
  - intros H; split; [apply H; now left | intros d Hd; apply H; now right].
  - intros [Hc Hs] d [<- | Hd]; auto.
Qed.

Lemma allDigits_app s1 s2 :
  allDigits (s1 ++ s2) <-> allDigits s1 /\ allDigits s2.
Proof.
  induction s1 as [|c s1 IH]; simpl.
  - split; [intros H; split; [apply allDigits_nil | exact H] | tauto].
  - rewrite !allDigits_cons, IH; tauto.
Qed.

(** [takeDigits] splits its input, takes digits only and stops at the first
    character that is not one. *)
Lemma takeDigits_spec s :
  s = fst (takeDigits s) ++ snd (takeDigits s)
  /\ allDigits (fst (takeDigits s))
  /\ headNotDigit (snd (takeDigits s)).
Proof.
  induction s as [|c s IH]; simpl.
  - repeat split; [apply allDigits_nil].
  - destruct (isDigit c) eqn:Hc.
    + destruct (takeDigits s) as [d rest]; simpl in *.
      destruct IH as (E & Hd & Hr); repeat split; auto.
      * now rewrite <- E.
      * now apply allDigits_cons.
    + simpl; repeat split; [apply allDigits_nil | exact Hc].
Qed.

Lemma takeDigits_app d rest :
  allDigits d -> headNotDigit rest -> takeDigits (d ++ rest) = (d, rest).
Proof.
  induction d as [|c d IH]; simpl; intros Hd Hr.
  - destruct rest as [|c r]; simpl in *; [reflexivity | now rewrite Hr].
  - apply allDigits_cons in Hd as [Hc Hd].
    now rewrite Hc, IH.
Qed.

Lemma eqb_empty_false s : s <> "" -> (s =? "") = false.
Proof. intros H; now apply String.eqb_neq. Qed.

Lemma append_nil_r s : s ++ "" = s.
Proof. induction s; simpl; congruence. Qed.

Lemma append_assoc s1 s2 s3 : (s1 ++ s2) ++ s3 = s1 ++ (s2 ++ s3).
Proof. induction s1; simpl; congruence. Qed.

Lemma matchUnits_unitsText u : matchUnits (unitsText u) = Some u.
Proof. destruct u as [[|]|]; reflexivity. Qed.

Lemma matchUnits_Some s u : matchUnits s = Some u -> s = unitsText u.
Proof.
  unfold matchUnits.
  destruct (String.eqb_spec s "") as [->|_]; [intros [= <-]; reflexivity|].
  destruct (String.eqb_spec s "ms") as [->|_]; [intros [= <-]; reflexivity|].
  destruct (String.eqb_spec s "s") as [->|_]; [intros [= <-]; reflexivity|].
  discriminate.
Qed.

Lemma headNotDigit_unitsText u : headNotDigit (unitsText u).
Proof. destruct u as [[|]|]; simpl; auto. Qed.

(** The match on a literal followed by a suffix. *)
Lemma matchTimePattern_literal lit ip fp u :
  NumericLiteral lit ip fp ->
  matchTimePattern (lit ++ unitsText u) = Some (lit ++ unitsText u, u).
Proof.
  intros H; unfold matchTimePattern.
  destruct H as [ip Hip Hne | ip fp Hip Hne Hfp].
  - rewrite (takeDigits_app _ _ Hip (headNotDigit_unitsText u)).
    rewrite (eqb_empty_false _ Hne).
    assert (E : takeDot (unitsText u) = unitsText u) by (destruct u as [[|]|]; reflexivity).
    rewrite E.
    pose proof (takeDigits_app "" _ allDigits_nil (headNotDigit_unitsText u)) as E0.
    simpl in E0; rewrite E0.
    now rewrite matchUnits_unitsText.
  - rewrite !append_assoc.
    rewrite (takeDigits_app ip ("." ++ fp ++ unitsText u) Hip eq_refl).
    rewrite (eqb_empty_false _ Hne). simpl takeDot.
    rewrite (takeDigits_app _ _ Hfp (headNotDigit_unitsText u)).
    now rewrite matchUnits_unitsText.
Qed.

(** Conversely a successful match decomposes the input. *)
Lemma matchTimePattern_Some value time u :
  matchTimePattern value = Some (time, u) ->
  time = value /\
  exists lit ip fp, NumericLiteral lit ip fp /\ value = lit ++ unitsText u.
Proof.
  unfold matchTimePattern.
  pose proof (takeDigits_spec value) as (E1 & D1 & N1).
  destruct (takeDigits value) as [d1 r1]; simpl in *.
  destruct (String.eqb_spec d1 "") as [|Hne]; [discriminate|].
  pose proof (takeDigits_spec (takeDot r1)) as (E2 & D2 & N2).
  destruct (takeDigits (takeDot r1)) as [d2 r3]; simpl in *.
  destruct (matchUnits r3) as [u'|] eqn:Hu; [|discriminate].
  intros [= <- <-]. split; [reflexivity|].
  apply matchUnits_Some in Hu; subst r3.
  destruct r1 as [|c r].
  - (* nothing after the integer part *)
    simpl in E2. exists d1, d1, "". split; [now constructor|].
    destruct d2; [|discriminate]. simpl in E2. now rewrite <- E2.
  - destruct (Ascii.eqb_spec c ".") as [->|Hc].
    + simpl in E2. exists (d1 ++ "." ++ d2), d1, d2. split; [now constructor|].
      subst value r. rewrite !append_assoc. reflexivity.
    + assert (Et : takeDot (String c r) = String c r).
      { unfold takeDot. destruct c as [[] [] [] [] [] [] [] []]; try reflexivity.
        now elim Hc. }
      rewrite Et in E2.
      destruct d2 as [|c2 d2].
      * exists d1, d1, "". split; [now constructor|]. simpl in E2. subst value. now rewrite E2.
      * simpl in E2. injection E2 as -> _.
        apply allDigits_cons in D2 as [D2 _]. simpl in N1. congruence.
Qed.

Lemma matchTimePattern_None value :
  matchTimePattern value = None <->
  ~ exists lit ip fp u, NumericLiteral lit ip fp /\ value = lit ++ unitsText u.
Proof.
  split.
  - intros H (lit & ip & fp & u & Hl & ->).
    rewrite (matchTimePattern_literal _ _ _ u Hl) in H. discriminate.
  - intros H. destruct (matchTimePattern value) as [[time u]|] eqn:E; [|reflexivity].
    apply matchTimePattern_Some in E as (_ & lit & ip & fp & Hl & Hv).
    elim H. now exists lit, ip, fp, u.
Qed.

(** *** The matcher against the declarative meaning of the pattern *)

Lemma matches_star_digits s : matches (RStar RDigit) s <-> allDigits s.
Proof.
  split.
  - intros H. remember (RStar RDigit) as r eqn:Er.
    induction H; inversion Er; subst; try apply allDigits_nil.
    apply allDigits_app; split; auto.
    inversion H; subst. apply allDigits_cons; split; [assumption | apply allDigits_nil].
  - induction s as [|c s IH]; intros H; [constructor|].
    apply allDigits_cons in H as [Hc Hs].
    change (String c s) with (String c "" ++ s).
    apply MStarS; [now constructor | auto].
Qed.

Lemma matches_plus_digits s :
  matches (RPlus RDigit) s <-> allDigits s /\ s <> "".
Proof.
  split.
  - intros H; inversion H as [| | | | | | |r s1 s2 H1 H2| |]; subst.
    inversion H1; subst. simpl. split; [|discriminate].
    apply allDigits_cons; split; [assumption | now apply matches_star_digits].
  - intros [H Hne]. destruct s as [|c s]; [now elim Hne|].
    apply allDigits_cons in H as [Hc Hs].
    change (String c s) with (String c "" ++ s).
    apply MPlus; [now constructor | now apply matches_star_digits].
Qed.

Lemma matches_opt_dot s : matches (ROpt (RChar ".")) s <-> s = "" \/ s = ".".
Proof.
  split.
  - intros H; inversion H as [| | | | | | | |r|r s' H1]; subst; [now left|].
    inversion H1; subst; now right.
  - intros [->| ->]; [apply MOpt0 | apply MOpt1, MChar].
Qed.

Lemma matches_units s :
  matches (ROpt UNITS_GROUP) s <-> exists u, s = unitsText u.
Proof.
  split.
  - intros H; inversion H as [| | | | | | | |r|r s' H1]; subst; [now exists None|].
    inversion H1 as [| | |r1 r2 s' H2|r1 r2 s' H2| | | | |]; subst.
    + inversion H2 as [| |r1 r2 s1 s2 Ha Hb| | | | | | |]; subst.
      inversion Ha; inversion Hb; subst. now exists (Some UnitsMs).
    + inversion H2; subst. now exists (Some UnitsS).
  - intros [[[|]|] ->]; simpl.
    + apply MOpt1, MAltL. change "ms" with ("m" ++ "s"). apply MSeq; apply MChar.
    + apply MOpt1, MAltR, MChar.
    + apply MOpt0.
Qed.

(** [matchTimePattern] succeeds exactly on the language of [TIME_PATTERN]:
    the greedy, deterministic reading loses no match. *)
Lemma matchTimePattern_matches value :
  matchTimePattern value <> None <-> matches TIME_PATTERN value.
Proof.
  split.
  - intros H. destruct (matchTimePattern value) as [[time u]|] eqn:E; [|now elim H].
    apply matchTimePattern_Some in E as (_ & lit & ip & fp & Hl & ->).
    destruct Hl as [ip Hip Hne | ip fp Hip Hne Hfp].
    + replace (ip ++ unitsText u) with (ip ++ "" ++ "" ++ unitsText u) by reflexivity.
      apply MSeq; [now apply matches_plus_digits|].
      apply MSeq; [apply MOpt0|].
      apply MSeq; [apply MStar0 | apply matches_units; now exists u].
    + rewrite !append_assoc.
      apply MSeq; [now apply matches_plus_digits|].
      apply MSeq; [apply MOpt1, MChar|].
      apply MSeq; [now apply matches_star_digits | apply matches_units; now exists u].
  - intros H E. apply matchTimePattern_None in E. apply E; clear E.
    inversion H as [| |r1 r2 s1 s2 H1 H2| | | | | | |]; subst.
    inversion H2 as [| |r1 r2 s3 s4 H3 H4| | | | | | |]; subst.
    inversion H4 as [| |r1 r2 s5 s6 H5 H6| | | | | | |]; subst.
    apply matches_plus_digits in H1 as [D1 Hne].
    apply matches_opt_dot in H3.
    apply matches_star_digits in H5.
    apply matches_units in H6 as [u ->].
    destruct H3 as [-> | ->].
    + exists (s1 ++ s5), (s1 ++ s5), "", u. split.
      * constructor; [now apply allDigits_app|].
        destruct s1; [now elim Hne | discriminate].
      * simpl. now rewrite append_assoc.
    + exists (s1 ++ "." ++ s5), s1, s5, u. split; [now constructor|].
      now rewrite !append_assoc.
Qed.

(** *** The value *)

Lemma parseFloat_literal lit ip fp u :
  NumericLiteral lit ip fp ->
  parseFloat (lit ++ unitsText u) = toNumber (decimalValue ip fp).
Proof.
  intros H; unfold parseFloat.
  destruct H as [ip Hip Hne | ip fp Hip Hne Hfp].
  - rewrite (takeDigits_app _ _ Hip (headNotDigit_unitsText u)).
    rewrite (eqb_empty_false _ Hne).
    destruct u as [[|]|]; reflexivity.
  - rewrite !append_assoc.
    rewrite (takeDigits_app ip ("." ++ fp ++ unitsText u) Hip eq_refl).
    cbn -[takeDigits decimalValue toNumber].
    rewrite (takeDigits_app _ _ Hfp (headNotDigit_unitsText u)).
    now rewrite (eqb_empty_false _ Hne).
Qed.

(** The result on a literal followed by a suffix: the double of the literal,
    times the factor of the suffix. *)
Lemma parseDeferredTime_literal lit ip fp u :
  NumericLiteral lit ip fp ->
  parseDeferredTime (lit ++ unitsText u)
  = Some (jsMul (toNumber (decimalValue ip fp)) (Num (unitsFactor u))).
Proof.
  intros H. unfold parseDeferredTime.
  rewrite (matchTimePattern_literal _ _ _ u H), (parseFloat_literal _ _ _ u H).
  destruct u as [[|]|]; reflexivity.
Qed.

(** A product with a finite factor that is not zero. *)
Lemma jsMul_value x (k : Q) :
  ~ (k == 0)%Q ->
  match x with
  | Num q => numberValueFor (q * k) (jsMul x (Num k))
  | NaN => jsMul x (Num k) = NaN
  | Infinity s => exists s', jsMul x (Num k) = Infinity s'
  end.
Proof.
  intros K. destruct x as [|s|q]; cbn [jsMul]; [reflexivity | |apply NumberFacts.toNumber_value].
  destruct (Qcompare_spec k 0) as [E|L|G]; [now elim K | eexists; reflexivity..].
Qed.

Lemma allDigits_dec_true s :
  forallb isDigit (list_ascii_of_string s) = true -> allDigits s.
Proof. intros H c Hc. rewrite forallb_forall in H. now apply H. Qed.

(** C6. [parseDeferredTime] reads a numeric literal (digits, optionally a dot
    and more digits) as that number of milliseconds: the result [x] is the
    Number value for the decimal value of the literal, that is the double
    nearest to it. When the literal is followed by [s] the result is the
    product of [x] and 1000 in the arithmetic of doubles: the Number value
    for the exact product when [x] is finite, and [x] itself when it is
    infinite. When it is followed by [ms] the result is [x]. On every other
    input, that is on exactly the strings outside the language of
    [TIME_PATTERN], the result is [null]. ["500"] gives 500, ["2s"] gives
    2000 and ["2x"] fails. *)
Theorem parseDeferredTime_spec :
  (forall lit ip fp, NumericLiteral lit ip fp ->
     exists x,
       parseDeferredTime lit = Some x
       /\ numberValueFor (decimalValue ip fp) x
       /\ (exists y, parseDeferredTime (lit ++ "s") = Some y
                     /\ match x with
                        | Num q => numberValueFor (q * 1000) y
                        | _ => y = x
                        end)
       /\ parseDeferredTime (lit ++ "ms") = Some x)
  /\ (forall value,
        (~ exists lit ip fp, NumericLiteral lit ip fp
              /\ (value = lit \/ value = lit ++ "s" \/ value = lit ++ "ms")) ->
        parseDeferredTime value = None)
  /\ (forall value, parseDeferredTime value = None <-> ~ matches TIME_PATTERN value)
  /\ parseDeferredTime "500" = Some (Num 500)
  /\ parseDeferredTime "2s" = Some (Num 2000)
  /\ parseDeferredTime "2x" = None.
Proof.
  assert (N : forall value, parseDeferredTime value = None <-> matchTimePattern value = None).
  { intros value; unfold parseDeferredTime.
    destruct (matchTimePattern value) as [[time u]|]; split; congruence. }
  split; [|split; [|split; [|repeat split]]].
  - intros lit ip fp H. exists (toNumber (decimalValue ip fp)).
    pose proof (parseDeferredTime_literal _ _ _ None H) as E0.
    pose proof (parseDeferredTime_literal _ _ _ (Some UnitsS) H) as E1.
    pose proof (parseDeferredTime_literal _ _ _ (Some UnitsMs) H) as E2.
    cbn [unitsText unitsFactor] in E0, E1, E2.
    rewrite append_nil_r in E0. rewrite NumberFacts.jsMul_one in E0, E2.
    split; [exact E0|]. split; [apply NumberFacts.toNumber_value|].
    split; [|exact E2].
    exists (jsMul (toNumber (decimalValue ip fp)) (Num 1000)). split; [exact E1|].
    pose proof (jsMul_value (toNumber (decimalValue ip fp)) 1000 ltac:(discriminate)) as P.
    destruct (toNumber (decimalValue ip fp)) as [|s|q] eqn:T; [exact P| |exact P].
    cbn [jsMul]. reflexivity.
  - intros value H. apply N, matchTimePattern_None.
    intros (lit & ip & fp & u & Hl & ->). apply H. exists lit, ip, fp. split; [exact Hl|].
    destruct u as [[|]|]; simpl; [now right; right | now right; left | left].
    apply append_nil_r.
  - intros value. rewrite N, <- matchTimePattern_matches.
    destruct (matchTimePattern value); split; try congruence.
    intros H; elim H; discriminate.
Qed.

Lemma numericLiteral_dot ip fp :
  forallb isDigit (list_ascii_of_string ip) = true -> ip <> "" ->
  forallb isDigit (list_ascii_of_string fp) = true ->
  NumericLiteral (ip ++ "." ++ fp) ip fp.
Proof. intros H1 H2 H3. apply NumDot; auto using allDigits_dec_true. Qed.

(** The theorem at the literal [1.5], which is a double: 1.5 ms, 1500 ms
    with [s]. *)
Lemma parseDeferredTime_spec_witness :
  (exists q, parseDeferredTime "1.5" = Some (Num q) /\ (q == 3 # 2)%Q)
  /\ (exists q, parseDeferredTime "1.5s" = Some (Num q) /\ (q == 1500)%Q)
  /\ parseDeferredTime "1.5e3" = None.
Proof.
  destruct parseDeferredTime_spec as (Hlit & _ & Hnone & _).
  destruct (Hlit _ _ _ (numericLiteral_dot "1" "5" eq_refl ltac:(discriminate) eq_refl))
    as (x & E1 & V1 & (y & E2 & V2) & _).
  assert (D1 : isDouble (decimalValue "1" "5")).
  { exists 6755399441055744%Z, (-52)%Z. split; [left; lia | vm_compute; reflexivity]. }
  destruct (NumberFacts.numberValueFor_exact _ _ D1 V1) as (q1 & -> & Q1).
  assert (D2 : isDouble (q1 * 1000)).
  { exists 6597069766656000%Z, (-42)%Z. split; [left; lia|].
    rewrite Q1. vm_compute. reflexivity. }
  destruct (NumberFacts.numberValueFor_exact _ _ D2 V2) as (q2 & -> & Q2).
  split; [|split].
  - exists q1. split; [exact E1 | rewrite Q1; vm_compute; reflexivity].
  - exists q2. split; [exact E2 | rewrite Q2, Q1; vm_compute; reflexivity].
  - vm_compute. reflexivity.
Defined.

(** Where the rounding shows: [1.005] is not a double, and the product of
    its double and 1000 is not 1005 but the double below it,
    1004.9999999999999 in the shortest notation; an integer of twenty digits
    is rounded to a multiple of [2^14]; a literal of 401 digits gives
    [Infinity]; a value below the smallest double gives zero. *)
Example parseDeferredTime_rounds :
  parseDeferredTime "1.005s" = Some (Num (8840073487319039 # 8796093022208))
  /\ parseDeferredTime "1.005" = Some (Num (1131529406376837 # 1125899906842624))
  /\ parseDeferredTime "99999999999999999999" = Some (Num 100000000000000000000)
  /\ parseDeferredTime (oneAndZeros 400) = Some (Infinity false)
  /\ parseDeferredTime (oneAndZeros 400 ++ "s") = Some (Infinity false)
  /\ parseDeferredTime ("0." ++ string_of_list_ascii (repeat "0"%char 400) ++ "1")
     = Some (Num 0).
Proof. vm_compute. repeat split. Qed.

(** The same values from the Standard Library's model of IEEE 754: the
    quotient 1005/1000 and its product with 1000 in binary64, and the
    integers as quotients by one. *)
Example rounding_agrees_with_binary64 :
  parseDeferredTime "1.005"
  = Some (fromSpecFloat (SFdiv 53 1024 (S754_finite false 1005 0) (S754_finite false 1000 0)))
  /\ parseDeferredTime "1.005s"
     = Some (fromSpecFloat
               (SFmul 53 1024
                  (SFdiv 53 1024 (S754_finite false 1005 0) (S754_finite false 1000 0))
                  (S754_finite false 1000 0)))
  /\ parseDeferredTime "99999999999999999999"
     = Some (fromSpecFloat
               (SFdiv 53 1024 (S754_finite false 99999999999999999999 0)
                  (S754_finite false 1 0)))
  /\ parseDeferredTime "9007199254740993"
     = Some (fromSpecFloat
               (SFdiv 53 1024 (S754_finite false 9007199254740993 0)
                  (S754_finite false 1 0)))
  /\ parseDeferredTime "0.1s"
     = Some (fromSpecFloat
               (SFmul 53 1024
                  (SFdiv 53 1024 (S754_finite false 1 0) (S754_finite false 10 0))
                  (S754_finite false 1000 0))).
Proof. vm_compute. repeat split. Qed.

End TimeParserFacts.

(* ===================================================================== *)
(** ** Properties of the reference based triggers                         *)
(* ===================================================================== *)

Module TriggersFacts.
Import Triggers.
Local Open Scope Z_scope.
Local Open Scope string_scope.

Lemma validate_many type parameters placeholder :
  (1 < List.length parameters)%nat ->
  validateReferenceBasedTrigger type parameters placeholder
  = Throw (tooManyParameters type).
Proof.
  intros H. unfold validateReferenceBasedTrigger.
  destruct (Nat.ltb_spec 1 (List.length parameters)); [reflexivity | lia].
Qed.

Lemma validate_one type p placeholder :
  validateReferenceBasedTrigger type [p] placeholder = Ok tt.
Proof. reflexivity. Qed.

Lemma validate_none type placeholder :
  validateReferenceBasedTrigger type [] placeholder = Ok tt
  <-> singleRootElement placeholder = true.
Proof.
  unfold validateReferenceBasedTrigger, singleRootElement; simpl.
  destruct placeholder as [[cs mt]|]; simpl; [|split; discriminate].
  destruct cs as [|c [|c' cs]]; simpl.
  - split; discriminate.
  - destruct c; simpl; split; (reflexivity || discriminate).
  - destruct c; simpl; split; discriminate.
Qed.

Lemma validate_none_throws type placeholder :
  singleRootElement placeholder = false ->
  exists message, validateReferenceBasedTrigger type [] placeholder = Throw message.
Proof.
  intros H.
  destruct (validateReferenceBasedTrigger type [] placeholder) as [[]|m] eqn:E.
  - apply validate_none in E. congruence.
  - now exists m.
Qed.

(** The factory of a reference based kind, in terms of the validation. *)
Lemma createTrigger_reference p type parameters nameSp sourceSp pf on :
  referenceBased type = true ->
  createTrigger p type parameters nameSp sourceSp pf on
  = match validateReferenceBasedTrigger type parameters (placeholder p) with
    | Throw m => Throw m
    | Ok _ =>
        let spans := mkSpans nameSp sourceSp (parserPrefetchSpan p)
                       (Some (parserOnSourceSpan p)) in
        Ok (match type with
            | HOVER => HoverDeferredTrigger (firstOrNull parameters) spans
            | INTERACTION => InteractionDeferredTrigger (firstOrNull parameters) spans
            | _ => ViewportDeferredTrigger (firstOrNull parameters) spans
            end)
    end.
Proof. destruct type; try discriminate; intros _; reflexivity. Qed.

(** C9. For [hover], [interaction] and [viewport]: more than one parameter
    is refused with the message "can only have zero or one parameters", and
    [consumeTrigger] records it as a parse error without touching the
    triggers; no parameter is refused unless the block has a placeholder whose
    children are exactly one element; otherwise a trigger of the kind is
    built, whose reference is the single parameter, or [null] without one. *)
Theorem referenceBasedTrigger_spec (p : OnTriggerParser) (type : OnTriggerType)
    (parameters : list string) (nameSp sourceSp : ParseSourceSpan)
    (pf on : option ParseSourceSpan) :
  referenceBased type = true ->
  let created := createTrigger p type parameters nameSp sourceSp pf on in
  ((1 < List.length parameters)%nat ->
     created = Throw (tooManyParameters type)
     /\ forall identifier, triggerTypeOf (strValue identifier) = Some type ->
          triggers (consumeTrigger p identifier parameters) = triggers p
          /\ exists sp, errors (consumeTrigger p identifier parameters)
                        = (errors p ++ [mkParseError sp (tooManyParameters type)])%list)
  /\ (parameters = [] -> singleRootElement (placeholder p) = false ->
        exists message, created = Throw message)
  /\ ((List.length parameters <= 1)%nat ->
      (parameters = [] -> singleRootElement (placeholder p) = true) ->
        exists trigger, created = Ok trigger
          /\ kindOf trigger = type
          /\ reference trigger = match parameters with
                                 | [name] => Some name
                                 | _ => None
                                 end).
Proof.
  intros Href created. subst created. split; [|split].
  - intros Hlen. split.
    + rewrite (createTrigger_reference _ _ _ _ _ _ _ Href).
      now rewrite (validate_many _ _ _ Hlen).
    + intros identifier Hid. unfold consumeTrigger. rewrite Hid.
      rewrite (createTrigger_reference _ _ _ _ _ _ _ Href).
      rewrite (validate_many _ _ _ Hlen). unfold error; simpl.
      split; [reflexivity | eexists; reflexivity].
  - intros -> Hph. rewrite (createTrigger_reference _ _ _ _ _ _ _ Href).
    destruct (validate_none_throws type _ Hph) as [m ->]. now exists m.
  - intros Hlen Hph. rewrite (createTrigger_reference _ _ _ _ _ _ _ Href).
    destruct parameters as [|name [|name' rest]]; [| |simpl in Hlen; lia].
    + rewrite (proj2 (validate_none type (placeholder p)) (Hph eq_refl)).
      destruct type; try discriminate; eexists; repeat split.
    + rewrite validate_one.
      destruct type; try discriminate; eexists; repeat split.
Qed.

(** [on hover(a,b)] fails, [on interaction(ref)] and a bare [hover] inside a
    block whose placeholder is one element succeed. *)
Lemma referenceBasedTrigger_spec_witness :
  createTrigger hoverParser HOVER ["a"; "b"] (mkSpan 3 8) (mkSpan 0 13) None None
    = Throw (tooManyParameters HOVER)
  /\ (exists trigger,
        createTrigger hoverParser INTERACTION ["ref"] (mkSpan 3 8) (mkSpan 0 13) None None
          = Ok trigger /\ kindOf trigger = INTERACTION /\ reference trigger = Some "ref")
  /\ (exists trigger,
        createTrigger hoverParser HOVER [] (mkSpan 3 8) (mkSpan 0 13) None None
          = Ok trigger /\ kindOf trigger = HOVER /\ reference trigger = None).
Proof.
  split; [|split].
  - apply (referenceBasedTrigger_spec hoverParser HOVER ["a"; "b"]
             (mkSpan 3 8) (mkSpan 0 13) None None eq_refl).
    simpl; lia.
  - apply (referenceBasedTrigger_spec hoverParser INTERACTION ["ref"]
             (mkSpan 3 8) (mkSpan 0 13) None None eq_refl).
    + simpl; lia.
    + discriminate.
  - apply (referenceBasedTrigger_spec hoverParser HOVER []
             (mkSpan 3 8) (mkSpan 0 13) None None eq_refl).
    + simpl; lia.
    + reflexivity.
Defined.

(** The message, spelled out, and the parse error of [on hover(a,b)]. *)
Example hover_two_parameters :
  errors (consumeTrigger hoverParser (mkToken 0 5 "hover") ["a"; "b"])
  = [mkParseError (mkSpan 3 8)
       (String "034" ("hover" ++ String "034" " trigger can only have zero or one parameters"))].
Proof. reflexivity. Qed.

End TriggersFacts.

(* ===================================================================== *)
(** ** Properties of the runtime                                          *)
(* ===================================================================== *)

Module DeferFacts.
Import Defer.
Local Open Scope Z_scope.

(** *** What an observer sees of the instance *)

Lemma advances_refl w : advances w w.
Proof. now left. Qed.

Lemma advances_trans w1 w2 w3 : advances w1 w2 -> advances w2 w3 -> advances w1 w3.
Proof.
  unfold advances, rank, visible.
  intros [E1|L1] [E2|L2].
  - left; congruence.
  - right. injection E1 as E1 _. now rewrite <- E1.
  - right. injection E2 as E2 _. now rewrite E2.
  - right; lia.
Qed.

Lemma advances_same w w' : visible w' = visible w -> advances w w'.
Proof. now left. Qed.

Lemma stateValue_bounds s : 0 <= stateValue s <= 3.
Proof. destruct s; simpl; lia. Qed.

Lemma renderedValue_bounds s : -1 <= renderedValue s <= 3.
Proof. destruct s as [|s]; simpl; [lia | pose proof (stateValue_bounds s); lia]. Qed.

Lemma stateValue_inj s s' : stateValue s = stateValue s' -> s = s'.
Proof. destruct s, s'; simpl; intros; congruence || lia. Qed.

(** *** Clean-up functions, in closed form *)

Lemma runCleanupFns_closed fns w :
  fold_left (fun acc fn => runCleanupFn fn acc) fns w
  = set_invokedCleanups (invokedCleanups w ++ fns)
      (set_scheduled (cancelAll fns (scheduled w))
         (set_onDestroyRegistered (unhook fns (onDestroyRegistered w)) w)).
Proof.
  revert w. induction fns as [|fn fns IH]; intros w.
  - destruct w; cbn. now rewrite app_nil_r.
  - cbn [fold_left]. rewrite IH. destruct w, fn; cbn; now rewrite <- app_assoc.
Qed.

Lemma invokeTriggerCleanupFns_closed type w :
  invokeTriggerCleanupFns type w
  = match cleanupFnsOf type (lDetails w) with
    | Some fns =>
        set_lDetails (setCleanupFnsOf type None (lDetails w))
          (set_invokedCleanups (invokedCleanups w ++ fns)
             (set_scheduled (cancelAll fns (scheduled w))
                (set_onDestroyRegistered (unhook fns (onDestroyRegistered w)) w)))
    | None => w
    end.
Proof.
  unfold invokeTriggerCleanupFns.
  destruct (cleanupFnsOf type (lDetails w)) as [fns|]; [|reflexivity].
  rewrite runCleanupFns_closed. destruct w; reflexivity.
Qed.

Lemma cancelAll_subset fns sch s : In s (cancelAll fns sch) -> In s sch.
Proof.
  revert sch. induction fns as [|fn fns IH]; intros sch; cbn; [auto|].
  intros H. apply IH in H. destruct fn; [|exact H].
  now apply filter_In in H.
Qed.

Lemma cancelAll_cancelled fns sch id s :
  In (CancelScheduled id) fns -> In s (cancelAll fns sch) -> schedId s <> id.
Proof.
  revert sch. induction fns as [|fn fns IH]; intros sch; cbn; [tauto|].
  intros [->|Hin] Hs.
  - apply cancelAll_subset, filter_In in Hs. destruct Hs as [_ Hs].
    apply negb_true_iff, Nat.eqb_neq in Hs. exact Hs.
  - eapply IH; eauto.
Qed.

(** *** Case analysis on the code *)

Ltac break_match :=
  match goal with
  | |- context [match ?x with _ => _ end] =>
      lazymatch type of x with
      | prod _ _ => fail
      | _ => destruct x eqn:?
      end
  end.

Ltac break_all := repeat (break_match; subst; cbn in * ).

(** The same, innermost scrutinee first: the equations that are left in the
    context then speak of plain terms. *)
Ltac break_inner :=
  match goal with
  | |- context [match ?x with _ => _ end] =>
      lazymatch x with
      | context [match _ with _ => _ end] => fail
      | _ =>
          lazymatch type of x with
          | prod _ _ => fail
          | _ => destruct x eqn:?
          end
      end
  end.

Ltac break_all_inner := repeat (break_inner; subst; cbn in * ).

Ltac open_world w :=
  let l := fresh "l" in
  let t := fresh "t" in
  destruct w as [? t l ? ? ? ? ? ? ? ? ? ? ? ? ? ? ? ?]; destruct l; destruct t; cbn in *.

Ltac open_instance w :=
  let l := fresh "l" in
  destruct w as [? ? l ? ? ? ? ? ? ? ? ? ? ? ? ? ? ? ?]; destruct l; cbn in *.

(** *** Rendering requests *)

Lemma validChange_rank newState w :
  validChange newState w = true ->
  rank w < stateValue newState /\ nextOrMinusOne (lDetails w) < stateValue newState.
Proof.
  unfold validChange, isValidStateChange, rank. intros H.
  apply andb_true_iff in H as [H1 H2]. split; now apply Z.ltb_lt.
Qed.

Lemma renderDeferBlockState_invalid newState skip now w :
  validChange newState w = false ->
  renderDeferBlockState newState skip now w = w.
Proof.
  intros H. unfold renderDeferBlockState. rewrite H. now destruct (hostDestroyed w).
Qed.

Lemma renderDeferBlockState_destroyed newState skip now w :
  hostDestroyed w = true ->
  renderDeferBlockState newState skip now w = w.
Proof. intros H. unfold renderDeferBlockState. now rewrite H. Qed.

Lemma applyDeferBlockState_advances newState w :
  rank w < stateValue newState ->
  advances w (fst (applyDeferBlockState newState w)).
Proof.
  unfold advances, rank, visible, applyDeferBlockState.
  open_world w. intros H. break_all; auto.
Qed.

Lemma applyDeferBlockStateWithScheduling_advances newState now w :
  rank w < stateValue newState ->
  advances w (fst (applyDeferBlockStateWithScheduling newState now w)).
Proof.
  unfold advances, rank, visible, applyDeferBlockStateWithScheduling,
    scheduleDeferBlockUpdate, scheduleTimerTrigger, schedule, applyDeferBlockState,
    runCleanupFn.
  open_world w. intros H. break_all; auto.
Qed.

Lemma handleError_visible e w : visible (handleError e w) = visible w.
Proof. now destruct w. Qed.

Lemma renderDeferBlockState_advances newState skip now w :
  advances w (renderDeferBlockState newState skip now w).
Proof.
  unfold renderDeferBlockState.
  destruct (hostDestroyed w); [apply advances_refl|].
  destruct (validChange newState w) eqn:V; [|apply advances_refl].
  apply validChange_rank in V as [V _].
  assert (A : forall r : World * option ErrorValue, advances w (fst r) ->
            advances w match r with (w1, Some error) => handleError error w1 | (w1, None) => w1 end).
  { intros [w1 [e|]] H; cbn in *; [|exact H].
    eapply advances_trans; [exact H | apply advances_same, handleError_visible]. }
  apply A.
  destruct (needsScheduling skip w); [|now apply applyDeferBlockState_advances].
  destruct (applyDeferBlockStateWithSchedulingImpl (env w)); [|apply advances_refl].
  now apply applyDeferBlockStateWithScheduling_advances.
Qed.

(** A request changes the stored state only when it is valid, and then to
    the state that was asked for. *)
Lemma renderDeferBlockState_state newState skip now w :
  DEFER_BLOCK_STATE (lDetails (renderDeferBlockState newState skip now w))
    = DEFER_BLOCK_STATE (lDetails w)
  \/ (validChange newState w = true /\ hostDestroyed w = false
      /\ DEFER_BLOCK_STATE (lDetails (renderDeferBlockState newState skip now w))
         = Rendered newState).
Proof.
  unfold renderDeferBlockState.
  destruct (hostDestroyed w) eqn:D; [now left|].
  destruct (validChange newState w) eqn:V; [|now left].
  unfold needsScheduling, applyDeferBlockStateWithScheduling,
    scheduleDeferBlockUpdate, scheduleTimerTrigger, schedule, applyDeferBlockState,
    runCleanupFn, handleError.
  clear V D. open_world w. break_all; auto.
Qed.

(** *** Everything but a rendering request leaves the visible part alone *)

Lemma invokeTriggerCleanupFns_visible type w :
  visible (invokeTriggerCleanupFns type w) = visible w.
Proof.
  rewrite invokeTriggerCleanupFns_closed.
  destruct (cleanupFnsOf type (lDetails w)); [|reflexivity].
  open_instance w; destruct type; reflexivity.
Qed.

Lemma invokeAllTriggerCleanupFns_visible w :
  visible (invokeAllTriggerCleanupFns w) = visible w.
Proof.
  unfold invokeAllTriggerCleanupFns. now rewrite !invokeTriggerCleanupFns_visible.
Qed.

Lemma storeTriggerCleanupFn_visible type fn w :
  visible (storeTriggerCleanupFn type fn w) = visible w.
Proof.
  open_instance w; destruct type; reflexivity.
Qed.

Lemma callScheduleFn_visible fn cb now w :
  visible (fst (callScheduleFn fn cb now w)) = visible w.
Proof. destruct w, fn; reflexivity. Qed.

Lemma triggerResourceLoading_visible w :
  visible (fst (triggerResourceLoading w)) = visible w.
Proof.
  unfold triggerResourceLoading.
  destruct (loadingState (tDetails w)) eqn:E.
  - rewrite invokeTriggerCleanupFns_closed. unfold dependenciesFnOf.
    open_instance w.
    break_all; reflexivity.
  - destruct (loadingPromise (tDetails w)); destruct w; reflexivity.
  - destruct (loadingPromise (tDetails w)); destruct w; reflexivity.
  - destruct (loadingPromise (tDetails w)); destruct w; reflexivity.
Qed.

Lemma triggerPrefetching_visible w : visible (triggerPrefetching w) = visible w.
Proof.
  unfold triggerPrefetching.
  destruct (shouldTriggerDeferBlock (env w)); [apply triggerResourceLoading_visible | reflexivity].
Qed.

Lemma renderDeferStateAfterResourceLoading_visible w :
  visible (renderDeferStateAfterResourceLoading w) = visible w.
Proof.
  unfold renderDeferStateAfterResourceLoading.
  destruct (loadingPromise (tDetails w)); destruct w; reflexivity.
Qed.

Lemma onDependenciesSettled_visible taskId results w :
  visible (onDependenciesSettled taskId results w) = visible w.
Proof.
  unfold onDependenciesSettled.
  destruct (collectDependencies results [] []) as [[failed ds] ps].
  open_world w.
  unfold handleError; break_all; reflexivity.
Qed.

Lemma onNoDependencies_visible taskId w :
  visible (onNoDependencies taskId w) = visible w.
Proof. now destruct w. Qed.

(** *** Every event advances *)

Lemma runReaction_advances r now w : advances w (runReaction r now w).
Proof.
  destruct r; cbn. destruct (loadingState (tDetails w));
    try apply advances_refl; apply renderDeferBlockState_advances.
Qed.

Lemma fold_advances {A} (f : World -> A -> World) (l : list A) :
  (forall w a, advances w (f w a)) ->
  forall w, advances w (fold_left f l w).
Proof.
  intros Hf. induction l as [|a l IH]; intros w; cbn; [apply advances_refl|].
  eapply advances_trans; [apply Hf | apply IH].
Qed.

Lemma triggerDeferBlock_advances now w : advances w (triggerDeferBlock now w).
Proof.
  unfold triggerDeferBlock.
  destruct (negb (shouldTriggerDeferBlock (env w))); [apply advances_refl|].
  eapply advances_trans; [apply advances_same, invokeAllTriggerCleanupFns_visible|].
  set (w1 := invokeAllTriggerCleanupFns w).
  destruct (loadingState (tDetails w1)); try apply renderDeferBlockState_advances.
  - eapply advances_trans; [apply renderDeferBlockState_advances|].
    eapply advances_trans; [apply advances_same, triggerResourceLoading_visible|].
    destruct (loadingState (tDetails (fst (triggerResourceLoading _))));
      try apply advances_refl.
    apply advances_same, renderDeferStateAfterResourceLoading_visible.
  - eapply advances_trans; [apply renderDeferBlockState_advances|].
    apply advances_same, renderDeferStateAfterResourceLoading_visible.
Qed.

Lemma deferBlockUpdateCallback_advances now w :
  advances w (deferBlockUpdateCallback now w).
Proof.
  unfold deferBlockUpdateCallback.
  destruct (NEXT_DEFER_BLOCK_STATE (lDetails w)).
  - eapply advances_trans; [|apply renderDeferBlockState_advances].
    apply advances_same. now open_instance w.
  - apply advances_same. now open_instance w.
Qed.

Lemma fire_advances id now w : advances w (fire id now w).
Proof.
  unfold fire. destruct (find _ (scheduled w)) as [s|]; [|apply advances_refl].
  eapply advances_trans; [apply advances_same|].
  2: { destruct (callback s); cbn;
       [apply deferBlockUpdateCallback_advances | apply triggerDeferBlock_advances
       | apply advances_same, triggerPrefetching_visible]. }
  now destruct w.
Qed.

Lemma settle_advances results now w : advances w (settle results now w).
Proof.
  unfold settle. destruct (pendingLoad w) as [pl|]; [|apply advances_refl].
  eapply advances_trans; [|apply fold_advances; intros; apply runReaction_advances].
  apply advances_same.
  set (w1 := set_pendingLoad None w).
  assert (E1 : visible w1 = visible w) by now destruct w.
  destruct (awaitsDependencies pl).
  - rewrite <- E1, <- (onDependenciesSettled_visible (pendingTask pl) results w1).
    now destruct (onDependenciesSettled (pendingTask pl) results w1).
  - rewrite <- E1, <- (onNoDependencies_visible (pendingTask pl) w1).
    now destruct (onNoDependencies (pendingTask pl) w1).
Qed.

Lemma scheduleDelayedTrigger_advances fn now w :
  advances w (scheduleDelayedTrigger fn now w).
Proof.
  unfold scheduleDelayedTrigger, renderPlaceholder.
  set (w1 := renderDeferBlockState Placeholder false now w).
  assert (A : advances w w1) by apply renderDeferBlockState_advances.
  destruct (isPlatformBrowser (env w1)); [|exact A].
  eapply advances_trans; [exact A|]. apply advances_same.
  pose proof (callScheduleFn_visible fn TriggerDeferBlock now w1) as E.
  destruct (callScheduleFn fn TriggerDeferBlock now w1) as [w2 c]; cbn in E.
  now rewrite storeTriggerCleanupFn_visible.
Qed.

Lemma scheduleDelayedPrefetching_advances fn now w :
  advances w (scheduleDelayedPrefetching fn now w).
Proof.
  unfold scheduleDelayedPrefetching.
  destruct (isPlatformBrowser (env w)); [|apply advances_refl].
  destruct (loadingState (tDetails w)); try apply advances_refl.
  pose proof (callScheduleFn_visible fn TriggerPrefetching now w) as E.
  destruct (callScheduleFn fn TriggerPrefetching now w) as [w2 c]; cbn in E.
  apply advances_same. now rewrite storeTriggerCleanupFn_visible.
Qed.

Lemma deferWhen_advances v now w : advances w (ɵɵdeferWhen v now w).
Proof.
  unfold ɵɵdeferWhen. destruct (bindingUpdated (whenBinding w) v); [|apply advances_refl].
  apply advances_trans with (set_whenBinding (Some v) w);
    [apply advances_same; now destruct w|].
  destruct (Boolean v), (DEFER_BLOCK_STATE (lDetails (set_whenBinding (Some v) w)))
    as [|[]]; try apply advances_refl;
    try apply triggerDeferBlock_advances; apply renderDeferBlockState_advances.
Qed.

Lemma deferPrefetchWhen_advances v w : advances w (ɵɵdeferPrefetchWhen v w).
Proof.
  unfold ɵɵdeferPrefetchWhen.
  destruct (bindingUpdated (prefetchWhenBinding w) v); [|apply advances_refl].
  apply advances_trans with (set_prefetchWhenBinding (Some v) w);
    [apply advances_same; now destruct w|].
  destruct (Boolean v), (loadingState (tDetails (set_prefetchWhenBinding (Some v) w)));
    try apply advances_refl.
  apply advances_same, triggerPrefetching_visible.
Qed.

Lemma destroyView_advances w : advances w (destroyView w).
Proof.
  unfold destroyView. apply advances_same.
  destruct (onDestroyRegistered (set_hostDestroyed true w)).
  - rewrite invokeAllTriggerCleanupFns_visible. now destruct w.
  - now destruct w.
Qed.

Lemma handle_advances now e w : advances w (handle now e w).
Proof.
  destruct e; cbn.
  - apply renderDeferBlockState_advances.
  - apply fire_advances.
  - apply settle_advances.
  - apply deferWhen_advances.
  - apply deferPrefetchWhen_advances.
  - apply scheduleDelayedTrigger_advances.
  - apply scheduleDelayedPrefetching_advances.
  - apply scheduleDelayedTrigger_advances.
  - apply scheduleDelayedPrefetching_advances.
  - unfold ɵɵdeferOnImmediate.
    eapply advances_trans; [|apply triggerDeferBlock_advances].
    destruct (_ || _); [apply renderDeferBlockState_advances | apply advances_refl].
  - unfold ɵɵdeferPrefetchOnImmediate. destruct (loadingState (tDetails w));
      try apply advances_refl. apply advances_same, triggerResourceLoading_visible.
  - apply renderDeferBlockState_advances.
  - apply triggerDeferBlock_advances.
  - apply advances_same, triggerPrefetching_visible.
  - apply advances_same, triggerResourceLoading_visible.
  - apply destroyView_advances.
Qed.

Lemma run_advances trace : forall w, advances w (run trace w).
Proof.
  induction trace as [|[now e] trace IH]; intros w; cbn; [apply advances_refl|].
  eapply advances_trans; [apply handle_advances | apply IH].
Qed.

Lemma advances_rank w w' : advances w w' -> rank w <= rank w'.
Proof.
  unfold advances, rank, visible. intros [E|L]; [|lia].
  injection E as E _. rewrite E. lia.
Qed.

(** C1. The rendered state never goes down. A call of
    [renderDeferBlockState] that is not strictly above both the rendered state
    and the buffered next state (in the order Initial, Placeholder, Loading,
    Complete, Error) changes nothing at all; a call changes the rendered state
    only when it is, and then to the state that was asked for; and over every
    sequence of events of the instance the rank of the rendered state is
    non-decreasing. *)
Theorem rendered_state_monotone :
  (renderedValue Initial < stateValue Placeholder
   /\ stateValue Placeholder < stateValue Loading
   /\ stateValue Loading < stateValue Complete
   /\ stateValue Complete < stateValue Error)
  /\ (forall newState skip now w,
        let w' := renderDeferBlockState newState skip now w in
        (~ (rank w < stateValue newState
            /\ nextOrMinusOne (lDetails w) < stateValue newState) -> w' = w)
        /\ (DEFER_BLOCK_STATE (lDetails w') <> DEFER_BLOCK_STATE (lDetails w) ->
              rank w < stateValue newState
              /\ nextOrMinusOne (lDetails w) < stateValue newState
              /\ DEFER_BLOCK_STATE (lDetails w') = Rendered newState)
        /\ rank w <= rank w')
  /\ (forall trace w, rank w <= rank (run trace w)).
Proof.
  split; [cbn; lia|]. split.
  - intros newState skip now w w'. subst w'. repeat split.
    + intros H. apply renderDeferBlockState_invalid.
      destruct (validChange newState w) eqn:V; [|reflexivity].
      elim H. now apply validChange_rank.
    + destruct (renderDeferBlockState_state newState skip now w) as [E|(V & _ & E)];
        [congruence | now apply validChange_rank in V].
    + destruct (renderDeferBlockState_state newState skip now w) as [E|(V & _ & E)];
        [congruence | now apply validChange_rank in V].
    + destruct (renderDeferBlockState_state newState skip now w) as [E|(V & _ & E)];
        [congruence | exact E].
    + apply advances_rank, renderDeferBlockState_advances.
  - intros trace w. apply advances_rank, run_advances.
Qed.

(** C2, as stated, fails: the block is triggered, its dependency loads and
    [Complete] is applied; a later request for [Error] is applied too, and
    replaces the primary content with the error view. *)
Lemma complete_then_error :
  let w := run [(0, TriggerBlock); (10, Settle [Fulfilled someComponent])] (fullBlock browser) in
  let w' := renderDeferBlockState Error false 20 w in
  visible w = (Rendered Complete, [mkView 0%nat None])
  /\ visible w' = (Rendered Error, [mkView 3%nat None])
  /\ visible w' <> visible w.
Proof. vm_compute. repeat split. discriminate. Qed.

(** C2, amended. [Error] is terminal: once it is the rendered state, no event
    changes the rendered state or the container. [Complete] is terminal but
    for [Error], which the order ranks above it: once [Complete] is rendered,
    requests for [Placeholder], [Loading] and [Complete] change nothing, and
    over any sequence of events either nothing visible changes or the
    rendered state has become [Error]. *)
Theorem terminal_states (w : World) :
  (DEFER_BLOCK_STATE (lDetails w) = Rendered Error ->
     forall trace, visible (run trace w) = visible w)
  /\ (DEFER_BLOCK_STATE (lDetails w) = Rendered Complete ->
        (forall newState skip now, newState <> Error ->
           renderDeferBlockState newState skip now w = w)
        /\ forall trace,
             visible (run trace w) = visible w
             \/ DEFER_BLOCK_STATE (lDetails (run trace w)) = Rendered Error).
Proof.
  split.
  - intros E trace. destruct (run_advances trace w) as [V|L]; [exact V|].
    unfold rank in L. rewrite E in L.
    pose proof (renderedValue_bounds (DEFER_BLOCK_STATE (lDetails (run trace w)))).
    cbn in L. lia.
  - intros E. split.
    + intros newState skip now Hne. apply renderDeferBlockState_invalid.
      unfold validChange, isValidStateChange. rewrite E.
      destruct newState; cbn; try reflexivity. now elim Hne.
    + intros trace. destruct (run_advances trace w) as [V|L]; [now left|right].
      unfold rank in L. rewrite E in L. cbn in L.
      destruct (DEFER_BLOCK_STATE (lDetails (run trace w))) as [|[]]; cbn in L;
        try lia. reflexivity.
Qed.

(** After [Error] a request for [Complete], a trigger and a request for
    [Placeholder] change nothing visible. *)
Lemma terminal_states_witness :
  let w := renderDeferBlockState Error false 20
             (run [(0, TriggerBlock); (10, Settle [Fulfilled someComponent])]
                (fullBlock browser)) in
  visible (run [(30, Render Complete true); (40, TriggerBlock); (50, Render Placeholder false)] w)
  = visible w.
Proof.
  intros w. apply (proj1 (terminal_states w)). vm_compute. reflexivity.
Defined.

(** *** What a rendering request leaves alone *)

(** The static details, the environment and the loading machinery are not
    touched by a rendering request. *)
Lemma renderDeferBlockState_frame newState skip now w :
  let w' := renderDeferBlockState newState skip now w in
  env w' = env w /\ tDetails w' = tDetails w /\ hostDestroyed w' = hostDestroyed w
  /\ resolverCalls w' = resolverCalls w /\ pendingLoad w' = pendingLoad w
  /\ reactions w' = reactions w /\ fulfilled w' = fulfilled w
  /\ directiveRegistry w' = directiveRegistry w /\ pipeRegistry w' = pipeRegistry w
  /\ TRIGGER_CLEANUP_FNS (lDetails w') = TRIGGER_CLEANUP_FNS (lDetails w)
  /\ PREFETCH_TRIGGER_CLEANUP_FNS (lDetails w') = PREFETCH_TRIGGER_CLEANUP_FNS (lDetails w).
Proof.
  unfold renderDeferBlockState, validChange, needsScheduling,
    applyDeferBlockStateWithScheduling, scheduleDeferBlockUpdate, scheduleTimerTrigger,
    schedule, applyDeferBlockState, runCleanupFn, handleError.
  open_instance w. break_all; repeat split.
Qed.

(** Without timers in play a request is [applyDeferBlockState] under the
    guard. *)
Lemma renderDeferBlockState_unscheduled newState skip now w :
  needsScheduling skip w = false ->
  renderDeferBlockState newState skip now w
  = if hostDestroyed w then w
    else if validChange newState w then
      match applyDeferBlockState newState w with
      | (w1, Some error) => handleError error w1
      | (w1, None) => w1
      end
    else w.
Proof. intros H. unfold renderDeferBlockState. now rewrite H. Qed.

Lemma needsScheduling_outside_browser skip w :
  isPlatformBrowser (env w) = false -> needsScheduling skip w = false.
Proof.
  intros H. unfold needsScheduling. rewrite H. now rewrite andb_false_r.
Qed.

(** C10. Without a template for the requested state [applyDeferBlockState]
    changes nothing: the world is returned as it was, in particular the
    stored state and the views of the container, and nothing is thrown. So a
    request that reaches it through [renderDeferBlockState], without timers,
    is without effect. *)
Theorem applyDeferBlockState_without_template newState w :
  getTemplateIndexForState newState (tDetails w) = None ->
  applyDeferBlockState newState w = (w, None)
  /\ DEFER_BLOCK_STATE (lDetails (fst (applyDeferBlockState newState w)))
     = DEFER_BLOCK_STATE (lDetails w)
  /\ lContainer (fst (applyDeferBlockState newState w)) = lContainer w
  /\ (forall skip now, needsScheduling skip w = false ->
        renderDeferBlockState newState skip now w = w).
Proof.
  intros H.
  assert (E : applyDeferBlockState newState w = (w, None)).
  { unfold applyDeferBlockState. now rewrite H. }
  rewrite E. repeat split.
  intros skip now N. rewrite (renderDeferBlockState_unscheduled _ _ _ _ N), E.
  destruct (hostDestroyed w); [reflexivity|].
  now destruct (validChange newState w).
Qed.

(** [Loading] is applied to a block without a loading template. *)
Lemma applyDeferBlockState_without_template_witness :
  applyDeferBlockState Loading (renderPlaceholder 0 (plainBlock browser))
  = (renderPlaceholder 0 (plainBlock browser), None).
Proof.
  apply (applyDeferBlockState_without_template Loading
           (renderPlaceholder 0 (plainBlock browser))).
  reflexivity.
Defined.

(** With a template, by contrast, the state is stored and the view replaced. *)
Example applyDeferBlockState_with_template :
  visible (fst (applyDeferBlockState Complete (renderPlaceholder 0 (plainBlock browser))))
  = (Rendered Complete, [mkView 0%nat None]).
Proof. vm_compute. reflexivity. Qed.

(** C8. Outside of a browser [scheduleDelayedTrigger] does what
    [renderPlaceholder] does and nothing more: the scheduling function is not
    called (no callback is added to a scheduler, no identifier is drawn) and
    no clean-up function is stored. The placeholder is rendered: when the
    block has a placeholder template, the host view is not destroyed and the
    request is accepted (nothing is rendered or buffered yet), the stored
    state becomes [Placeholder] and the view of the template replaces the
    first view of the container; when the creation of that view throws, the
    error goes to the error handler and the container is left without it.
    Without a placeholder template, in a destroyed host view or when the
    request is refused, the call changes nothing.
    [scheduleDelayedPrefetching] changes nothing at all. *)
Theorem delayed_triggers_outside_browser scheduleFn now w :
  isPlatformBrowser (env w) = false ->
  let w' := scheduleDelayedTrigger scheduleFn now w in
  w' = renderPlaceholder now w
  /\ scheduled w' = scheduled w
  /\ nextId w' = nextId w
  /\ TRIGGER_CLEANUP_FNS (lDetails w') = TRIGGER_CLEANUP_FNS (lDetails w)
  /\ PREFETCH_TRIGGER_CLEANUP_FNS (lDetails w') = PREFETCH_TRIGGER_CLEANUP_FNS (lDetails w)
  /\ (forall i, placeholderTmplIndex (tDetails w) = Some i ->
        hostDestroyed w = false ->
        validChange Placeholder w = true ->
        DEFER_BLOCK_STATE (lDetails w') = Rendered Placeholder
        /\ lContainer w'
           = (if renderThrows (env w) i then [] else [mkView i None]) ++ tl (lContainer w)
        /\ errorLog w'
           = errorLog w ++ (if renderThrows (env w) i then [Handled (ViewError i)] else []))
  /\ (placeholderTmplIndex (tDetails w) = None
      \/ hostDestroyed w = true
      \/ validChange Placeholder w = false -> w' = w)
  /\ scheduleDelayedPrefetching scheduleFn now w = w.
Proof.
  intros B w'.
  assert (E : w' = renderPlaceholder now w).
  { subst w'. unfold scheduleDelayedTrigger, renderPlaceholder.
    destruct (renderDeferBlockState_frame Placeholder false now w) as (-> & _).
    now rewrite B. }
  rewrite E. unfold renderPlaceholder.
  rewrite (renderDeferBlockState_unscheduled _ _ _ _ (needsScheduling_outside_browser false w B)).
  split; [reflexivity|].
  unfold scheduleDelayedPrefetching. rewrite B.
  unfold applyDeferBlockState, handleError; cbn [getTemplateIndexForState].
  split; [open_instance w; break_all; reflexivity|].
  split; [open_instance w; break_all; reflexivity|].
  split; [open_instance w; break_all; reflexivity|].
  split; [open_instance w; break_all; reflexivity|].
  split; [|split; [|reflexivity]].
  - intros i T D V. rewrite T, D, V. unfold removeLViewFromLContainer, addLViewToLContainer.
    clear. open_instance w. cbn. destruct (renderThrows env0 i); cbn;
      rewrite ?app_nil_r; destruct lContainer0; repeat split.
  - intros [T|[D|V]]; [rewrite T | rewrite D | rewrite V];
      try reflexivity; now destruct (hostDestroyed w), (validChange Placeholder w).
Qed.

(** [on timer(500)] and [prefetch on idle] on the server: the placeholder of
    the block is shown, and nothing is scheduled. *)
Lemma delayed_triggers_outside_browser_witness :
  let w' := scheduleDelayedTrigger (OnTimer 500) 0 (plainBlock server) in
  visible w' = (Rendered Placeholder, [mkView 2%nat None])
  /\ errorLog w' = []
  /\ scheduled w' = []
  /\ TRIGGER_CLEANUP_FNS (lDetails w') = Some [RemoveLViewOnDestroy]
  /\ scheduleDelayedPrefetching OnIdle 0 (plainBlock server) = plainBlock server.
Proof.
  pose proof (delayed_triggers_outside_browser (OnTimer 500) 0 (plainBlock server) eq_refl)
    as (_ & H2 & _ & H4 & _ & H6 & _).
  pose proof (delayed_triggers_outside_browser OnIdle 0 (plainBlock server) eq_refl)
    as (_ & _ & _ & _ & _ & _ & _ & H8).
  destruct (H6 2%nat eq_refl eq_refl eq_refl) as (S1 & S2 & S3).
  split; [unfold visible; rewrite S1, S2; reflexivity|].
  split; [exact S3|]. split; [exact H2|]. split; [exact H4 | exact H8].
Defined.

(** In a browser, by contrast, the timer is armed and its clean-up stored. *)
Example delayed_trigger_in_browser :
  let w := scheduleDelayedTrigger (OnTimer 500) 0 (plainBlock browser) in
  scheduled w = [mkScheduled 0 (Some 500) TriggerDeferBlock]
  /\ TRIGGER_CLEANUP_FNS (lDetails w) = Some [RemoveLViewOnDestroy; CancelScheduled 0]
  /\ DEFER_BLOCK_STATE (lDetails w) = Rendered Placeholder.
Proof. vm_compute. repeat split. Qed.

(** *** Settled dependencies *)

Lemma collectDependencies_failed results : forall ds ps,
  fst (fst (collectDependencies results ds ps)) = true <-> In Rejected results.
Proof.
  induction results as [|[dep|] results IH]; intros ds ps; cbn.
  - split; [discriminate | tauto].
  - destruct (getComponentDef dep); [|destruct (getDirectiveDef dep);
      [|destruct (getPipeDef dep)]]; rewrite IH; split; auto;
      intros [H|H]; auto; discriminate.
  - split; auto.
Qed.

(** C4. When the dependency promises have settled and one of them was
    rejected, the load has failed: the loading state is [FAILED], nothing is
    added to the registries or to the providers, and without an error
    template a [RuntimeError] (loading failed) goes to [handleError], while
    with one nothing is reported. When none was rejected the loading state is
    [COMPLETE] and nothing is reported. *)
Theorem dependencies_settled taskId results w :
  let w' := onDependenciesSettled taskId results w in
  (In Rejected results ->
     loadingState (tDetails w') = FAILED
     /\ directiveRegistry w' = directiveRegistry w
     /\ pipeRegistry w' = pipeRegistry w
     /\ providers (tDetails w') = providers (tDetails w)
     /\ (errorTmplIndex (tDetails w) = None ->
           errorLog w' = errorLog w ++ [Handled (RuntimeError DEFER_LOADING_FAILED)])
     /\ (errorTmplIndex (tDetails w) <> None -> errorLog w' = errorLog w))
  /\ (~ In Rejected results ->
        loadingState (tDetails w') = COMPLETE /\ errorLog w' = errorLog w).
Proof.
  intros w'. subst w'. unfold onDependenciesSettled.
  pose proof (collectDependencies_failed results [] []) as F.
  destruct (collectDependencies results [] []) as [[failed ds] ps]; cbn in F.
  split; intros H.
  - apply F in H. subst failed. unfold handleError.
    open_world w. break_all; repeat split; congruence.
  - destruct failed; [elim H; now apply F|]. unfold handleError.
    open_world w. break_all; repeat split.
Qed.

(** Three dependencies, the second of which is rejected, for a block without
    an error template. *)
Lemma dependencies_settled_witness :
  let w := fst (triggerResourceLoading (plainBlock browser)) in
  let w' := onDependenciesSettled 0 [Fulfilled someComponent; Rejected; Fulfilled somePipe] w in
  loadingState (tDetails w') = FAILED
  /\ directiveRegistry w' = None
  /\ pipeRegistry w' = None
  /\ errorLog w' = [Handled (RuntimeError DEFER_LOADING_FAILED)].
Proof.
  intros w w'.
  destruct (dependencies_settled 0
              [Fulfilled someComponent; Rejected; Fulfilled somePipe] w) as [H _].
  destruct (H (or_intror (or_introl eq_refl))) as (H1 & H2 & H3 & _ & H5 & _).
  split; [exact H1 | split; [exact H2 | split; [exact H3 | exact (H5 eq_refl)]]].
Defined.

(** *** Loading with a delay *)


(** By contrast, in a browser and with the timers. *)
Example loading_after_deferred :
  let w' := renderDeferBlockState Loading false 0 (afterBlock browser) in
  visible w' = (Initial, [])
  /\ NEXT_DEFER_BLOCK_STATE (lDetails w') = Some Loading
  /\ scheduled w' = [mkScheduled 0 (Some 200) DeferBlockUpdate]
  /\ visible (fire 0 200 w') = (Rendered Loading, [mkView 1%nat None]).
Proof. vm_compute. repeat split. Qed.

Lemma renderDeferBlockState_scheduled newState now w :
  hostDestroyed w = false ->
  validChange newState w = true ->
  needsScheduling false w = true ->
  applyDeferBlockStateWithSchedulingImpl (env w) = true ->
  renderDeferBlockState newState false now w
  = match applyDeferBlockStateWithScheduling newState now w with
    | (w1, Some error) => handleError error w1
    | (w1, None) => w1
    end.
Proof. intros D V N I. unfold renderDeferBlockState. now rewrite D, V, N, I. Qed.





(** The scenario of the spec: the load completes before the delay is over;
    the timer is cancelled and the loading view is never mounted. *)
Example loading_never_shown :
  let w := run [(0, RenderPlaceholder); (0, TriggerBlock);
                (50, Settle [Fulfilled someComponent])] (afterBlock browser) in
  visible w = (Rendered Complete, [mkView 0%nat None])
  /\ scheduled w = []
  /\ invokedCleanups w = [RemoveLViewOnDestroy; CancelScheduled 0]
  /\ visible (run [(100, Fire 0); (100, Render Loading false)] w) = visible w.
Proof. vm_compute. repeat split. Qed.

(** A timer that is late. The placeholder has [minimum 100ms], the loading
    block [after 1000ms]. The block is triggered at 101, when the freeze is
    over but the callback of the minimum timer has not run yet; [Loading] is
    buffered and the delay timer armed for 1101. The callback of the minimum
    timer, running at 103, takes the buffered state as its own and renders
    [Loading] at once: the delay is not observed. *)
Example late_minimum_timer_renders_loading_early :
  let w := run [(0, RenderPlaceholder); (101, TriggerBlock)] minimumAndAfterBlock in
  scheduled w = [mkScheduled 0 (Some 100) DeferBlockUpdate;
                 mkScheduled 1 (Some 1101) DeferBlockUpdate]
  /\ NEXT_DEFER_BLOCK_STATE (lDetails w) = Some Loading
  /\ visible w = (Rendered Placeholder, [mkView 2%nat None])
  /\ visible (fire 0 103 w) = (Rendered Loading, [mkView 1%nat None]).
Proof. vm_compute. repeat split. Qed.

(** *** The [when] trigger *)

Lemma visible_inv w w' :
  visible w' = visible w ->
  DEFER_BLOCK_STATE (lDetails w') = DEFER_BLOCK_STATE (lDetails w)
  /\ lContainer w' = lContainer w.
Proof. unfold visible. intros [= H1 H2]. now split. Qed.

Lemma invokeAllTriggerCleanupFns_frame w :
  let w' := invokeAllTriggerCleanupFns w in
  env w' = env w /\ tDetails w' = tDetails w /\ hostDestroyed w' = hostDestroyed w
  /\ lContainer w' = lContainer w
  /\ DEFER_BLOCK_STATE (lDetails w') = DEFER_BLOCK_STATE (lDetails w)
  /\ NEXT_DEFER_BLOCK_STATE (lDetails w') = NEXT_DEFER_BLOCK_STATE (lDetails w)
  /\ STATE_IS_FROZEN_UNTIL (lDetails w') = STATE_IS_FROZEN_UNTIL (lDetails w)
  /\ LOADING_AFTER_CLEANUP_FN (lDetails w') = LOADING_AFTER_CLEANUP_FN (lDetails w).
Proof.
  unfold invokeAllTriggerCleanupFns. rewrite !invokeTriggerCleanupFns_closed.
  open_instance w. break_all; repeat split.
Qed.

(** An accepted request without timers, for a state that has a template. *)
Lemma renderDeferBlockState_applied newState skip now w i :
  needsScheduling skip w = false ->
  hostDestroyed w = false ->
  validChange newState w = true ->
  getTemplateIndexForState newState (tDetails w) = Some i ->
  let w' := renderDeferBlockState newState skip now w in
  DEFER_BLOCK_STATE (lDetails w') = Rendered newState
  /\ (renderThrows (env w) i = false -> newState <> Complete ->
        lContainer w' = mkView i None :: tl (lContainer w)).
Proof.
  intros N D V T w'. subst w'.
  rewrite (renderDeferBlockState_unscheduled _ _ _ _ N), D, V.
  unfold applyDeferBlockState, handleError. rewrite T.
  clear N V. open_instance w. break_all; split; auto; try congruence.
  all: intros _ H; destruct newState; try reflexivity; now elim H.
Qed.

(** The same with timers, when the request is not buffered. *)
Lemma renderDeferBlockState_applied_at_once newState now w i :
  appliedAtOnce newState now w ->
  hostDestroyed w = false ->
  validChange newState w = true ->
  getTemplateIndexForState newState (tDetails w) = Some i ->
  let w' := renderDeferBlockState newState false now w in
  DEFER_BLOCK_STATE (lDetails w') = Rendered newState
  /\ (renderThrows (env w) i = false -> newState <> Complete ->
        lContainer w' = mkView i None :: tl (lContainer w)).
Proof.
  intros [N|(I & F & A)] D V T; [now apply renderDeferBlockState_applied|].
  destruct (needsScheduling false w) eqn:N; [|now apply renderDeferBlockState_applied].
  intros w'. subst w'. rewrite (renderDeferBlockState_scheduled _ _ _ D V N I).
  assert (Fz : match STATE_IS_FROZEN_UNTIL (lDetails w) with
               | Some t => t <=? now
               | None => true
               end = true).
  { unfold frozenAt in F. destruct (STATE_IS_FROZEN_UNTIL (lDetails w));
      [now apply negb_false_iff in F | reflexivity]. }
  unfold applyDeferBlockStateWithScheduling, scheduleDeferBlockUpdate,
    scheduleTimerTrigger, schedule, applyDeferBlockState, runCleanupFn, handleError.
  rewrite Fz. clear N V F Fz.
  destruct newState; [clear A | specialize (A eq_refl) | clear A | clear A];
    open_instance w; break_all_inner; split; auto; try congruence;
    intros; congruence.
Qed.

(** [triggerDeferBlock] asks for [Loading], [Complete] or [Error] only. *)
Lemma triggerDeferBlock_state now w :
  let s' := DEFER_BLOCK_STATE (lDetails (triggerDeferBlock now w)) in
  s' = DEFER_BLOCK_STATE (lDetails w)
  \/ s' = Rendered Loading \/ s' = Rendered Complete \/ s' = Rendered Error.
Proof.
  unfold triggerDeferBlock.
  destruct (negb (shouldTriggerDeferBlock (env w))); [now left|].
  destruct (invokeAllTriggerCleanupFns_frame w) as (_ & _ & _ & _ & E & _).
  set (w1 := invokeAllTriggerCleanupFns w) in *. rewrite <- E.
  assert (R : forall s w2,
             DEFER_BLOCK_STATE (lDetails w2)
             = DEFER_BLOCK_STATE (lDetails (renderDeferBlockState s false now w1)) ->
             s <> Placeholder ->
             DEFER_BLOCK_STATE (lDetails w2) = DEFER_BLOCK_STATE (lDetails w1)
             \/ DEFER_BLOCK_STATE (lDetails w2) = Rendered Loading
             \/ DEFER_BLOCK_STATE (lDetails w2) = Rendered Complete
             \/ DEFER_BLOCK_STATE (lDetails w2) = Rendered Error).
  { intros s w2 -> Hs.
    destruct (renderDeferBlockState_state s false now w1) as [->|(_ & _ & ->)];
      [now left|]. destruct s; auto. now elim Hs. }
  destruct (loadingState (tDetails w1)).
  - apply (R Loading); [|discriminate].
    set (w2 := renderDeferBlockState Loading false now w1).
    destruct (visible_inv _ _ (triggerResourceLoading_visible w2)) as [E3 _].
    destruct (loadingState (tDetails (fst (triggerResourceLoading w2)))); try exact E3.
    destruct (visible_inv _ _ (renderDeferStateAfterResourceLoading_visible
                                 (fst (triggerResourceLoading w2)))) as [E4 _].
    congruence.
  - apply (R Loading); [|discriminate].
    now destruct (visible_inv _ _ (renderDeferStateAfterResourceLoading_visible
                                 (renderDeferBlockState Loading false now w1))).
  - apply (R Complete); [reflexivity | discriminate].
  - apply (R Error); [reflexivity | discriminate].
Qed.

(** When the block is triggered before its dependencies are there, what is
    visible afterwards is what the request for [Loading] left. *)
Lemma triggerDeferBlock_loading now w :
  shouldTriggerDeferBlock (env w) = true ->
  loadingState (tDetails w) = NOT_STARTED \/ loadingState (tDetails w) = IN_PROGRESS ->
  visible (triggerDeferBlock now w)
  = visible (renderDeferBlockState Loading false now (invokeAllTriggerCleanupFns w)).
Proof.
  intros S L. unfold triggerDeferBlock. rewrite S. cbn.
  destruct (invokeAllTriggerCleanupFns_frame w) as (_ & T & _).
  set (w1 := invokeAllTriggerCleanupFns w) in *. rewrite T.
  set (w2 := renderDeferBlockState Loading false now w1).
  destruct L as [-> | ->].
  - destruct (loadingState (tDetails (fst (triggerResourceLoading w2))));
      try apply triggerResourceLoading_visible.
    now rewrite renderDeferStateAfterResourceLoading_visible, triggerResourceLoading_visible.
  - apply renderDeferStateAfterResourceLoading_visible.
Qed.

(** C7, as stated, fails in several ways. A block without a loading template
    that is triggered by [when] stays [Initial]; on the server nothing is
    triggered; when the dependencies were prefetched the block goes to
    [Complete] at once; with [after] configured [Loading] is buffered; within
    the minimum duration of the placeholder it is buffered too; and a value
    that turns false while [Loading] is buffered does not render the
    placeholder. *)
Lemma deferWhen_not_always_loading :
  DEFER_BLOCK_STATE (lDetails (ɵɵdeferWhen (JBool true) 0 (plainBlock browser))) = Initial
  /\ visible (ɵɵdeferWhen (JBool true) 0 (fullBlock server)) = (Initial, [])
  /\ visible (ɵɵdeferWhen (JBool true) 20
               (run [(0, TriggerPrefetch); (10, Settle [Fulfilled someComponent])]
                  (fullBlock browser)))
     = (Rendered Complete, [mkView 0%nat None])
  /\ visible (ɵɵdeferWhen (JBool true) 0 (afterBlock browser)) = (Initial, [])
  /\ visible (ɵɵdeferWhen (JBool true) 50 (renderPlaceholder 0 minimumAndAfterBlock))
     = (Rendered Placeholder, [mkView 2%nat None])
  /\ placeholderTmplIndex (tDetails (afterBlock browser)) = Some 2%nat
     /\ visible (ɵɵdeferWhen (JBool false) 1 (ɵɵdeferWhen (JBool true) 0 (afterBlock browser)))
        = (Initial, []).
Proof. vm_compute. repeat split. Qed.

(** C7, amended. When the bound value has changed and is truthy while the
    rendered state is [Initial] or [Placeholder], [ɵɵdeferWhen] calls
    [triggerDeferBlock]; from [Initial] the placeholder is not rendered by
    that call, whatever else holds. In a browser with a behaviour other than
    manual, a host view that is not destroyed, dependencies that are not
    loaded yet, a loading template, nothing buffered, and a request that is
    applied at once (no frozen state, no [after] delay), the rendered state
    becomes [Loading] (and the loading view is mounted if its creation does
    not throw). When the value has changed and is falsy while the state is
    [Initial], [renderPlaceholder] is called; with a placeholder template,
    nothing buffered, a host view that is not destroyed and a request that is
    applied at once, the rendered state is [Placeholder]. *)
Theorem deferWhen_spec rawValue now w :
  bindingUpdated (whenBinding w) rawValue = true ->
  let w0 := set_whenBinding (Some rawValue) w in
  let w' := ɵɵdeferWhen rawValue now w in
  (Boolean rawValue = true ->
   DEFER_BLOCK_STATE (lDetails w) = Initial
   \/ DEFER_BLOCK_STATE (lDetails w) = Rendered Placeholder ->
     w' = triggerDeferBlock now w0
     /\ (DEFER_BLOCK_STATE (lDetails w) = Initial ->
           DEFER_BLOCK_STATE (lDetails w') = Rendered Placeholder -> False)
     /\ (forall i,
           shouldTriggerDeferBlock (env w) = true ->
           hostDestroyed w = false ->
           loadingState (tDetails w) = NOT_STARTED
           \/ loadingState (tDetails w) = IN_PROGRESS ->
           loadingTmplIndex (tDetails w) = Some i ->
           NEXT_DEFER_BLOCK_STATE (lDetails w) = None ->
           appliedAtOnce Loading now w ->
           DEFER_BLOCK_STATE (lDetails w') = Rendered Loading
           /\ (renderThrows (env w) i = false ->
                 lContainer w' = mkView i None :: tl (lContainer w))))
  /\ (Boolean rawValue = false ->
      DEFER_BLOCK_STATE (lDetails w) = Initial ->
        w' = renderPlaceholder now w0
        /\ (forall i,
              hostDestroyed w = false ->
              placeholderTmplIndex (tDetails w) = Some i ->
              NEXT_DEFER_BLOCK_STATE (lDetails w) = None ->
              appliedAtOnce Placeholder now w ->
              DEFER_BLOCK_STATE (lDetails w') = Rendered Placeholder
              /\ (renderThrows (env w) i = false ->
                    lContainer w' = mkView i None :: tl (lContainer w)))).
Proof.
  intros U w0 w'.
  assert (E0 : DEFER_BLOCK_STATE (lDetails w0) = DEFER_BLOCK_STATE (lDetails w))
    by now destruct w.
  split.
  - intros B S.
    assert (E : w' = triggerDeferBlock now w0).
    { subst w'. unfold ɵɵdeferWhen. rewrite U, B. fold w0. rewrite E0.
      now destruct S as [-> | ->]. }
    split; [exact E|]. split.
    + intros I P. rewrite E in P.
      pose proof (triggerDeferBlock_state now w0) as H. cbv zeta in H.
      rewrite P, E0, I in H. destruct H as [H|[H|[H|H]]]; discriminate.
    + intros i T D L Li Nx Ns. rewrite E.
      assert (Ev : visible (triggerDeferBlock now w0)
                   = visible (renderDeferBlockState Loading false now
                                (invokeAllTriggerCleanupFns w0))).
      { apply triggerDeferBlock_loading; now destruct w. }
      apply visible_inv in Ev as [-> ->].
      destruct (invokeAllTriggerCleanupFns_frame w0)
        as (F1 & F2 & F3 & F4 & F5 & F6 & F7 & _).
      set (w1 := invokeAllTriggerCleanupFns w0) in *.
      assert (G1 : env w1 = env w) by (rewrite F1; now destruct w).
      assert (G2 : tDetails w1 = tDetails w) by (rewrite F2; now destruct w).
      assert (G3 : hostDestroyed w1 = false) by (rewrite F3; now destruct w).
      assert (G4 : lContainer w1 = lContainer w) by (rewrite F4; now destruct w).
      assert (G6 : NEXT_DEFER_BLOCK_STATE (lDetails w1) = None)
        by (rewrite F6; now destruct w).
      assert (G7 : STATE_IS_FROZEN_UNTIL (lDetails w1) = STATE_IS_FROZEN_UNTIL (lDetails w))
        by (rewrite F7; now destruct w).
      assert (Ns1 : appliedAtOnce Loading now w1).
      { unfold appliedAtOnce, needsScheduling, frozenAt in *.
        now rewrite G1, G2, G7. }
      assert (V1 : validChange Loading w1 = true).
      { unfold validChange, nextOrMinusOne, isValidStateChange.
        rewrite G6, F5, E0. now destruct S as [-> | ->]. }
      assert (T1 : getTemplateIndexForState Loading (tDetails w1) = Some i)
        by (rewrite G2; exact Li).
      destruct (renderDeferBlockState_applied_at_once Loading now w1 i Ns1 G3 V1 T1)
        as [R1 R2].
      split; [exact R1|]. intros Th. rewrite <- G4. apply R2; [now rewrite G1 | discriminate].
  - intros B I.
    assert (E : w' = renderPlaceholder now w0).
    { subst w'. unfold ɵɵdeferWhen. rewrite U, B. fold w0. now rewrite E0, I. }
    split; [exact E|].
    intros i D P Nx Ns. rewrite E. unfold renderPlaceholder.
    assert (Ns0 : appliedAtOnce Placeholder now w0) by now destruct w.
    assert (D0 : hostDestroyed w0 = false) by now destruct w.
    assert (V0 : validChange Placeholder w0 = true).
    { unfold validChange, nextOrMinusOne, isValidStateChange. rewrite E0, I.
      replace (NEXT_DEFER_BLOCK_STATE (lDetails w0)) with (@None DeferBlockState)
        by (now destruct w). reflexivity. }
    assert (T0 : getTemplateIndexForState Placeholder (tDetails w0) = Some i)
      by now destruct w.
    destruct (renderDeferBlockState_applied_at_once Placeholder now w0 i Ns0 D0 V0 T0)
      as [R1 R2].
    split; [exact R1|]. intros Th.
    replace (lContainer w) with (lContainer w0) by now destruct w.
    apply R2; [now destruct w | discriminate].
Qed.

(** In a browser, for a block with all four templates and no timing
    configuration. *)
Lemma deferWhen_spec_witness :
  DEFER_BLOCK_STATE (lDetails (ɵɵdeferWhen (JBool true) 0 (fullBlock browser)))
  = Rendered Loading
  /\ lContainer (ɵɵdeferWhen (JBool true) 0 (fullBlock browser)) = [mkView 1%nat None]
  /\ DEFER_BLOCK_STATE (lDetails (ɵɵdeferWhen (JBool false) 0 (fullBlock browser)))
     = Rendered Placeholder.
Proof.
  pose proof (deferWhen_spec (JBool true) 0 (fullBlock browser) eq_refl) as [H _].
  destruct (H eq_refl (or_introl eq_refl)) as (_ & _ & H3).
  destruct (H3 1%nat eq_refl eq_refl (or_introl eq_refl) eq_refl eq_refl
              (or_introl eq_refl)) as [L1 L2].
  pose proof (deferWhen_spec (JBool false) 0 (fullBlock browser) eq_refl) as [_ K].
  destruct (K eq_refl eq_refl) as (_ & K2).
  destruct (K2 2%nat eq_refl eq_refl eq_refl (or_introl eq_refl)) as [P1 _].
  split; [exact L1 | split; [exact (L2 eq_refl) | exact P1]].
Defined.


(** *** Loading of the dependencies *)

Lemma loadFrame_refl w : loadFrame w w.
Proof. unfold loadFrame; repeat split; lia. Qed.

Lemma loadFrame_trans w1 w2 w3 : loadFrame w1 w2 -> loadFrame w2 w3 -> loadFrame w1 w3.
Proof.
  unfold loadFrame. intros (A1 & A2 & A3 & A4 & A5 & A6) (B1 & B2 & B3 & B4 & B5 & B6).
  repeat split; try congruence; lia.
Qed.

Lemma LoadInv_frame w w' : loadFrame w w' -> LoadInv w -> LoadInv w'.
Proof.
  unfold loadFrame, LoadInv. intros (A1 & A2 & A3 & A4 & A5 & A6) [H1 H2].
  rewrite A1, A2, A3, A4. split.
  - destruct (loadingState (tDetails w)); auto.
    destruct H1 as [(pl & P1 & P2 & P3 & P4) P5]. split; [|exact P5].
    exists pl. repeat split; auto. lia.
  - intros p Hp. specialize (H2 p Hp). lia.
Qed.

Lemma renderDeferBlockState_loadFrame newState skip now w :
  loadFrame w (renderDeferBlockState newState skip now w).
Proof.
  destruct (renderDeferBlockState_frame newState skip now w)
    as (E1 & E2 & _ & E4 & E5 & _ & E7 & _).
  unfold loadFrame. repeat split; auto.
  unfold renderDeferBlockState, validChange, needsScheduling,
    applyDeferBlockStateWithScheduling, scheduleDeferBlockUpdate, scheduleTimerTrigger,
    schedule, applyDeferBlockState, runCleanupFn, handleError.
  clear. open_instance w. break_all; lia.
Qed.

Lemma invokeTriggerCleanupFns_loadFrame type w :
  loadFrame w (invokeTriggerCleanupFns type w).
Proof.
  rewrite invokeTriggerCleanupFns_closed. unfold loadFrame.
  destruct (cleanupFnsOf type (lDetails w)); destruct w; cbn; repeat split; lia.
Qed.

Lemma invokeAllTriggerCleanupFns_loadFrame w :
  loadFrame w (invokeAllTriggerCleanupFns w).
Proof.
  unfold invokeAllTriggerCleanupFns.
  eapply loadFrame_trans; apply invokeTriggerCleanupFns_loadFrame.
Qed.

Lemma storeTriggerCleanupFn_loadFrame type fn w :
  loadFrame w (storeTriggerCleanupFn type fn w).
Proof. unfold loadFrame. destruct w; cbn; repeat split; lia. Qed.

Lemma callScheduleFn_loadFrame fn cb now w :
  loadFrame w (fst (callScheduleFn fn cb now w)).
Proof. unfold loadFrame. destruct w, fn; cbn; repeat split; lia. Qed.

Lemma renderDeferStateAfterResourceLoading_loadFrame w :
  loadFrame w (renderDeferStateAfterResourceLoading w).
Proof.
  unfold loadFrame, renderDeferStateAfterResourceLoading.
  destruct (loadingPromise (tDetails w)); destruct w; cbn; repeat split; lia.
Qed.

(** The first call. *)
Lemma triggerResourceLoading_first w :
  loadingState (tDetails w) = NOT_STARTED ->
  let w' := fst (triggerResourceLoading w) in
  let p := snd (triggerResourceLoading w) in
  loadingState (tDetails w') = IN_PROGRESS
  /\ loadingPromise (tDetails w') = Some p
  /\ (exists task k, pendingLoad w' = Some (mkPendingLoad p task k))
  /\ resolverCalls w'
     = resolverCalls w ++ match dependenciesFnOf w with Some fn => [fn] | None => [] end
  /\ fulfilled w' = fulfilled w
  /\ (nextId w <= p < nextId w')%nat
  /\ env w' = env w.
Proof.
  intros H. unfold triggerResourceLoading. rewrite H.
  rewrite invokeTriggerCleanupFns_closed. unfold dependenciesFnOf.
  open_world w. subst. break_all; cbn; rewrite ?app_nil_r;
    repeat split; try lia; try (do 2 eexists; reflexivity); congruence.
Qed.

(** A call while the promise is there returns it and does nothing else. *)
Lemma triggerResourceLoading_in_flight w p :
  loadingState (tDetails w) <> NOT_STARTED ->
  loadingPromise (tDetails w) = Some p ->
  triggerResourceLoading w = (w, p).
Proof.
  intros H P. unfold triggerResourceLoading. rewrite P.
  destruct (loadingState (tDetails w)); [now elim H | reflexivity..].
Qed.

(** A call after the end returns a new promise that is resolved already. *)
Lemma triggerResourceLoading_finished w :
  loadingState (tDetails w) <> NOT_STARTED ->
  loadingPromise (tDetails w) = None ->
  let w' := fst (triggerResourceLoading w) in
  let p := snd (triggerResourceLoading w) in
  In p (fulfilled w') /\ fulfilled w' = p :: fulfilled w /\ p = nextId w
  /\ nextId w' = S (nextId w)
  /\ tDetails w' = tDetails w /\ resolverCalls w' = resolverCalls w
  /\ pendingLoad w' = pendingLoad w /\ env w' = env w.
Proof.
  intros H P. unfold triggerResourceLoading. rewrite P.
  destruct (loadingState (tDetails w)); [now elim H | ..];
    destruct w; cbn; repeat split; now left.
Qed.

Lemma triggerResourceLoading_LoadInv w :
  LoadInv w -> LoadInv (fst (triggerResourceLoading w)).
Proof.
  intros I. destruct (loadingState (tDetails w)) eqn:S.
  - destruct (triggerResourceLoading_first w S) as (A1 & A2 & (task & k & A3) & A4 & A5 & A6 & _).
    unfold LoadInv in *. rewrite S in I. destruct I as [(I1 & I2 & I3) I4].
    rewrite A1, A5. split; [split|].
    + exists (mkPendingLoad (snd (triggerResourceLoading w)) task k). cbn.
      split; [exact A3|]. split; [exact A2|].
      split; [intros Hin; apply I4 in Hin; lia | lia].
    + rewrite A4, I3. destruct (dependenciesFnOf w); cbn; lia.
    + intros p Hp. apply I4 in Hp. lia.
  - unfold LoadInv in I. rewrite S in I.
    destruct I as [[(pl & P1 & P2 & P3 & P4) P5] I4].
    assert (E : triggerResourceLoading w = (w, pendingPromise pl))
      by (apply triggerResourceLoading_in_flight; [congruence | exact P2]).
    rewrite E. cbn. unfold LoadInv. rewrite S.
    split; [split; [exists pl; auto | exact P5] | exact I4].
  - assert (N : loadingState (tDetails w) <> NOT_STARTED) by congruence.
    unfold LoadInv in I. rewrite S in I. destruct I as [(I1 & I2 & I3) I4].
    destruct (triggerResourceLoading_finished w N I1) as (B1 & B2 & B3 & B4 & B5 & B6 & B7 & _).
    unfold LoadInv. rewrite B5, S, B6, B7, B2, B4. split; [auto|].
    intros p [<-|Hp]; [lia | apply I4 in Hp; lia].
  - assert (N : loadingState (tDetails w) <> NOT_STARTED) by congruence.
    unfold LoadInv in I. rewrite S in I. destruct I as [(I1 & I2 & I3) I4].
    destruct (triggerResourceLoading_finished w N I1) as (B1 & B2 & B3 & B4 & B5 & B6 & B7 & _).
    unfold LoadInv. rewrite B5, S, B6, B7, B2, B4. split; [auto|].
    intros p [<-|Hp]; [lia | apply I4 in Hp; lia].
Qed.

(** What the callback of the loading promise does to the loading machinery. *)
Lemma loadingCallback_loading (pl : PendingLoad) results w :
  let w' := if awaitsDependencies pl
            then onDependenciesSettled (pendingTask pl) results w
            else onNoDependencies (pendingTask pl) w in
  (loadingState (tDetails w') = COMPLETE \/ loadingState (tDetails w') = FAILED)
  /\ loadingPromise (tDetails w') = None
  /\ pendingLoad w' = pendingLoad w /\ resolverCalls w' = resolverCalls w
  /\ fulfilled w' = fulfilled w /\ nextId w' = nextId w /\ env w' = env w
  /\ reactions w' = reactions w.
Proof.
  destruct (awaitsDependencies pl); cbn.
  - unfold onDependenciesSettled, handleError.
    destruct (collectDependencies results [] []) as [[failed ds] ps].
    open_world w. break_all; repeat split; auto.
  - destruct w; cbn; repeat split; auto.
Qed.

Lemma runReactions_loadFrame now rs : forall w,
  loadFrame w (fold_left (fun acc r => runReaction r now acc) rs w).
Proof.
  induction rs as [|r rs IH]; intros w; cbn; [apply loadFrame_refl|].
  eapply loadFrame_trans; [|apply IH].
  destruct r; cbn. destruct (loadingState (tDetails w));
    try apply loadFrame_refl; apply renderDeferBlockState_loadFrame.
Qed.

Lemma settle_LoadInv results now w : LoadInv w -> LoadInv (settle results now w).
Proof.
  intros I. unfold settle. destruct (pendingLoad w) as [pl|] eqn:P; [|exact I].
  eapply LoadInv_frame; [apply runReactions_loadFrame|].
  destruct (loadingCallback_loading pl results (set_pendingLoad None w))
    as (C1 & C2 & C3 & C4 & C5 & C6 & _).
  set (w2 := if awaitsDependencies pl then _ else _) in *.
  unfold LoadInv in *.
  assert (F : forall p, In p (pendingPromise pl :: fulfilled w) -> (p < nextId w)%nat).
  { destruct I as [I1 I4]. intros p [<-|Hp]; [|now apply I4].
    destruct (loadingState (tDetails w)); try (destruct I1 as (_ & I1 & _); congruence).
    destruct I1 as [(pl' & P1 & _ & _ & P4) _]. congruence. }
  assert (R : (List.length (resolverCalls w) <= 1)%nat).
  { destruct I as [I1 _]. destruct (loadingState (tDetails w));
      try (destruct I1 as (_ & _ & I1); try rewrite I1; cbn; lia).
    now destruct I1. }
  replace (tDetails (set_reactions [] (set_fulfilled (pendingPromise pl :: fulfilled w2) w2)))
    with (tDetails w2) by now destruct w2.
  replace (pendingLoad (set_reactions [] (set_fulfilled (pendingPromise pl :: fulfilled w2) w2)))
    with (pendingLoad w2) by now destruct w2.
  replace (resolverCalls (set_reactions [] (set_fulfilled (pendingPromise pl :: fulfilled w2) w2)))
    with (resolverCalls w2) by now destruct w2.
  replace (fulfilled (set_reactions [] (set_fulfilled (pendingPromise pl :: fulfilled w2) w2)))
    with (pendingPromise pl :: fulfilled w2) by now destruct w2.
  replace (nextId (set_reactions [] (set_fulfilled (pendingPromise pl :: fulfilled w2) w2)))
    with (nextId w2) by now destruct w2.
  rewrite C2, C3, C4, C5, C6.
  replace (pendingLoad (set_pendingLoad None w)) with (@None PendingLoad) by now destruct w.
  replace (resolverCalls (set_pendingLoad None w)) with (resolverCalls w) by now destruct w.
  replace (fulfilled (set_pendingLoad None w)) with (fulfilled w) by now destruct w.
  replace (nextId (set_pendingLoad None w)) with (nextId w) by now destruct w.
  split; [|exact F].
  destruct C1 as [-> | ->]; auto.
Qed.

Lemma triggerPrefetching_LoadInv w : LoadInv w -> LoadInv (triggerPrefetching w).
Proof.
  intros I. unfold triggerPrefetching.
  destruct (shouldTriggerDeferBlock (env w)); [now apply triggerResourceLoading_LoadInv | exact I].
Qed.

Lemma triggerDeferBlock_LoadInv now w : LoadInv w -> LoadInv (triggerDeferBlock now w).
Proof.
  intros I. unfold triggerDeferBlock.
  destruct (negb (shouldTriggerDeferBlock (env w))); [exact I|].
  pose proof (LoadInv_frame _ _ (invokeAllTriggerCleanupFns_loadFrame w) I) as I1.
  set (w1 := invokeAllTriggerCleanupFns w) in *.
  destruct (loadingState (tDetails w1)).
  - pose proof (LoadInv_frame _ _ (renderDeferBlockState_loadFrame Loading false now w1) I1) as I2.
    apply triggerResourceLoading_LoadInv in I2.
    destruct (loadingState (tDetails (fst (triggerResourceLoading _)))); try exact I2.
    eapply LoadInv_frame; [apply renderDeferStateAfterResourceLoading_loadFrame | exact I2].
  - eapply LoadInv_frame; [apply renderDeferStateAfterResourceLoading_loadFrame|].
    eapply LoadInv_frame; [apply renderDeferBlockState_loadFrame | exact I1].
  - eapply LoadInv_frame; [apply renderDeferBlockState_loadFrame | exact I1].
  - eapply LoadInv_frame; [apply renderDeferBlockState_loadFrame | exact I1].
Qed.

Lemma set_scheduled_loadFrame s w : loadFrame w (set_scheduled s w).
Proof. unfold loadFrame. destruct w; cbn; repeat split; lia. Qed.

Lemma handle_LoadInv now e w : LoadInv w -> LoadInv (handle now e w).
Proof.
  intros I. destruct e; cbn.
  - eapply LoadInv_frame; [apply renderDeferBlockState_loadFrame | exact I].
  - unfold fire. destruct (find _ (scheduled w)) as [s|]; [|exact I].
    pose proof (LoadInv_frame _ _ (set_scheduled_loadFrame
      (filter (fun s => negb (Nat.eqb (schedId s) id)) (scheduled w)) w) I) as I1.
    destruct (callback s); cbn.
    + unfold deferBlockUpdateCallback.
      set (w1 := set_lDetails _ _).
      assert (I2 : LoadInv w1).
      { eapply LoadInv_frame; [|exact I1]. unfold loadFrame, w1.
        destruct w; cbn; repeat split; lia. }
      destruct (NEXT_DEFER_BLOCK_STATE _); [|exact I2].
      eapply LoadInv_frame; [apply renderDeferBlockState_loadFrame | exact I2].
    + now apply triggerDeferBlock_LoadInv.
    + now apply triggerPrefetching_LoadInv.
  - now apply settle_LoadInv.
  - unfold ɵɵdeferWhen. destruct (bindingUpdated (whenBinding w) rawValue); [|exact I].
    assert (I1 : LoadInv (set_whenBinding (Some rawValue) w)).
    { eapply LoadInv_frame; [|exact I]. unfold loadFrame. destruct w; cbn; repeat split; lia. }
    destruct (Boolean rawValue), (DEFER_BLOCK_STATE _) as [|[]]; try exact I1;
      try (now apply triggerDeferBlock_LoadInv);
      eapply LoadInv_frame; [apply renderDeferBlockState_loadFrame | exact I1].
  - unfold ɵɵdeferPrefetchWhen.
    destruct (bindingUpdated (prefetchWhenBinding w) rawValue); [|exact I].
    assert (I1 : LoadInv (set_prefetchWhenBinding (Some rawValue) w)).
    { eapply LoadInv_frame; [|exact I]. unfold loadFrame. destruct w; cbn; repeat split; lia. }
    destruct (Boolean rawValue),
      (loadingState (tDetails (set_prefetchWhenBinding (Some rawValue) w))); try exact I1.
    now apply triggerPrefetching_LoadInv.
  - eapply LoadInv_frame; [|exact I]. unfold ɵɵdeferOnIdle, scheduleDelayedTrigger, renderPlaceholder.
    set (w1 := renderDeferBlockState Placeholder false now w).
    assert (F1 : loadFrame w w1) by apply renderDeferBlockState_loadFrame.
    destruct (isPlatformBrowser (env w1)); [|exact F1].
    pose proof (callScheduleFn_loadFrame OnIdle TriggerDeferBlock now w1) as F2.
    destruct (callScheduleFn OnIdle TriggerDeferBlock now w1) as [w2 c]; cbn in F2.
    eapply loadFrame_trans; [exact F1|]. eapply loadFrame_trans; [exact F2|].
    apply storeTriggerCleanupFn_loadFrame.
  - eapply LoadInv_frame; [|exact I]. unfold ɵɵdeferPrefetchOnIdle, scheduleDelayedPrefetching.
    destruct (isPlatformBrowser (env w)); [|apply loadFrame_refl].
    destruct (loadingState (tDetails w)); try apply loadFrame_refl.
    pose proof (callScheduleFn_loadFrame OnIdle TriggerPrefetching now w) as F2.
    destruct (callScheduleFn OnIdle TriggerPrefetching now w) as [w2 c]; cbn in F2.
    eapply loadFrame_trans; [exact F2|]. apply storeTriggerCleanupFn_loadFrame.
  - eapply LoadInv_frame; [|exact I]. unfold ɵɵdeferOnTimer, scheduleDelayedTrigger, renderPlaceholder.
    set (w1 := renderDeferBlockState Placeholder false now w).
    assert (F1 : loadFrame w w1) by apply renderDeferBlockState_loadFrame.
    destruct (isPlatformBrowser (env w1)); [|exact F1].
    pose proof (callScheduleFn_loadFrame (OnTimer delay) TriggerDeferBlock now w1) as F2.
    destruct (callScheduleFn (OnTimer delay) TriggerDeferBlock now w1) as [w2 c]; cbn in F2.
    eapply loadFrame_trans; [exact F1|]. eapply loadFrame_trans; [exact F2|].
    apply storeTriggerCleanupFn_loadFrame.
  - eapply LoadInv_frame; [|exact I]. unfold ɵɵdeferPrefetchOnTimer, scheduleDelayedPrefetching.
    destruct (isPlatformBrowser (env w)); [|apply loadFrame_refl].
    destruct (loadingState (tDetails w)); try apply loadFrame_refl.
    pose proof (callScheduleFn_loadFrame (OnTimer delay) TriggerPrefetching now w) as F2.
    destruct (callScheduleFn (OnTimer delay) TriggerPrefetching now w) as [w2 c]; cbn in F2.
    eapply loadFrame_trans; [exact F2|]. apply storeTriggerCleanupFn_loadFrame.
  - unfold ɵɵdeferOnImmediate. apply triggerDeferBlock_LoadInv.
    destruct (_ || _); [|exact I].
    eapply LoadInv_frame; [apply renderDeferBlockState_loadFrame | exact I].
  - unfold ɵɵdeferPrefetchOnImmediate. destruct (loadingState (tDetails w)) eqn:S; try exact I.
    now apply triggerResourceLoading_LoadInv.
  - eapply LoadInv_frame; [apply renderDeferBlockState_loadFrame | exact I].
  - now apply triggerDeferBlock_LoadInv.
  - now apply triggerPrefetching_LoadInv.
  - now apply triggerResourceLoading_LoadInv.
  - unfold destroyView. set (w1 := set_hostDestroyed true w).
    assert (I1 : LoadInv w1).
    { eapply LoadInv_frame; [|exact I]. unfold loadFrame. destruct w; cbn; repeat split; lia. }
    destruct (onDestroyRegistered w1); [|exact I1].
    eapply LoadInv_frame; [apply invokeAllTriggerCleanupFns_loadFrame | exact I1].
Qed.

Lemma run_LoadInv trace : forall w, LoadInv w -> LoadInv (run trace w).
Proof.
  induction trace as [|[now e] trace IH]; intros w I; cbn; [exact I|].
  apply IH. now apply handle_LoadInv.
Qed.

Lemma defer_LoadInv e primary fn l p er lc pc ts :
  LoadInv (ɵɵdefer e primary fn l p er lc pc ts).
Proof. unfold LoadInv; cbn. repeat split. intros q []. Qed.

(** The block is triggered twice, the dependencies settle, and the loading is
    asked for once more: one call of the dependency function. *)
Example resolver_called_once :
  let w := run [(0, TriggerLoading); (1, TriggerBlock); (2, TriggerLoading);
                (5, Settle [Fulfilled someComponent]); (6, TriggerLoading)]
             (fullBlock browser) in
  resolverCalls w = [7%nat]
  /\ loadingState (tDetails w) = COMPLETE
  /\ visible w = (Rendered Complete, [mkView 0%nat None]).
Proof. vm_compute. repeat split. Qed.

(** In the worlds that the events reach, a loading state [IN_PROGRESS] comes
    with a loading promise: the call of [then] in
    [renderDeferStateAfterResourceLoading] finds it. *)
Lemma loading_promise_invariant w :
  LoadInv w -> loadingState (tDetails w) = IN_PROGRESS ->
  exists p, loadingPromise (tDetails w) = Some p /\ pendingPromiseIn w p.
Proof.
  intros [I _] S. rewrite S in I. destruct I as [(pl & _ & P2 & P3 & P4) _].
  exists (pendingPromise pl). now repeat split.
Qed.

End DeferFacts.

(* ===================================================================== *)
(** ** Properties of the trigger parser                                   *)
(* ===================================================================== *)

Module TriggerParserFacts.
Import TimeParser Triggers TimeParserFacts TriggersFacts.
Local Open Scope Z_scope.
Local Open Scope string_scope.
(** *** The start of the parameters *)

Lemma charsFrom_app pre s : charsFrom (String.length pre) (pre ++ s) = s.
Proof. induction pre as [|c pre IH]; cbn; auto. Qed.

Lemma charsFrom_beyond n : forall s, (String.length s <= n)%nat -> charsFrom n s = "".
Proof.
  induction n as [|n IH]; intros [|c s] H; cbn in *; try reflexivity; try lia.
  apply IH. lia.
Qed.

Lemma getTriggerParametersStartFrom_separators seps : forall i rest,
  allChars SEPARATOR_PATTERN seps = true -> seps <> "" ->
  getTriggerParametersStartFrom (seps ++ rest) i false
  = getTriggerParametersStartFrom rest (i + String.length seps) true
  /\ forall b, getTriggerParametersStartFrom (seps ++ rest) i b
               = getTriggerParametersStartFrom rest (i + String.length seps) true.
Proof.
  induction seps as [|c seps IH]; intros i rest A N; [now elim N|].
  cbn in A. apply andb_true_iff in A as [A1 A2].
  assert (K : forall b, getTriggerParametersStartFrom (String c seps ++ rest) i b
                        = getTriggerParametersStartFrom rest (i + String.length (String c seps)) true).
  { intros b. cbn. rewrite A1. destruct seps as [|c' seps'].
    - cbn. f_equal. lia.
    - destruct (IH (S i) rest A2 ltac:(discriminate)) as [_ H]. rewrite (H true).
      f_equal. cbn. lia. }
  split; [apply K | exact K].
Qed.

Lemma getTriggerParametersStartFrom_word word : forall i rest,
  allChars (fun c => negb (SEPARATOR_PATTERN c)) word = true ->
  getTriggerParametersStartFrom (word ++ rest) i false
  = getTriggerParametersStartFrom rest (i + String.length word) false.
Proof.
  induction word as [|c word IH]; intros i rest A; cbn.
  - f_equal. lia.
  - cbn in A. apply andb_true_iff in A as [A1 A2]. apply negb_true_iff in A1.
    rewrite A1, IH; [|exact A2]. f_equal. lia.
Qed.

Lemma getTriggerParametersStartFrom_only_separators seps : forall i b,
  allChars SEPARATOR_PATTERN seps = true ->
  getTriggerParametersStartFrom seps i b = -1.
Proof.
  induction seps as [|c seps IH]; intros i b A; cbn; [reflexivity|].
  cbn in A. apply andb_true_iff in A as [A1 A2]. rewrite A1. now apply IH.
Qed.

(** X14. [getTriggerParametersStart] skips the rest of the keyword and the
    white space after it. From the start position on, let the text be a run
    of characters that are not white space ([word], possibly empty) and then
    a run of white space ([seps]). If [seps] is not empty and a character
    that is not white space follows, the result is the position of that
    character; if the text ends after [seps], empty or not, the result
    is -1. A start position at or behind the end gives -1 too. *)
Theorem getTriggerParametersStart_spec (pre word seps : string) :
  allChars (fun c => negb (SEPARATOR_PATTERN c)) word = true ->
  allChars SEPARATOR_PATTERN seps = true ->
  (forall c rest, seps <> "" -> SEPARATOR_PATTERN c = false ->
     getTriggerParametersStart (pre ++ word ++ seps ++ String c rest) (String.length pre)
     = Z.of_nat (String.length pre + String.length word + String.length seps))
  /\ getTriggerParametersStart (pre ++ word ++ seps) (String.length pre) = -1
  /\ (forall n, (String.length pre <= n)%nat -> getTriggerParametersStart pre n = -1).
Proof.
  intros W S. unfold getTriggerParametersStart. split; [|split].
  - intros c rest N C. rewrite charsFrom_app.
    rewrite (getTriggerParametersStartFrom_word word _ _ W).
    destruct (getTriggerParametersStartFrom_separators seps
                (String.length pre + String.length word) (String c rest) S N) as [-> _].
    cbn. now rewrite C.
  - rewrite charsFrom_app, (getTriggerParametersStartFrom_word word _ _ W).
    now apply getTriggerParametersStartFrom_only_separators.
  - intros n H. now rewrite (charsFrom_beyond n pre H).
Qed.

Lemma getTriggerParametersStart_spec_witness :
  getTriggerParametersStart "prefetch on  hover(x)" 10 = 13
  /\ getTriggerParametersStart "on" 1 = -1.
Proof.
  destruct (getTriggerParametersStart_spec "prefetch o" "n" "  " eq_refl eq_refl) as (H1 & _).
  destruct (getTriggerParametersStart_spec "o" "n" "" eq_refl eq_refl) as (_ & H2 & _).
  split; [exact (H1 "h"%char "over(x)" ltac:(discriminate) eq_refl) | exact H2].
Defined.

(** *** What the parser keeps *)

Lemma keeps_refl p : keeps p p.
Proof. unfold keeps. repeat split; auto. exists []. now rewrite app_nil_r. Qed.

Lemma keeps_trans p1 p2 p3 : keeps p1 p2 -> keeps p2 p3 -> keeps p1 p3.
Proof.
  unfold keeps.
  intros (A1 & A2 & A3 & A4 & A5 & A6 & A7 & (m1 & A8) & A9 & A10)
         (B1 & B2 & B3 & B4 & B5 & B6 & B7 & (m2 & B8) & B9 & B10).
  repeat split; try congruence; try lia; auto.
  exists (m1 ++ m2)%list. now rewrite B8, A8, app_assoc.
Qed.

Lemma advance_keeps p : keeps p (advance p).
Proof.
  unfold keeps; cbn. repeat split; auto. exists []. now rewrite app_nil_r.
Qed.

Lemma error_keeps p tok message : keeps p (error p tok message).
Proof. unfold keeps, error; cbn. repeat split; auto. eexists. reflexivity. Qed.

Lemma getTrigger_setTrigger type type' ts t :
  getTrigger type' (setTrigger type ts t)
  = if match type, type' with
       | IDLE, IDLE | TIMER, TIMER | INTERACTION, INTERACTION | IMMEDIATE, IMMEDIATE
       | HOVER, HOVER | VIEWPORT, VIEWPORT => true
       | _, _ => false
       end
    then Some t else getTrigger type' ts.
Proof. destruct type, type'; reflexivity. Qed.

Lemma trackTrigger_keeps p type trigger :
  keeps p (setTracked p (trackTrigger type (triggers p) (errors p) trigger)).
Proof.
  unfold keeps, trackTrigger.
  destruct (getTrigger type (triggers p)) as [old|] eqn:G; cbn.
  - repeat split; auto. eexists. reflexivity.
  - repeat split; auto.
    + exists []. now rewrite app_nil_r.
    + now destruct type.
    + intros type' t H. rewrite getTrigger_setTrigger.
      destruct type, type'; cbn in *; congruence.
Qed.

Lemma consumeTrigger_keeps p identifier parameters :
  keeps p (consumeTrigger p identifier parameters).
Proof.
  unfold consumeTrigger.
  destruct (triggerTypeOf (strValue identifier)) as [type|]; [|apply error_keeps].
  destruct (createTrigger _ _ _ _ _ _ _); [apply trackTrigger_keeps | apply error_keeps].
Qed.

Section ParserFacts.
Context {queries : TokenQueries}.
Variable expression : string.

Lemma unexpectedToken_keeps p tok : keeps p (unexpectedToken p tok).
Proof. apply error_keeps. Qed.

Lemma consumeParametersLoop_keeps fuel : forall p parameters stack current,
  keeps p (fst (fst (consumeParametersLoop expression fuel p parameters stack current))).
Proof.
  induction fuel as [|fuel IH]; intros p parameters stack current;
    cbn [consumeParametersLoop fst]; [apply keeps_refl|].
  destruct (index p <? List.length (tokens p))%nat; [|apply keeps_refl].
  destruct (isCharacter (token p) dRPAREN && _); [apply keeps_refl|].
  destruct (_ && _ && _);
    (eapply keeps_trans; [apply advance_keeps | apply IH]).
Qed.

Lemma consumeParameters_keeps p : keeps p (fst (consumeParameters expression p)).
Proof.
  unfold consumeParameters.
  destruct (negb (isCharacter (token p) dLPAREN)); [apply unexpectedToken_keeps|].
  pose proof (consumeParametersLoop_keeps
                (List.length (tokens (advance p)) - index (advance p)) (advance p) [] [] "") as K.
  unfold consumeParametersWhile.
  destruct (consumeParametersLoop _ _ _ _ _ _) as [[p2 parameters] stack]. cbn in K.
  cbn [fst].
  eapply keeps_trans; [apply advance_keeps|]. eapply keeps_trans; [exact K|].
  match goal with |- keeps p2 (if ?c then unexpectedToken ?x _ else ?y) =>
    apply keeps_trans with x; [|destruct c; [apply unexpectedToken_keeps | apply keeps_refl]]
  end.
  destruct (_ || _); [apply error_keeps | apply keeps_refl].
Qed.

Lemma parseLoop_keeps fuel : forall p, keeps p (parseLoop expression fuel p).
Proof.
  induction fuel as [|fuel IH]; intros p; cbn [parseLoop]; [apply keeps_refl|].
  destruct (_ && _); [|apply keeps_refl].
  destruct (negb (isIdentifier (token p))); [apply unexpectedToken_keeps|].
  destruct (isFollowedByOrLast p dCOMMA).
  { eapply keeps_trans; [apply consumeTrigger_keeps|].
    eapply keeps_trans; [apply advance_keeps|].
    eapply keeps_trans; [apply advance_keeps | apply IH]. }
  destruct (isFollowedByOrLast p dLPAREN).
  { pose proof (consumeParameters_keeps (advance p)) as K.
    destruct (consumeParameters expression (advance p)) as [p2 parameters]. cbn in K.
    assert (K2 : keeps p p2) by (eapply keeps_trans; [apply advance_keeps | exact K]).
    destruct (negb _); [exact K2|].
    eapply keeps_trans; [exact K2|].
    eapply keeps_trans; [apply consumeTrigger_keeps|].
    eapply keeps_trans; [apply advance_keeps|].
    eapply keeps_trans; [apply advance_keeps | apply IH]. }
  match goal with |- keeps p (parseLoop _ _ (advance ?x)) =>
    apply keeps_trans with x; [|eapply keeps_trans; [apply advance_keeps | apply IH]]
  end.
  destruct (_ <? _)%Z; [apply unexpectedToken_keeps | apply keeps_refl].
Qed.

(** X15. Parsing only adds. Whatever the tokens are, [parse] leaves the
    constructor's arguments and the tokens as they are, does not move the
    index back, adds its errors behind those that were reported before, does
    not touch the [when] trigger, and leaves every trigger that was recorded
    before as it is: a later trigger of the same kind does not replace it. *)
Theorem parse_only_adds (p : OnTriggerParser) :
  let p' := parse expression p in
  start p' = start p /\ span p' = span p /\ placeholder p' = placeholder p
  /\ parserPrefetchSpan p' = parserPrefetchSpan p
  /\ parserOnSourceSpan p' = parserOnSourceSpan p
  /\ tokens p' = tokens p
  /\ (index p <= index p')%nat
  /\ (exists more, errors p' = (errors p ++ more)%list)
  /\ when (triggers p') = when (triggers p)
  /\ (forall type t, getTrigger type (triggers p) = Some t ->
        getTrigger type (triggers p') = Some t).
Proof. apply parseLoop_keeps. Qed.

End ParserFacts.

(** *** One trigger, one outcome *)





(** *** The loops end *)

Section LoopFacts.
Context {queries : TokenQueries}.
Variable expression : string.

Lemma consumeParametersLoop_more fuel : forall p parameters stack current extra,
  (List.length (tokens p) - index p <= fuel)%nat ->
  consumeParametersLoop expression (fuel + extra) p parameters stack current
  = consumeParametersLoop expression fuel p parameters stack current.
Proof.
  induction fuel as [|fuel IH]; intros p parameters stack current extra H.
  - cbn [Nat.add]. destruct extra; [reflexivity|]. cbn [consumeParametersLoop].
    destruct (Nat.ltb_spec (index p) (List.length (tokens p))); [lia | reflexivity].
  - cbn [Nat.add consumeParametersLoop].
    destruct (Nat.ltb_spec (index p) (List.length (tokens p))); [|reflexivity].
    destruct (isCharacter (token p) dRPAREN && _); [reflexivity|].
    destruct (_ && _ && _); apply IH; cbn; lia.
Qed.

Lemma parseLoop_more fuel : forall p extra,
  (List.length (tokens p) - index p <= fuel)%nat ->
  parseLoop expression (fuel + extra) p = parseLoop expression fuel p.
Proof.
  induction fuel as [|fuel IH]; intros p extra H.
  - cbn [Nat.add]. destruct extra; [reflexivity|]. cbn [parseLoop].
    destruct (Nat.ltb_spec (index p) (List.length (tokens p))); [lia|].
    now rewrite andb_false_r.
  - cbn [Nat.add parseLoop].
    destruct (Nat.ltb_spec (index p) (List.length (tokens p)));
      [|now rewrite !andb_false_r].
    destruct (_ && true); [|reflexivity].
    destruct (negb (isIdentifier (token p))); [reflexivity|].
    destruct (isFollowedByOrLast p dCOMMA).
    { apply IH. pose proof (consumeTrigger_keeps p (token p) [])
        as (_ & _ & _ & _ & _ & T & I & _). cbn. rewrite T. lia. }
    destruct (isFollowedByOrLast p dLPAREN).
    { pose proof (consumeParameters_keeps expression (advance p))
        as (_ & _ & _ & _ & _ & T & I & _).
      destruct (consumeParameters expression (advance p)) as [p2 parameters].
      cbn in T, I. destruct (negb _); [reflexivity|].
      apply IH. pose proof (consumeTrigger_keeps p2 (token p) parameters)
        as (_ & _ & _ & _ & _ & T' & I' & _). cbn. rewrite T', T. lia. }
    apply IH. destruct (_ <? _)%Z; cbn; lia.
Qed.

(** X17. The loops of the parser end. Each turn of the loop of [parse] and
    of the loop of [consumeParameters] moves the index on by one token at
    least, so as many turns as there are tokens left are enough: with more
    turns allowed the result is the same. *)
Theorem parser_loops_end (p : OnTriggerParser) (fuel : nat) :
  (List.length (tokens p) - index p <= fuel)%nat ->
  parseLoop expression fuel p = parse expression p
  /\ forall parameters stack current,
       consumeParametersLoop expression fuel p parameters stack current
       = consumeParametersWhile expression p parameters stack current.
Proof.
  intros H.
  replace fuel with ((List.length (tokens p) - index p)
                     + (fuel - (List.length (tokens p) - index p)))%nat by lia.
  split; [apply parseLoop_more; lia|].
  intros. unfold consumeParametersWhile. apply consumeParametersLoop_more. lia.
Qed.

End LoopFacts.

(** *** The parameters of a trigger *)

Lemma occursAt_cons t ts i l :
  occursAt (t :: ts) i l -> nth_error l i = Some t /\ occursAt ts (S i) l.
Proof.
  intros H. split.
  - specialize (H 0%nat t eq_refl). now rewrite Nat.add_0_r in H.
  - intros k x Hk. specialize (H (S k) x Hk). now rewrite Nat.add_succ_r in H.
Qed.

Lemma occursAt_app a b i l :
  occursAt (a ++ b) i l -> occursAt a i l /\ occursAt b (i + List.length a) l.
Proof.
  intros H. split.
  - intros k x Hk. apply H. rewrite nth_error_app1; [exact Hk|].
    apply nth_error_Some. congruence.
  - intros k x Hk. rewrite <- Nat.add_assoc. apply H.
    rewrite nth_error_app2 by lia. now replace (List.length a + k - List.length a)%nat with k by lia.
Qed.

Lemma occursAt_middle before ts rest : occursAt ts (List.length before) (before ++ ts ++ rest).
Proof.
  intros k x Hk. rewrite nth_error_app2 by lia.
  replace (List.length before + k - List.length before)%nat with k by lia.
  rewrite nth_error_app1; [exact Hk|]. apply nth_error_Some. congruence.
Qed.

Lemma token_atIndex p i t :
  nth_error (tokens p) i = Some t ->
  token (atIndex i p) = t /\ (i < List.length (tokens p))%nat.
Proof.
  intros H. assert (L : (i < List.length (tokens p))%nat)
    by (apply nth_error_Some; congruence).
  split; [|exact L]. unfold token. cbn.
  replace (Nat.min i (List.length (tokens p) - 1)) with i by lia.
  now apply nth_error_nth.
Qed.

Section ParameterFacts.
Context {queries : TokenQueries}.
Variable expression : string.

Lemma loop_step p i t parameters stack current :
  nth_error (tokens p) i = Some t ->
  consumeParametersWhile expression (atIndex i p) parameters stack current
  = if isCharacter t dRPAREN && match stack with [] => true | _ => false end
    then (atIndex i p,
          if (0 <? String.length current)%nat then (parameters ++ [current])%list
          else parameters,
          stack)
    else
      let pushed := match pushes t with
                    | Some closing => closing :: stack
                    | None => stack
                    end in
      let popped := match pushed with
                    | top :: below => if isCharacter t top then below else pushed
                    | [] => pushed
                    end in
      if match popped with [] => true | _ => false end
         && isCharacter t dCOMMA && (0 <? String.length current)%nat
      then consumeParametersWhile expression (atIndex (S i) p) (parameters ++ [current])%list popped ""
      else consumeParametersWhile expression (atIndex (S i) p) parameters popped (current ++ textOfToken expression p t).
Proof.
  intros H. destruct (token_atIndex p i t H) as [T L].
  unfold consumeParametersWhile. cbn [tokens index atIndex].
  replace (List.length (tokens p) - i)%nat with (S (List.length (tokens p) - S i)) by lia.
  cbn [consumeParametersLoop]. cbn [tokens index atIndex].
  destruct (Nat.ltb_spec i (List.length (tokens p))); [|lia].
  rewrite T. unfold pushes, tokenText, textOfToken. rewrite T. cbn [start atIndex].
  unfold advance. cbn [index atIndex start span triggers errors placeholder
                         parserPrefetchSpan parserOnSourceSpan tokens].
  unfold atIndex.
  destruct (isCharacterType t); [destruct (COMMA_DELIMITED_SYNTAX (numValue t))|];
    reflexivity.
Qed.

Ltac step_simpl := cbv beta iota zeta; cbn [andb orb negb].

Lemma textOf_app p a b :
  textOf expression p (a ++ b) = textOf expression p a ++ textOf expression p b.
Proof.
  unfold textOf.
  induction a as [|x a IH]; cbn; [reflexivity | now rewrite IH, append_assoc].
Qed.

Lemma step_plain p i t parameters current :
  nth_error (tokens p) i = Some t -> plainToken t = true ->
  consumeParametersWhile expression (atIndex i p) parameters [] current
  = consumeParametersWhile expression (atIndex (S i) p) parameters []
      (current ++ textOfToken expression p t).
Proof.
  intros H P. rewrite (loop_step p i t _ _ _ H). unfold plainToken in P.
  destruct (pushes t); [discriminate|]. apply andb_true_iff in P as [P1 P2].
  apply negb_true_iff in P1, P2. rewrite P1, P2. reflexivity.
Qed.

Lemma step_comma p i t parameters current :
  nth_error (tokens p) i = Some t -> commaToken t = true -> current <> "" ->
  consumeParametersWhile expression (atIndex i p) parameters [] current
  = consumeParametersWhile expression (atIndex (S i) p) (parameters ++ [current])%list [] "".
Proof.
  intros H P N. rewrite (loop_step p i t _ _ _ H). unfold commaToken in P.
  destruct (pushes t); [discriminate|]. apply andb_true_iff in P as [P1 P2].
  apply negb_true_iff in P2. rewrite P1, P2. step_simpl.
  destruct current; [now elim N | reflexivity].
Qed.

Lemma step_closing p i t parameters current :
  nth_error (tokens p) i = Some t -> isCharacter t dRPAREN = true ->
  consumeParametersWhile expression (atIndex i p) parameters [] current
  = (atIndex i p,
     match current with "" => parameters | _ => (parameters ++ [current])%list end, []).
Proof.
  intros H P. rewrite (loop_step p i t _ _ _ H), P. step_simpl. now destruct current.
Qed.

Lemma steps_inside c inside : forall p i parameters current,
  occursAt inside i (tokens p) ->
  forallb (fun t => match pushes t with
                    | None => negb (isCharacter t c)
                    | Some _ => false
                    end) inside = true ->
  consumeParametersWhile expression (atIndex i p) parameters [c] current
  = consumeParametersWhile expression (atIndex (i + List.length inside) p) parameters [c]
      (current ++ textOf expression p inside).
Proof.
  induction inside as [|t inside IH]; intros p i parameters current O F.
  - cbn. now rewrite Nat.add_0_r, append_nil_r.
  - apply occursAt_cons in O as [H O]. cbn in F. apply andb_true_iff in F as [F1 F2].
    rewrite (loop_step p i t _ _ _ H).
    destruct (pushes t); [discriminate|]. apply negb_true_iff in F1.
    rewrite andb_false_r. step_simpl. rewrite F1. step_simpl.
    rewrite (IH p (S i) _ _ O F2). cbn [List.length textOf fold_right].
    rewrite append_assoc. f_equal. f_equal. lia.
Qed.

Lemma step_piece u p i parameters current :
  occursAt (pieceTokens u) i (tokens p) -> wellFormed u = true ->
  consumeParametersWhile expression (atIndex i p) parameters [] current
  = consumeParametersWhile expression (atIndex (i + List.length (pieceTokens u)) p)
      parameters [] (current ++ textOf expression p (pieceTokens u)).
Proof.
  intros O W. destruct u as [t | opening inside closing]; cbn in O, W.
  - apply occursAt_cons in O as [H _]. rewrite (step_plain p i t _ _ H W).
    cbn [pieceTokens List.length textOf fold_right]. rewrite append_nil_r.
    now rewrite Nat.add_1_r.
  - apply occursAt_cons in O as [H O]. apply occursAt_app in O as [Oi Oc].
    apply occursAt_cons in Oc as [Hc _].
    destruct (pushes opening) as [c|] eqn:Po; [|discriminate].
    apply andb_true_iff in W as [W Wc]. apply andb_true_iff in W as [W Wi].
    apply andb_true_iff in W as [Wo1 Wo2]. apply negb_true_iff in Wo1, Wo2.
    rewrite (loop_step p i opening _ _ _ H), Wo2, Po. step_simpl. rewrite Wo1. step_simpl.
    rewrite (steps_inside c inside p (S i) _ _ Oi Wi).
    rewrite (loop_step p _ closing _ _ _ Hc).
    destruct (pushes closing); [discriminate|].
    apply andb_true_iff in Wc as [Wc1 Wc2]. apply negb_true_iff in Wc2.
    rewrite andb_false_r. step_simpl. rewrite Wc1. step_simpl. rewrite Wc2. step_simpl.
    replace (S i + List.length inside + 0)%nat with (S i + List.length inside)%nat by lia.
    replace (i + List.length (pieceTokens (Group opening inside closing)))%nat
      with (S (S i + List.length inside)) by (cbn; rewrite length_app; cbn; lia).
    f_equal. cbn [pieceTokens]. change (opening :: (inside ++ [closing])%list)
      with (([opening] ++ inside) ++ [closing])%list.
    rewrite !textOf_app. cbn. now rewrite !append_nil_r, !append_assoc.
Qed.

Lemma steps_pieces us : forall p i parameters current,
  occursAt (flat_map pieceTokens us) i (tokens p) ->
  forallb wellFormed us = true ->
  consumeParametersWhile expression (atIndex i p) parameters [] current
  = consumeParametersWhile expression
      (atIndex (i + List.length (flat_map pieceTokens us)) p) parameters []
      (current ++ textOf expression p (flat_map pieceTokens us)).
Proof.
  induction us as [|u us IH]; intros p i parameters current O W.
  - cbn. now rewrite Nat.add_0_r, append_nil_r.
  - cbn [flat_map] in *. apply occursAt_app in O as [Ou Os].
    cbn in W. apply andb_true_iff in W as [Wu Ws].
    rewrite (step_piece u p i _ _ Ou Wu), (IH p _ _ _ Os Ws).
    rewrite length_app, append_assoc, textOf_app. f_equal. f_equal. lia.
Qed.

Lemma steps_items items : forall p i parameters,
  occursAt (flat_map itemTokens items) i (tokens p) ->
  (forall item, In item items ->
     forallb wellFormed (fst item) = true /\ commaToken (snd item) = true
     /\ textOf expression p (flat_map pieceTokens (fst item)) <> "") ->
  consumeParametersWhile expression (atIndex i p) parameters [] ""
  = consumeParametersWhile expression
      (atIndex (i + List.length (flat_map itemTokens items)) p)
      (parameters
       ++ map (fun item => textOf expression p (flat_map pieceTokens (fst item))) items)%list
      [] "".
Proof.
  induction items as [|[us c] items IH]; intros p i parameters O W.
  - cbn. now rewrite Nat.add_0_r, app_nil_r.
  - cbn [flat_map] in *. apply occursAt_app in O as [Oi Os].
    assert (Len : List.length (itemTokens (us, c))
                  = (List.length (flat_map pieceTokens us) + 1)%nat)
      by (unfold itemTokens; cbn [fst snd]; now rewrite length_app).
    rewrite Len in Os. unfold itemTokens in Oi. cbn [fst snd] in Oi.
    apply occursAt_app in Oi as [Ou Oc]. apply occursAt_cons in Oc as [Hc _].
    destruct (W (us, c) (or_introl eq_refl)) as (W1 & W2 & W3). cbn [fst snd] in *.
    rewrite (steps_pieces us p i _ _ Ou W1). cbn [append].
    rewrite (step_comma p _ c _ _ Hc W2 W3).
    replace (S (i + List.length (flat_map pieceTokens us)))
      with (i + (List.length (flat_map pieceTokens us) + 1))%nat by lia.
    rewrite (IH p _ _ Os); [|intros item Hin; apply W; now right].
    rewrite length_app, Len. cbn [map fst]. rewrite <- app_assoc. cbn [app].
    f_equal. f_equal. lia.
Qed.

End ParameterFacts.

Section ParameterSplitting.
Context {queries : TokenQueries}.
Variable expression : string.

(** [consumeParameters] on parameters that are written as the parser
    expects them; [next] is the token after the closing parenthesis. *)
Lemma consumeParameters_at (p : OnTriggerParser) (i : nat)
    (lp : Token) (items : list (list Piece * Token)) (last : list Piece) (rp : Token) :
  occursAt (lp :: flat_map itemTokens items ++ flat_map pieceTokens last ++ [rp])%list
    i (tokens p) ->
  isCharacter lp dLPAREN = true ->
  isCharacter rp dRPAREN = true ->
  (forall item, In item items ->
     forallb wellFormed (fst item) = true /\ commaToken (snd item) = true
     /\ textOf expression p (flat_map pieceTokens (fst item)) <> "") ->
  forallb wellFormed last = true ->
  let closing := (i + 1 + List.length (flat_map itemTokens items)
                  + List.length (flat_map pieceTokens last))%nat in
  snd (consumeParameters expression (atIndex i p))
  = (map (fun item => textOf expression p (flat_map pieceTokens (fst item))) items
     ++ match textOf expression p (flat_map pieceTokens last) with
        | "" => []
        | text => [text]
        end)%list
  /\ fst (consumeParameters expression (atIndex i p))
     = match nth_error (tokens p) (S closing) with
       | None => atIndex closing p
       | Some next =>
           if isCharacter next dCOMMA then atIndex closing p
           else unexpectedToken (atIndex closing p) next
       end.
Proof.
  intros O Lp Rp W Wl closing.
  apply occursAt_cons in O as [Hlp O]. apply occursAt_app in O as [Oi O].
  apply occursAt_app in O as [Ol O]. apply occursAt_cons in O as [Hrp _].
  unfold consumeParameters.
  destruct (token_atIndex p _ lp Hlp) as [Tk _].
  rewrite Tk, Lp. cbn [negb].
  replace (advance (atIndex i p)) with (atIndex (S i) p) by reflexivity.
  rewrite (steps_items expression items p _ _ Oi W). cbn [app].
  rewrite (steps_pieces expression last p _ _ _ Ol Wl). cbn [append].
  rewrite (step_closing expression p _ rp _ _ Hrp Rp).
  replace (S i + List.length (flat_map itemTokens items)
           + List.length (flat_map pieceTokens last))%nat with closing in *
    by (subst closing; lia).
  destruct (token_atIndex p closing rp Hrp) as [Tr Lr]. rewrite Tr, Rp. cbn [negb orb].
  cbn [snd fst].
  split; [destruct (textOf expression p (flat_map pieceTokens last));
            [now rewrite app_nil_r | reflexivity]|].
  cbn [index tokens atIndex]. unfold tokenAt. cbn [tokens atIndex].
  replace (closing + 1)%nat with (S closing) by lia.
  destruct (nth_error (tokens p) (S closing)) as [next|] eqn:Hn.
  - assert (Len : (S closing < List.length (tokens p))%nat)
      by (apply nth_error_Some; congruence).
    destruct (Z.ltb_spec (Z.of_nat closing) (Z.of_nat (List.length (tokens p)) - 1)); [|lia].
    rewrite (nth_error_nth _ _ emptyToken Hn). cbn [andb].
    now destruct (isCharacter next dCOMMA).
  - apply nth_error_None in Hn.
    destruct (Z.ltb_spec (Z.of_nat closing) (Z.of_nat (List.length (tokens p)) - 1)); [lia|].
    reflexivity.
Qed.

(** X18. The parameters are split at the commas outside of brackets. Let
    the tokens from the index on be an opening parenthesis, parameters that
    are each followed by a comma, a last parameter (possibly empty) and a
    closing parenthesis, where a parameter is made of tokens that are neither
    brackets nor commas nor closing parentheses and of bracketed groups
    (which may hold commas and closing parentheses), and the text of every
    parameter before a comma is not empty. Then [consumeParameters] returns
    the texts of the parameters, in their order (the last one if it is not
    empty), the text of a parameter being the texts of its tokens put
    together; it stops at the closing parenthesis; and it reports nothing,
    except for a token after the closing parenthesis that is not a comma. *)
Theorem consumeParameters_splits (p : OnTriggerParser) (before : list Token)
    (lp : Token) (items : list (list Piece * Token)) (last : list Piece)
    (rp : Token) (after : list Token) :
  tokens p = (before ++ lp :: flat_map itemTokens items
                ++ flat_map pieceTokens last ++ rp :: after)%list ->
  index p = List.length before ->
  isCharacter lp dLPAREN = true ->
  isCharacter rp dRPAREN = true ->
  (forall item, In item items ->
     forallb wellFormed (fst item) = true /\ commaToken (snd item) = true
     /\ textOf expression p (flat_map pieceTokens (fst item)) <> "") ->
  forallb wellFormed last = true ->
  let closing := (List.length before + 1 + List.length (flat_map itemTokens items)
                  + List.length (flat_map pieceTokens last))%nat in
  snd (consumeParameters expression p)
  = (map (fun item => textOf expression p (flat_map pieceTokens (fst item))) items
     ++ match textOf expression p (flat_map pieceTokens last) with
        | "" => []
        | text => [text]
        end)%list
  /\ fst (consumeParameters expression p)
     = match after with
       | [] => atIndex closing p
       | next :: _ =>
           if isCharacter next dCOMMA then atIndex closing p
           else unexpectedToken (atIndex closing p) next
       end.
Proof.
  intros T I Lp Rp W Wl closing.
  assert (P : atIndex (index p) p = p) by now destruct p.
  assert (O : occursAt (lp :: flat_map itemTokens items
                          ++ flat_map pieceTokens last ++ [rp])%list
                (List.length before) (tokens p)).
  { rewrite T.
    replace (lp :: flat_map itemTokens items ++ flat_map pieceTokens last ++ rp :: after)%list
      with ((lp :: flat_map itemTokens items ++ flat_map pieceTokens last ++ [rp]) ++ after)%list
      by (cbn; now rewrite <- !app_assoc).
    apply occursAt_middle. }
  destruct (consumeParameters_at p (List.length before) lp items last rp O Lp Rp W Wl)
    as [H1 H2].
  rewrite <- I, P in H1, H2. rewrite I in H2. fold closing in H2.
  split; [exact H1|]. rewrite H2.
  assert (N : nth_error (tokens p) (S closing) = nth_error after 0).
  { rewrite T. rewrite nth_error_app2 by (subst closing; lia).
    replace (S closing - List.length before)%nat
      with (S (List.length (flat_map itemTokens items
                              ++ flat_map pieceTokens last) + 1))%nat
      by (subst closing; rewrite length_app; lia).
    cbn [nth_error]. rewrite app_assoc. rewrite nth_error_app2 by lia.
    replace (List.length (flat_map itemTokens items ++ flat_map pieceTokens last) + 1
             - List.length (flat_map itemTokens items ++ flat_map pieceTokens last))%nat
      with 1%nat by lia. reflexivity. }
  rewrite N. now destruct after.
Qed.

End ParameterSplitting.

(** *** A list of triggers *)

Lemma consumeTrigger_index p identifier parameters :
  index (consumeTrigger p identifier parameters) = index p
  /\ tokens (consumeTrigger p identifier parameters) = tokens p
  /\ start (consumeTrigger p identifier parameters) = start p.
Proof.
  unfold consumeTrigger.
  destruct (triggerTypeOf (strValue identifier)); [|repeat split].
  destruct (createTrigger _ _ _ _ _ _ _); repeat split.
Qed.

Lemma advance_twice q : advance (advance q) = atIndex (S (S (index q))) q.
Proof. reflexivity. Qed.

Section TriggerListFacts.
Context {queries : TokenQueries}.
Variable expression : string.

Lemma parse_done q :
  (List.length (tokens q) <= index q)%nat -> parse expression q = q.
Proof.
  intros H. unfold parse.
  replace (List.length (tokens q) - index q)%nat with 0%nat by lia. reflexivity.
Qed.

Lemma parseLoop_parse fuel q :
  (List.length (tokens q) - index q <= fuel)%nat ->
  parseLoop expression fuel q = parse expression q.
Proof.
  intros H. unfold parse.
  replace fuel with ((List.length (tokens q) - index q)
                     + (fuel - (List.length (tokens q) - index q)))%nat by lia.
  apply parseLoop_more. lia.
Qed.

(** A trigger without parameters, followed by a comma or by nothing. *)
Lemma parse_bare p i name :
  nth_error (tokens p) i = Some name ->
  isIdentifier name = true ->
  match nth_error (tokens p) (S i) with
  | Some next => isCharacter next dCOMMA = true
  | None => True
  end ->
  parse expression (atIndex i p)
  = parse expression (atIndex (S (S i)) (consumeTrigger (atIndex i p) name [])).
Proof.
  intros H Id F. destruct (token_atIndex p i name H) as [T L].
  unfold parse at 1. cbn [tokens index atIndex].
  replace (List.length (tokens p) - i)%nat with (S (List.length (tokens p) - S i)) by lia.
  cbn [parseLoop]. cbn [tokens index atIndex].
  destruct (Nat.ltb_spec i (List.length (tokens p))); [|lia].
  destruct (Nat.ltb_spec 0 (List.length (tokens p))); [|lia]. cbn [andb].
  rewrite T, Id. cbn [negb].
  assert (Fl : isFollowedByOrLast (atIndex i p) dCOMMA = true).
  { unfold isFollowedByOrLast, tokenAt. cbn [tokens index atIndex].
    destruct (Z.eqb_spec (Z.of_nat i) (Z.of_nat (List.length (tokens p)) - 1));
      [reflexivity|].
    replace (i + 1)%nat with (S i) by lia.
    destruct (nth_error (tokens p) (S i)) as [next|] eqn:Hn.
    - now rewrite (nth_error_nth _ _ emptyToken Hn).
    - apply nth_error_None in Hn. lia. }
  rewrite Fl, advance_twice.
  destruct (consumeTrigger_index (atIndex i p) name []) as (Ci & Ct & _).
  rewrite Ci. cbn [index atIndex].
  apply parseLoop_parse. cbn [tokens index atIndex]. rewrite Ct. cbn. lia.
Qed.

(** A trigger with parameters that [consumeParameters] takes without an
    error. *)
Lemma parse_arguments p i name lp closing parameters :
  nth_error (tokens p) i = Some name ->
  isIdentifier name = true ->
  nth_error (tokens p) (S i) = Some lp ->
  isCharacter lp dCOMMA = false ->
  isCharacter lp dLPAREN = true ->
  consumeParameters expression (atIndex (S i) p) = (atIndex closing p, parameters) ->
  (i < closing)%nat ->
  parse expression (atIndex i p)
  = parse expression
      (atIndex (S (S closing)) (consumeTrigger (atIndex closing p) name parameters)).
Proof.
  intros H Id Hl Lc Lp C Lt. destruct (token_atIndex p i name H) as [T L].
  assert (L2 : (S i < List.length (tokens p))%nat) by (apply nth_error_Some; congruence).
  unfold parse at 1. cbn [tokens index atIndex].
  replace (List.length (tokens p) - i)%nat with (S (List.length (tokens p) - S i)) by lia.
  cbn [parseLoop]. cbn [tokens index atIndex].
  destruct (Nat.ltb_spec i (List.length (tokens p))); [|lia].
  destruct (Nat.ltb_spec 0 (List.length (tokens p))); [|lia]. cbn [andb].
  rewrite T, Id. cbn [negb].
  assert (Fl : forall c, isFollowedByOrLast (atIndex i p) c = isCharacter lp c).
  { intros c. unfold isFollowedByOrLast, tokenAt. cbn [tokens index atIndex].
    destruct (Z.eqb_spec (Z.of_nat i) (Z.of_nat (List.length (tokens p)) - 1)); [lia|].
    replace (i + 1)%nat with (S i) by lia.
    now rewrite (nth_error_nth _ _ emptyToken Hl). }
  rewrite !Fl, Lc, Lp.
  replace (advance (atIndex i p)) with (atIndex (S i) p) by reflexivity.
  rewrite C. cbn [errors atIndex]. rewrite Nat.eqb_refl. cbn [negb].
  rewrite advance_twice.
  destruct (consumeTrigger_index (atIndex closing p) name parameters) as (Ci & Ct & _).
  rewrite Ci. cbn [index atIndex].
  apply parseLoop_parse. cbn [tokens index atIndex]. rewrite Ct. cbn. lia.
Qed.

Lemma textOf_start p q ts :
  start q = start p -> textOf expression q ts = textOf expression p ts.
Proof. intros H. unfold textOf, textOfToken. now rewrite H. Qed.

Lemma entryParameters_start p q e :
  start q = start p -> entryParameters expression q e = entryParameters expression p e.
Proof.
  intros H. unfold entryParameters. destruct (entryArguments e) as [a|]; [|reflexivity].
  rewrite (textOf_start p q _ H). f_equal. apply map_ext. intros item.
  apply textOf_start, H.
Qed.

Lemma wellWritten_start p q e :
  start q = start p -> wellWritten expression p e -> wellWritten expression q e.
Proof.
  intros H [W1 W2]. split; [exact W1|]. destruct (entryArguments e) as [a|]; [|exact I].
  destruct W2 as (A1 & A2 & A3 & A4 & A5). repeat split; auto;
    try (now apply A4). rewrite (textOf_start p q _ H). now apply A4.
Qed.

(** One trigger of the list, with what follows it. *)
Lemma parse_entry p i e :
  occursAt (entryTokens e) i (tokens p) ->
  wellWritten expression p e ->
  match nth_error (tokens p) (i + List.length (entryTokens e)) with
  | Some next => isCharacter next dCOMMA = true
  | None => True
  end ->
  parse expression (atIndex i p)
  = parse expression
      (atIndex (i + List.length (entryTokens e) + 1)
         (consumeTrigger (atIndex (i + List.length (entryTokens e) - 1) p)
            (entryName e) (entryParameters expression p e))).
Proof.
  intros O [Id W] N. unfold entryTokens, entryParameters in *.
  apply occursAt_cons in O as [Hn O].
  destruct (entryArguments e) as [a|].
  - destruct W as (A1 & A2 & A3 & A4 & A5). unfold argumentTokens in *.
    pose proof O as O'. apply occursAt_cons in O' as [Hl _].
    destruct (consumeParameters_at expression p (S i) (argOpening a) (argItems a)
                (argLast a) (argClosing a) O A1 A3 A4 A5) as [C1 C2].
    cbn [List.length] in N. rewrite !length_app in N. cbn [List.length] in N.
    cbn [List.length]. rewrite !length_app. cbn [List.length].
    set (closing := (S i + 1 + List.length (flat_map itemTokens (argItems a))
                     + List.length (flat_map pieceTokens (argLast a)))%nat) in *.
    replace (i + S (S (List.length (flat_map itemTokens (argItems a))
                       + (List.length (flat_map pieceTokens (argLast a)) + 1))))%nat
      with (S closing) in * by (subst closing; lia).
    replace (S closing + 1)%nat with (S (S closing)) by lia.
    replace (S closing - 1)%nat with closing by lia.
    assert (C : consumeParameters expression (atIndex (S i) p)
                = (atIndex closing p,
                   (map (fun item => textOf expression p (flat_map pieceTokens (fst item)))
                      (argItems a)
                    ++ match textOf expression p (flat_map pieceTokens (argLast a)) with
                       | "" => []
                       | text => [text]
                       end)%list)).
    { destruct (consumeParameters expression (atIndex (S i) p)) as [q ps].
      cbn [fst snd] in C1, C2. rewrite C1, C2.
      destruct (nth_error (tokens p) (S closing)); [now rewrite N | reflexivity]. }
    apply (parse_arguments p i (entryName e) (argOpening a) closing _ Hn Id Hl A2 A1 C).
    subst closing. lia.
  - cbn [List.length] in *.
    replace (i + 1 + 1)%nat with (S (S i)) by lia.
    replace (i + 1 - 1)%nat with i by lia.
    replace (i + 1)%nat with (S i) in N by lia.
    now apply parse_bare.
Qed.

Lemma parse_entries entries : forall last p i,
  occursAt (listTokens entries last) i (tokens p) ->
  (i + List.length (listTokens entries last))%nat = List.length (tokens p) ->
  (forall e c, In (e, c) entries ->
     wellWritten expression p e /\ isCharacter c dCOMMA = true) ->
  match last with Some e => wellWritten expression p e | None => True end ->
  parse expression (atIndex i p) = consumeEntries expression i entries last p.
Proof.
  induction entries as [|[e c] entries IH]; intros last p i O L W Wl.
  - unfold listTokens in *. cbn [flat_map app] in *. cbn [consumeEntries].
    destruct last as [e|].
    + rewrite (parse_entry p i e O Wl).
      * apply parse_done. cbn [tokens index atIndex].
        destruct (consumeTrigger_index
                    (atIndex (i + List.length (entryTokens e) - 1) p) (entryName e)
                    (entryParameters expression p e)) as (_ & Ct & _).
        rewrite Ct. cbn [tokens atIndex]. lia.
      * replace (nth_error (tokens p) (i + List.length (entryTokens e))) with (@None Token);
          [exact I|]. symmetry. apply nth_error_None. lia.
    + apply parse_done. cbn [tokens index atIndex List.length] in *. lia.
  - unfold listTokens in *. cbn [flat_map fst snd] in *. cbn [consumeEntries].
    rewrite <- !app_assoc in O, L. cbn [app] in O, L.
    apply occursAt_app in O as [Oe O]. pose proof O as O'.
    apply occursAt_cons in O' as [Hc Or].
    destruct (W e c (or_introl eq_refl)) as [We Wc].
    rewrite (parse_entry p i e Oe We); [|now rewrite Hc].
    set (p' := consumeTrigger _ _ _).
    destruct (consumeTrigger_index
                (atIndex (i + List.length (entryTokens e) - 1) p) (entryName e)
                (entryParameters expression p e)) as (_ & Ct & Cs).
    fold p' in Ct, Cs. cbn [tokens start atIndex] in Ct, Cs.
    rewrite length_app in L. cbn [List.length] in L.
    apply IH.
    + rewrite Ct. replace (i + List.length (entryTokens e) + 1)%nat
        with (S (i + List.length (entryTokens e))) by lia. exact Or.
    + rewrite Ct. lia.
    + intros e' c' Hin. destruct (W e' c' (or_intror Hin)) as [We' Wc'].
      split; [|exact Wc']. now apply (wellWritten_start p).
    + destruct last as [el|]; [|exact I]. now apply (wellWritten_start p).
Qed.

Lemma consumeEntries_tokens entries : forall i p,
  index (consumeEntries expression i entries None p)
  = (i + List.length (listTokens entries None))%nat
  /\ tokens (consumeEntries expression i entries None p) = tokens p.
Proof.
  induction entries as [|[e c] entries IH]; intros i p; cbn [consumeEntries].
  - unfold listTokens. cbn. split; [lia | reflexivity].
  - destruct (IH (i + List.length (entryTokens e) + 1)%nat
                (consumeTrigger (atIndex (i + List.length (entryTokens e) - 1) p)
                   (entryName e) (entryParameters expression p e))) as [I T].
    rewrite I, T. unfold listTokens. cbn [flat_map fst snd].
    rewrite !length_app. cbn [List.length].
    destruct (consumeTrigger_index (atIndex (i + List.length (entryTokens e) - 1) p)
                (entryName e) (entryParameters expression p e)) as (_ & Ct & _).
    rewrite Ct. split; [lia | reflexivity].
Qed.

(** The triggers that are followed by a comma, whatever comes after them. *)
Lemma parse_prefix entries : forall p i,
  occursAt (listTokens entries None) i (tokens p) ->
  (forall e c, In (e, c) entries ->
     wellWritten expression p e /\ isCharacter c dCOMMA = true) ->
  parse expression (atIndex i p)
  = parse expression (consumeEntries expression i entries None p).
Proof.
  induction entries as [|[e c] entries IH]; intros p i O W; [reflexivity|].
  unfold listTokens in *. cbn [flat_map fst snd] in *. cbn [consumeEntries].
  rewrite <- !app_assoc in O. cbn [app] in O.
  apply occursAt_app in O as [Oe O]. pose proof O as O'.
  apply occursAt_cons in O' as [Hc Or].
  destruct (W e c (or_introl eq_refl)) as [We Wc].
  rewrite (parse_entry p i e Oe We); [|now rewrite Hc].
  set (p' := consumeTrigger _ _ _).
  destruct (consumeTrigger_index
              (atIndex (i + List.length (entryTokens e) - 1) p) (entryName e)
              (entryParameters expression p e)) as (_ & Ct & Cs).
  fold p' in Ct, Cs. cbn [tokens start atIndex] in Ct, Cs.
  apply IH.
  - rewrite Ct. replace (i + List.length (entryTokens e) + 1)%nat
      with (S (i + List.length (entryTokens e))) by lia. exact Or.
  - intros e' c' Hin. destruct (W e' c' (or_intror Hin)) as [We' Wc'].
    split; [|exact Wc']. now apply (wellWritten_start p).
Qed.

Lemma parse_unexpected q tok :
  nth_error (tokens q) (index q) = Some tok ->
  isIdentifier tok = false ->
  parse expression q = unexpectedToken q tok.
Proof.
  intros H Id. assert (P : atIndex (index q) q = q) by now destruct q.
  destruct (token_atIndex q _ tok H) as [T L]. rewrite P in T.
  unfold parse.
  replace (List.length (tokens q) - index q)%nat
    with (S (List.length (tokens q) - S (index q))) by lia.
  cbn [parseLoop].
  destruct (Nat.ltb_spec (index q) (List.length (tokens q))); [|lia].
  destruct (Nat.ltb_spec 0 (List.length (tokens q))); [|lia]. cbn [andb].
  now rewrite T, Id.
Qed.

(** X19. A list of triggers. Let the tokens from the index on, to the end,
    be triggers that are each followed by a comma and then, possibly, a last
    trigger, where a trigger is an identifier or an identifier with
    parameters in parentheses that are written as [consumeParameters]
    expects them. Then [parse] hands the triggers to [consumeTrigger] one
    after the other, each with the texts of its parameters and with the
    index on its last token, and does nothing else: no trigger is skipped,
    and the only errors are those of [consumeTrigger]. *)
Theorem parse_trigger_list (p : OnTriggerParser) (entries : list (Entry * Token))
    (last : option Entry) :
  occursAt (listTokens entries last) (index p) (tokens p) ->
  (index p + List.length (listTokens entries last))%nat = List.length (tokens p) ->
  (forall e c, In (e, c) entries ->
     wellWritten expression p e /\ isCharacter c dCOMMA = true) ->
  match last with Some e => wellWritten expression p e | None => True end ->
  parse expression p = consumeEntries expression (index p) entries last p.
Proof.
  intros O L W Wl.
  assert (P : atIndex (index p) p = p) by now destruct p.
  rewrite <- P at 1. now apply parse_entries.
Qed.

(** X20. A token that is no identifier stops the parser. After triggers
    that are written as the parser expects them, each followed by a comma,
    let a token follow that is not an identifier. Then [parse] consumes
    these triggers, reports the token as unexpected and stops: the index
    stays on the token, and whatever follows it is not looked at. *)
Theorem parse_stops_at_unexpected_token (p : OnTriggerParser)
    (entries : list (Entry * Token)) (tok : Token) :
  occursAt (listTokens entries None ++ [tok])%list (index p) (tokens p) ->
  (forall e c, In (e, c) entries ->
     wellWritten expression p e /\ isCharacter c dCOMMA = true) ->
  isIdentifier tok = false ->
  parse expression p
  = unexpectedToken (consumeEntries expression (index p) entries None p) tok.
Proof.
  intros O W Id. apply occursAt_app in O as [Oe Ot]. apply occursAt_cons in Ot as [Ht _].
  assert (P : atIndex (index p) p = p) by now destruct p.
  rewrite <- P at 1. rewrite (parse_prefix entries p _ Oe W).
  destruct (consumeEntries_tokens entries (index p) p) as [I T].
  apply parse_unexpected; [|exact Id]. now rewrite I, T.
Qed.

End TriggerListFacts.

(** *** The parser at work *)

Lemma parser_loops_end_witness :
  let p := parserOf idleAndTimer 3 idleAndTimerTokens None in
  parseLoop (queries := byText) idleAndTimer 20 p = parse (queries := byText) idleAndTimer p.
Proof.
  apply (parser_loops_end (queries := byText) idleAndTimer
           (parserOf idleAndTimer 3 idleAndTimerTokens None) 20).
  vm_compute. lia.
Defined.

Lemma consumeParameters_splits_witness :
  let p := atIndex 1 (parserOf viewportAndIdle 3 viewportAndIdleTokens None) in
  snd (consumeParameters (queries := byText) viewportAndIdle p) = ["a"; "[b,c]"]
  /\ fst (consumeParameters (queries := byText) viewportAndIdle p) = atIndex 9 p.
Proof.
  apply (consumeParameters_splits (queries := byText) viewportAndIdle
           (atIndex 1 (parserOf viewportAndIdle 3 viewportAndIdleTokens None))
           [mkToken 0 8 "viewport"] (mkToken 8 9 "(")
           [([One (mkToken 9 10 "a")], mkToken 10 11 ",")]
           [Group (mkToken 12 13 "[")
              [mkToken 13 14 "b"; mkToken 14 15 ","; mkToken 16 17 "c"]
              (mkToken 17 18 "]")]
           (mkToken 18 19 ")")
           [mkToken 19 20 ","; mkToken 21 25 "idle"; mkToken 26 27 "x"]);
    try reflexivity.
  intros item [<-|[]]. repeat split. discriminate.
Defined.

Lemma parse_trigger_list_witness :
  let p := parserOf idleAndTimer 3 idleAndTimerTokens None in
  let entries := [(mkEntry (mkToken 0 4 "idle") None, mkToken 4 5 ",")] in
  let last :=
    mkEntry (mkToken 6 11 "timer")
      (Some (mkArguments (mkToken 11 12 "(") []
               [One (mkToken 12 15 "500"); One (mkToken 15 17 "ms")]
               (mkToken 17 18 ")"))) in
  parse (queries := byText) idleAndTimer p
  = consumeEntries idleAndTimer 0 entries (Some last) p.
Proof.
  apply (parse_trigger_list (queries := byText) idleAndTimer
           (parserOf idleAndTimer 3 idleAndTimerTokens None)
           [(mkEntry (mkToken 0 4 "idle") None, mkToken 4 5 ",")]
           (Some (mkEntry (mkToken 6 11 "timer")
                    (Some (mkArguments (mkToken 11 12 "(") []
                             [One (mkToken 12 15 "500"); One (mkToken 15 17 "ms")]
                             (mkToken 17 18 ")")))))).
  - exact (occursAt_middle [] idleAndTimerTokens []).
  - reflexivity.
  - intros e c [H|[]]. injection H as <- <-. repeat split.
  - split; [reflexivity|]. cbn [entryArguments argOpening argClosing argItems argLast].
    split; [reflexivity|]. split; [reflexivity|]. split; [reflexivity|].
    split; [intros ? [] | reflexivity].
Defined.

Lemma parse_stops_at_unexpected_token_witness :
  let p := parserOf idleAndNumber 3 idleAndNumberTokens None in
  let entries := [(mkEntry (mkToken 0 4 "idle") None, mkToken 4 5 ",")] in
  parse (queries := byText) idleAndNumber p
  = unexpectedToken (queries := byText)
      (consumeEntries idleAndNumber 0 entries None p)
      (mkToken 6 7 "5").
Proof.
  apply (parse_stops_at_unexpected_token (queries := byText) idleAndNumber
           (parserOf idleAndNumber 3 idleAndNumberTokens None)
           [(mkEntry (mkToken 0 4 "idle") None, mkToken 4 5 ",")] (mkToken 6 7 "5")).
  - exact (occursAt_middle [] idleAndNumberTokens []).
  - intros e c [H|[]]. injection H as <- <-. repeat split.
  - reflexivity.
Defined.

(** [on idle, timer(500ms)] gives both triggers, the second one with a delay
    of 500 milliseconds, and no error. *)
Example idle_and_timer :
  let p := parse (queries := byText) idleAndTimer
             (parserOf idleAndTimer 3 idleAndTimerTokens None) in
  errors p = []
  /\ (exists spans, idle (triggers p) = Some (IdleDeferredTrigger spans))
  /\ (exists spans, timer (triggers p) = Some (TimerDeferredTrigger (Num 500) spans)).
Proof. vm_compute. repeat split; eexists; reflexivity. Qed.

(** In [on hover(a(b)] the parenthesis of [hover] is not closed. The last
    token closes the inner group, so the test after the loop sees a closing
    parenthesis and an empty stack: nothing is reported, the text that was
    gathered is dropped, and [hover] is recorded without a reference. *)
Example unclosed_parameters_unreported :
  let p := parserOf unclosedHover 3 unclosedHoverTokens
             (Some (mkPlaceholder [Element "div"] None)) in
  snd (consumeParameters (queries := byText) unclosedHover (advance p)) = []
  /\ errors (parse (queries := byText) unclosedHover p) = []
  /\ (exists spans, hover (triggers (parse (queries := byText) unclosedHover p))
                    = Some (HoverDeferredTrigger None spans)).
Proof. vm_compute. repeat split. eexists. reflexivity. Qed.

(** In [on viewport(a, [b, c]), idle x] the two parameters of [viewport] are
    refused; [idle] is followed by a token that is neither a comma nor a
    parenthesis, which is reported, and [idle] itself is passed over. *)
Example trigger_before_unexpected_token_is_skipped :
  let p := parse (queries := byText) viewportAndIdle
             (parserOf viewportAndIdle 3 viewportAndIdleTokens None) in
  triggers p = noTriggers
  /\ map errorMsg (errors p)
     = [tooManyParameters VIEWPORT; "Unexpected token " ++ quoted "x";
        "Unrecognized trigger type " ++ quoted "x"].
Proof. vm_compute. repeat split. Qed.

End TriggerParserFacts.

(* ===================================================================== *)
(** ** Properties of the life of a block                                  *)
(* ===================================================================== *)

Module LifecycleFacts.
Import Defer DeferFacts.
Local Open Scope Z_scope.
(** *** Frames *)

Lemma renderFrame_refl w : renderFrame w w.
Proof. unfold renderFrame; repeat split. Qed.

Lemma renderFrame_trans w1 w2 w3 :
  renderFrame w1 w2 -> renderFrame w2 w3 -> renderFrame w1 w3.
Proof. unfold renderFrame. intuition congruence. Qed.

Lemma invokeTriggerCleanupFns_renderFrame type w :
  renderFrame w (invokeTriggerCleanupFns type w).
Proof.
  rewrite invokeTriggerCleanupFns_closed. unfold renderFrame, visible.
  destruct (cleanupFnsOf type (lDetails w)); [|repeat split].
  open_instance w; destruct type; repeat split.
Qed.

Lemma invokeAllTriggerCleanupFns_renderFrame w :
  renderFrame w (invokeAllTriggerCleanupFns w).
Proof.
  unfold invokeAllTriggerCleanupFns.
  eapply renderFrame_trans; apply invokeTriggerCleanupFns_renderFrame.
Qed.

Lemma storeTriggerCleanupFn_renderFrame type fn w :
  renderFrame w (storeTriggerCleanupFn type fn w).
Proof. unfold renderFrame, visible. open_instance w; destruct type; repeat split. Qed.

Lemma callScheduleFn_renderFrame fn cb now w :
  renderFrame w (fst (callScheduleFn fn cb now w)).
Proof. unfold renderFrame, visible. destruct w, fn; repeat split. Qed.

Lemma triggerResourceLoading_renderFrame w :
  renderFrame w (fst (triggerResourceLoading w)).
Proof.
  unfold triggerResourceLoading.
  destruct (loadingState (tDetails w)) eqn:E.
  - rewrite invokeTriggerCleanupFns_closed. unfold dependenciesFnOf, renderFrame, visible.
    open_instance w. break_all; repeat split.
  - destruct (loadingPromise (tDetails w)); destruct w; repeat split.
  - destruct (loadingPromise (tDetails w)); destruct w; repeat split.
  - destruct (loadingPromise (tDetails w)); destruct w; repeat split.
Qed.

Lemma triggerPrefetching_renderFrame w : renderFrame w (triggerPrefetching w).
Proof.
  unfold triggerPrefetching. destruct (shouldTriggerDeferBlock (env w));
    [apply triggerResourceLoading_renderFrame | apply renderFrame_refl].
Qed.

Lemma renderDeferStateAfterResourceLoading_renderFrame w :
  renderFrame w (renderDeferStateAfterResourceLoading w).
Proof.
  unfold renderDeferStateAfterResourceLoading.
  destruct (loadingPromise (tDetails w)); destruct w; repeat split.
Qed.

Lemma loadingCallback_renderFrame (pl : PendingLoad) results w :
  renderFrame w (if awaitsDependencies pl
                 then onDependenciesSettled (pendingTask pl) results w
                 else onNoDependencies (pendingTask pl) w).
Proof.
  destruct (awaitsDependencies pl).
  - unfold onDependenciesSettled, handleError, renderFrame, visible.
    destruct (collectDependencies results [] []) as [[failed ds] ps].
    open_world w. break_all; repeat split.
  - destruct w; repeat split.
Qed.

Lemma scheduleDelayedPrefetching_renderFrame fn now w :
  renderFrame w (scheduleDelayedPrefetching fn now w).
Proof.
  unfold scheduleDelayedPrefetching.
  destruct (isPlatformBrowser (env w)); [|apply renderFrame_refl].
  destruct (loadingState (tDetails w)); try apply renderFrame_refl.
  pose proof (callScheduleFn_renderFrame fn TriggerPrefetching now w) as F.
  destruct (callScheduleFn fn TriggerPrefetching now w) as [w2 c]; cbn in F.
  eapply renderFrame_trans; [exact F | apply storeTriggerCleanupFn_renderFrame].
Qed.

Lemma deferPrefetchWhen_renderFrame v w : renderFrame w (ɵɵdeferPrefetchWhen v w).
Proof.
  unfold ɵɵdeferPrefetchWhen.
  destruct (bindingUpdated (prefetchWhenBinding w) v); [|apply renderFrame_refl].
  apply renderFrame_trans with (set_prefetchWhenBinding (Some v) w);
    [now destruct w|].
  destruct (Boolean v), (loadingState (tDetails (set_prefetchWhenBinding (Some v) w)));
    try apply renderFrame_refl. apply triggerPrefetching_renderFrame.
Qed.

(** The reactions that wait on the loading promise are chained by
    [triggerDeferBlock] only. *)
Lemma triggerResourceLoading_reactions w :
  reactions (fst (triggerResourceLoading w)) = reactions w.
Proof.
  unfold triggerResourceLoading.
  destruct (loadingState (tDetails w)) eqn:E.
  - rewrite invokeTriggerCleanupFns_closed. unfold dependenciesFnOf.
    open_instance w. break_all; reflexivity.
  - destruct (loadingPromise (tDetails w)); destruct w; reflexivity.
  - destruct (loadingPromise (tDetails w)); destruct w; reflexivity.
  - destruct (loadingPromise (tDetails w)); destruct w; reflexivity.
Qed.

Lemma settle_without_reactions results now w :
  reactions w = [] ->
  renderFrame w (settle results now w) /\ reactions (settle results now w) = [].
Proof.
  intros R. unfold settle. destruct (pendingLoad w) as [pl|];
    [|split; [apply renderFrame_refl | exact R]].
  pose proof (loadingCallback_renderFrame pl results (set_pendingLoad None w)) as F.
  destruct (loadingCallback_loading pl results (set_pendingLoad None w))
    as (_ & _ & _ & _ & _ & _ & _ & R2).
  set (w2 := if awaitsDependencies pl then _ else _) in *.
  replace (reactions (set_fulfilled (pendingPromise pl :: fulfilled w2) w2))
    with (reactions w2) by now destruct w2.
  rewrite R2. replace (reactions (set_pendingLoad None w)) with (reactions w)
    by now destruct w. rewrite R. cbn. split; [|now destruct w2].
  apply renderFrame_trans with (set_pendingLoad None w); [now destruct w|].
  eapply renderFrame_trans; [exact F|]. now destruct w2.
Qed.

Lemma handle_prefetches now e w :
  prefetches e = true -> reactions w = [] ->
  renderFrame w (handle now e w) /\ reactions (handle now e w) = [].
Proof.
  intros P R. destruct e; try discriminate; cbn.
  - now apply settle_without_reactions.
  - split; [apply deferPrefetchWhen_renderFrame|].
    unfold ɵɵdeferPrefetchWhen.
    destruct (bindingUpdated (prefetchWhenBinding w) rawValue); [|exact R].
    assert (R1 : reactions (set_prefetchWhenBinding (Some rawValue) w) = [])
      by now destruct w.
    destruct (Boolean rawValue),
      (loadingState (tDetails (set_prefetchWhenBinding (Some rawValue) w)));
      try exact R1.
    unfold triggerPrefetching. destruct (shouldTriggerDeferBlock _); [|exact R1].
    now rewrite triggerResourceLoading_reactions.
  - split; [apply scheduleDelayedPrefetching_renderFrame|].
    unfold ɵɵdeferPrefetchOnIdle, scheduleDelayedPrefetching.
    destruct (isPlatformBrowser (env w)); [|exact R].
    destruct (loadingState (tDetails w)); exact R.
  - split; [apply scheduleDelayedPrefetching_renderFrame|].
    unfold ɵɵdeferPrefetchOnTimer, scheduleDelayedPrefetching.
    destruct (isPlatformBrowser (env w)); [|exact R].
    destruct (loadingState (tDetails w)); exact R.
  - unfold ɵɵdeferPrefetchOnImmediate.
    destruct (loadingState (tDetails w)); try (split; [apply renderFrame_refl | exact R]).
    split; [apply triggerResourceLoading_renderFrame|].
    now rewrite triggerResourceLoading_reactions.
  - split; [apply triggerPrefetching_renderFrame|].
    unfold triggerPrefetching. destruct (shouldTriggerDeferBlock _); [|exact R].
    now rewrite triggerResourceLoading_reactions.
  - split; [apply triggerResourceLoading_renderFrame|].
    now rewrite triggerResourceLoading_reactions.
Qed.

(** X1. Prefetching does not render. Over every sequence of prefetch
    instructions, calls of the loading functions and settlings of the
    dependencies, a block that was not itself triggered (no reaction waits on
    the loading promise) keeps its rendered state, its container, its
    buffered state and its freeze, and still has no reaction waiting. *)
Theorem prefetching_renders_nothing (trace : list (Z * Event)) : forall w,
  forallb (fun te => prefetches (snd te)) trace = true ->
  reactions w = [] ->
  renderFrame w (run trace w) /\ reactions (run trace w) = [].
Proof.
  induction trace as [|[now e] trace IH]; intros w P R; cbn in *;
    [split; [apply renderFrame_refl | exact R]|].
  apply andb_true_iff in P as [P1 P2].
  destruct (handle_prefetches now e w P1 R) as [F R'].
  destruct (IH _ P2 R') as [F' R'']. split; [|exact R''].
  eapply renderFrame_trans; eassumption.
Qed.

Lemma prefetching_renders_nothing_witness :
  let trace := [(0, DeferPrefetchOnImmediate); (5, DeferPrefetchWhen (JBool true));
                (9, Settle [Fulfilled someComponent; Rejected])] in
  renderFrame (renderPlaceholder 0 (fullBlock browser))
    (run trace (renderPlaceholder 0 (fullBlock browser)))
  /\ reactions (run trace (renderPlaceholder 0 (fullBlock browser))) = [].
Proof.
  apply (prefetching_renders_nothing
           [(0, DeferPrefetchOnImmediate); (5, DeferPrefetchWhen (JBool true));
            (9, Settle [Fulfilled someComponent; Rejected])]
           (renderPlaceholder 0 (fullBlock browser))); vm_compute; reflexivity.
Defined.

(** X2. A prefetch timer or idle callback that fires changes neither the
    rendered state nor the container. *)
Theorem prefetch_callback_renders_nothing id now w s :
  find (fun s => Nat.eqb (schedId s) id) (scheduled w) = Some s ->
  callback s = TriggerPrefetching ->
  visible (fire id now w) = visible w.
Proof.
  intros F C. unfold fire. rewrite F, C. cbn.
  rewrite triggerPrefetching_visible. now destruct w.
Qed.

Lemma prefetch_callback_renders_nothing_witness :
  let w := ɵɵdeferPrefetchOnTimer 100 0 (renderPlaceholder 0 (fullBlock browser)) in
  visible (fire 0 100 w) = visible w.
Proof.
  apply (prefetch_callback_renders_nothing 0 100
           (ɵɵdeferPrefetchOnTimer 100 0 (renderPlaceholder 0 (fullBlock browser)))
           (mkScheduled 0 (Some 100) TriggerPrefetching)); vm_compute; reflexivity.
Defined.

(** *** A destroyed host view *)

Lemma set_scheduled_renderFrame s w : renderFrame w (set_scheduled s w).
Proof. destruct w; repeat split. Qed.

Lemma triggerDeferBlock_destroyed now w :
  hostDestroyed w = true -> renderFrame w (triggerDeferBlock now w).
Proof.
  intros D. unfold triggerDeferBlock.
  destruct (negb (shouldTriggerDeferBlock (env w))); [apply renderFrame_refl|].
  pose proof (invokeAllTriggerCleanupFns_renderFrame w) as F1.
  set (w1 := invokeAllTriggerCleanupFns w) in *.
  assert (D1 : hostDestroyed w1 = true) by (destruct F1 as (_ & _ & _ & _ & _ & ->); exact D).
  assert (R : forall s, renderDeferBlockState s false now w1 = w1)
    by (intros s; now apply renderDeferBlockState_destroyed).
  rewrite !R. eapply renderFrame_trans; [exact F1|].
  destruct (loadingState (tDetails w1)); try apply renderFrame_refl.
  - eapply renderFrame_trans; [apply triggerResourceLoading_renderFrame|].
    destruct (loadingState (tDetails (fst (triggerResourceLoading w1))));
      try apply renderFrame_refl.
    apply renderDeferStateAfterResourceLoading_renderFrame.
  - apply renderDeferStateAfterResourceLoading_renderFrame.
Qed.

Lemma runReactions_destroyed now rs : forall w,
  hostDestroyed w = true ->
  fold_left (fun acc r => runReaction r now acc) rs w = w.
Proof.
  induction rs as [|r rs IH]; intros w D; cbn; [reflexivity|].
  assert (E : runReaction r now w = w).
  { destruct r; cbn. destruct (loadingState (tDetails w)); try reflexivity;
      now apply renderDeferBlockState_destroyed. }
  rewrite E. now apply IH.
Qed.

Lemma renderFrame_quiet w w' :
  renderFrame w w' -> visible w' = visible w /\ hostDestroyed w' = hostDestroyed w.
Proof. intros (V & _ & _ & _ & _ & D). now split. Qed.

Lemma handle_destroyed now e w :
  hostDestroyed w = true ->
  visible (handle now e w) = visible w /\ hostDestroyed (handle now e w) = true.
Proof.
  intros D.
  assert (Q : forall w', renderFrame w w' ->
            visible w' = visible w /\ hostDestroyed w' = true).
  { intros w' F. apply renderFrame_quiet in F as [V H]. split; congruence. }
  assert (R : forall s k, renderDeferBlockState s k now w = w)
    by (intros; now apply renderDeferBlockState_destroyed).
  destruct e; cbn; unfold renderPlaceholder; rewrite ?R; try (now split).
  - (* a scheduled callback *)
    unfold fire. destruct (find _ (scheduled w)) as [s|]; [|now split].
    set (w1 := set_scheduled _ w).
    assert (V1 : visible w1 = visible w) by (subst w1; now destruct w).
    assert (D1 : hostDestroyed w1 = true) by (subst w1; now destruct w).
    destruct (callback s); cbn.
    + unfold deferBlockUpdateCallback.
      set (w2 := set_lDetails _ w1).
      assert (V2 : visible w2 = visible w1) by (subst w2; now open_instance w1).
      assert (D2 : hostDestroyed w2 = true) by (subst w2; now destruct w1).
      destruct (NEXT_DEFER_BLOCK_STATE (lDetails w1));
        rewrite ?(renderDeferBlockState_destroyed _ _ _ _ D2); split; congruence.
    + destruct (renderFrame_quiet _ _ (triggerDeferBlock_destroyed now w1 D1)) as [V H].
      split; congruence.
    + destruct (renderFrame_quiet _ _ (triggerPrefetching_renderFrame w1)) as [V H].
      split; congruence.
  - (* the loading promise settles *)
    unfold settle. destruct (pendingLoad w) as [pl|]; [|now split].
    pose proof (loadingCallback_renderFrame pl results (set_pendingLoad None w)) as F.
    set (w2 := if awaitsDependencies pl then _ else _) in *.
    apply renderFrame_quiet in F as [V2 D2].
    set (w3 := set_reactions [] _).
    assert (V3 : visible w3 = visible w2) by (subst w3; now destruct w2).
    assert (D3 : hostDestroyed w3 = true).
    { subst w3. replace (hostDestroyed (set_reactions [] (set_fulfilled (pendingPromise pl :: fulfilled w2) w2)))
        with (hostDestroyed w2) by now destruct w2.
      rewrite D2. now destruct w. }
    replace (reactions (set_fulfilled (pendingPromise pl :: fulfilled w2) w2))
      with (reactions w2) by now destruct w2.
    rewrite (runReactions_destroyed now (reactions w2) w3 D3).
    split; [|exact D3]. rewrite V3, V2. now destruct w.
  - (* when *)
    unfold ɵɵdeferWhen. destruct (bindingUpdated (whenBinding w) rawValue); [|now split].
    set (w1 := set_whenBinding (Some rawValue) w).
    assert (V1 : visible w1 = visible w) by (subst w1; now destruct w).
    assert (D1 : hostDestroyed w1 = true) by (subst w1; now destruct w).
    assert (T : visible (triggerDeferBlock now w1) = visible w
                /\ hostDestroyed (triggerDeferBlock now w1) = true).
    { destruct (renderFrame_quiet _ _ (triggerDeferBlock_destroyed now w1 D1)) as [V H].
      split; congruence. }
    destruct (Boolean rawValue), (DEFER_BLOCK_STATE (lDetails w1)) as [|[]];
      unfold renderPlaceholder; rewrite ?(renderDeferBlockState_destroyed _ _ _ _ D1);
      try exact T; split; congruence.
  - apply Q, deferPrefetchWhen_renderFrame.
  - (* on idle *)
    unfold ɵɵdeferOnIdle, scheduleDelayedTrigger, renderPlaceholder. rewrite R.
    destruct (isPlatformBrowser (env w)); [|now split].
    pose proof (callScheduleFn_renderFrame OnIdle TriggerDeferBlock now w) as F.
    destruct (callScheduleFn OnIdle TriggerDeferBlock now w) as [w2 c]; cbn in F.
    apply Q. eapply renderFrame_trans; [exact F | apply storeTriggerCleanupFn_renderFrame].
  - apply Q, scheduleDelayedPrefetching_renderFrame.
  - unfold ɵɵdeferOnTimer, scheduleDelayedTrigger, renderPlaceholder. rewrite R.
    destruct (isPlatformBrowser (env w)); [|now split].
    pose proof (callScheduleFn_renderFrame (OnTimer delay) TriggerDeferBlock now w) as F.
    destruct (callScheduleFn (OnTimer delay) TriggerDeferBlock now w) as [w2 c]; cbn in F.
    apply Q. eapply renderFrame_trans; [exact F | apply storeTriggerCleanupFn_renderFrame].
  - apply Q, scheduleDelayedPrefetching_renderFrame.
  - unfold ɵɵdeferOnImmediate, renderPlaceholder. rewrite R.
    destruct (_ || _); apply Q, triggerDeferBlock_destroyed, D.
  - unfold ɵɵdeferPrefetchOnImmediate. destruct (loadingState (tDetails w));
      try (now split). apply Q, triggerResourceLoading_renderFrame.
  - apply Q, triggerDeferBlock_destroyed, D.
  - apply Q, triggerPrefetching_renderFrame.
  - apply Q, triggerResourceLoading_renderFrame.
  - unfold destroyView. set (w1 := set_hostDestroyed true w).
    assert (F1 : renderFrame w w1).
    { subst w1. unfold renderFrame, visible. rewrite D. now destruct w. }
    destruct (onDestroyRegistered w1); apply Q; [|exact F1].
    eapply renderFrame_trans; [exact F1 | apply invokeAllTriggerCleanupFns_renderFrame].
Qed.

(** X3. Once the host view is destroyed nothing is rendered any more: over
    every sequence of events (late timers, the settling of the dependencies,
    triggers, direct requests) the rendered state and the container stay as
    they are, and the view stays destroyed. *)
Theorem destroyed_view_is_inert trace : forall w,
  hostDestroyed w = true ->
  visible (run trace w) = visible w /\ hostDestroyed (run trace w) = true.
Proof.
  induction trace as [|[now e] trace IH]; intros w D; cbn; [now split|].
  destruct (handle_destroyed now e w D) as [V D'].
  destruct (IH _ D') as [V' D'']. split; congruence.
Qed.

Lemma destroyed_view_is_inert_witness :
  let w := destroyView (triggerDeferBlock 0 (renderPlaceholder 0 (fullBlock browser))) in
  let trace := [(5, Settle [Fulfilled someComponent]); (6, TriggerBlock);
                (7, Render Complete true); (8, DeferWhen (JBool true))] in
  hostDestroyed w = true
  /\ visible (run trace w) = visible w /\ hostDestroyed (run trace w) = true.
Proof.
  split; [vm_compute; reflexivity|].
  apply (destroyed_view_is_inert
           [(5, Settle [Fulfilled someComponent]); (6, TriggerBlock);
            (7, Render Complete true); (8, DeferWhen (JBool true))]
           (destroyView (triggerDeferBlock 0 (renderPlaceholder 0 (fullBlock browser))))).
  vm_compute; reflexivity.
Defined.

(** *** Where blocks are not triggered *)

(** What a request leaves in the buffer: what was there, the request, or
    nothing. *)
Lemma renderDeferBlockState_next newState skip now w :
  let n' := NEXT_DEFER_BLOCK_STATE (lDetails (renderDeferBlockState newState skip now w)) in
  n' = NEXT_DEFER_BLOCK_STATE (lDetails w) \/ n' = Some newState \/ n' = None.
Proof.
  unfold renderDeferBlockState, validChange, needsScheduling,
    applyDeferBlockStateWithScheduling, scheduleDeferBlockUpdate, scheduleTimerTrigger,
    schedule, applyDeferBlockState, runCleanupFn, handleError.
  open_instance w. break_all; auto.
Qed.

Lemma renderPlaceholder_placeholderOnly skip now w :
  placeholderOnly w -> placeholderOnly (renderDeferBlockState Placeholder skip now w).
Proof.
  intros (R & N & Re & S).
  destruct (renderDeferBlockState_frame Placeholder skip now w)
    as (E1 & _ & _ & _ & _ & E6 & _).
  pose proof (renderDeferBlockState_next Placeholder skip now w) as Nx.
  pose proof (renderDeferBlockState_state Placeholder skip now w) as St.
  unfold placeholderOnly, rank, nextOrMinusOne in *. cbv zeta in Nx.
  rewrite E1, E6. repeat split; auto.
  - destruct St as [-> | (_ & _ & ->)]; [exact R | cbn; lia].
  - destruct Nx as [-> | [-> | ->]]; [exact N | cbn; lia | lia].
Qed.

Lemma renderFrame_placeholderOnly w w' :
  renderFrame w w' -> reactions w' = reactions w ->
  placeholderOnly w -> placeholderOnly w'.
Proof.
  intros (V & N & _ & _ & E & _) Re (H1 & H2 & H3 & H4).
  apply visible_inv in V as [V _].
  unfold placeholderOnly, rank, nextOrMinusOne in *. rewrite V, N, Re, E. auto.
Qed.

Lemma triggerDeferBlock_not_triggered now w :
  shouldTriggerDeferBlock (env w) = false -> triggerDeferBlock now w = w.
Proof. intros H. unfold triggerDeferBlock. now rewrite H. Qed.

Lemma scheduleDelayedTrigger_placeholderOnly fn now w :
  placeholderOnly w -> placeholderOnly (scheduleDelayedTrigger fn now w).
Proof.
  intros P. unfold scheduleDelayedTrigger, renderPlaceholder.
  apply (renderPlaceholder_placeholderOnly false now) in P.
  set (w1 := renderDeferBlockState Placeholder false now w) in *.
  destruct (isPlatformBrowser (env w1)); [|exact P].
  pose proof (callScheduleFn_renderFrame fn TriggerDeferBlock now w1) as F.
  assert (Re : reactions (fst (callScheduleFn fn TriggerDeferBlock now w1)) = reactions w1)
    by (destruct w1, fn; reflexivity).
  destruct (callScheduleFn fn TriggerDeferBlock now w1) as [w2 c]; cbn in F, Re.
  eapply renderFrame_placeholderOnly;
    [apply storeTriggerCleanupFn_renderFrame | now destruct w2 |].
  eapply renderFrame_placeholderOnly; eauto.
Qed.

Lemma handle_placeholderOnly now e w :
  notRender e = true -> placeholderOnly w -> placeholderOnly (handle now e w).
Proof.
  intros NR P. pose proof P as (R & N & Re & S).
  assert (PF : forall ev, prefetches ev = true -> placeholderOnly (handle now ev w)).
  { intros ev Hev.
    destruct (handle_prefetches now ev w Hev Re) as [F Re'].
    eapply renderFrame_placeholderOnly; [exact F | congruence | exact P]. }
  destruct e; try discriminate; try (apply PF; reflexivity); cbn.
  - (* a scheduled callback *)
    unfold fire. destruct (find _ (scheduled w)) as [s|]; [|exact P].
    set (w1 := set_scheduled _ w).
    assert (P1 : placeholderOnly w1).
    { eapply renderFrame_placeholderOnly; [apply set_scheduled_renderFrame | | exact P].
      now destruct w. }
    destruct (callback s); cbn.
    + unfold deferBlockUpdateCallback.
      set (w2 := set_lDetails _ w1).
      assert (P2 : placeholderOnly w2).
      { destruct P1 as (R1 & N1 & Re1 & S1). subst w2.
        unfold placeholderOnly, rank, nextOrMinusOne in *.
        open_instance w1. repeat split; auto. lia. }
      destruct (NEXT_DEFER_BLOCK_STATE (lDetails w1)) as [s'|] eqn:Nx; [|exact P2].
      destruct P1 as (_ & N1 & _). unfold nextOrMinusOne in N1. rewrite Nx in N1.
      destruct s'; cbn in N1; try lia.
      now apply renderPlaceholder_placeholderOnly.
    + destruct P1 as (? & ? & ? & S1). rewrite (triggerDeferBlock_not_triggered _ _ S1).
      repeat split; auto.
    + destruct (handle_prefetches now TriggerPrefetch w1 eq_refl
                  (proj1 (proj2 (proj2 P1)))) as [F Re'].
      cbn in F, Re'. eapply renderFrame_placeholderOnly; [exact F | | exact P1].
      destruct P1 as (_ & _ & -> & _). exact Re'.
  - (* when *)
    unfold ɵɵdeferWhen. destruct (bindingUpdated (whenBinding w) rawValue); [|exact P].
    set (w1 := set_whenBinding (Some rawValue) w).
    assert (P1 : placeholderOnly w1).
    { eapply renderFrame_placeholderOnly; [| | exact P]; now destruct w. }
    pose proof P1 as (_ & _ & _ & S1).
    destruct (Boolean rawValue), (DEFER_BLOCK_STATE (lDetails w1)) as [|[]];
      rewrite ?(triggerDeferBlock_not_triggered _ _ S1); try exact P1.
    now apply renderPlaceholder_placeholderOnly.
  - now apply scheduleDelayedTrigger_placeholderOnly.
  - now apply scheduleDelayedTrigger_placeholderOnly.
  - unfold ɵɵdeferOnImmediate. rewrite S. cbn.
    assert (P1 : placeholderOnly (renderPlaceholder now w))
      by now apply renderPlaceholder_placeholderOnly.
    pose proof P1 as (_ & _ & _ & S1).
    now rewrite (triggerDeferBlock_not_triggered _ _ S1).
  - now apply renderPlaceholder_placeholderOnly.
  - now rewrite (triggerDeferBlock_not_triggered _ _ S).
  - unfold destroyView. set (w1 := set_hostDestroyed true w).
    assert (P1 : placeholderOnly w1).
    { subst w1. unfold placeholderOnly, rank, nextOrMinusOne in *. now destruct w. }
    destruct (onDestroyRegistered w1); [|exact P1].
    eapply renderFrame_placeholderOnly;
      [apply invokeAllTriggerCleanupFns_renderFrame | | exact P1].
    unfold invokeAllTriggerCleanupFns. rewrite !invokeTriggerCleanupFns_closed.
    open_instance w1. break_all; reflexivity.
Qed.

(** X4. Where blocks may not be triggered (outside of a browser, or with the
    manual behaviour), the instructions, the callbacks and the loading
    functions render at most the placeholder: over every sequence of events
    other than direct calls of [renderDeferBlockState], a block created by
    [ɵɵdefer] stays in the initial state or shows its placeholder. *)
Theorem untriggered_block_shows_placeholder_only
    (e : Env) (primary : nat) (fn : option DependencyResolverFn)
    (l p er : option nat) (lc : option DeferredLoadingBlockConfig)
    (pc : option DeferredPlaceholderBlockConfig) (ts : bool)
    (trace : list (Z * Event)) :
  shouldTriggerDeferBlock e = false ->
  forallb (fun te => notRender (snd te)) trace = true ->
  let w := run trace (ɵɵdefer e primary fn l p er lc pc ts) in
  DEFER_BLOCK_STATE (lDetails w) = Initial
  \/ DEFER_BLOCK_STATE (lDetails w) = Rendered Placeholder.
Proof.
  intros S NR w.
  assert (P : placeholderOnly w).
  { subst w. assert (P0 : placeholderOnly (ɵɵdefer e primary fn l p er lc pc ts)).
    { unfold placeholderOnly, rank, nextOrMinusOne; cbn. repeat split; try lia.
      unfold shouldTriggerDeferBlock in *; cbn. exact S. }
    revert P0. generalize (ɵɵdefer e primary fn l p er lc pc ts).
    induction trace as [|[now ev] trace IH]; intros w0 P0; cbn in *; [exact P0|].
    apply andb_true_iff in NR as [N1 N2]. apply IH; [exact N2|].
    now apply handle_placeholderOnly. }
  destruct P as (R & _). unfold rank in R.
  destruct (DEFER_BLOCK_STATE (lDetails w)) as [|[]]; cbn in R; auto; lia.
Qed.

Lemma untriggered_block_shows_placeholder_only_witness :
  let w := run [(0, DeferOnImmediate); (1, DeferWhen (JBool true)); (2, TriggerLoading);
                (3, Settle [Fulfilled someComponent]); (4, TriggerBlock)]
               (fullBlock server) in
  DEFER_BLOCK_STATE (lDetails w) = Initial
  \/ DEFER_BLOCK_STATE (lDetails w) = Rendered Placeholder.
Proof.
  apply (untriggered_block_shows_placeholder_only server 0%nat (Some 7%nat) (Some 1%nat)
           (Some 2%nat) (Some 3%nat) None None false
           [(0, DeferOnImmediate); (1, DeferWhen (JBool true)); (2, TriggerLoading);
            (3, Settle [Fulfilled someComponent]); (4, TriggerBlock)]);
    vm_compute; reflexivity.
Defined.

(** *** Invariants of the instance *)

(** The events are made of a few steps. A property of the instance that
    every step keeps is kept by every event, hence over every sequence of
    events. *)
Section Invariant.

Variable P : World -> Prop.

Hypothesis P_render : forall s skip now w,
  P w -> P (renderDeferBlockState s skip now w).
Hypothesis P_unschedule : forall id w,
  P w -> P (set_scheduled (filter (fun s => negb (Nat.eqb (schedId s) id)) (scheduled w)) w).
Hypothesis P_timer : forall w,
  P w -> P (set_lDetails
              (l_NEXT_DEFER_BLOCK_STATE None (l_STATE_IS_FROZEN_UNTIL None (lDetails w))) w).
Hypothesis P_load : forall w, P w -> P (fst (triggerResourceLoading w)).
Hypothesis P_cleanup : forall w, P w -> P (invokeAllTriggerCleanupFns w).
Hypothesis P_chain : forall w, P w -> P (renderDeferStateAfterResourceLoading w).
Hypothesis P_settle : forall results now w, P w -> P (settle results now w).
Hypothesis P_when : forall v w, P w -> P (set_whenBinding (Some v) w).
Hypothesis P_prefetchWhen : forall v w, P w -> P (set_prefetchWhenBinding (Some v) w).
Hypothesis P_trigger : forall fn now w,
  P w -> P (let (w2, c) := callScheduleFn fn TriggerDeferBlock now w in
            storeTriggerCleanupFn Regular c w2).
Hypothesis P_prefetch : forall fn now w,
  P w -> P (let (w2, c) := callScheduleFn fn TriggerPrefetching now w in
            storeTriggerCleanupFn Prefetch c w2).
Hypothesis P_destroy : forall w, P w -> P (set_hostDestroyed true w).

Lemma triggerDeferBlock_preserves now w : P w -> P (triggerDeferBlock now w).
Proof.
  intros I. unfold triggerDeferBlock.
  destruct (negb (shouldTriggerDeferBlock (env w))); [exact I|].
  apply P_cleanup in I. set (w1 := invokeAllTriggerCleanupFns w) in *.
  destruct (loadingState (tDetails w1)); auto.
  match goal with |- context [fst (triggerResourceLoading ?x)] =>
    assert (I2 : P (fst (triggerResourceLoading x))) by auto;
    destruct (loadingState (tDetails (fst (triggerResourceLoading x)))); auto
  end.
Qed.

Lemma triggerPrefetching_preserves w : P w -> P (triggerPrefetching w).
Proof.
  intros I. unfold triggerPrefetching. destruct (shouldTriggerDeferBlock (env w)); auto.
Qed.

Lemma scheduleDelayedTrigger_preserves fn now w :
  P w -> P (scheduleDelayedTrigger fn now w).
Proof.
  intros I. unfold scheduleDelayedTrigger, renderPlaceholder.
  apply (P_render Placeholder false now) in I.
  destruct (isPlatformBrowser (env _)); [|exact I]. now apply P_trigger.
Qed.

Lemma scheduleDelayedPrefetching_preserves fn now w :
  P w -> P (scheduleDelayedPrefetching fn now w).
Proof.
  intros I. unfold scheduleDelayedPrefetching.
  destruct (isPlatformBrowser (env w)); [|exact I].
  destruct (loadingState (tDetails w)); try exact I. now apply P_prefetch.
Qed.

Lemma handle_preserves now e w : P w -> P (handle now e w).
Proof.
  intros I. destruct e; cbn.
  - now apply P_render.
  - unfold fire. destruct (find _ (scheduled w)) as [s|]; [|exact I].
    apply (P_unschedule id) in I. destruct (callback s); cbn.
    + unfold deferBlockUpdateCallback. apply P_timer in I.
      destruct (NEXT_DEFER_BLOCK_STATE (lDetails _)); auto.
    + now apply triggerDeferBlock_preserves.
    + now apply triggerPrefetching_preserves.
  - now apply P_settle.
  - unfold ɵɵdeferWhen. destruct (bindingUpdated _ _); [|exact I].
    apply (P_when rawValue) in I. cbv zeta.
    destruct (Boolean rawValue), (DEFER_BLOCK_STATE (lDetails _)) as [|[]]; auto;
      try (now apply triggerDeferBlock_preserves). now apply P_render.
  - unfold ɵɵdeferPrefetchWhen. destruct (bindingUpdated _ _); [|exact I].
    apply (P_prefetchWhen rawValue) in I. cbv zeta.
    destruct (Boolean rawValue); [|exact I].
    destruct (loadingState (tDetails (set_prefetchWhenBinding (Some rawValue) w))); auto.
    now apply triggerPrefetching_preserves.
  - now apply scheduleDelayedTrigger_preserves.
  - now apply scheduleDelayedPrefetching_preserves.
  - now apply scheduleDelayedTrigger_preserves.
  - now apply scheduleDelayedPrefetching_preserves.
  - unfold ɵɵdeferOnImmediate. apply triggerDeferBlock_preserves.
    destruct (_ || _); [now apply P_render | exact I].
  - unfold ɵɵdeferPrefetchOnImmediate. destruct (loadingState (tDetails w)); auto.
  - now apply P_render.
  - now apply triggerDeferBlock_preserves.
  - now apply triggerPrefetching_preserves.
  - now apply P_load.
  - unfold destroyView. apply P_destroy in I.
    destruct (onDestroyRegistered _); auto.
Qed.

Lemma run_preserves trace : forall w, P w -> P (run trace w).
Proof.
  induction trace as [|[now e] trace IH]; intros w I; cbn; [exact I|].
  apply IH. now apply handle_preserves.
Qed.

End Invariant.

(** *** The pending task of a load *)

Lemma renderDeferBlockState_pendingTasks newState skip now w :
  pendingTasks (renderDeferBlockState newState skip now w) = pendingTasks w.
Proof.
  unfold renderDeferBlockState, validChange, needsScheduling,
    applyDeferBlockStateWithScheduling, scheduleDeferBlockUpdate, scheduleTimerTrigger,
    schedule, applyDeferBlockState, runCleanupFn, handleError.
  open_instance w. break_all; reflexivity.
Qed.

Lemma TaskInv_frame w w' :
  loadFrame w w' -> pendingTasks w' = pendingTasks w -> TaskInv w -> TaskInv w'.
Proof.
  unfold TaskInv. intros (A1 & A2 & _) T. now rewrite A1, A2, T.
Qed.

Lemma invokeTriggerCleanupFns_pendingTasks type w :
  pendingTasks (invokeTriggerCleanupFns type w) = pendingTasks w.
Proof.
  rewrite invokeTriggerCleanupFns_closed.
  destruct (cleanupFnsOf type (lDetails w)); now destruct w.
Qed.

Lemma triggerResourceLoading_TaskInv w :
  LoadInv w -> TaskInv w -> TaskInv (fst (triggerResourceLoading w)).
Proof.
  intros L T. destruct (loadingState (tDetails w)) eqn:S.
  - clear L. unfold TaskInv in *. rewrite S in T.
    unfold triggerResourceLoading. rewrite S.
    rewrite invokeTriggerCleanupFns_closed. unfold dependenciesFnOf.
    open_world w. cbn in *. subst.
    break_all; cbn; try discriminate; eexists; split; reflexivity.
  - destruct L as [L _]. rewrite S in L. destruct L as [(pl & P1 & P2 & _) _].
    rewrite (triggerResourceLoading_in_flight w (pendingPromise pl)); [exact T | congruence | exact P2].
  - destruct L as [L _]. rewrite S in L. destruct L as (L1 & _).
    assert (N : loadingState (tDetails w) <> NOT_STARTED) by congruence.
    destruct (triggerResourceLoading_finished w N L1) as (_ & _ & _ & B4 & B5 & B6 & B7 & _).
    unfold TaskInv in *. rewrite B5, S in *. rewrite <- T.
    unfold triggerResourceLoading. rewrite S, L1. now destruct w.
  - destruct L as [L _]. rewrite S in L. destruct L as (L1 & _).
    assert (N : loadingState (tDetails w) <> NOT_STARTED) by congruence.
    destruct (triggerResourceLoading_finished w N L1) as (_ & _ & _ & B4 & B5 & B6 & B7 & _).
    unfold TaskInv in *. rewrite B5, S in *. rewrite <- T.
    unfold triggerResourceLoading. rewrite S, L1. now destruct w.
Qed.

Lemma runReactions_pendingTasks now rs : forall w,
  pendingTasks (fold_left (fun acc r => runReaction r now acc) rs w) = pendingTasks w.
Proof.
  induction rs as [|r rs IH]; intros w; cbn; [reflexivity|].
  rewrite IH. destruct r; cbn. destruct (loadingState (tDetails w));
    try reflexivity; apply renderDeferBlockState_pendingTasks.
Qed.

Lemma loadingCallback_pendingTasks (pl : PendingLoad) results w :
  pendingTasks (if awaitsDependencies pl
                then onDependenciesSettled (pendingTask pl) results w
                else onNoDependencies (pendingTask pl) w)
  = filter (fun t => negb (Nat.eqb t (pendingTask pl))) (pendingTasks w).
Proof.
  destruct (awaitsDependencies pl).
  - unfold onDependenciesSettled, handleError.
    destruct (collectDependencies results [] []) as [[failed ds] ps].
    open_world w. break_all; reflexivity.
  - now destruct w.
Qed.

Lemma settle_TaskInv results now w :
  LoadInv w -> TaskInv w -> TaskInv (settle results now w).
Proof.
  intros L T. unfold settle. destruct (pendingLoad w) as [pl|] eqn:P; [|exact T].
  destruct (loadingCallback_loading pl results (set_pendingLoad None w))
    as (C1 & _).
  pose proof (loadingCallback_pendingTasks pl results (set_pendingLoad None w)) as C2.
  set (w2 := if awaitsDependencies pl then _ else _) in *.
  set (w3 := set_fulfilled _ w2).
  eapply TaskInv_frame; [apply runReactions_loadFrame | apply runReactions_pendingTasks |].
  unfold TaskInv.
  replace (tDetails (set_reactions (@nil Reaction) w3)) with (tDetails w2)
    by (subst w3; now destruct w2).
  replace (pendingTasks (set_reactions (@nil Reaction) w3)) with (pendingTasks w2)
    by (subst w3; now destruct w2).
  rewrite C2.
  replace (pendingTasks (set_pendingLoad None w)) with (pendingTasks w) by now destruct w.
  assert (E : filter (fun t => negb (Nat.eqb t (pendingTask pl))) (pendingTasks w) = []).
  { unfold TaskInv in T. destruct L as [L _].
    destruct (loadingState (tDetails w)); try (destruct L as (_ & L & _); congruence).
    destruct T as (pl' & T1 & T2). rewrite T2. assert (pl' = pl) by congruence. subst.
    cbn. now rewrite Nat.eqb_refl. }
  destruct C1 as [-> | ->]; exact E.
Qed.

Lemma LoadTaskInv_frame w w' :
  loadFrame w w' -> pendingTasks w' = pendingTasks w ->
  LoadInv w /\ TaskInv w -> LoadInv w' /\ TaskInv w'.
Proof.
  intros F T [L I]. split; [eapply LoadInv_frame | eapply TaskInv_frame]; eauto.
Qed.

Lemma run_TaskInv trace w : LoadInv w /\ TaskInv w -> LoadInv (run trace w) /\ TaskInv (run trace w).
Proof.
  apply (run_preserves (fun w => LoadInv w /\ TaskInv w)); clear.
  - intros s skip now w. apply LoadTaskInv_frame;
      [apply renderDeferBlockState_loadFrame | apply renderDeferBlockState_pendingTasks].
  - intros id w. apply LoadTaskInv_frame; [apply set_scheduled_loadFrame | now destruct w].
  - intros w. apply LoadTaskInv_frame; [|now destruct w].
    unfold loadFrame. destruct w; cbn; repeat split; lia.
  - intros w [L T]. split;
      [now apply triggerResourceLoading_LoadInv | now apply triggerResourceLoading_TaskInv].
  - intros w. apply LoadTaskInv_frame; [apply invokeAllTriggerCleanupFns_loadFrame|].
    unfold invokeAllTriggerCleanupFns. now rewrite !invokeTriggerCleanupFns_pendingTasks.
  - intros w. apply LoadTaskInv_frame;
      [apply renderDeferStateAfterResourceLoading_loadFrame|].
    unfold renderDeferStateAfterResourceLoading.
    destruct (loadingPromise (tDetails w)); now destruct w.
  - intros results now w [L T]. split; [now apply settle_LoadInv | now apply settle_TaskInv].
  - intros v w. apply LoadTaskInv_frame; [|now destruct w].
    unfold loadFrame. destruct w; cbn; repeat split; lia.
  - intros v w. apply LoadTaskInv_frame; [|now destruct w].
    unfold loadFrame. destruct w; cbn; repeat split; lia.
  - intros fn now w.
    pose proof (callScheduleFn_loadFrame fn TriggerDeferBlock now w) as F.
    assert (T : pendingTasks (fst (callScheduleFn fn TriggerDeferBlock now w)) = pendingTasks w)
      by (destruct w, fn; reflexivity).
    destruct (callScheduleFn fn TriggerDeferBlock now w) as [w2 c]; cbn in F, T.
    apply LoadTaskInv_frame.
    + eapply loadFrame_trans; [exact F | apply storeTriggerCleanupFn_loadFrame].
    + rewrite <- T. now destruct w2.
  - intros fn now w.
    pose proof (callScheduleFn_loadFrame fn TriggerPrefetching now w) as F.
    assert (T : pendingTasks (fst (callScheduleFn fn TriggerPrefetching now w)) = pendingTasks w)
      by (destruct w, fn; reflexivity).
    destruct (callScheduleFn fn TriggerPrefetching now w) as [w2 c]; cbn in F, T.
    apply LoadTaskInv_frame.
    + eapply loadFrame_trans; [exact F | apply storeTriggerCleanupFn_loadFrame].
    + rewrite <- T. now destruct w2.
  - intros w. apply LoadTaskInv_frame; [|now destruct w].
    unfold loadFrame. destruct w; cbn; repeat split; lia.
Qed.

(** X5. A pending task is held exactly while the dependencies are loading.
    Over every sequence of events of a block created by [ɵɵdefer]: while the
    loading state is [IN_PROGRESS] the pending tasks are the one task that
    [triggerResourceLoading] added, and in every other loading state (before
    the load, and once it has completed or failed) no task is pending. *)
Theorem pending_task_while_loading
    (e : Env) (primary : nat) (fn : option DependencyResolverFn)
    (l p er : option nat) (lc : option DeferredLoadingBlockConfig)
    (pc : option DeferredPlaceholderBlockConfig) (ts : bool)
    (trace : list (Z * Event)) :
  let w := run trace (ɵɵdefer e primary fn l p er lc pc ts) in
  match loadingState (tDetails w) with
  | IN_PROGRESS => exists pl, pendingLoad w = Some pl /\ pendingTasks w = [pendingTask pl]
  | _ => pendingTasks w = []
  end.
Proof.
  intros w. apply (run_TaskInv trace). split; [apply defer_LoadInv | reflexivity].
Qed.

(** *** After the load *)

Lemma run_loaded trace w :
  LoadInv w ->
  loadingState (tDetails w) = COMPLETE \/ loadingState (tDetails w) = FAILED ->
  LoadInv (run trace w) /\ tDetails (run trace w) = tDetails w
  /\ resolverCalls (run trace w) = resolverCalls w
  /\ pendingTasks (run trace w) = pendingTasks w.
Proof.
  intros L S.
  assert (F : forall x x', loadFrame x x' -> pendingTasks x' = pendingTasks x ->
            (LoadInv x /\ tDetails x = tDetails w /\ resolverCalls x = resolverCalls w
             /\ pendingTasks x = pendingTasks w) ->
            LoadInv x' /\ tDetails x' = tDetails w /\ resolverCalls x' = resolverCalls w
             /\ pendingTasks x' = pendingTasks w).
  { intros x x' Fr T (L1 & E1 & E2 & E3). split; [eapply LoadInv_frame; eauto|].
    destruct Fr as (A1 & _ & A3 & _). repeat split; congruence. }
  apply (run_preserves (fun x => LoadInv x /\ tDetails x = tDetails w
                                 /\ resolverCalls x = resolverCalls w
                                 /\ pendingTasks x = pendingTasks w));
    [..| split; [exact L | now repeat split]].
  - intros s skip now x. apply F;
      [apply renderDeferBlockState_loadFrame | apply renderDeferBlockState_pendingTasks].
  - intros id x. apply F; [apply set_scheduled_loadFrame | now destruct x].
  - intros x. apply F; [|now destruct x].
    unfold loadFrame. destruct x; cbn; repeat split; lia.
  - intros x (L1 & E1 & E2 & E3).
    split; [now apply triggerResourceLoading_LoadInv|].
    assert (N : loadingState (tDetails x) <> NOT_STARTED)
      by (rewrite E1; destruct S; congruence).
    assert (Pr : loadingPromise (tDetails x) = None).
    { destruct L1 as [L1 _]. rewrite E1 in *.
      destruct S as [S|S]; rewrite S in L1; now destruct L1. }
    destruct (triggerResourceLoading_finished x N Pr) as (_ & _ & _ & _ & B5 & B6 & _).
    repeat split; try congruence. rewrite <- E3.
    unfold triggerResourceLoading. rewrite Pr.
    destruct (loadingState (tDetails x)); [now elim N | now destruct x..].
  - intros x. apply F; [apply invokeAllTriggerCleanupFns_loadFrame|].
    unfold invokeAllTriggerCleanupFns. now rewrite !invokeTriggerCleanupFns_pendingTasks.
  - intros x. apply F; [apply renderDeferStateAfterResourceLoading_loadFrame|].
    unfold renderDeferStateAfterResourceLoading.
    destruct (loadingPromise (tDetails x)); now destruct x.
  - intros results now x (L1 & E1 & E2 & E3).
    assert (Pl : pendingLoad x = None).
    { destruct L1 as [L1 _]. rewrite E1 in *.
      destruct S as [S|S]; rewrite S in L1; now destruct L1. }
    unfold settle. rewrite Pl. split; [exact L1 | now repeat split].
  - intros v x. apply F; [|now destruct x].
    unfold loadFrame. destruct x; cbn; repeat split; lia.
  - intros v x. apply F; [|now destruct x].
    unfold loadFrame. destruct x; cbn; repeat split; lia.
  - intros fn now x.
    pose proof (callScheduleFn_loadFrame fn TriggerDeferBlock now x) as Fr.
    assert (T : pendingTasks (fst (callScheduleFn fn TriggerDeferBlock now x)) = pendingTasks x)
      by (destruct x, fn; reflexivity).
    destruct (callScheduleFn fn TriggerDeferBlock now x) as [w2 c]; cbn in Fr, T.
    apply F.
    + eapply loadFrame_trans; [exact Fr | apply storeTriggerCleanupFn_loadFrame].
    + rewrite <- T. now destruct w2.
  - intros fn now x.
    pose proof (callScheduleFn_loadFrame fn TriggerPrefetching now x) as Fr.
    assert (T : pendingTasks (fst (callScheduleFn fn TriggerPrefetching now x)) = pendingTasks x)
      by (destruct x, fn; reflexivity).
    destruct (callScheduleFn fn TriggerPrefetching now x) as [w2 c]; cbn in Fr, T.
    apply F.
    + eapply loadFrame_trans; [exact Fr | apply storeTriggerCleanupFn_loadFrame].
    + rewrite <- T. now destruct w2.
  - intros x. apply F; [|now destruct x].
    unfold loadFrame. destruct x; cbn; repeat split; lia.
Qed.

(** X6. A load is never started again. Once the loading state of a block
    created by [ɵɵdefer] is [COMPLETE] or [FAILED], no sequence of events
    changes the static details any more (the loading state, the providers of
    the loaded dependencies), and the dependency function is not called
    again: a failed load is not retried. *)
Theorem load_is_never_restarted
    (e : Env) (primary : nat) (fn : option DependencyResolverFn)
    (l p er : option nat) (lc : option DeferredLoadingBlockConfig)
    (pc : option DeferredPlaceholderBlockConfig) (ts : bool)
    (before after : list (Z * Event)) :
  let w := run before (ɵɵdefer e primary fn l p er lc pc ts) in
  loadingState (tDetails w) = COMPLETE \/ loadingState (tDetails w) = FAILED ->
  tDetails (run after w) = tDetails w
  /\ resolverCalls (run after w) = resolverCalls w.
Proof.
  intros w S.
  destruct (run_loaded after w) as (_ & E1 & E2 & _); [|exact S|now split].
  apply run_LoadInv, defer_LoadInv.
Qed.

Lemma load_is_never_restarted_witness :
  let w := run [(0, TriggerBlock); (5, Settle [Rejected])] (fullBlock browser) in
  let after := [(6, TriggerLoading); (7, TriggerBlock); (8, DeferPrefetchOnImmediate);
                (9, Settle [Fulfilled someComponent])] in
  loadingState (tDetails w) = FAILED
  /\ tDetails (run after w) = tDetails w
  /\ resolverCalls (run after w) = resolverCalls w.
Proof.
  split; [vm_compute; reflexivity|].
  apply (load_is_never_restarted browser 0%nat (Some 7%nat) (Some 1%nat) (Some 2%nat)
           (Some 3%nat) None None false
           [(0, TriggerBlock); (5, Settle [Rejected])]
           [(6, TriggerLoading); (7, TriggerBlock); (8, DeferPrefetchOnImmediate);
            (9, Settle [Fulfilled someComponent])]).
  right. vm_compute. reflexivity.
Defined.

(** *** Scheduled triggers *)

(** A rendering request leaves the scheduled callbacks, but for the update
    that it cancels and the one that it schedules. *)
Lemma renderDeferBlockState_scheduled_callbacks newState skip now w s :
  let w' := renderDeferBlockState newState skip now w in
  In s (scheduled w') ->
  In s (scheduled w)
  \/ (callback s = DeferBlockUpdate /\ (nextId w <= schedId s < nextId w')%nat).
Proof.
  unfold renderDeferBlockState, validChange, needsScheduling,
    applyDeferBlockStateWithScheduling, scheduleDeferBlockUpdate, scheduleTimerTrigger,
    schedule, applyDeferBlockState, runCleanupFn, handleError.
  open_instance w. break_all; intros H; auto;
    repeat match goal with
    | H : In _ (_ ++ _) |- _ => apply in_app_or in H; destruct H as [H|H]
    | H : In _ (filter _ _) |- _ => apply filter_In in H; destruct H as [H _]
    | H : In _ [_] |- _ => destruct H as [<-|[]]
    end; auto; right; cbn; split; auto; lia.
Qed.

Lemma SchedInv_frame w w' :
  (forall s, In s (scheduled w') -> In s (scheduled w)) ->
  TRIGGER_CLEANUP_FNS (lDetails w') = TRIGGER_CLEANUP_FNS (lDetails w) ->
  PREFETCH_TRIGGER_CLEANUP_FNS (lDetails w') = PREFETCH_TRIGGER_CLEANUP_FNS (lDetails w) ->
  (nextId w <= nextId w')%nat ->
  SchedInv w -> SchedInv w'.
Proof.
  intros S R P N I s Hs. destruct (I s (S s Hs)) as (A & B & C).
  unfold cancellable, cleanupFnsOf in *. rewrite R, P. repeat split; auto. lia.
Qed.

Lemma renderDeferBlockState_SchedInv newState skip now w :
  SchedInv w -> SchedInv (renderDeferBlockState newState skip now w).
Proof.
  intros I s Hs.
  destruct (renderDeferBlockState_frame newState skip now w)
    as (_ & _ & _ & _ & _ & _ & _ & _ & _ & R & P).
  pose proof (renderDeferBlockState_loadFrame newState skip now w)
    as (_ & _ & _ & _ & _ & N).
  apply renderDeferBlockState_scheduled_callbacks in Hs as [Hs|[C E]].
  - destruct (I s Hs) as (A & B & D). unfold cancellable, cleanupFnsOf in *.
    rewrite R, P. repeat split; auto. lia.
  - split; [lia | split; congruence].
Qed.

(** The callbacks of a category are gone once its clean-up functions ran. *)
Lemma invokeTriggerCleanupFns_SchedInv type w :
  SchedInv w ->
  SchedInv (invokeTriggerCleanupFns type w)
  /\ (forall s, In s (scheduled (invokeTriggerCleanupFns type w)) ->
        In s (scheduled w) /\ ~ cancellable type w s)
  /\ cleanupFnsOf type (lDetails (invokeTriggerCleanupFns type w)) = None.
Proof.
  intros I. rewrite invokeTriggerCleanupFns_closed.
  destruct (cleanupFnsOf type (lDetails w)) as [fns|] eqn:E.
  - assert (K : forall s,
        In s (cancelAll fns (scheduled w)) -> In s (scheduled w) /\ ~ cancellable type w s).
    { intros s Hs. split; [now apply cancelAll_subset in Hs|].
      intros (fns' & E' & Hin). rewrite E in E'. injection E' as <-.
      now apply (cancelAll_cancelled fns (scheduled w) (schedId s) s). }
    split; [|split].
    + intros s Hs.
      assert (Hs' : In s (cancelAll fns (scheduled w))) by (destruct w; exact Hs).
      destruct (K s Hs') as [H1 H2]. destruct (I s H1) as (A & B & C).
      split; [now destruct w|]. unfold cancellable in *.
      destruct type; split; intros Hc.
      * elim H2. now apply B.
      * destruct (C Hc) as (f & F1 & F2). exists f. split; [|exact F2].
        revert F1. clear. open_instance w. cbn. auto.
      * destruct (B Hc) as (f & F1 & F2). exists f. split; [|exact F2].
        revert F1. clear. open_instance w. cbn. auto.
      * elim H2. now apply C.
    + intros s Hs. apply K. now destruct w.
    + clear. open_instance w. now destruct type.
  - split; [exact I|]. split; [|exact E].
    intros s Hs. split; [exact Hs|]. intros (f & F & _). congruence.
Qed.

Lemma invokeAllTriggerCleanupFns_SchedInv w :
  SchedInv w ->
  SchedInv (invokeAllTriggerCleanupFns w) /\ noTriggerScheduled (invokeAllTriggerCleanupFns w)
  /\ TRIGGER_CLEANUP_FNS (lDetails (invokeAllTriggerCleanupFns w)) = None
  /\ PREFETCH_TRIGGER_CLEANUP_FNS (lDetails (invokeAllTriggerCleanupFns w)) = None.
Proof.
  intros I. unfold invokeAllTriggerCleanupFns.
  destruct (invokeTriggerCleanupFns_SchedInv Prefetch w I) as (I1 & K1 & N1).
  set (w1 := invokeTriggerCleanupFns Prefetch w) in *.
  destruct (invokeTriggerCleanupFns_SchedInv Regular w1 I1) as (I2 & K2 & N2).
  split; [exact I2|]. split; [|split; [exact N2|]].
  - intros s Hs. destruct (K2 s Hs) as [H1 H2]. destruct (I1 s H1) as (_ & B & C).
    destruct (callback s) eqn:Cb; [reflexivity | now elim H2; apply B |].
    destruct (C eq_refl) as (f & F & _). cbn in N1, F. congruence.
  - cbn in N1. rewrite invokeTriggerCleanupFns_closed.
    destruct (cleanupFnsOf Regular (lDetails w1)); [|exact N1].
    revert N1. clear. open_instance w1. cbn. auto.
Qed.

Lemma callScheduleFn_SchedInv type cb fn now w :
  (cb = TriggerDeferBlock -> type = Regular) ->
  (cb = TriggerPrefetching -> type = Prefetch) ->
  SchedInv w ->
  SchedInv (let (w2, c) := callScheduleFn fn cb now w in storeTriggerCleanupFn type c w2).
Proof.
  intros T1 T2 I.
  assert (E : (let (w2, c) := callScheduleFn fn cb now w in storeTriggerCleanupFn type c w2)
              = storeTriggerCleanupFn type (CancelScheduled (nextId w))
                  (set_nextId (S (nextId w))
                     (set_scheduled
                        (scheduled w ++ [mkScheduled (nextId w)
                                           match fn with
                                           | OnIdle => None
                                           | OnTimer d => Some (now + d)
                                           end cb]) w)))
    by now destruct fn.
  rewrite E. clear E. intros s Hs.
  assert (Hs' : In s (scheduled w) \/ s = mkScheduled (nextId w)
                   match fn with OnIdle => None | OnTimer d => Some (now + d) end cb).
  { revert Hs. clear. open_instance w. cbn. destruct type; cbn; intros H;
      apply in_app_or in H as [H|[<-|[]]]; auto. }
  assert (St : forall ty f, cleanupFnsOf ty (lDetails w) = Some f ->
             exists f', cleanupFnsOf ty (lDetails
               (storeTriggerCleanupFn type (CancelScheduled (nextId w))
                  (set_nextId (S (nextId w))
                     (set_scheduled
                        (scheduled w ++ [mkScheduled (nextId w)
                                           match fn with
                                           | OnIdle => None
                                           | OnTimer d => Some (now + d)
                                           end cb]) w)))) = Some f'
               /\ forall x, In x f -> In x f').
  { clear. intros ty f. open_instance w. destruct type, ty; cbn; intros ->;
      eexists; (split; [reflexivity|]); intros x Hx; auto; apply in_or_app; auto. }
  assert (Nw : exists f', cleanupFnsOf type (lDetails
               (storeTriggerCleanupFn type (CancelScheduled (nextId w))
                  (set_nextId (S (nextId w))
                     (set_scheduled
                        (scheduled w ++ [mkScheduled (nextId w)
                                           match fn with
                                           | OnIdle => None
                                           | OnTimer d => Some (now + d)
                                           end cb]) w)))) = Some f'
               /\ In (CancelScheduled (nextId w)) f').
  { clear. open_instance w. destruct type; cbn; break_all; eexists;
      (split; [reflexivity|]); try apply in_or_app; cbn; auto. }
  assert (Nx : nextId (storeTriggerCleanupFn type (CancelScheduled (nextId w))
                  (set_nextId (S (nextId w))
                     (set_scheduled
                        (scheduled w ++ [mkScheduled (nextId w)
                                           match fn with
                                           | OnIdle => None
                                           | OnTimer d => Some (now + d)
                                           end cb]) w))) = S (nextId w))
    by (clear; now destruct w).
  rewrite Nx. destruct Hs' as [Hs'| ->].
  - destruct (I s Hs') as (A & B & C). split; [lia|].
    split; intros Hc; [destruct (B Hc) as (f & F1 & F2) | destruct (C Hc) as (f & F1 & F2)];
      destruct (St _ f F1) as (f' & G1 & G2); exists f'; auto.
  - cbn. split; [lia|]. split; intros Hc.
    + rewrite <- (T1 Hc). exact Nw.
    + rewrite <- (T2 Hc). exact Nw.
Qed.

Lemma triggerResourceLoading_sched w :
  let w' := fst (triggerResourceLoading w) in
  let w0 := match loadingState (tDetails w) with
            | NOT_STARTED => invokeTriggerCleanupFns Prefetch w
            | _ => w
            end in
  scheduled w' = scheduled w0 /\ lDetails w' = lDetails w0
  /\ (nextId w <= nextId w')%nat.
Proof.
  unfold triggerResourceLoading. rewrite !invokeTriggerCleanupFns_closed.
  unfold dependenciesFnOf.
  open_world w. cbn. break_all; repeat split; lia.
Qed.

Lemma invokeTriggerCleanupFns_nextId type w :
  nextId (invokeTriggerCleanupFns type w) = nextId w.
Proof.
  rewrite invokeTriggerCleanupFns_closed.
  destruct (cleanupFnsOf type (lDetails w)); now destruct w.
Qed.

Lemma triggerResourceLoading_SchedInv w :
  SchedInv w ->
  SchedInv (fst (triggerResourceLoading w))
  /\ (loadingState (tDetails w) = NOT_STARTED ->
      forall s, In s (scheduled (fst (triggerResourceLoading w))) ->
        callback s <> TriggerPrefetching).
Proof.
  intros I. destruct (triggerResourceLoading_sched w) as (S & L & N).
  destruct (invokeTriggerCleanupFns_SchedInv Prefetch w I) as (I1 & K1 & _).
  pose proof (invokeTriggerCleanupFns_nextId Prefetch w) as N1.
  split.
  - destruct (loadingState (tDetails w)).
    + eapply SchedInv_frame; [| | | |exact I1]; rewrite ?S, ?L, ?N1; auto.
    + eapply SchedInv_frame; [| | | |exact I]; rewrite ?S, ?L; auto.
    + eapply SchedInv_frame; [| | | |exact I]; rewrite ?S, ?L; auto.
    + eapply SchedInv_frame; [| | | |exact I]; rewrite ?S, ?L; auto.
  - intros St s Hs Cb. rewrite St in S. rewrite S in Hs.
    destruct (K1 s Hs) as [H1 H2]. apply H2. now apply I.
Qed.

Lemma loadingCallback_sched (pl : PendingLoad) results w :
  let w' := if awaitsDependencies pl
            then onDependenciesSettled (pendingTask pl) results w
            else onNoDependencies (pendingTask pl) w in
  scheduled w' = scheduled w /\ lDetails w' = lDetails w.
Proof.
  destruct (awaitsDependencies pl); cbn.
  - unfold onDependenciesSettled, handleError.
    destruct (collectDependencies results [] []) as [[failed ds] ps].
    open_world w. break_all; repeat split; auto.
  - destruct w; cbn; repeat split; auto.
Qed.

Lemma runReactions_SchedInv now rs : forall w,
  SchedInv w -> SchedInv (fold_left (fun acc r => runReaction r now acc) rs w).
Proof.
  induction rs as [|r rs IH]; intros w I; cbn; [exact I|].
  apply IH. destruct r; cbn. destruct (loadingState (tDetails w)); auto;
    now apply renderDeferBlockState_SchedInv.
Qed.

Lemma SchedInv_same w w' :
  scheduled w' = scheduled w ->
  TRIGGER_CLEANUP_FNS (lDetails w') = TRIGGER_CLEANUP_FNS (lDetails w) ->
  PREFETCH_TRIGGER_CLEANUP_FNS (lDetails w') = PREFETCH_TRIGGER_CLEANUP_FNS (lDetails w) ->
  nextId w' = nextId w ->
  SchedInv w -> SchedInv w'.
Proof.
  intros S R P N. apply SchedInv_frame; auto; [|lia]. intros s. now rewrite S.
Qed.

Lemma settle_SchedInv results now w : SchedInv w -> SchedInv (settle results now w).
Proof.
  intros I. unfold settle. destruct (pendingLoad w) as [pl|]; [|exact I].
  apply runReactions_SchedInv.
  destruct (loadingCallback_sched pl results (set_pendingLoad None w)) as [S L].
  destruct (loadingCallback_loading pl results (set_pendingLoad None w))
    as (_ & _ & _ & _ & _ & N & _).
  set (w2 := if awaitsDependencies pl then _ else _) in *.
  eapply SchedInv_same; [| | | |exact I].
  - transitivity (scheduled w2); [now destruct w2|]. rewrite S. now destruct w.
  - transitivity (TRIGGER_CLEANUP_FNS (lDetails w2)); [now destruct w2|].
    rewrite L. now destruct w.
  - transitivity (PREFETCH_TRIGGER_CLEANUP_FNS (lDetails w2)); [now destruct w2|].
    rewrite L. now destruct w.
  - transitivity (nextId w2); [now destruct w2|]. rewrite N. now destruct w.
Qed.

Lemma run_SchedInv trace w : SchedInv w -> SchedInv (run trace w).
Proof.
  apply (run_preserves SchedInv); clear.
  - intros. now apply renderDeferBlockState_SchedInv.
  - intros id w. apply SchedInv_frame; [|now destruct w..].
    intros s Hs.
    assert (H : In s (filter (fun s => negb (Nat.eqb (schedId s) id)) (scheduled w)))
      by (destruct w; exact Hs).
    now apply filter_In in H.
  - intros w. apply SchedInv_same; now open_instance w.
  - intros w I. now apply triggerResourceLoading_SchedInv.
  - intros w I. now apply invokeAllTriggerCleanupFns_SchedInv.
  - intros w. unfold renderDeferStateAfterResourceLoading.
    destruct (loadingPromise (tDetails w)); apply SchedInv_same; now destruct w.
  - intros. now apply settle_SchedInv.
  - intros v w. apply SchedInv_same; now destruct w.
  - intros v w. apply SchedInv_same; now destruct w.
  - intros fn now w. apply callScheduleFn_SchedInv; congruence.
  - intros fn now w. apply callScheduleFn_SchedInv; congruence.
  - intros w. apply SchedInv_same; now destruct w.
Qed.

Lemma defer_SchedInv e primary fn l p er lc pc ts :
  SchedInv (ɵɵdefer e primary fn l p er lc pc ts).
Proof. intros s []. Qed.

Lemma noTriggerScheduled_render newState skip now w :
  noTriggerScheduled w -> noTriggerScheduled (renderDeferBlockState newState skip now w).
Proof.
  intros H s Hs. apply renderDeferBlockState_scheduled_callbacks in Hs as [Hs|[C _]]; auto.
Qed.

Lemma triggerDeferBlock_cancels now w :
  SchedInv w -> shouldTriggerDeferBlock (env w) = true ->
  noTriggerScheduled (triggerDeferBlock now w).
Proof.
  intros I S. unfold triggerDeferBlock. rewrite S. cbn.
  destruct (invokeAllTriggerCleanupFns_SchedInv w I) as (I1 & K1 & _).
  set (w1 := invokeAllTriggerCleanupFns w) in *.
  assert (L : forall x, noTriggerScheduled x -> noTriggerScheduled (fst (triggerResourceLoading x))).
  { intros x Hx s Hs. destruct (triggerResourceLoading_sched x) as (Sx & _).
    rewrite Sx in Hs. destruct (loadingState (tDetails x)); auto.
    rewrite invokeTriggerCleanupFns_closed in Hs.
    destruct (cleanupFnsOf Prefetch (lDetails x)) as [fns|]; auto.
    apply Hx. apply (cancelAll_subset fns). now destruct x. }
  assert (C : forall x, noTriggerScheduled x ->
            noTriggerScheduled (renderDeferStateAfterResourceLoading x)).
  { intros x Hx s Hs. apply Hx. unfold renderDeferStateAfterResourceLoading in Hs.
    destruct (loadingPromise (tDetails x)); now destruct x. }
  destruct (loadingState (tDetails w1)).
  - set (w2 := renderDeferBlockState Loading false now w1).
    assert (K2 : noTriggerScheduled (fst (triggerResourceLoading w2)))
      by now apply L, noTriggerScheduled_render.
    destruct (loadingState (tDetails (fst (triggerResourceLoading w2)))); auto.
  - now apply C, noTriggerScheduled_render.
  - now apply noTriggerScheduled_render.
  - now apply noTriggerScheduled_render.
Qed.

(** X7. Triggering cancels the triggers. Over every sequence of events of a
    block created by [ɵɵdefer], in an environment in which blocks are
    triggered: once [triggerDeferBlock] has run, no timer or idle callback
    that would trigger or prefetch the block is left in a scheduler (only
    updates of the rendered state can be), so the block is not triggered a
    second time by a trigger that was set up before. *)
Theorem triggering_cancels_scheduled_triggers
    (e : Env) (primary : nat) (fn : option DependencyResolverFn)
    (l p er : option nat) (lc : option DeferredLoadingBlockConfig)
    (pc : option DeferredPlaceholderBlockConfig) (ts : bool)
    (trace : list (Z * Event)) (now : Z) :
  let w := run trace (ɵɵdefer e primary fn l p er lc pc ts) in
  shouldTriggerDeferBlock (env w) = true ->
  forall s, In s (scheduled (triggerDeferBlock now w)) -> callback s = DeferBlockUpdate.
Proof.
  intros w S. apply triggerDeferBlock_cancels; [|exact S].
  apply run_SchedInv, defer_SchedInv.
Qed.

(** X8. Loading cancels the prefetch triggers. Over every sequence of events
    of a block created by [ɵɵdefer]: when [triggerResourceLoading] starts the
    load, no prefetch callback is left in a scheduler afterwards. *)
Theorem loading_cancels_prefetch_triggers
    (e : Env) (primary : nat) (fn : option DependencyResolverFn)
    (l p er : option nat) (lc : option DeferredLoadingBlockConfig)
    (pc : option DeferredPlaceholderBlockConfig) (ts : bool)
    (trace : list (Z * Event)) :
  let w := run trace (ɵɵdefer e primary fn l p er lc pc ts) in
  loadingState (tDetails w) = NOT_STARTED ->
  forall s, In s (scheduled (fst (triggerResourceLoading w))) ->
    callback s <> TriggerPrefetching.
Proof.
  intros w S. apply triggerResourceLoading_SchedInv; [|exact S].
  apply run_SchedInv, defer_SchedInv.
Qed.

(** X9. Destroying the host view cancels the triggers. Over every sequence
    of events of a block created by [ɵɵdefer]: when the view is destroyed
    while its destroy hook is registered, no timer or idle callback that
    would trigger or prefetch the block is left in a scheduler. *)
Theorem destroying_cancels_scheduled_triggers
    (e : Env) (primary : nat) (fn : option DependencyResolverFn)
    (l p er : option nat) (lc : option DeferredLoadingBlockConfig)
    (pc : option DeferredPlaceholderBlockConfig) (ts : bool)
    (trace : list (Z * Event)) :
  let w := run trace (ɵɵdefer e primary fn l p er lc pc ts) in
  onDestroyRegistered w = true ->
  forall s, In s (scheduled (destroyView w)) -> callback s = DeferBlockUpdate.
Proof.
  intros w R. unfold destroyView.
  change (onDestroyRegistered (set_hostDestroyed true w)) with (onDestroyRegistered w).
  rewrite R. apply invokeAllTriggerCleanupFns_SchedInv.
  eapply SchedInv_same; [| | | |apply (run_SchedInv trace), defer_SchedInv]; reflexivity.
Qed.

Lemma triggering_cancels_scheduled_triggers_witness :
  let w := run [(0, DeferOnTimer 100); (0, DeferPrefetchOnIdle)] (afterBlock browser) in
  let s := mkScheduled 2 (Some 205) DeferBlockUpdate in
  shouldTriggerDeferBlock (env w) = true
  /\ In s (scheduled (triggerDeferBlock 5 w))
  /\ callback s = DeferBlockUpdate.
Proof.
  split; [vm_compute; reflexivity|]. split; [vm_compute; left; reflexivity|].
  apply (triggering_cancels_scheduled_triggers browser 0%nat (Some 7%nat) (Some 1%nat)
           (Some 2%nat) (Some 3%nat) (Some (mkLoadingConfig None (Some 200))) None true
           [(0, DeferOnTimer 100); (0, DeferPrefetchOnIdle)] 5
           eq_refl (mkScheduled 2 (Some 205) DeferBlockUpdate)).
  vm_compute. left. reflexivity.
Defined.

Lemma loading_cancels_prefetch_triggers_witness :
  let w := run [(0, DeferOnTimer 100); (0, DeferPrefetchOnIdle)] (afterBlock browser) in
  let s := mkScheduled 0 (Some 100) TriggerDeferBlock in
  loadingState (tDetails w) = NOT_STARTED
  /\ In s (scheduled (fst (triggerResourceLoading w)))
  /\ callback s <> TriggerPrefetching.
Proof.
  split; [vm_compute; reflexivity|]. split; [vm_compute; left; reflexivity|].
  apply (loading_cancels_prefetch_triggers browser 0%nat (Some 7%nat) (Some 1%nat)
           (Some 2%nat) (Some 3%nat) (Some (mkLoadingConfig None (Some 200))) None true
           [(0, DeferOnTimer 100); (0, DeferPrefetchOnIdle)]
           eq_refl (mkScheduled 0 (Some 100) TriggerDeferBlock)).
  vm_compute. left. reflexivity.
Defined.

Lemma destroying_cancels_scheduled_triggers_witness :
  let w := run [(0, DeferOnTimer 100); (0, DeferPrefetchOnIdle)] minimumAndAfterBlock in
  let s := mkScheduled 0 (Some 100) DeferBlockUpdate in
  onDestroyRegistered w = true
  /\ In s (scheduled (destroyView w))
  /\ callback s = DeferBlockUpdate.
Proof.
  split; [vm_compute; reflexivity|]. split; [vm_compute; left; reflexivity|].
  apply (destroying_cancels_scheduled_triggers browser 0%nat (Some 7%nat) (Some 1%nat)
           (Some 2%nat) (Some 3%nat) (Some (mkLoadingConfig None (Some 1000)))
           (Some (mkPlaceholderConfig (Some 100))) true
           [(0, DeferOnTimer 100); (0, DeferPrefetchOnIdle)]
           eq_refl (mkScheduled 0 (Some 100) DeferBlockUpdate)).
  vm_compute. left. reflexivity.
Defined.

(** *** From the trigger to the content *)

Lemma staticConfig_inv t t' :
  staticConfig t' = staticConfig t ->
  (forall s, getTemplateIndexForState s t' = getTemplateIndexForState s t)
  /\ (forall s, getMinimumDurationForState t' s = getMinimumDurationForState t s)
  /\ getLoadingBlockAfter t' = getLoadingBlockAfter t.
Proof.
  unfold staticConfig. intros [= H1 H2 H3 H4 H5 H6].
  unfold getTemplateIndexForState, getMinimumDurationForState, getLoadingBlockAfter.
  rewrite H1, H2, H3, H4, H5, H6. repeat split.
Qed.

Lemma needsScheduling_static skip w w' :
  env w' = env w -> staticConfig (tDetails w') = staticConfig (tDetails w) ->
  needsScheduling skip w' = needsScheduling skip w.
Proof.
  intros E S. apply staticConfig_inv in S as (_ & M & A).
  unfold needsScheduling. now rewrite E, !M, A.
Qed.

(** An accepted request without timers mounts the view of its template. *)
Lemma renderDeferBlockState_mounts newState skip now w i :
  needsScheduling skip w = false ->
  hostDestroyed w = false ->
  validChange newState w = true ->
  getTemplateIndexForState newState (tDetails w) = Some i ->
  renderThrows (env w) i = false ->
  let w' := renderDeferBlockState newState skip now w in
  DEFER_BLOCK_STATE (lDetails w') = Rendered newState
  /\ templatesOf w' = i :: tl (templatesOf w)
  /\ errorLog w' = errorLog w
  /\ NEXT_DEFER_BLOCK_STATE (lDetails w') = NEXT_DEFER_BLOCK_STATE (lDetails w)
  /\ (newState <> Complete -> lContainer w' = mkView i None :: tl (lContainer w)).
Proof.
  intros N D V T R w'. subst w'.
  rewrite (renderDeferBlockState_unscheduled _ _ _ _ N), D, V.
  unfold applyDeferBlockState, handleError, templatesOf. rewrite T.
  clear N V. open_instance w. cbn in *. rewrite R.
  destruct lContainer0; cbn; repeat split; try (destruct newState; congruence).
Qed.

(** The first call of [triggerResourceLoading], for the rest of the instance. *)
Lemma triggerResourceLoading_starts w :
  loadingState (tDetails w) = NOT_STARTED ->
  let w' := fst (triggerResourceLoading w) in
  loadingState (tDetails w') = IN_PROGRESS
  /\ (exists pl, pendingLoad w' = Some pl
                 /\ awaitsDependencies pl
                    = match dependenciesFnOf w with Some _ => true | None => false end)
  /\ loadingPromise (tDetails w') <> None
  /\ staticConfig (tDetails w') = staticConfig (tDetails w)
  /\ errorLog w' = errorLog w.
Proof.
  intros H. unfold triggerResourceLoading. rewrite H.
  rewrite invokeTriggerCleanupFns_closed. unfold dependenciesFnOf.
  open_world w. subst. break_all; cbn;
    repeat split; try discriminate; eexists; split; reflexivity.
Qed.

(** What the callback of the loading promise leaves alone, and what it
    reports. *)
Lemma loadingCallback_outcome (pl : PendingLoad) results w :
  let w' := if awaitsDependencies pl
            then onDependenciesSettled (pendingTask pl) results w
            else onNoDependencies (pendingTask pl) w in
  staticConfig (tDetails w') = staticConfig (tDetails w)
  /\ hostDestroyed w' = hostDestroyed w
  /\ (awaitsDependencies pl = false \/ ~ In Rejected results ->
        loadingState (tDetails w') = COMPLETE /\ errorLog w' = errorLog w)
  /\ (awaitsDependencies pl = true -> In Rejected results ->
        loadingState (tDetails w') = FAILED
        /\ errorLog w'
           = errorLog w ++ match errorTmplIndex (tDetails w) with
                           | Some _ => []
                           | None => [Handled (RuntimeError DEFER_LOADING_FAILED)]
                           end).
Proof.
  destruct (awaitsDependencies pl); cbn.
  - unfold onDependenciesSettled, handleError.
    pose proof (collectDependencies_failed results [] []) as F.
    destruct (collectDependencies results [] []) as [[failed ds] ps]. cbn in F.
    destruct failed.
    + assert (Hin : In Rejected results) by now apply F.
      clear F. open_world w. cbn.
      split; [now break_all|]. split; [now break_all|]. split.
      * intros [H|H]; [discriminate | contradiction].
      * intros _ _. break_all; cbn; rewrite ?app_nil_r; split; reflexivity.
    + assert (Hin : ~ In Rejected results) by (intros H; apply F in H; discriminate).
      clear F. open_world w. cbn.
      split; [now break_all|]. split; [now break_all|]. split.
      * intros _. break_all; split; reflexivity.
      * intros _ H. contradiction.
  - destruct w; cbn. split; [reflexivity|]. split; [reflexivity|]. split.
    + intros _. split; reflexivity.
    + intros H. discriminate.
Qed.

Lemma renderDeferBlockState_no_template newState skip now w :
  needsScheduling skip w = false ->
  getTemplateIndexForState newState (tDetails w) = None ->
  renderDeferBlockState newState skip now w = w.
Proof.
  intros N T. rewrite (renderDeferBlockState_unscheduled _ _ _ _ N).
  unfold applyDeferBlockState. rewrite T.
  destruct (hostDestroyed w), (validChange newState w); reflexivity.
Qed.

Lemma invokeAllTriggerCleanupFns_log w :
  errorLog (invokeAllTriggerCleanupFns w) = errorLog w
  /\ reactions (invokeAllTriggerCleanupFns w) = reactions w.
Proof.
  unfold invokeAllTriggerCleanupFns. rewrite !invokeTriggerCleanupFns_closed.
  open_instance w. break_all; split; reflexivity.
Qed.

(** What a rendering request looks at is the same in both worlds. *)
Lemma validChange_renderFrame newState w w' :
  renderFrame w w' -> validChange newState w' = validChange newState w.
Proof.
  intros (V & N & _). apply visible_inv in V as [V _].
  unfold validChange, nextOrMinusOne. now rewrite V, N.
Qed.

(** The block is triggered before its dependencies are requested. *)
Lemma triggerDeferBlock_starts now w :
  shouldTriggerDeferBlock (env w) = true ->
  loadingState (tDetails w) = NOT_STARTED ->
  let w0 := renderDeferBlockState Loading false now (invokeAllTriggerCleanupFns w) in
  let w1 := triggerDeferBlock now w in
  renderFrame w0 w1
  /\ staticConfig (tDetails w1) = staticConfig (tDetails w)
  /\ errorLog w1 = errorLog w0
  /\ reactions w1 = reactions w ++ [RenderAfterResourceLoading]
  /\ loadingState (tDetails w1) = IN_PROGRESS
  /\ (exists pl, pendingLoad w1 = Some pl
                 /\ awaitsDependencies pl
                    = match dependenciesFnOf w with Some _ => true | None => false end).
Proof.
  intros S L w0 w1. subst w0 w1. unfold triggerDeferBlock. rewrite S. cbn.
  destruct (invokeAllTriggerCleanupFns_frame w) as (E & T & _).
  destruct (invokeAllTriggerCleanupFns_log w) as (_ & Re).
  set (wc := invokeAllTriggerCleanupFns w) in *. rewrite T, L.
  destruct (renderDeferBlockState_frame Loading false now wc)
    as (E0 & T0 & _ & _ & _ & Re0 & _).
  set (w0 := renderDeferBlockState Loading false now wc) in *.
  assert (L0 : loadingState (tDetails w0) = NOT_STARTED) by congruence.
  destruct (triggerResourceLoading_starts w0 L0) as (A1 & (pl & A2 & A3) & A4 & A5 & A6).
  pose proof (triggerResourceLoading_renderFrame w0) as F.
  pose proof (triggerResourceLoading_reactions w0) as Rb.
  set (wb := fst (triggerResourceLoading w0)) in *. rewrite A1.
  unfold renderDeferStateAfterResourceLoading.
  destruct (loadingPromise (tDetails wb)) as [q|]; [|now elim A4].
  split; [eapply renderFrame_trans; [exact F | now destruct wb]|].
  split; [transitivity (staticConfig (tDetails wb)); [now destruct wb | congruence]|].
  split; [transitivity (errorLog wb); [now destruct wb | exact A6]|].
  split; [transitivity (reactions wb ++ [RenderAfterResourceLoading]);
            [now destruct wb | congruence]|].
  split; [transitivity (loadingState (tDetails wb)); [now destruct wb | exact A1]|].
  exists pl. split; [transitivity (pendingLoad wb); [now destruct wb | exact A2]|].
  rewrite A3. unfold dependenciesFnOf. now rewrite E0, T0, E, T.
Qed.

(** The loading promise of a block that was triggered once settles. *)
Lemma settle_triggered results now w pl :
  pendingLoad w = Some pl ->
  reactions w = [RenderAfterResourceLoading] ->
  let wc := if awaitsDependencies pl
            then onDependenciesSettled (pendingTask pl) results (set_pendingLoad None w)
            else onNoDependencies (pendingTask pl) (set_pendingLoad None w) in
  exists x,
    renderFrame w x /\ tDetails x = tDetails wc /\ errorLog x = errorLog wc
    /\ settle results now w
       = match loadingState (tDetails x) with
         | COMPLETE => renderDeferBlockState Complete false now x
         | FAILED => renderDeferBlockState Error false now x
         | _ => x
         end.
Proof.
  intros P R wc. unfold settle. rewrite P. fold wc.
  pose proof (loadingCallback_renderFrame pl results (set_pendingLoad None w)) as F.
  destruct (loadingCallback_loading pl results (set_pendingLoad None w))
    as (_ & _ & _ & _ & _ & _ & _ & Re).
  fold wc in F, Re.
  exists (set_reactions [] (set_fulfilled (pendingPromise pl :: fulfilled wc) wc)).
  split; [|split; [now destruct wc | split; [now destruct wc|]]].
  - apply renderFrame_trans with (set_pendingLoad None w); [now destruct w|].
    eapply renderFrame_trans; [exact F | now destruct wc].
  - replace (reactions (set_fulfilled (pendingPromise pl :: fulfilled wc) wc))
      with (reactions wc) by now destruct wc.
    rewrite Re. replace (reactions (set_pendingLoad None w)) with (reactions w)
      by now destruct w.
    rewrite R. reflexivity.
Qed.

Lemma templatesOf_tl w w' :
  tl (lContainer w') = tl (lContainer w) -> tl (templatesOf w') = tl (templatesOf w).
Proof.
  unfold templatesOf. destruct (lContainer w'), (lContainer w); cbn; intros H;
    subst; reflexivity.
Qed.

(** X10. From the trigger to the content, without timers. Where blocks are
    triggered (in a browser, with a behaviour that is not manual), a block
    that is not destroyed, whose dependencies were not requested and on whose
    loading promise no reaction waits, that shows nothing or its placeholder
    with nothing buffered, that needs no timer and whose views can be
    created, is triggered and its loading promise settles. After the
    trigger the load is in progress and the loading view is shown, if there
    is a loading template (otherwise what is shown stays). After the
    settling: when the block has no dependency function or no dependency was
    rejected, the primary content is shown and nothing is reported; when a
    dependency was rejected, the error view is shown if there is an error
    template, and otherwise what is shown stays and a loading-failed error
    goes to the error handler. *)
Theorem trigger_then_settle (w : World) (t0 t1 : Z) (results : list PromiseSettledResult) :
  shouldTriggerDeferBlock (env w) = true ->
  (forall i, renderThrows (env w) i = false) ->
  hostDestroyed w = false ->
  loadingState (tDetails w) = NOT_STARTED ->
  reactions w = [] ->
  needsScheduling false w = false ->
  DEFER_BLOCK_STATE (lDetails w) = Initial
  \/ DEFER_BLOCK_STATE (lDetails w) = Rendered Placeholder ->
  NEXT_DEFER_BLOCK_STATE (lDetails w) = None ->
  let w1 := triggerDeferBlock t0 w in
  let w2 := settle results t1 w1 in
  loadingState (tDetails w1) = IN_PROGRESS
  /\ match loadingTmplIndex (tDetails w) with
     | Some i => visible w1 = (Rendered Loading, mkView i None :: tl (lContainer w))
     | None => visible w1 = visible w
     end
  /\ (dependenciesFnOf w = None \/ ~ In Rejected results ->
        DEFER_BLOCK_STATE (lDetails w2) = Rendered Complete
        /\ templatesOf w2 = primaryTmplIndex (tDetails w) :: tl (templatesOf w)
        /\ errorLog w2 = errorLog w)
  /\ (dependenciesFnOf w <> None -> In Rejected results ->
        match errorTmplIndex (tDetails w) with
        | Some j => visible w2 = (Rendered Error, mkView j None :: tl (lContainer w))
                    /\ errorLog w2 = errorLog w
        | None => visible w2 = visible w1
                  /\ errorLog w2 = errorLog w ++ [Handled (RuntimeError DEFER_LOADING_FAILED)]
        end).
Proof.
  intros S T D L Re N St Nx w1 w2.
  (* the clean-up functions *)
  destruct (invokeAllTriggerCleanupFns_frame w) as (E & Td & Dc & Cc & Sc & Nc & _).
  destruct (invokeAllTriggerCleanupFns_log w) as (Lc & _).
  set (wc := invokeAllTriggerCleanupFns w) in *.
  assert (Ncs : needsScheduling false wc = false)
    by (rewrite (needsScheduling_static false w wc); [exact N | congruence..]).
  assert (Vc : validChange Loading wc = true).
  { unfold validChange, nextOrMinusOne, isValidStateChange. rewrite Sc, Nc, Nx.
    destruct St as [-> | ->]; reflexivity. }
  (* the request for the loading view *)
  set (w0 := renderDeferBlockState Loading false t0 wc).
  assert (R0 : staticConfig (tDetails w0) = staticConfig (tDetails w)
               /\ env w0 = env w /\ hostDestroyed w0 = false
               /\ NEXT_DEFER_BLOCK_STATE (lDetails w0) = None
               /\ errorLog w0 = errorLog w
               /\ rank w0 <= stateValue Loading
               /\ tl (lContainer w0) = tl (lContainer w)
               /\ match loadingTmplIndex (tDetails w) with
                  | Some i => visible w0 = (Rendered Loading, mkView i None :: tl (lContainer w))
                  | None => visible w0 = visible w
                  end).
  { destruct (renderDeferBlockState_frame Loading false t0 wc) as (E0 & T0 & D0 & _).
    fold w0 in E0, T0, D0.
    split; [congruence|]. split; [congruence|]. split; [congruence|].
    destruct (loadingTmplIndex (tDetails w)) as [i|] eqn:Li.
    - assert (Tc : getTemplateIndexForState Loading (tDetails wc) = Some i)
        by (cbn; now rewrite Td).
      assert (Thc : renderThrows (env wc) i = false) by (rewrite E; apply T).
      assert (Dfc : hostDestroyed wc = false) by congruence.
      destruct (renderDeferBlockState_mounts Loading false t0 wc i Ncs Dfc Vc Tc Thc)
        as (M1 & _ & M3 & M4 & M5).
      fold w0 in M1, M3, M4, M5. specialize (M5 ltac:(discriminate)).
      split; [congruence|]. split; [congruence|].
      split; [unfold rank; rewrite M1; cbn; lia|].
      split; [rewrite M5, Cc; reflexivity|].
      unfold visible. now rewrite M1, M5, Cc.
    - assert (W : w0 = wc).
      { apply renderDeferBlockState_no_template; [exact Ncs|]. cbn. now rewrite Td. }
      rewrite W. split; [congruence|]. split; [congruence|].
      split; [unfold rank; rewrite Sc; destruct St as [-> | ->]; cbn; lia|].
      split; [now rewrite Cc|]. unfold visible. now rewrite Sc, Cc. }
  destruct R0 as (Sf0 & E0 & D0 & N0 & L0 & Rk0 & Tl0 & V0).
  (* the trigger *)
  destruct (triggerDeferBlock_starts t0 w S L)
    as (F1 & Sf1 & L1 & Re1 & P1 & (pl & Pl1 & Aw)).
  fold wc w0 w1 in F1, Sf1, L1, Re1, P1, Pl1.
  rewrite Re in Re1. cbn in Re1.
  pose proof F1 as (V1 & N1 & _ & _ & E1 & D1).
  assert (Vis1 : match loadingTmplIndex (tDetails w) with
                 | Some i => visible w1 = (Rendered Loading, mkView i None :: tl (lContainer w))
                 | None => visible w1 = visible w
                 end)
    by (destruct (loadingTmplIndex (tDetails w)); congruence).
  split; [exact P1|]. split; [exact Vis1|].
  (* the settling *)
  destruct (settle_triggered results t1 w1 pl Pl1 Re1) as (x & Fx & Tx & Lx & Sx).
  fold w2 in Sx.
  destruct (loadingCallback_outcome pl results (set_pendingLoad None w1))
    as (O1 & _ & O3 & O4).
  set (wd := if awaitsDependencies pl then _ else _) in *.
  assert (Sfx : staticConfig (tDetails x) = staticConfig (tDetails w)).
  { rewrite Tx, O1. transitivity (staticConfig (tDetails w1)); [now destruct w1 | exact Sf1]. }
  pose proof Fx as (Vx & Nxx & _ & _ & Ex & Dx).
  apply visible_inv in Vx as [Stx Cx]. apply visible_inv in V1 as [St1 C1].
  assert (Nsx : needsScheduling false x = false).
  { rewrite (needsScheduling_static false w x); [exact N | congruence..]. }
  assert (Dfx : hostDestroyed x = false) by congruence.
  assert (Thx : forall i, renderThrows (env x) i = false)
    by (intros i; rewrite Ex, E1, E0; apply T).
  assert (Vax : forall s, stateValue Loading < stateValue s -> validChange s x = true).
  { intros s Hs. unfold validChange, nextOrMinusOne, isValidStateChange.
    rewrite Stx, St1, Nxx, N1, N0. unfold rank in Rk0.
    apply andb_true_iff. split; apply Z.ltb_lt; cbn in *; lia. }
  assert (Tlx : tl (lContainer x) = tl (lContainer w)) by congruence.
  assert (Lw1 : errorLog (set_pendingLoad None w1) = errorLog w) by
    (transitivity (errorLog w1); [now destruct w1 | congruence]).
  assert (Er1 : errorTmplIndex (tDetails (set_pendingLoad None w1)) = errorTmplIndex (tDetails w)).
  { transitivity (errorTmplIndex (tDetails w1)); [now destruct w1|].
    unfold staticConfig in Sf1. congruence. }
  split.
  - intros Ok. destruct O3 as [O3 O3'].
    { destruct Ok as [Ok|Ok]; [left | now right]. rewrite Aw, Ok. reflexivity. }
    rewrite <- Tx in O3. rewrite O3 in Sx.
    assert (Tp : getTemplateIndexForState Complete (tDetails x)
                 = Some (primaryTmplIndex (tDetails w)))
      by (cbn; unfold staticConfig in Sfx; congruence).
    destruct (renderDeferBlockState_mounts Complete false t1 x (primaryTmplIndex (tDetails w))
                Nsx Dfx (Vax Complete ltac:(cbn; lia)) Tp (Thx _))
      as (M1 & M2 & M3 & _).
    rewrite <- Sx in M1, M2, M3.
    split; [exact M1|]. split; [|congruence].
    rewrite M2. f_equal. now apply templatesOf_tl.
  - intros Fn Rej. destruct O4 as [O4 O4']; [|exact Rej|].
    { rewrite Aw. destruct (dependenciesFnOf w); [reflexivity | now elim Fn]. }
    rewrite <- Tx in O4. rewrite O4 in Sx. rewrite Er1 in O4'.
    destruct (errorTmplIndex (tDetails w)) as [j|] eqn:Ej.
    + assert (Te : getTemplateIndexForState Error (tDetails x) = Some j)
        by (cbn; unfold staticConfig in Sfx; congruence).
      destruct (renderDeferBlockState_mounts Error false t1 x j
                  Nsx Dfx (Vax Error ltac:(cbn; lia)) Te (Thx _))
        as (M1 & _ & M3 & _ & M5).
      rewrite <- Sx in M1, M3, M5. specialize (M5 ltac:(discriminate)).
      split; [unfold visible; now rewrite M1, M5, Tlx|].
      rewrite M3, Lx, O4', Lw1. apply app_nil_r.
    + assert (W : w2 = x).
      { rewrite Sx. apply renderDeferBlockState_no_template; [exact Nsx|].
        cbn. unfold staticConfig in Sfx. congruence. }
      rewrite W. split; [unfold visible; congruence|].
      now rewrite Lx, O4', Lw1.
Qed.

Lemma trigger_then_settle_witness :
  let w := renderPlaceholder 0 (fullBlock browser) in
  let w2 := settle [Fulfilled someComponent; Fulfilled somePipe] 9 (triggerDeferBlock 5 w) in
  visible w = (Rendered Placeholder, [mkView 2%nat None])
  /\ DEFER_BLOCK_STATE (lDetails w2) = Rendered Complete
  /\ templatesOf w2 = [0%nat]
  /\ errorLog w2 = [].
Proof.
  split; [vm_compute; reflexivity|].
  destruct (trigger_then_settle (renderPlaceholder 0 (fullBlock browser)) 5 9
              [Fulfilled someComponent; Fulfilled somePipe]) as (_ & _ & H & _);
    [vm_compute; reflexivity | intros i; vm_compute; reflexivity | vm_compute; reflexivity
    | vm_compute; reflexivity | vm_compute; reflexivity | vm_compute; reflexivity
    | right; vm_compute; reflexivity | vm_compute; reflexivity |].
  apply H. right. intros [H'|[H'|[]]]; discriminate.
Defined.

(** *** The minimum duration *)

(** X11. In a host view that is not destroyed, while the state is frozen
    (the minimum duration of the placeholder or of the loading view is
    running), an accepted request that goes through the implementation with
    timers, whatever its state, is only buffered: the instance is as it
    was but for the buffered state, so nothing visible changes and no timer
    is armed. When the callback of the timer runs, the freeze and the buffer
    are cleared and the state is requested again; it is then rendered, if it
    has a template and, for [Loading], no [after] delay is configured. *)
Theorem frozen_state_is_buffered newState now later w :
  hostDestroyed w = false ->
  applyDeferBlockStateWithSchedulingImpl (env w) = true ->
  needsScheduling false w = true ->
  frozenAt now w = true ->
  validChange newState w = true ->
  let w1 := renderDeferBlockState newState false now w in
  let w2 := deferBlockUpdateCallback later w1 in
  w1 = set_lDetails (l_NEXT_DEFER_BLOCK_STATE (Some newState) (lDetails w)) w
  /\ visible w1 = visible w
  /\ scheduled w1 = scheduled w
  /\ NEXT_DEFER_BLOCK_STATE (lDetails w1) = Some newState
  /\ w2 = renderDeferBlockState newState false later
            (set_lDetails
               (l_NEXT_DEFER_BLOCK_STATE None (l_STATE_IS_FROZEN_UNTIL None (lDetails w))) w)
  /\ (forall i, getTemplateIndexForState newState (tDetails w) = Some i ->
        (newState = Loading -> getLoadingBlockAfter (tDetails w) = None) ->
        DEFER_BLOCK_STATE (lDetails w2) = Rendered newState
        /\ (renderThrows (env w) i = false -> newState <> Complete ->
              lContainer w2 = mkView i None :: tl (lContainer w))).
Proof.
  intros D I N F V w1 w2.
  assert (E1 : w1 = set_lDetails (l_NEXT_DEFER_BLOCK_STATE (Some newState) (lDetails w)) w).
  { subst w1. rewrite (renderDeferBlockState_scheduled _ _ _ D V N I).
    unfold applyDeferBlockStateWithScheduling. unfold frozenAt in F.
    destruct (STATE_IS_FROZEN_UNTIL (lDetails w)) as [t|]; [|discriminate].
    apply negb_true_iff in F. now rewrite F. }
  split; [exact E1|]. split; [rewrite E1; now destruct w|].
  split; [rewrite E1; now destruct w|].
  split; [rewrite E1; now open_instance w|].
  assert (E2 : w2 = renderDeferBlockState newState false later
                      (set_lDetails
                         (l_NEXT_DEFER_BLOCK_STATE None
                            (l_STATE_IS_FROZEN_UNTIL None (lDetails w))) w)).
  { subst w2. unfold deferBlockUpdateCallback. rewrite E1. now open_instance w. }
  split; [exact E2|].
  intros i T A. rewrite E2.
  set (w0 := set_lDetails _ _).
  assert (E0 : env w0 = env w) by (subst w0; now destruct w).
  assert (T0 : tDetails w0 = tDetails w) by (subst w0; now destruct w).
  assert (C0 : lContainer w0 = lContainer w) by (subst w0; now destruct w).
  destruct (renderDeferBlockState_applied_at_once newState later w0 i) as [M1 M2].
  - right. split; [now rewrite E0|]. split; [subst w0; now open_instance w|].
    now rewrite T0.
  - subst w0. now destruct w.
  - unfold validChange, isValidStateChange, nextOrMinusOne in *.
    apply andb_true_iff in V as [V _]. apply andb_true_iff. split.
    + subst w0. revert V. clear. now open_instance w.
    + replace (NEXT_DEFER_BLOCK_STATE (lDetails w0)) with (@None DeferBlockState)
        by (subst w0; now open_instance w).
      apply Z.ltb_lt. pose proof (stateValue_bounds newState). lia.
  - now rewrite T0.
  - split; [exact M1|]. rewrite <- C0, <- E0. exact M2.
Qed.

Lemma frozen_state_is_buffered_witness :
  let w := renderPlaceholder 0 minimumAndAfterBlock in
  let w1 := renderDeferBlockState Complete false 50 w in
  let w1' := renderDeferBlockState Loading false 50 w in
  frozenAt 50 w = true
  /\ visible w1 = visible w
  /\ DEFER_BLOCK_STATE (lDetails (deferBlockUpdateCallback 100 w1)) = Rendered Complete
  /\ visible w1' = visible w
  /\ NEXT_DEFER_BLOCK_STATE (lDetails w1') = Some Loading.
Proof.
  split; [vm_compute; reflexivity|].
  destruct (frozen_state_is_buffered Complete 50 100 (renderPlaceholder 0 minimumAndAfterBlock))
    as (_ & H1 & _ & _ & _ & H2); try (vm_compute; reflexivity).
  destruct (frozen_state_is_buffered Loading 50 100 (renderPlaceholder 0 minimumAndAfterBlock))
    as (_ & K1 & _ & K2 & _); try (vm_compute; reflexivity).
  destruct (H2 0%nat eq_refl ltac:(discriminate)) as [H3 _].
  split; [exact H1 | split; [exact H3 | split; [exact K1 | exact K2]]].
Defined.

(** *** A view that cannot be created *)

(** X12. When the creation of the view throws, the exception does not leave
    [renderDeferBlockState]: it goes to the error handler. This holds for
    every accepted request that reaches [applyDeferBlockState], directly or
    through [applyDeferBlockStateWithScheduling]. The state was stored and
    the old view removed before, so the container is left without a view,
    and a later request for the same state is refused: the view is not
    created again. *)
Theorem failed_view_creation_is_handled newState skip now w i :
  hostDestroyed w = false ->
  validChange newState w = true ->
  reachesApply newState skip now w ->
  getTemplateIndexForState newState (tDetails w) = Some i ->
  renderThrows (env w) i = true ->
  let w' := renderDeferBlockState newState skip now w in
  DEFER_BLOCK_STATE (lDetails w') = Rendered newState
  /\ lContainer w' = tl (lContainer w)
  /\ errorLog w' = errorLog w ++ [Handled (ViewError i)]
  /\ (forall skip' later, renderDeferBlockState newState skip' later w' = w').
Proof.
  intros D V A T R w'.
  assert (E : DEFER_BLOCK_STATE (lDetails w') = Rendered newState
              /\ lContainer w' = tl (lContainer w)
              /\ errorLog w' = errorLog w ++ [Handled (ViewError i)]).
  { subst w'. unfold renderDeferBlockState. rewrite D, V.
    destruct A as [N|(I & F & A)].
    - rewrite N. unfold applyDeferBlockState, handleError, removeLViewFromLContainer.
      rewrite T. clear N V. open_instance w. cbn in *. rewrite R. cbn.
      destruct lContainer0; repeat split.
    - destruct (needsScheduling skip w).
      + rewrite I. unfold applyDeferBlockStateWithScheduling, frozenAt in *.
        assert (Fz : match STATE_IS_FROZEN_UNTIL (lDetails w) with
                     | Some t => t <=? now
                     | None => true
                     end = true).
        { destruct (STATE_IS_FROZEN_UNTIL (lDetails w));
            [now apply negb_false_iff in F | reflexivity]. }
        rewrite Fz.
        unfold applyDeferBlockState, handleError, removeLViewFromLContainer, runCleanupFn.
        clear V F Fz. 
        destruct newState; [clear A | specialize (A eq_refl) | clear A | clear A];
          open_instance w; cbn in *; 
          try (destruct A as [A|A]; [rewrite A | destruct LOADING_AFTER_CLEANUP_FN0; [|now elim A]]);
          break_all_inner; cbn in *; try congruence;
          try (destruct lContainer0; repeat split; fail).
        all: repeat split; congruence.
      + unfold applyDeferBlockState, handleError, removeLViewFromLContainer.
        rewrite T. clear V. open_instance w. cbn in *. rewrite R. cbn.
        destruct lContainer0; repeat split. }
  destruct E as (E1 & E2 & E3).
  split; [exact E1|]. split; [exact E2|]. split; [exact E3|].
  intros skip' later. apply renderDeferBlockState_invalid.
  unfold validChange, isValidStateChange. apply andb_false_iff. left.
  apply Z.ltb_ge. rewrite E1. cbn. lia.
Qed.

(** A loading view that cannot be created, in a block without timers and in
    a block with the minimum duration of the placeholder over. *)
Lemma failed_view_creation_is_handled_witness :
  let e := mkEnv true None false (fun i => Nat.eqb i 1) (fun _ => []) None in
  let w := ɵɵdefer e 0%nat (Some 7%nat) (Some 1%nat) (Some 2%nat) (Some 3%nat) None None false in
  let w' := renderDeferBlockState Loading false 0 w in
  let v := ɵɵdefer e 0%nat (Some 7%nat) (Some 1%nat) (Some 2%nat) (Some 3%nat) None
             (Some (mkPlaceholderConfig (Some 100))) true in
  let v' := renderDeferBlockState Loading false 150 (renderPlaceholder 0 v) in
  (DEFER_BLOCK_STATE (lDetails w') = Rendered Loading
   /\ lContainer w' = []
   /\ errorLog w' = [Handled (ViewError 1)])
  /\ (needsScheduling false (renderPlaceholder 0 v) = true
      /\ DEFER_BLOCK_STATE (lDetails v') = Rendered Loading
      /\ lContainer v' = []
      /\ errorLog v' = [Handled (ViewError 1)]).
Proof.
  split.
  - destruct (failed_view_creation_is_handled Loading false 0
                (ɵɵdefer (mkEnv true None false (fun i => Nat.eqb i 1) (fun _ => []) None)
                   0%nat (Some 7%nat) (Some 1%nat) (Some 2%nat) (Some 3%nat) None None false)
                1%nat) as (H1 & H2 & H3 & _);
      try (vm_compute; reflexivity); [left; vm_compute; reflexivity|].
    split; [exact H1 | split; [exact H2 | exact H3]].
  - split; [vm_compute; reflexivity|].
    destruct (failed_view_creation_is_handled Loading false 150
                (renderPlaceholder 0
                   (ɵɵdefer (mkEnv true None false (fun i => Nat.eqb i 1) (fun _ => []) None)
                      0%nat (Some 7%nat) (Some 1%nat) (Some 2%nat) (Some 3%nat) None
                      (Some (mkPlaceholderConfig (Some 100))) true))
                1%nat) as (H1 & H2 & H3 & _);
      try (vm_compute; reflexivity).
    + right. split; [vm_compute; reflexivity|]. split; [vm_compute; reflexivity|].
      intros _. left. vm_compute. reflexivity.
    + split; [exact H1 | split; [exact H2 | exact H3]].
Defined.

(** *** What a load registers *)

Lemma collectDependencies_closed results : forall ds ps,
  collectDependencies results ds ps
  = (existsb (fun r => match r with Rejected => true | _ => false end) results,
     (ds ++ directiveDefsOf (beforeRejection results))%list,
     (ps ++ pipeDefsOf (beforeRejection results))%list).
Proof.
  induction results as [|[d|] rest IH]; intros ds ps; cbn.
  - now rewrite !app_nil_r.
  - unfold directiveDefsOf, pipeDefsOf, directiveDefOf in *. cbn.
    destruct (getComponentDef d) as [c|]; [|destruct (getDirectiveDef d) as [c|];
      [|destruct (getPipeDef d) as [q|]]]; rewrite IH; cbn;
      rewrite <- ?app_assoc; reflexivity.
  - now rewrite !app_nil_r.
Qed.

Lemma beforeRejection_all results :
  ~ In Rejected results -> map Fulfilled (beforeRejection results) = results.
Proof.
  induction results as [|[d|] rest IH]; cbn; intros H; [reflexivity | |tauto].
  rewrite IH; [reflexivity | tauto].
Qed.

(** X13. What a load that succeeded hands to the registries. When no
    dependency was rejected, every result is a loaded class, and with the
    directive definitions of these classes (the component definition of a
    class, or else its directive definition) in the order of the results:
    if there is one, the directive registry becomes what
    [addDepsToRegistry] makes of the registry and these definitions, and the
    providers of the block become those imported from their types; with the
    pipe definitions of the classes that have no directive definition, in
    the order of the results: if there is one, the pipe registry becomes
    what [addDepsToRegistry] makes of the registry and these definitions.
    A registry for which nothing was loaded is left as it is
    ([addDepsToRegistry] is not called), and so are the providers when no
    directive was loaded. The loading promise is dropped and the pending
    task removed. What [addDepsToRegistry] makes of its two lists is not
    part of the statement. *)
Theorem loaded_dependencies_are_registered taskId results w :
  ~ In Rejected results ->
  let w' := onDependenciesSettled taskId results w in
  let loaded := beforeRejection results in
  map Fulfilled loaded = results
  /\ directiveRegistry w'
     = match directiveDefsOf loaded with
       | [] => directiveRegistry w
       | defs => addDepsToRegistry (directiveRegistry w) defs
       end
  /\ providers (tDetails w')
     = match directiveDefsOf loaded with
       | [] => providers (tDetails w)
       | defs => Some (internalImportProvidersFrom (env w) (map defType defs))
       end
  /\ pipeRegistry w'
     = match pipeDefsOf loaded with
       | [] => pipeRegistry w
       | defs => addDepsToRegistry (pipeRegistry w) defs
       end
  /\ loadingPromise (tDetails w') = None
  /\ pendingTasks w' = filter (fun t => negb (Nat.eqb t taskId)) (pendingTasks w).
Proof.
  intros H w' loaded. split; [now apply beforeRejection_all|].
  subst w'. unfold onDependenciesSettled.
  rewrite collectDependencies_closed. cbn [app].
  assert (E : existsb (fun r => match r with Rejected => true | _ => false end) results = false).
  { apply not_true_is_false. intros Hx. apply existsb_exists in Hx as (r & Hr & Hx).
    destruct r; [discriminate | contradiction]. }
  rewrite E. fold loaded.
  destruct (directiveDefsOf loaded) as [|d ds], (pipeDefsOf loaded) as [|q qs];
    cbn; destruct w; cbn; repeat split.
Qed.

Lemma loaded_dependencies_are_registered_witness :
  let w := fst (triggerResourceLoading (fullBlock browser)) in
  let w' := onDependenciesSettled 0 [Fulfilled someComponent; Fulfilled somePipe] w in
  directiveRegistry w' = addDepsToRegistry (directiveRegistry w) [mkDef 11%nat]
  /\ pipeRegistry w' = addDepsToRegistry (pipeRegistry w) [mkDef 12%nat]
  /\ providers (tDetails w') = Some []
  /\ pendingTasks w' = [].
Proof.
  destruct (loaded_dependencies_are_registered 0 [Fulfilled someComponent; Fulfilled somePipe]
              (fst (triggerResourceLoading (fullBlock browser))))
    as (_ & H1 & H2 & H3 & _ & H5).
  - intros [H|[H|[]]]; discriminate.
  - split; [exact H1 | split; [exact H3 | split; [exact H2 | exact H5]]].
Defined.

(** *** While the state is frozen *)

Lemma renderDeferBlockState_frozen newState now until w :
  frozenUntil until w -> now < until ->
  renderDeferBlockState newState false now w = w
  \/ renderDeferBlockState newState false now w
     = set_lDetails (l_NEXT_DEFER_BLOCK_STATE (Some newState) (lDetails w)) w.
Proof.
  intros (F & N & I) H. unfold renderDeferBlockState.
  destruct (hostDestroyed w); [now left|].
  destruct (validChange newState w); [|now left].
  rewrite N, I. unfold applyDeferBlockStateWithScheduling. rewrite F.
  destruct (Z.leb_spec until now); [lia|]. now right.
Qed.

Lemma stillFrozen_frame until w0 w w' :
  renderFrame w w' -> staticConfig (tDetails w') = staticConfig (tDetails w) ->
  stillFrozen until w0 w -> stillFrozen until w0 w'.
Proof.
  intros (V & _ & F & _ & E & _) S (V0 & F0 & N0 & I0).
  unfold stillFrozen, frozenUntil.
  rewrite V, F, E, (needsScheduling_static false w w' E S). auto.
Qed.

Lemma stillFrozen_render until w0 newState now w :
  now < until -> stillFrozen until w0 w ->
  stillFrozen until w0 (renderDeferBlockState newState false now w).
Proof.
  intros H (V0 & Fz). pose proof Fz as (F0 & N0 & I0).
  destruct (renderDeferBlockState_frozen newState now until w Fz H) as [-> | ->];
    [now split|].
  unfold stillFrozen, frozenUntil.
  replace (visible (set_lDetails (l_NEXT_DEFER_BLOCK_STATE (Some newState) (lDetails w)) w))
    with (visible w) by now open_instance w.
  replace (needsScheduling false
             (set_lDetails (l_NEXT_DEFER_BLOCK_STATE (Some newState) (lDetails w)) w))
    with (needsScheduling false w) by now destruct w.
  split; [exact V0|]. split; [rewrite <- F0; now open_instance w|].
  split; [exact N0 | rewrite <- I0; now destruct w].
Qed.

Lemma triggerResourceLoading_static w :
  staticConfig (tDetails (fst (triggerResourceLoading w))) = staticConfig (tDetails w).
Proof.
  destruct (loadingState (tDetails w)) eqn:S.
  - now apply triggerResourceLoading_starts.
  - unfold triggerResourceLoading. rewrite S.
    destruct (loadingPromise (tDetails w)); now destruct w.
  - unfold triggerResourceLoading. rewrite S.
    destruct (loadingPromise (tDetails w)); now destruct w.
  - unfold triggerResourceLoading. rewrite S.
    destruct (loadingPromise (tDetails w)); now destruct w.
Qed.

Lemma stillFrozen_load until w0 w :
  stillFrozen until w0 w -> stillFrozen until w0 (fst (triggerResourceLoading w)).
Proof.
  apply stillFrozen_frame;
    [apply triggerResourceLoading_renderFrame | apply triggerResourceLoading_static].
Qed.

Lemma stillFrozen_cleanup until w0 w :
  stillFrozen until w0 w -> stillFrozen until w0 (invokeAllTriggerCleanupFns w).
Proof.
  apply stillFrozen_frame; [apply invokeAllTriggerCleanupFns_renderFrame|].
  destruct (invokeAllTriggerCleanupFns_frame w) as (_ & T & _). now rewrite T.
Qed.

Lemma stillFrozen_chain until w0 w :
  stillFrozen until w0 w -> stillFrozen until w0 (renderDeferStateAfterResourceLoading w).
Proof.
  apply stillFrozen_frame; [apply renderDeferStateAfterResourceLoading_renderFrame|].
  unfold renderDeferStateAfterResourceLoading.
  destruct (loadingPromise (tDetails w)); now destruct w.
Qed.

Lemma stillFrozen_schedule until w0 type fn cb now w :
  stillFrozen until w0 w ->
  stillFrozen until w0 (let (w2, c) := callScheduleFn fn cb now w in
                        storeTriggerCleanupFn type c w2).
Proof.
  pose proof (callScheduleFn_renderFrame fn cb now w) as F.
  pose proof (callScheduleFn_loadFrame fn cb now w) as (T & _).
  destruct (callScheduleFn fn cb now w) as [w2 c]. cbn in F, T.
  apply stillFrozen_frame.
  - eapply renderFrame_trans; [exact F | apply storeTriggerCleanupFn_renderFrame].
  - destruct (storeTriggerCleanupFn_loadFrame type c w2) as (T2 & _). now rewrite T2, T.
Qed.

Lemma stillFrozen_triggerDeferBlock until w0 now w :
  now < until -> stillFrozen until w0 w -> stillFrozen until w0 (triggerDeferBlock now w).
Proof.
  intros H I. unfold triggerDeferBlock.
  destruct (negb (shouldTriggerDeferBlock (env w))); [exact I|].
  apply stillFrozen_cleanup in I. set (w1 := invokeAllTriggerCleanupFns w) in *.
  destruct (loadingState (tDetails w1)); try (now apply stillFrozen_render).
  - apply (stillFrozen_render until w0 Loading now w1 H) in I.
    apply stillFrozen_load in I.
    destruct (loadingState (tDetails (fst (triggerResourceLoading _)))); auto.
    now apply stillFrozen_chain.
  - now apply stillFrozen_chain, stillFrozen_render.
Qed.

Lemma stillFrozen_triggerPrefetching until w0 w :
  stillFrozen until w0 w -> stillFrozen until w0 (triggerPrefetching w).
Proof.
  intros I. unfold triggerPrefetching.
  destruct (shouldTriggerDeferBlock (env w)); [now apply stillFrozen_load | exact I].
Qed.

Lemma stillFrozen_settle until w0 results now w :
  now < until -> stillFrozen until w0 w -> stillFrozen until w0 (settle results now w).
Proof.
  intros H I. unfold settle. destruct (pendingLoad w) as [pl|]; [|exact I].
  pose proof (loadingCallback_renderFrame pl results (set_pendingLoad None w)) as F.
  destruct (loadingCallback_outcome pl results (set_pendingLoad None w)) as (S & _).
  set (w2 := if awaitsDependencies pl then _ else _) in *.
  assert (I3 : stillFrozen until w0
                 (set_reactions [] (set_fulfilled (pendingPromise pl :: fulfilled w2) w2))).
  { revert I. apply stillFrozen_frame.
    - apply renderFrame_trans with (set_pendingLoad None w); [now destruct w|].
      eapply renderFrame_trans; [exact F | now destruct w2].
    - transitivity (staticConfig (tDetails w2)); [now destruct w2|].
      rewrite S. now destruct w. }
  revert I3. generalize (set_reactions [] (set_fulfilled (pendingPromise pl :: fulfilled w2) w2)).
  generalize (reactions (set_fulfilled (pendingPromise pl :: fulfilled w2) w2)).
  intros rs. induction rs as [|r rs IH]; intros x Ix; cbn; [exact Ix|].
  apply IH. destruct r; cbn. destruct (loadingState (tDetails x)); auto;
    now apply stillFrozen_render.
Qed.

Lemma handle_stillFrozen until w0 now e w :
  now < until -> respectsFreeze w e = true ->
  stillFrozen until w0 w -> stillFrozen until w0 (handle now e w).
Proof.
  intros H Q I.
  assert (Set1 : forall w', renderFrame w w' -> tDetails w' = tDetails w ->
            stillFrozen until w0 w').
  { intros w' F T. revert I. apply stillFrozen_frame; [exact F | now rewrite T]. }
  destruct e; cbn in *.
  - apply negb_true_iff in Q. subst. now apply stillFrozen_render.
  - unfold fire. unfold updatesState in Q.
    destruct (find _ (scheduled w)) as [s|]; [|exact I].
    assert (I1 : stillFrozen until w0
              (set_scheduled (filter (fun s => negb (Nat.eqb (schedId s) id)) (scheduled w)) w))
      by (apply Set1; [apply set_scheduled_renderFrame | now destruct w]).
    destruct (callback s); cbn; [discriminate | |].
    + now apply stillFrozen_triggerDeferBlock.
    + now apply stillFrozen_triggerPrefetching.
  - now apply stillFrozen_settle.
  - unfold ɵɵdeferWhen. destruct (bindingUpdated _ _); [|exact I].
    assert (I1 : stillFrozen until w0 (set_whenBinding (Some rawValue) w))
      by (apply Set1; now destruct w).
    cbv zeta.
    destruct (Boolean rawValue), (DEFER_BLOCK_STATE (lDetails _)) as [|[]];
      try exact I1; try (now apply stillFrozen_triggerDeferBlock);
      now apply stillFrozen_render.
  - unfold ɵɵdeferPrefetchWhen. destruct (bindingUpdated _ _); [|exact I].
    assert (I1 : stillFrozen until w0 (set_prefetchWhenBinding (Some rawValue) w))
      by (apply Set1; now destruct w).
    cbv zeta. destruct (Boolean rawValue); [|exact I1].
    destruct (loadingState (tDetails (set_prefetchWhenBinding (Some rawValue) w))); auto.
    now apply stillFrozen_triggerPrefetching.
  - unfold ɵɵdeferOnIdle, scheduleDelayedTrigger, renderPlaceholder.
    apply (stillFrozen_render until w0 Placeholder now w H) in I.
    destruct (isPlatformBrowser (env _)); [|exact I]. now apply stillFrozen_schedule.
  - unfold ɵɵdeferPrefetchOnIdle, scheduleDelayedPrefetching.
    destruct (isPlatformBrowser (env w)); [|exact I].
    destruct (loadingState (tDetails w)); try exact I;
      now apply stillFrozen_schedule.
  - unfold ɵɵdeferOnTimer, scheduleDelayedTrigger, renderPlaceholder.
    apply (stillFrozen_render until w0 Placeholder now w H) in I.
    destruct (isPlatformBrowser (env _)); [|exact I]. now apply stillFrozen_schedule.
  - unfold ɵɵdeferPrefetchOnTimer, scheduleDelayedPrefetching.
    destruct (isPlatformBrowser (env w)); [|exact I].
    destruct (loadingState (tDetails w)); try exact I;
      now apply stillFrozen_schedule.
  - unfold ɵɵdeferOnImmediate. apply stillFrozen_triggerDeferBlock; [exact H|].
    destruct (_ || _); [now apply stillFrozen_render | exact I].
  - unfold ɵɵdeferPrefetchOnImmediate. destruct (loadingState (tDetails w)); auto.
    now apply stillFrozen_load.
  - now apply stillFrozen_render.
  - now apply stillFrozen_triggerDeferBlock.
  - now apply stillFrozen_triggerPrefetching.
  - now apply stillFrozen_load.
  - unfold destroyView.
    assert (I1 : stillFrozen until w0 (set_hostDestroyed true w)) by exact I.
    destruct (onDestroyRegistered _); [now apply stillFrozen_cleanup | exact I1].
Qed.

Lemma run_stillFrozen until w0 trace : forall w,
  stillFrozen until w0 w -> withinFreeze until trace w = true ->
  stillFrozen until w0 (run trace w).
Proof.
  induction trace as [|[now e] trace IH]; intros w I Q; cbn in *; [exact I|].
  apply andb_true_iff in Q as [Q Q3]. apply andb_true_iff in Q as [Q1 Q2].
  apply Z.ltb_lt in Q1. apply IH; [|exact Q3].
  now apply handle_stillFrozen.
Qed.

(** X21. The minimum duration is kept. While the state is frozen (the
    minimum duration of the placeholder or of the loading view is running,
    with the timers in play), what is shown does not change, whatever
    happens before the end of the freeze: triggers, instructions, the
    settling of the dependencies, the destruction of the view. The
    exceptions are the callback of a state timer and a request that skips
    the timers (the testing API). *)
Theorem minimum_duration_is_kept (until : Z) (trace : list (Z * Event)) (w : World) :
  frozenUntil until w ->
  withinFreeze until trace w = true ->
  visible (run trace w) = visible w.
Proof.
  intros F Q.
  destruct (run_stillFrozen until w trace w) as [V _]; [now split | exact Q | exact V].
Qed.

Lemma minimum_duration_is_kept_witness :
  let w := renderPlaceholder 0 minimumAndAfterBlock in
  let trace := [(10, TriggerBlock); (50, Settle [Fulfilled someComponent]);
                (60, DeferWhen (JBool true)); (70, DeferOnImmediate)] in
  STATE_IS_FROZEN_UNTIL (lDetails w) = Some 100
  /\ visible (run trace w) = (Rendered Placeholder, [mkView 2%nat None]).
Proof.
  split; [vm_compute; reflexivity|].
  rewrite (minimum_duration_is_kept 100
             [(10, TriggerBlock); (50, Settle [Fulfilled someComponent]);
              (60, DeferWhen (JBool true)); (70, DeferOnImmediate)]
             (renderPlaceholder 0 minimumAndAfterBlock)).
  - vm_compute. reflexivity.
  - repeat split; vm_compute; reflexivity.
  - vm_compute. reflexivity.
Defined.

(** *** The dependency function is called once *)

(** The dependency function of the block and the environment stay. *)
Lemma triggerResourceLoading_resolver w :
  dependencyResolverFn (tDetails (fst (triggerResourceLoading w)))
  = dependencyResolverFn (tDetails w)
  /\ env (fst (triggerResourceLoading w)) = env w.
Proof.
  unfold triggerResourceLoading.
  destruct (loadingState (tDetails w)) eqn:E.
  - rewrite invokeTriggerCleanupFns_closed. unfold dependenciesFnOf.
    open_world w. break_all; split; reflexivity.
  - destruct (loadingPromise (tDetails w)); destruct w; split; reflexivity.
  - destruct (loadingPromise (tDetails w)); destruct w; split; reflexivity.
  - destruct (loadingPromise (tDetails w)); destruct w; split; reflexivity.
Qed.

Lemma loadingCallback_resolver (pl : PendingLoad) results w :
  let w' := if awaitsDependencies pl
            then onDependenciesSettled (pendingTask pl) results w
            else onNoDependencies (pendingTask pl) w in
  dependencyResolverFn (tDetails w') = dependencyResolverFn (tDetails w)
  /\ env w' = env w.
Proof.
  destruct (awaitsDependencies pl); cbn.
  - unfold onDependenciesSettled, handleError.
    destruct (collectDependencies results [] []) as [[failed ds] ps].
    open_world w. break_all; split; reflexivity.
  - destruct w; split; reflexivity.
Qed.

Lemma run_resolver trace w :
  dependencyResolverFn (tDetails (run trace w)) = dependencyResolverFn (tDetails w)
  /\ env (run trace w) = env w.
Proof.
  assert (F : forall x x', loadFrame x x' ->
            dependencyResolverFn (tDetails x) = dependencyResolverFn (tDetails w)
            /\ env x = env w ->
            dependencyResolverFn (tDetails x') = dependencyResolverFn (tDetails w)
            /\ env x' = env w).
  { intros x x' (A1 & _ & _ & _ & A5 & _) [B1 B2]. rewrite A1, A5. now split. }
  apply (run_preserves (fun x => dependencyResolverFn (tDetails x)
                                 = dependencyResolverFn (tDetails w)
                                 /\ env x = env w)); [..| now split].
  - intros s skip now x. apply F, renderDeferBlockState_loadFrame.
  - intros id x. apply F, set_scheduled_loadFrame.
  - intros x. apply F. unfold loadFrame. destruct x; cbn; repeat split; lia.
  - intros x [B1 B2]. destruct (triggerResourceLoading_resolver x) as [-> ->]. now split.
  - intros x. apply F, invokeAllTriggerCleanupFns_loadFrame.
  - intros x. apply F, renderDeferStateAfterResourceLoading_loadFrame.
  - intros results now x [B1 B2]. unfold settle.
    destruct (pendingLoad x) as [pl|]; [|now split].
    destruct (loadingCallback_resolver pl results (set_pendingLoad None x)) as [C1 C2].
    set (w2 := if awaitsDependencies pl then _ else _) in *.
    apply (F (set_reactions [] (set_fulfilled (pendingPromise pl :: fulfilled w2) w2)));
      [apply runReactions_loadFrame|].
    replace (reactions (set_fulfilled (pendingPromise pl :: fulfilled w2) w2))
      with (reactions w2) by now destruct w2.
    split.
    + transitivity (dependencyResolverFn (tDetails w2)); [now destruct w2|].
      rewrite C1. transitivity (dependencyResolverFn (tDetails x)); [now destruct x | exact B1].
    + transitivity (env w2); [now destruct w2|].
      rewrite C2. transitivity (env x); [now destruct x | exact B2].
  - intros v x. apply F. unfold loadFrame. destruct x; cbn; repeat split; lia.
  - intros v x. apply F. unfold loadFrame. destruct x; cbn; repeat split; lia.
  - intros fn now x.
    pose proof (callScheduleFn_loadFrame fn TriggerDeferBlock now x) as Fr.
    destruct (callScheduleFn fn TriggerDeferBlock now x) as [w2 c]; cbn in Fr.
    apply F. eapply loadFrame_trans; [exact Fr | apply storeTriggerCleanupFn_loadFrame].
  - intros fn now x.
    pose proof (callScheduleFn_loadFrame fn TriggerPrefetching now x) as Fr.
    destruct (callScheduleFn fn TriggerPrefetching now x) as [w2 c]; cbn in Fr.
    apply F. eapply loadFrame_trans; [exact Fr | apply storeTriggerCleanupFn_loadFrame].
  - intros x. apply F. unfold loadFrame. destruct x; cbn; repeat split; lia.
Qed.

(** C3. Over any sequence of events of a block instance created by
    [ɵɵdefer] with the dependency function [fn], [triggerResourceLoading]
    behaves as follows. When loading has not started, the call sets the
    loading state to [IN_PROGRESS], calls the dependency function of the
    block (or what the interceptor of the development mode puts in its
    place; a block without one has nothing to call) and returns the loading
    promise: the record of calls was empty and now holds that one call.
    While loading is in progress, the loading promise is pending, and a call
    returns that very promise and changes nothing. When loading is over, a
    call returns a new promise that is resolved already, and leaves the
    static details and the record of calls as they are. In all, the
    dependency function is called at most once. *)
Theorem triggerResourceLoading_idempotent
    (e : Env) (primary : nat) (fn : option DependencyResolverFn)
    (l p er : option nat) (lc : option DeferredLoadingBlockConfig)
    (pc : option DeferredPlaceholderBlockConfig) (ts : bool)
    (trace : list (Z * Event)) :
  let w := run trace (ɵɵdefer e primary fn l p er lc pc ts) in
  let w' := fst (triggerResourceLoading w) in
  let promise := snd (triggerResourceLoading w) in
  let called :=
    match dependencyInterceptor e with
    | Some intercept => intercept fn
    | None => fn
    end in
  dependencyResolverFn (tDetails w) = fn
  /\ (List.length (resolverCalls w) <= 1)%nat
  /\ (List.length (resolverCalls w') <= 1)%nat
  /\ (loadingState (tDetails w) = NOT_STARTED ->
        loadingState (tDetails w') = IN_PROGRESS
        /\ loadingPromise (tDetails w') = Some promise
        /\ pendingPromiseIn w' promise
        /\ resolverCalls w = []
        /\ resolverCalls w' = match called with Some f => [f] | None => [] end
        /\ (dependencyInterceptor e = None -> forall f, fn = Some f -> resolverCalls w' = [f])
        /\ triggerResourceLoading w' = (w', promise))
  /\ (loadingState (tDetails w) = IN_PROGRESS ->
        loadingPromise (tDetails w) = Some promise
        /\ pendingPromiseIn w promise
        /\ w' = w)
  /\ (loadingState (tDetails w) = COMPLETE \/ loadingState (tDetails w) = FAILED ->
        In promise (fulfilled w')
        /\ tDetails w' = tDetails w
        /\ resolverCalls w' = resolverCalls w).
Proof.
  intros w w' promise called.
  assert (I : LoadInv w) by apply run_LoadInv, defer_LoadInv.
  assert (I' : LoadInv w') by now apply triggerResourceLoading_LoadInv.
  assert (R : forall x, LoadInv x -> (List.length (resolverCalls x) <= 1)%nat).
  { intros x [H _]. destruct (loadingState (tDetails x));
      try (destruct H as (_ & _ & H); try rewrite H; cbn; lia). now destruct H. }
  destruct (run_resolver trace (ɵɵdefer e primary fn l p er lc pc ts)) as [Rf Re].
  fold w in Rf, Re. cbn in Rf.
  assert (Dn : dependenciesFnOf w = called).
  { unfold dependenciesFnOf. rewrite Re, Rf. reflexivity. }
  split; [exact Rf|].
  split; [now apply R|]. split; [now apply R|]. split; [|split].
  - intros S.
    destruct (triggerResourceLoading_first w S) as (A1 & A2 & (task & k & A3) & A4 & A5 & A6 & _).
    fold w' promise in A1, A2, A3, A4, A5, A6.
    destruct I as [I1 I4]. rewrite S in I1. destruct I1 as (I1 & I2 & I3).
    rewrite I3, Dn in A4. cbn in A4.
    repeat split; auto; try lia.
    + rewrite A5. intros Hin. apply I4 in Hin. lia.
    + intros Ni f Ef. rewrite A4. subst called. now rewrite Ni, Ef.
    + apply triggerResourceLoading_in_flight; [congruence | exact A2].
  - intros S. destruct I as [I1 I4]. rewrite S in I1.
    destruct I1 as [(pl & P1 & P2 & P3 & P4) P5].
    assert (E : triggerResourceLoading w = (w, pendingPromise pl))
      by (apply triggerResourceLoading_in_flight; [congruence | exact P2]).
    subst w' promise. rewrite E. cbn. repeat split; auto.
  - intros S.
    assert (N : loadingState (tDetails w) <> NOT_STARTED) by (destruct S; congruence).
    assert (P : loadingPromise (tDetails w) = None).
    { destruct I as [I1 _]. destruct S as [S|S]; rewrite S in I1; now destruct I1. }
    destruct (triggerResourceLoading_finished w N P) as (B1 & _ & _ & _ & B5 & B6 & _).
    repeat split; auto.
Qed.

(** The first call on a block with the dependency function 7 calls it; then
    the block is triggered, the loading asked for again, the dependencies
    settle, and the loading is asked for once more: still one call, and the
    promise of the last call is resolved. *)
Lemma triggerResourceLoading_idempotent_witness :
  resolverCalls (fst (triggerResourceLoading (fullBlock browser))) = [7%nat]
  /\ (let w := run [(0, TriggerLoading); (1, TriggerBlock); (2, TriggerLoading);
                    (5, Settle [Fulfilled someComponent]); (6, TriggerLoading)]
                 (fullBlock browser) in
      (List.length (resolverCalls w) <= 1)%nat
      /\ In (snd (triggerResourceLoading w)) (fulfilled (fst (triggerResourceLoading w)))).
Proof.
  split.
  - pose proof (triggerResourceLoading_idempotent browser 0 (Some 7%nat) (Some 1%nat)
                  (Some 2%nat) (Some 3%nat) None None false [])
      as (_ & _ & _ & H & _).
    destruct (H eq_refl) as (_ & _ & _ & _ & _ & Hc & _).
    exact (Hc eq_refl 7%nat eq_refl).
  - intros w.
    pose proof (triggerResourceLoading_idempotent browser 0 (Some 7%nat) (Some 1%nat)
                  (Some 2%nat) (Some 3%nat) None None false
                  [(0, TriggerLoading); (1, TriggerBlock); (2, TriggerLoading);
                   (5, Settle [Fulfilled someComponent]); (6, TriggerLoading)])
      as (_ & H1 & _ & _ & _ & H5).
    split; [exact H1|]. exact (proj1 (H5 (or_introl eq_refl))).
Defined.

End LifecycleFacts.
